(** * Practical path guiding: the SD-tree and the sample-reuse machinery

    A shallow embedding of [mitsuba/src/integrators/path/guided_path.cpp]:
    the directional quadtree ([QuadTreeNode], [DTree]), the per-leaf bundle
    [DTreeWrapper], the spatial binary tree ([STreeNode], [STree]) and the
    replay loops of [GuidedPathTracer].

    Conventions of the embedding.
    - [Float] values are exact rationals ([Q]): rounding, infinities and NaN
      are not represented.  Where the source tests [std::isfinite] the
      argument is an [XFloat], a rational or one of the three non-finite
      values.
    - A [std::vector] is a [list]; [v[i]] is the lookup [v !! i], and an
      index outside the vector (undefined behaviour in the source) makes the
      operation return [None].
    - Recursion through child indices and the [while (!stack.empty())]
      loops take a [fuel] bound; [None] also stands for "fuel exhausted".
      The theorems show that well-formed trees never exhaust it.
    - Atomic accumulators are plain fields and the compare-exchange loops
      are plain updates: the embedding is sequential.
    - The assertions on the point argument of [eval], [pdf], [depthAt] and
      [record] of [QuadTreeNode] are not represented; in [sample], [reset]
      and the lookups of [STreeNode] a failed assertion returns [None]. *)

From Stdlib Require Import ZArith QArith Qround Qabs Qpower Qfield Lqa Lia Bool List.
From stdpp Require Import base option list.

Set Default Proof Using "Type".
Local Open Scope Z_scope.

(** ** Floats *)

Abbreviation Float := Q (only parsing).

Definition EPSILON : Float := (1 # 100000)%Q.

(** [x < y] on floats, as a boolean. *)
Definition Qltb (x y : Q) : bool := negb (Qle_bool y x).

(** [std::max(a, b)] is [(a < b) ? b : a]; [std::min(a, b)] is
    [(b < a) ? b : a]. *)
Definition std_max (a b : Q) : Q := if Qltb a b then b else a.
Definition std_min (a b : Q) : Q := if Qltb b a then b else a.

(** The conversion of a [size_t] to [float], in the default rounding of
    IEEE 754: the nearest float, a tie going to the even significand.  A
    float has a significand of 24 bits, so that an integer of at most 24
    bits is converted exactly; of a longer one the [e] low bits are rounded
    away.  A [size_t] is below [2^64] and never overflows the range of a
    float. *)
Definition floatOfSize (n : Z) : Float :=
  let e := Z.log2 n - 23 in
  if e <=? 0 then inject_Z n
  else
    let q := Z.shiftr n e in
    let r := Z.land n (Z.ones e) in
    let half := Z.shiftl 1 (e - 1) in
    let q := if (half <? r) || ((r =? half) && Z.odd q) then q + 1 else q in
    inject_Z (Z.shiftl q e).

(** ** Four-element arrays ([std::array<T, 4>]), indexed by an [int]

    The source only uses the indices 0 to 3; any other index addresses the
    last element here. *)

Record Arr4 (A : Type) := mkArr4 { a0 : A; a1 : A; a2 : A; a3 : A }.
Arguments mkArr4 {A} _ _ _ _.
Arguments a0 {A} _.
Arguments a1 {A} _.
Arguments a2 {A} _.
Arguments a3 {A} _.

Definition get4 {A} (a : Arr4 A) (i : Z) : A :=
  if i =? 0 then a0 a else if i =? 1 then a1 a else if i =? 2 then a2 a else a3 a.

Definition set4 {A} (a : Arr4 A) (i : Z) (v : A) : Arr4 A :=
  if i =? 0 then mkArr4 v (a1 a) (a2 a) (a3 a)
  else if i =? 1 then mkArr4 (a0 a) v (a2 a) (a3 a)
  else if i =? 2 then mkArr4 (a0 a) (a1 a) v (a3 a)
  else mkArr4 (a0 a) (a1 a) (a2 a) v.

(** [for (int i = 0; i < 4; ++i) body], threading a state through a body
    that may fail. *)
Definition for4 {S : Type} (body : Z -> S -> option S) (s : S) : option S :=
  s1 ← body 0 s; s2 ← body 1 s1; s3 ← body 2 s2; body 3 s3.

(** ** QuadTreeNode *)

Record QuadTreeNode := mkNode {
  m_sum : Arr4 Float;
  m_children : Arr4 nat
}.

Definition Point2 : Type := Q * Q.

Module QuadTreeNode.

(** The default constructor: all sums 0, all children 0. *)
Definition empty : QuadTreeNode :=
  mkNode (mkArr4 0%Q 0%Q 0%Q 0%Q) (mkArr4 0%nat 0%nat 0%nat 0%nat).

Definition sum (n : QuadTreeNode) (index : Z) : Float := get4 (m_sum n) index.

Definition child (n : QuadTreeNode) (idx : Z) : nat := get4 (m_children n) idx.

Definition setSum (n : QuadTreeNode) (index : Z) (val : Float) : QuadTreeNode :=
  mkNode (set4 (m_sum n) index val) (m_children n).

Definition setChild (n : QuadTreeNode) (idx : Z) (val : nat) : QuadTreeNode :=
  mkNode (m_sum n) (set4 (m_children n) idx val).

(** [setSum(Float val)]: all four slots. *)
Definition setSumAll (n : QuadTreeNode) (val : Float) : QuadTreeNode :=
  setSum (setSum (setSum (setSum n 0 val) 1 val) 2 val) 3 val.

Definition isLeaf (n : QuadTreeNode) (index : Z) : bool := Nat.eqb (child n index) 0.

(** [sum(0) + sum(1) + sum(2) + sum(3)], the denominator used throughout. *)
Definition total (n : QuadTreeNode) : Float :=
  (sum n 0 + sum n 1 + sum n 2 + sum n 3)%Q.

(** [childIndex(p)] folds [p] in place; the folded point is returned with
    the 2-bit selector. *)
Definition childIndex (p : Point2) : Z * Point2 :=
  let fold1 (c : Q) (bit : Z) : Z * Q :=
    if Qltb c (1 # 2) then (0, (c * 2)%Q) else (bit, ((c - (1 # 2)) * 2)%Q) in
  let '(rx, x) := fold1 (fst p) (Z.shiftl 1 0) in
  let '(ry, y) := fold1 (snd p) (Z.shiftl 1 1) in
  (Z.lor rx ry, (x, y)).

(** [eval]: the sum density at [p]. *)
Fixpoint eval (fuel : nat) (nodes : list QuadTreeNode) (self : nat) (p : Point2)
  : option Float :=
  match fuel with
  | O => None
  | S fuel' =>
    nd ← nodes !! self;
    let '(index, p') := childIndex p in
    if isLeaf nd index then Some (4 * sum nd index)%Q
    else r ← eval fuel' nodes (child nd index) p'; Some (4 * r)%Q
  end.

(** [pdf(p, nodes, level, curr_level)]; [curr_level] is passed by
    reference, so its final value is returned next to the density. *)
Fixpoint pdf (fuel : nat) (nodes : list QuadTreeNode) (self : nat) (p : Point2)
    (level curr_level : Z) : option (Float * Z) :=
  match fuel with
  | O => None
  | S fuel' =>
    nd ← nodes !! self;
    let '(index, p') := childIndex p in
    if negb (Qltb 0 (sum nd index)) then Some (0%Q, curr_level)
    else
      let factor := (4 * sum nd index / total nd)%Q in
      if isLeaf nd index || (level =? curr_level) then Some (factor, curr_level)
      else
        '(r, cl) ← pdf fuel' nodes (child nd index) p' level (curr_level + 1);
        Some ((factor * r)%Q, cl)
  end.

Fixpoint depthAt (fuel : nat) (nodes : list QuadTreeNode) (self : nat) (p : Point2)
  : option Z :=
  match fuel with
  | O => None
  | S fuel' =>
    nd ← nodes !! self;
    let '(index, p') := childIndex p in
    if isLeaf nd index then Some 1
    else d ← depthAt fuel' nodes (child nd index) p'; Some (1 + d)
  end.

(** [record(p, irradiance, nodes)]: add to the leaf that contains [p]. *)
Fixpoint record (fuel : nat) (nodes : list QuadTreeNode) (self : nat) (p : Point2)
    (irradiance : Float) : option (list QuadTreeNode) :=
  match fuel with
  | O => None
  | S fuel' =>
    nd ← nodes !! self;
    let '(index, p') := childIndex p in
    if isLeaf nd index
    then Some (<[self := setSum nd index (sum nd index + irradiance)%Q]> nodes)
    else record fuel' nodes (child nd index) p' irradiance
  end.

Definition computeOverlappingArea (min1 max1 min2 max2 : Point2) : Float :=
  let len (lo1 hi1 lo2 hi2 : Q) := std_max (std_min hi1 hi2 - std_max lo1 lo2)%Q 0%Q in
  (len (fst min1) (fst max1) (fst min2) (fst max2)
   * len (snd min1) (snd max1) (snd min2) (snd max2))%Q.

(** [record(origin, size, nodeOrigin, nodeSize, value, nodes)]: the
    box-filtered splat. *)
Fixpoint recordBox (fuel : nat) (self : nat) (origin : Point2) (size : Float)
    (nodeOrigin : Point2) (nodeSize value : Float) (nodes : list QuadTreeNode)
  : option (list QuadTreeNode) :=
  match fuel with
  | O => None
  | S fuel' =>
    let childSize := (nodeSize / 2)%Q in
    for4 (fun i nodes =>
      let childOrigin : Point2 :=
        ((if Z.eqb (Z.land i 1) 0 then fst nodeOrigin else fst nodeOrigin + childSize)%Q,
         (if Z.eqb (Z.land i 2) 0 then snd nodeOrigin else snd nodeOrigin + childSize)%Q) in
      let w := computeOverlappingArea origin
                 ((fst origin + size)%Q, (snd origin + size)%Q) childOrigin
                 ((fst childOrigin + childSize)%Q, (snd childOrigin + childSize)%Q) in
      if Qltb 0 w then
        nd ← nodes !! self;
        if isLeaf nd i
        then Some (<[self := setSum nd i (sum nd i + value * w)%Q]> nodes)
        else recordBox fuel' (child nd i) origin size childOrigin childSize value nodes
      else Some nodes) nodes
  end.

(** [Float sum = 0; for (j = 0; j < 4; ++j) sum += c.sum(j);] *)
Definition sumOfSums (c : QuadTreeNode) : Float :=
  (0 + sum c 0 + sum c 1 + sum c 2 + sum c 3)%Q.

(** One iteration of the loop of [build]: skip a leaf slot, otherwise
    build the child and store the sum of its four sums. *)
Definition buildSlot (rec : nat -> list QuadTreeNode -> option (list QuadTreeNode))
    (self : nat) (i : Z) (nodes : list QuadTreeNode) : option (list QuadTreeNode) :=
  nd ← nodes !! self;
  if isLeaf nd i then Some nodes
  else
    nodes1 ← rec (child nd i) nodes;
    c ← nodes1 !! child nd i;
    nd1 ← nodes1 !! self;
    Some (<[self := setSum nd1 i (sumOfSums c)]> nodes1).

(** [build(nodes)] on the node at index [self]. *)
Fixpoint build (fuel : nat) (self : nat) (nodes : list QuadTreeNode)
  : option (list QuadTreeNode) :=
  match fuel with
  | O => None
  | S fuel' => for4 (buildSlot (build fuel') self) nodes
  end.

(** [setMinimumIrr(irr, nodes)]: raise every leaf sum below [irr] to
    [irr].  The compare-exchange loop stores [irr] when [irr > m_sum[i]]
    and nothing otherwise. *)
Fixpoint setMinimumIrr (fuel : nat) (self : nat) (irr : Float)
    (nodes : list QuadTreeNode) : option (list QuadTreeNode) :=
  match fuel with
  | O => None
  | S fuel' =>
    for4 (fun i nodes =>
      nd ← nodes !! self;
      if isLeaf nd i then
        if Qltb (sum nd i) irr then Some (<[self := setSum nd i irr]> nodes)
        else Some nodes
      else setMinimumIrr fuel' (child nd i) irr nodes) nodes
  end.

Section Sampling.

(** The sampler: [next1D] and [next2D] return a value and the advanced
    sampler. *)
Variable Sampler : Type.
Variable next1D : Sampler -> Float * Sampler.
Variable next2D : Sampler -> Point2 * Sampler.

(** [origin + 0.5f * q] *)
Definition offsetHalf (origin q : Point2) : Point2 :=
  ((fst origin + (1 # 2) * fst q)%Q, (snd origin + (1 # 2) * snd q)%Q).

(** [sample(sampler, nodes)]: pick a column, then a row, by the sums of
    the four slots, and recurse into the slot unless it is a leaf.  The
    source rescales [sample] once more after the row is picked; that
    value is never read.  [None] in the choice of the column is a
    failed [SAssert(partial > 0)]. *)
Fixpoint sample (fuel : nat) (nodes : list QuadTreeNode) (self : nat)
    (sampler : Sampler) : option (Point2 * Sampler) :=
  match fuel with
  | O => None
  | S fuel' =>
    nd ← nodes !! self;
    let index := 0 in
    let topLeft := sum nd 0 in
    let topRight := sum nd 1 in
    let partial := (topLeft + sum nd 2)%Q in
    let total := (partial + topRight + sum nd 3)%Q in
    if negb (Qltb 0 total) then Some (next2D sampler)
    else
      let boundary := (partial / total)%Q in
      let origin : Point2 := (0%Q, 0%Q) in
      let '(sample0, sampler) := next1D sampler in
      '(sample1, boundary, origin, index) ←
        (if Qltb sample0 boundary
         then
           if Qltb 0 partial
           then Some ((sample0 / boundary)%Q, (topLeft / partial)%Q, origin, index)
           else None
         else
           let partial := (total - partial)%Q in
           if Qltb 0 partial
           then Some (((sample0 - boundary) / (1 - boundary))%Q, (topRight / partial)%Q,
                      ((1 # 2)%Q, snd origin), Z.lor index (Z.shiftl 1 0))
           else None);
      let '(origin, index) :=
        if Qltb sample1 boundary then (origin, index)
        else ((fst origin, (1 # 2)%Q), Z.lor index (Z.shiftl 1 1)) in
      if isLeaf nd index then
        let '(u, sampler) := next2D sampler in Some (offsetHalf origin u, sampler)
      else
        '(r, sampler) ← sample fuel' nodes (child nd index) sampler;
        Some (offsetHalf origin r, sampler)
  end.

End Sampling.

End QuadTreeNode.

(** ** Floats that may be non-finite

    Arguments on which the source calls [std::isfinite]. *)

Inductive XFloat := Finite (q : Q) | PosInf | NegInf | NaN.

Definition isfinite (x : XFloat) : bool :=
  match x with Finite _ => true | _ => false end.

(** [x > 0]. *)
Definition xpositive (x : XFloat) : bool :=
  match x with Finite q => Qltb 0 q | PosInf => true | _ => false end.

(** The value of a finite float (used only under [isfinite]). *)
Definition xvalue (x : XFloat) : Q :=
  match x with Finite q => q | _ => 0%Q end.

Inductive EDirectionalFilter := ENearest | EBox.

(** Early exit from a loop body: [Return r] leaves the enclosing function. *)
Inductive Flow (S R : Type) := Next (s : S) | Return (r : R).
Arguments Next {S R} _.
Arguments Return {S R} _.

Definition for4flow {S R : Type} (body : Z -> S -> Flow S R) (s : S) : Flow S R :=
  match body 0 s with
  | Return r => Return r
  | Next s1 =>
    match body 1 s1 with
    | Return r => Return r
    | Next s2 =>
      match body 2 s2 with
      | Return r => Return r
      | Next s3 => body 3 s3
      end
    end
  end.

(** ** DTree *)

Record DTree := mkDTree {
  m_nodes : list QuadTreeNode;
  atomic_sum : Float;
  atomic_statisticalWeight : Float;
  m_maxDepth : Z
}.

Module DTree.
Import QuadTreeNode.

(** The constructor: one root with zero sums. *)
Definition empty : DTree :=
  mkDTree [setSumAll QuadTreeNode.empty 0%Q] 0%Q 0%Q 0.

Definition numNodes (t : DTree) : nat := length (m_nodes t).
Definition statisticalWeight (t : DTree) : Float := atomic_statisticalWeight t.
Definition setStatisticalWeight (t : DTree) (w : Float) : DTree :=
  mkDTree (m_nodes t) (atomic_sum t) w (m_maxDepth t).
Definition getTotalEnergy (t : DTree) : Float := atomic_sum t.

(** A stack entry [std::pair<size_t, int>]: a node index and either -1
    (all four slots of the node are visited) or the slot of a leaf the
    walk stays on. *)
Definition NodeRef : Type := nat * Z.

(** [second < 0 ? sum(0) + sum(1) + sum(2) + sum(3) : sum(second) * 4.f] *)
Definition denomOf (node : QuadTreeNode) (r : NodeRef) : Float :=
  if r.2 <? 0 then total node else (sum node r.2 * 4)%Q.

(** [second < 0 ? i : second] *)
Definition slotOf (r : NodeRef) (i : Z) : Z := if r.2 <? 0 then i else r.2.

(** [denom < EPSILON ? 0.f : factor * 4.f * node.sum(childIdx) / denom] *)
Definition slotPdf (denom factor : Float) (node : QuadTreeNode) (childIdx : Z) : Float :=
  if Qltb denom EPSILON then 0%Q else (factor * 4 * sum node childIdx / denom)%Q.

(** The next stack entry for one side of a dual walk. *)
Definition descend (node : QuadTreeNode) (r : NodeRef) (childIdx : Z) : NodeRef :=
  if isLeaf node childIdx then (r.1, childIdx) else (child node childIdx, -1).

(** The stack entry of [getMajorizingFactor]; the one of
    [validateMajorizingFactor] has the same fields but the two levels,
    which are left 0 there. *)
Record NodePair := mkNodePair {
  nodeIndex : NodeRef;
  otherNodeIndex : NodeRef;
  nodeFactor : Float;
  otherNodeFactor : Float;
  nodeLevel : Z;
  otherNodeLevel : Z
}.

(** *** validateMajorizingFactor *)

Definition validateSlot (factor : Float) (nodePair : NodePair)
    (node otherNode : QuadTreeNode) (denom otherDenom : Float)
    (i : Z) (pairStack : list NodePair) : Flow (list NodePair) bool :=
  let childIdx := slotOf (nodeIndex nodePair) i in
  let otherChildIdx := slotOf (otherNodeIndex nodePair) i in
  let pdf := slotPdf denom (nodeFactor nodePair) node childIdx in
  let otherPdf := slotPdf otherDenom (otherNodeFactor nodePair) otherNode otherChildIdx in
  if isLeaf node childIdx && isLeaf otherNode otherChildIdx then
    let mpdf := (factor * pdf)%Q in
    if Qltb (mpdf - otherPdf) (- EPSILON) then Return false else Next pairStack
  else
    let idx := descend node (nodeIndex nodePair) childIdx in
    let otheridx := descend otherNode (otherNodeIndex nodePair) otherChildIdx in
    Next (mkNodePair idx otheridx pdf otherPdf 0 0 :: pairStack).

Fixpoint validateLoop (fuel : nat) (this other : list QuadTreeNode) (factor : Float)
    (pairStack : list NodePair) : option bool :=
  match fuel with
  | O => None
  | S fuel' =>
    match pairStack with
    | [] => Some true
    | nodePair :: rest =>
      node ← this !! (nodeIndex nodePair).1;
      otherNode ← other !! (otherNodeIndex nodePair).1;
      let denom := denomOf node (nodeIndex nodePair) in
      let otherDenom := denomOf otherNode (otherNodeIndex nodePair) in
      match for4flow (validateSlot factor nodePair node otherNode denom otherDenom) rest with
      | Return b => Some b
      | Next st => validateLoop fuel' this other factor st
      end
    end
  end.

Definition validateMajorizingFactor (fuel : nat) (this other : DTree) (factor : Float)
  : option bool :=
  validateLoop fuel (m_nodes this) (m_nodes other) factor
    [mkNodePair (0%nat, -1) (0%nat, -1) 1%Q 1%Q 0 0].

(** *** getMajorizingFactor *)

(** The state of the walk: [pdfPair], [largestScalingFactor], the stack. *)
Definition MajState : Type := (Float * Float) * Float * list NodePair.

Definition majorizingSlot (nodePair : NodePair) (node otherNode : QuadTreeNode)
    (denom otherDenom : Float) (i : Z) (st : MajState) : option MajState :=
  let '(pdfPair, largestScalingFactor, pairStack) := st in
  let childIdx := slotOf (nodeIndex nodePair) i in
  let otherChildIdx := slotOf (otherNodeIndex nodePair) i in
  let pdf := slotPdf denom (nodeFactor nodePair) node childIdx in
  let otherPdf := slotPdf otherDenom (otherNodeFactor nodePair) otherNode otherChildIdx in
  if isLeaf node childIdx || isLeaf otherNode otherChildIdx then
    let pdf := std_max pdf EPSILON in
    let otherPdf := std_max otherPdf EPSILON in
    let scalingFactor := (otherPdf / pdf)%Q in
    if Qltb largestScalingFactor scalingFactor
    then Some ((pdf, otherPdf), scalingFactor, pairStack)
    else Some st
  else
    let idx := descend node (nodeIndex nodePair) childIdx in
    let otheridx := descend otherNode (otherNodeIndex nodePair) otherChildIdx in
    let nl := nodeLevel nodePair + 1 in
    let onl := otherNodeLevel nodePair + 1 in
    Some (pdfPair, largestScalingFactor,
          mkNodePair idx otheridx pdf otherPdf nl onl :: pairStack).

Fixpoint majorizingLoop (fuel : nat) (this other : list QuadTreeNode) (st : MajState)
  : option (Float * Float) :=
  match fuel with
  | O => None
  | S fuel' =>
    match st with
    | (pdfPair, _, []) => Some pdfPair
    | (pdfPair, largest, nodePair :: rest) =>
      node ← this !! (nodeIndex nodePair).1;
      otherNode ← other !! (otherNodeIndex nodePair).1;
      let denom := denomOf node (nodeIndex nodePair) in
      let otherDenom := denomOf otherNode (otherNodeIndex nodePair) in
      st' ← for4 (majorizingSlot nodePair node otherNode denom otherDenom)
                 (pdfPair, largest, rest);
      majorizingLoop fuel' this other st'
    end
  end.

(** [this->getMajorizingFactor(other)]: the pair [(pdf_this, pdf_other)]. *)
Definition getMajorizingFactor (fuel : nat) (this other : DTree) : option (Float * Float) :=
  majorizingLoop fuel (m_nodes this) (m_nodes other)
    ((1%Q, 1%Q), 0%Q, [mkNodePair (0%nat, -1) (0%nat, -1) 1%Q 1%Q 0 0]).

(** *** build *)

(** [build()]: rebuild the quadtree from the root, then store the sum of
    the root's four sums in the atomic [sum]. *)
Definition build (fuel : nat) (t : DTree) : option DTree :=
  nodes ← QuadTreeNode.build fuel 0 (m_nodes t);
  root ← nodes !! 0%nat;
  Some (mkDTree nodes (sumOfSums root) (atomic_statisticalWeight t) (m_maxDepth t)).

(** *** recordIrradiance *)

Definition depthAt (fuel : nat) (t : DTree) (p : Point2) : option Z :=
  QuadTreeNode.depthAt fuel (m_nodes t) 0 p.

Definition recordIrradiance (fuel : nat) (t : DTree) (p : Point2)
    (irradiance statisticalWeight : XFloat) (directionalFilter : EDirectionalFilter)
  : option DTree :=
  if isfinite statisticalWeight && xpositive statisticalWeight then
    let w := xvalue statisticalWeight in
    let t1 := mkDTree (m_nodes t) (atomic_sum t)
                      (atomic_statisticalWeight t + w)%Q (m_maxDepth t) in
    if isfinite irradiance && xpositive irradiance then
      let irr := xvalue irradiance in
      match directionalFilter with
      | ENearest =>
        nodes ← QuadTreeNode.record fuel (m_nodes t1) 0 p (irr * w)%Q;
        Some (mkDTree nodes (atomic_sum t1) (atomic_statisticalWeight t1) (m_maxDepth t1))
      | EBox =>
        depth ← depthAt fuel t1 p;
        let size := ((1 # 2) ^ depth)%Q in
        let origin : Point2 := ((fst p - size / 2)%Q, (snd p - size / 2)%Q) in
        nodes ← QuadTreeNode.recordBox fuel 0 origin size (0%Q, 0%Q) 1%Q
                   (irr * w / (size * size))%Q (m_nodes t1);
        Some (mkDTree nodes (atomic_sum t1) (atomic_statisticalWeight t1) (m_maxDepth t1))
      end
    else Some t1
  else Some t.

(** *** The augmented distribution *)

(** [computeAugmentedPdf(oldPdf, newPdf, A)] *)
Definition computeAugmentedPdf (oldPdf newPdf A : Float) : Float :=
  std_max 0%Q ((A * newPdf - oldPdf) / (A - 1))%Q.

(** [computeIntegral()]: the stack holds [(nodeFactor, nodeIdx)]. *)
Definition integralSlot (curr_node : QuadTreeNode) (factor : Float) (i : Z)
    (st : Float * list (Float * nat)) : option (Float * list (Float * nat)) :=
  let '(integral, nodeStack) := st in
  if isLeaf curr_node i then Some ((integral + sum curr_node i * factor)%Q, nodeStack)
  else Some (integral, (factor, child curr_node i) :: nodeStack).

Fixpoint integralLoop (fuel : nat) (nodes : list QuadTreeNode)
    (st : Float * list (Float * nat)) : option Float :=
  match fuel with
  | O => None
  | S fuel' =>
    match st with
    | (integral, []) => Some integral
    | (integral, curr_stacknode :: rest) =>
      curr_node ← nodes !! curr_stacknode.2;
      let factor := (curr_stacknode.1 / 4)%Q in
      st' ← for4 (integralSlot curr_node factor) (integral, rest);
      integralLoop fuel' nodes st'
    end
  end.

Definition computeIntegral (fuel : nat) (t : DTree) : option Float :=
  integralLoop fuel (m_nodes t) (0%Q, [(1%Q, 0%nat)]).

(** [static_cast<uint16_t>(n)] *)
Definition uint16 (n : nat) : nat := Z.to_nat (Z.of_nat n mod 65536).

Record AugPair := mkAugPair {
  newNodeIndex : NodeRef;
  oldNodeIndex : NodeRef;
  newNodeFactor : Float;
  oldNodeFactor : Float;
  nodeIdx : nat
}.

(** The state of the construction: [m_nodes] of the augmented tree and
    the stack. *)
Definition AugState : Type := list QuadTreeNode * list AugPair.

Definition augmentedSlot (A : Float) (nodePair : AugPair) (oldNode newNode : QuadTreeNode)
    (oldDenom newDenom : Float) (i : Z) (st : AugState) : option AugState :=
  let '(nodes, pairStack) := st in
  let oldChildIdx := slotOf (oldNodeIndex nodePair) i in
  let newChildIdx := slotOf (newNodeIndex nodePair) i in
  let oldPdf := slotPdf oldDenom (oldNodeFactor nodePair) oldNode oldChildIdx in
  let newPdf := slotPdf newDenom (newNodeFactor nodePair) newNode newChildIdx in
  let pdf := computeAugmentedPdf oldPdf newPdf A in
  '(nodes, pairStack) ←
    (if negb (isLeaf newNode newChildIdx || isLeaf oldNode oldChildIdx) then
       cur ← nodes !! nodeIdx nodePair;
       let nodes1 := <[nodeIdx nodePair := setChild cur i (uint16 (length nodes))]> nodes in
       let nodes2 := nodes1 ++ [setSumAll QuadTreeNode.empty (pdf / 4)%Q] in
       let newIdx := descend newNode (newNodeIndex nodePair) newChildIdx in
       let oldIdx := descend oldNode (oldNodeIndex nodePair) oldChildIdx in
       Some (nodes2,
             mkAugPair newIdx oldIdx newPdf oldPdf (length nodes2 - 1)%nat :: pairStack)
     else Some (nodes, pairStack));
  cur ← nodes !! nodeIdx nodePair;
  Some (<[nodeIdx nodePair := setSum cur i pdf]> nodes, pairStack).

Fixpoint augmentedLoop (fuel : nat) (A : Float) (oldDist newDist : list QuadTreeNode)
    (st : AugState) : option (list QuadTreeNode) :=
  match fuel with
  | O => None
  | S fuel' =>
    match st with
    | (nodes, []) => Some nodes
    | (nodes, nodePair :: rest) =>
      oldNode ← oldDist !! (oldNodeIndex nodePair).1;
      newNode ← newDist !! (newNodeIndex nodePair).1;
      let oldDenom := denomOf oldNode (oldNodeIndex nodePair) in
      let newDenom := denomOf newNode (newNodeIndex nodePair) in
      st' ← for4 (augmentedSlot A nodePair oldNode newNode oldDenom newDenom)
                 (nodes, rest);
      augmentedLoop fuel' A oldDist newDist st'
    end
  end.

(** The loop of [buildAugmented], entered with the single root
    [m_nodes[0].setSum(computeAugmentedPdf(1.f, 1.f, A))] and the pair of
    the two roots on the stack. *)
Definition augmentedNodes (fuel : nat) (A : Float) (oldDist newDist : list QuadTreeNode)
  : option (list QuadTreeNode) :=
  augmentedLoop fuel A oldDist newDist
    ([setSumAll QuadTreeNode.empty (computeAugmentedPdf 1%Q 1%Q A)],
     [mkAugPair (0%nat, -1) (0%nat, -1) 1%Q 1%Q 0%nat]).

(** The factor [A] formed from the majorizing pair. *)
Definition majorizingA (majorizing_pair : Float * Float) : Float :=
  if Qltb majorizing_pair.1 EPSILON && Qltb majorizing_pair.2 EPSILON
  then 1%Q else (majorizing_pair.2 / majorizing_pair.1)%Q.

(** [this->buildAugmented(oldDist, newDist)]: the returned [B] and the
    new state of [this]. *)
Definition buildAugmented (fuel : nat) (this oldDist newDist : DTree)
  : option (Float * DTree) :=
  let this1 := mkDTree (m_nodes this) 0%Q 0%Q 0 in
  majorizing_pair ← getMajorizingFactor fuel newDist oldDist;
  let A := majorizingA majorizing_pair in
  if Qltb (Qabs (A - 1)) EPSILON then Some (0%Q, this1)
  else
    nodes ← augmentedNodes fuel A (m_nodes oldDist) (m_nodes newDist);
    this2 ← build fuel (mkDTree nodes 0%Q 0%Q 0);
    Some ((A - 1)%Q,
          mkDTree (m_nodes this2) (atomic_sum this2)
                  (atomic_statisticalWeight newDist) (m_maxDepth this2)).

(** *** mean, pdf, depth, setMinimumIrr *)

(** The literal behind [M_PI]. *)
Definition M_PI : Float := (314159265358979323846 # 100000000000000000000)%Q.

Definition mean (t : DTree) : Float :=
  if Qeq_bool (atomic_statisticalWeight t) 0 then 0%Q
  else
    let factor := (1 / (M_PI * 4 * atomic_statisticalWeight t))%Q in
    (factor * atomic_sum t)%Q.

(** [pdf(p, level, curr_level)] *)
Definition pdf (fuel : nat) (t : DTree) (p : Point2) (level curr_level : Z)
  : option (Float * Z) :=
  if negb (Qltb 0 (mean t)) then Some ((1 / (4 * M_PI))%Q, curr_level)
  else
    '(r, cl) ← QuadTreeNode.pdf fuel (m_nodes t) 0 p level curr_level;
    Some ((r / (4 * M_PI))%Q, cl).

Definition depth (t : DTree) : Z := m_maxDepth t.

Definition setMinimumIrr (fuel : nat) (t : DTree) (irr : Float) : option DTree :=
  nodes ← QuadTreeNode.setMinimumIrr fuel 0 irr (m_nodes t);
  Some (mkDTree nodes (atomic_sum t) (atomic_statisticalWeight t) (m_maxDepth t)).

(** *** reset *)

(** [std::numeric_limits<float>::min()], the smallest normal float. *)
Definition FLT_MIN : Float := (1 / 2 ^ 126)%Q.

(** [std::numeric_limits<uint16_t>::max()] *)
Definition UINT16_MAX : Z := 65535.

(** The stack entry of [reset]; [otherIsThis] stands for
    [otherDTree == this] (the other choice is [&previousDTree]). *)
Record StackNode := mkStackNode {
  sn_nodeIndex : nat;
  sn_otherNodeIndex : nat;
  otherIsThis : bool;
  sn_depth : Z
}.

(** The state of the loop of [reset]: [m_nodes], the stack, and the
    capacity of [m_nodes]. *)
Definition ResetState : Type := list QuadTreeNode * list StackNode * nat.

(** [for (int i = 0; i < 4; ++i)] with a body that may fail or [break]. *)
Definition for4break {S : Type} (body : Z -> S -> option (Flow S S)) (s : S) : option S :=
  let step (i : Z) (r : option (Flow S S)) : option (Flow S S) :=
    f ← r;
    match f with
    | Next s => body i s
    | Return s => Some (Return s)
    end in
  f ← step 3 (step 2 (step 1 (body 0 s)));
  match f with Next s => Some s | Return s => Some s end.

Section Reset.

(** [Epsilon], the tolerance of the framework, and the capacity that the
    implementation of [std::vector] gives a full vector of [n] elements
    that has to grow. *)
Variable Epsilon : Float.
Variable grow : nat -> nat.

(** One iteration of the inner loop of [reset].  [otherNode] is the
    reference taken when the entry was popped.  When it refers to a node
    of [previousDTree], nothing the loop does changes it.  When it
    refers to [m_nodes] it is the node being filled: the loop writes
    to it the sum it has just read and the child link of a slot it does
    not read again, and [emplace_back] leaves it dangling if the vector
    is full and has to move; the read that follows then returns [None].
    [None] is also a failed [SAssert].  [Return] is the [break] after
    the stack was emptied. *)
Definition resetSlot (total : Float) (newMaxDepth : Z) (subdivisionThreshold : Float)
    (sNode : StackNode) (otherNode : QuadTreeNode) (i : Z) (st : ResetState)
  : option (Flow ResetState ResetState) :=
  let '(nodes, nodeIndices, capacity) := st in
  cur ← nodes !! sn_nodeIndex sNode;
  let nodes := <[sn_nodeIndex sNode := setSum cur i (sum otherNode i)]> nodes in
  let fraction :=
    if Qltb FLT_MIN total then (sum otherNode i / total)%Q
    else ((1 # 4) ^ sn_depth sNode)%Q in
  if negb (Qle_bool fraction (1 + Epsilon)) then None
  else if ((sn_depth sNode <? newMaxDepth) && Qltb subdivisionThreshold fraction)
          || negb (isLeaf otherNode i) then
    nodeIndices ←
      (if negb (isLeaf otherNode i)
       then
         if otherIsThis sNode then None
         else Some (mkStackNode (length nodes) (child otherNode i) false
                                (sn_depth sNode + 1) :: nodeIndices)
       else Some (mkStackNode (length nodes) (length nodes) true (sn_depth sNode + 1)
                  :: nodeIndices));
    cur ← nodes !! sn_nodeIndex sNode;
    let nodes := <[sn_nodeIndex sNode := setChild cur i (uint16 (length nodes))]> nodes in
    let moved := negb (length nodes <? capacity)%nat in
    let capacity := if moved then grow (length nodes) else capacity in
    if moved && otherIsThis sNode then None
    else
      let nodes := nodes ++ [setSumAll QuadTreeNode.empty (sum otherNode i / 4)%Q] in
      if Z.of_nat (length nodes) >? UINT16_MAX
      then Some (Return (nodes, [], capacity))
      else Some (Next (nodes, nodeIndices, capacity))
  else Some (Next (nodes, nodeIndices, capacity)).

(** The [while (!nodeIndices.empty())] loop of [reset]: the nodes, and
    [m_maxDepth]. *)
Fixpoint resetLoop (fuel : nat) (previous : list QuadTreeNode) (total : Float)
    (newMaxDepth : Z) (subdivisionThreshold : Float) (maxDepth : Z) (st : ResetState)
  : option (list QuadTreeNode * Z) :=
  match fuel with
  | O => None
  | S fuel' =>
    match st with
    | (nodes, [], _) => Some (nodes, maxDepth)
    | (nodes, sNode :: rest, capacity) =>
      let maxDepth := Z.max maxDepth (sn_depth sNode) in
      otherNode ← (if otherIsThis sNode then nodes else previous) !! sn_otherNodeIndex sNode;
      st' ← for4break (resetSlot total newMaxDepth subdivisionThreshold sNode otherNode)
                      (nodes, rest, capacity);
      resetLoop fuel' previous total newMaxDepth subdivisionThreshold maxDepth st'
    end
  end.

(** [this->reset(previousDTree, newMaxDepth, subdivisionThreshold, augment)]
    on a tree [this] other than [previousDTree] whose [m_nodes] has the
    capacity [capacity], which [clear()] keeps: the new state of
    [this], which does not depend on the old nodes.  The closing loop
    sets every sum to 0. *)
Definition reset (fuel : nat) (capacity : nat) (previousDTree : DTree) (newMaxDepth : Z)
    (subdivisionThreshold : Float) (augment : bool) : option DTree :=
  let capacity := if (0 <? capacity)%nat then capacity else grow 0 in
  '(nodes, maxDepth) ←
    resetLoop fuel (m_nodes previousDTree) (atomic_sum previousDTree)
              newMaxDepth subdivisionThreshold 0
              ([QuadTreeNode.empty], [mkStackNode 0 0 false 1], capacity);
  Some (mkDTree ((fun node => setSumAll node 0%Q) <$> nodes) 0%Q 0%Q maxDepth).

End Reset.

(** *** buildUnmajorizedAugmented *)

(** The two-argument overload [computeAugmentedPdf(oldPdf, newPdf)]. *)
Definition computeAugmentedPdf2 (oldPdf newPdf : Float) : Float :=
  std_max (newPdf - oldPdf)%Q 0%Q.

(** The stack entry of [buildUnmajorizedAugmented]. *)
Record UnmajPair := mkUnmajPair {
  um_newNodeIndex : nat;
  um_oldNodeIndex : nat;
  um_newNodeFactor : Float;
  um_oldNodeFactor : Float;
  um_nodeIdx : nat
}.

Definition UnmajState : Type := list QuadTreeNode * list UnmajPair.

Definition unmajorizedSlot (nodePair : UnmajPair) (oldNode newNode : QuadTreeNode)
    (oldDenom newDenom : Float) (i : Z) (st : UnmajState) : option UnmajState :=
  let '(nodes, pairStack) := st in
  let oldPdf := slotPdf oldDenom (um_oldNodeFactor nodePair) oldNode i in
  let newPdf := slotPdf newDenom (um_newNodeFactor nodePair) newNode i in
  cur ← nodes !! um_nodeIdx nodePair;
  if isLeaf newNode i || isLeaf oldNode i then
    let pdf := computeAugmentedPdf2 oldPdf newPdf in
    Some (<[um_nodeIdx nodePair := setSum cur i pdf]> nodes, pairStack)
  else
    let nodes1 := <[um_nodeIdx nodePair := setChild cur i (uint16 (length nodes))]> nodes in
    let nodes2 := nodes1 ++ [QuadTreeNode.empty] in
    let newIdx := child newNode i in
    let oldIdx := child oldNode i in
    Some (nodes2, mkUnmajPair newIdx oldIdx newPdf oldPdf (length nodes2 - 1)%nat :: pairStack).

Fixpoint unmajorizedLoop (fuel : nat) (oldDist newDist : list QuadTreeNode)
    (st : UnmajState) : option (list QuadTreeNode) :=
  match fuel with
  | O => None
  | S fuel' =>
    match st with
    | (nodes, []) => Some nodes
    | (nodes, nodePair :: rest) =>
      oldNode ← oldDist !! um_oldNodeIndex nodePair;
      newNode ← newDist !! um_newNodeIndex nodePair;
      let oldDenom := total oldNode in
      let newDenom := total newNode in
      st' ← for4 (unmajorizedSlot nodePair oldNode newNode oldDenom newDenom) (nodes, rest);
      unmajorizedLoop fuel' oldDist newDist st'
    end
  end.

(** [this->buildUnmajorizedAugmented(oldDist, newDist)]: the returned
    integral and the new state of [this].  [m_maxDepth] is not reset. *)
Definition buildUnmajorizedAugmented (fuel : nat) (this oldDist newDist : DTree)
  : option (Float * DTree) :=
  nodes ← unmajorizedLoop fuel (m_nodes oldDist) (m_nodes newDist)
            ([QuadTreeNode.empty], [mkUnmajPair 0 0 1%Q 1%Q 0]);
  this1 ← build fuel (mkDTree nodes 0%Q 0%Q (m_maxDepth this));
  let this2 := mkDTree (m_nodes this1) (atomic_sum this1)
                       (atomic_statisticalWeight newDist) (m_maxDepth this1) in
  integral ← computeIntegral fuel this2;
  Some (integral, this2).

End DTree.

(** ** DTreeWrapper *)

(** The state and the hyper-parameters of the Adam optimizer (data only). *)
Record AdamOptimizer := mkAdam {
  adam_iter : Z;
  firstMoment : Float;
  secondMoment : Float;
  variable : Float;
  batchAccumulation : Float;
  batchGradient : Float;
  learningRate : Float;
  batchSize : Z;
  adam_epsilon : Float;
  beta1 : Float;
  beta2 : Float
}.

Module AdamOptimizer.
Section Adam.

(** [std::sqrt] on floats. *)
Variable sqrt : Float -> Float.

(** [step(gradient)] *)
Definition step (a : AdamOptimizer) (gradient : Float) : AdamOptimizer :=
  let iter := adam_iter a + 1 in
  let actualLearningRate :=
    (learningRate a * sqrt (1 - beta2 a ^ iter) / (1 - beta1 a ^ iter))%Q in
  let firstMoment1 := (beta1 a * firstMoment a + (1 - beta1 a) * gradient)%Q in
  let secondMoment1 :=
    (beta2 a * secondMoment a + (1 - beta2 a) * gradient * gradient)%Q in
  let variable1 :=
    (variable a - actualLearningRate * firstMoment1
                  / (sqrt secondMoment1 + adam_epsilon a))%Q in
  let variable2 := std_min (std_max variable1 (-20)%Q) 20%Q in
  mkAdam iter firstMoment1 secondMoment1 variable2
         (batchAccumulation a) (batchGradient a)
         (learningRate a) (batchSize a) (adam_epsilon a) (beta1 a) (beta2 a).

Definition setBatch (a : AdamOptimizer) (accumulation gradient : Float) : AdamOptimizer :=
  mkAdam (adam_iter a) (firstMoment a) (secondMoment a) (variable a)
         accumulation gradient
         (learningRate a) (batchSize a) (adam_epsilon a) (beta1 a) (beta2 a).

(** [append(gradient, statisticalWeight)] *)
Definition append (a : AdamOptimizer) (gradient statisticalWeight : Float)
  : AdamOptimizer :=
  let a1 := setBatch a (batchAccumulation a + statisticalWeight)%Q
                       (batchGradient a + gradient * statisticalWeight)%Q in
  if Qltb (inject_Z (batchSize a1)) (batchAccumulation a1) then
    let a2 := step a1 (batchGradient a1 / batchAccumulation a1)%Q in
    setBatch a2 0%Q 0%Q
  else a1.

End Adam.
End AdamOptimizer.

Record DTreeWrapper := mkWrapper {
  building : DTree;
  sampling : DTree;
  previous : DTree;
  augmented : DTree;
  current_samples : Z;
  req_augmented_samples : Z;
  weighted_previous_samples : Float;
  B : Float;
  m_rejPdfPair : Float * Float;
  bsdfSamplingFractionOptimizer : AdamOptimizer;
  min_nzradiance : Float
}.

Module DTreeWrapper.

(** [std::numeric_limits<float>::max()] *)
Definition FLT_MAX : Float := inject_Z 340282346638528859811704183484516925440.

(** [AdamOptimizer{0.01f}] with the default batch size, epsilon and betas. *)
Definition defaultOptimizer : AdamOptimizer :=
  mkAdam 0 0%Q 0%Q 0%Q 0%Q 0%Q (1 # 100)%Q 1 (1 # 100000000)%Q (9 # 10)%Q (999 # 1000)%Q.

(** The default constructor. *)
Definition empty : DTreeWrapper :=
  mkWrapper DTree.empty DTree.empty DTree.empty DTree.empty
            0 0 0%Q 0%Q (1%Q, 1%Q) defaultOptimizer FLT_MAX.

Definition statisticalWeightBuilding (w : DTreeWrapper) : Float :=
  DTree.statisticalWeight (building w).

Definition setStatisticalWeightBuilding (w : DTreeWrapper) (statisticalWeight : Float)
  : DTreeWrapper :=
  mkWrapper (DTree.setStatisticalWeight (building w) statisticalWeight)
            (sampling w) (previous w) (augmented w)
            (current_samples w) (req_augmented_samples w) (weighted_previous_samples w)
            (B w) (m_rejPdfPair w) (bsdfSamplingFractionOptimizer w) (min_nzradiance w).

Definition set_req_augmented_samples (w : DTreeWrapper) (n : Z) : DTreeWrapper :=
  mkWrapper (building w) (sampling w) (previous w) (augmented w)
            (current_samples w) n (weighted_previous_samples w)
            (B w) (m_rejPdfPair w) (bsdfSamplingFractionOptimizer w) (min_nzradiance w).

(** Truncation towards zero: the value of the conversion of a float to
    an integer type that can hold it. *)
Definition truncate (q : Q) : Z := Z.quot (Qnum q) (Zpos (Qden q)).

(** [int(req)], a 32-bit [int]: the source leaves the conversion
    undefined when the truncated value is not an [int], and it is [None]
    then.  The truncation of a float is a float, so that [req - int(req)]
    converts it back without rounding. *)
Definition toInt (q : Q) : option Z :=
  let t := truncate q in
  if (- 2 ^ 31 <=? t) && (t <? 2 ^ 31) then Some t else None.

(** The conversion of the assignment to the [uint64_t] counter, [None]
    when the truncated value is not a [uint64_t]. *)
Definition toUint64 (q : Q) : option Z :=
  let t := truncate q in
  if (0 <=? t) && (t <? 2 ^ 64) then Some t else None.

(** [computeRequiredSamples(sampler)]; [next1D] is the value that
    [sampler->next1D()] returns when it is called.  The increment of the
    counter wraps at [2^64]. *)
Definition computeRequiredSamples (w : DTreeWrapper) (next1D : Float)
  : option DTreeWrapper :=
  if Qltb (B w) EPSILON then Some (set_req_augmented_samples w 0)
  else
    let req := (B w * weighted_previous_samples w)%Q in
    i ← toInt req;
    let frac := (req - inject_Z i)%Q in
    n ← toUint64 req;
    let w1 := set_req_augmented_samples w n in
    if Qltb next1D frac
    then Some (set_req_augmented_samples w1 ((req_augmented_samples w1 + 1) mod 2 ^ 64))
    else Some w1.

Definition addWeightedSampleCount (w : DTreeWrapper) (wsc : Float) : DTreeWrapper :=
  mkWrapper (building w) (sampling w) (previous w) (augmented w)
            (current_samples w) (req_augmented_samples w)
            (weighted_previous_samples w + wsc)%Q
            (B w) (m_rejPdfPair w) (bsdfSamplingFractionOptimizer w) (min_nzradiance w).

(** [getAugmentedMultiplier()] *)
Definition getAugmentedMultiplier (w : DTreeWrapper) : Float :=
  if current_samples w <? req_augmented_samples w
  then (inject_Z (current_samples w) / inject_Z (req_augmented_samples w))%Q
  else 1%Q.

(** [incSampleCount()] *)
Definition incSampleCount (w : DTreeWrapper) : DTreeWrapper :=
  mkWrapper (building w) (sampling w) (previous w) (augmented w)
            (current_samples w + 1) (req_augmented_samples w)
            (weighted_previous_samples w)
            (B w) (m_rejPdfPair w) (bsdfSamplingFractionOptimizer w) (min_nzradiance w).

(** [getMajorizingFactor()] of the wrapper: the stored pair. *)
Definition getMajorizingFactor (w : DTreeWrapper) : Float * Float := m_rejPdfPair w.

(** [build(augment, augmentReweight, isBuilt)] *)
Definition build (fuel : nat) (w : DTreeWrapper) (augment augmentReweight isBuilt : bool)
  : option DTreeWrapper :=
  let previous1 := sampling w in
  let min_nzradiance1 :=
    if Qltb 100000 (min_nzradiance w) then (EPSILON * 2)%Q else min_nzradiance w in
  building1 ← DTree.setMinimumIrr fuel (building w)
                (std_max (EPSILON * 2)%Q (min_nzradiance1 / 5)%Q);
  building2 ← DTree.build fuel building1;
  '(B1, augmented1) ←
    (if (augment || augmentReweight) && isBuilt then
       if augment then DTree.buildAugmented fuel (augmented w) (sampling w) building2
       else if augmentReweight
            then DTree.buildUnmajorizedAugmented fuel (augmented w) (sampling w) building2
            else Some (B w, augmented w)
     else Some (B w, augmented w));
  let sampling1 := building2 in
  rejPdfPair ← DTree.getMajorizingFactor fuel previous1 sampling1;
  Some (mkWrapper building2 sampling1 previous1 augmented1
                  0 0 0%Q B1 rejPdfPair (bsdfSamplingFractionOptimizer w) FLT_MAX).

(** [reset(maxDepth, subdivisionThreshold, augment)] *)
Definition reset (Epsilon : Float) (grow : nat -> nat) (fuel : nat) (capacity : nat)
    (w : DTreeWrapper) (maxDepth : Z)
    (subdivisionThreshold : Float) (augment : bool) : option DTreeWrapper :=
  building1 ← DTree.reset Epsilon grow fuel capacity (sampling w) maxDepth
                subdivisionThreshold augment;
  Some (mkWrapper building1 (sampling w) (previous w) (augmented w)
                  (current_samples w) (req_augmented_samples w)
                  (weighted_previous_samples w)
                  (B w) (m_rejPdfPair w) (bsdfSamplingFractionOptimizer w)
                  (min_nzradiance w)).

Definition depth (w : DTreeWrapper) : Z := DTree.depth (sampling w).
Definition numNodes (w : DTreeWrapper) : nat := DTree.numNodes (sampling w).
Definition meanRadiance (w : DTreeWrapper) : Float := DTree.mean (sampling w).
Definition statisticalWeight (w : DTreeWrapper) : Float :=
  DTree.statisticalWeight (sampling w).

End DTreeWrapper.

(** ** STreeNode and STree *)

(** [Point] and [Vector]: three floats, indexed by an axis.  The source
    only uses the axes 0 to 2; any other index addresses the last
    component here. *)
Definition Point : Type := Q * Q * Q.
Definition Vector : Type := Q * Q * Q.

Definition get3 (p : Q * Q * Q) (i : Z) : Q :=
  if i =? 0 then p.1.1 else if i =? 1 then p.1.2 else p.2.

Definition set3 (p : Q * Q * Q) (i : Z) (v : Q) : Q * Q * Q :=
  if i =? 0 then (v, p.1.2, p.2) else if i =? 1 then (p.1.1, v, p.2) else (p.1, v).

Record STreeNode := mkSNode {
  isLeaf : bool;
  dTree : DTreeWrapper;
  axis : Z;
  children : nat * nat;
  level : Z
}.

Module STreeNode.

(** The default constructor. *)
Definition empty : STreeNode := mkSNode true DTreeWrapper.empty 0 (0%nat, 0%nat) 0.

Definition getChild (n : STreeNode) (i : Z) : nat :=
  if i =? 0 then (children n).1 else (children n).2.

Definition setChild (n : STreeNode) (i : Z) (idx : nat) : STreeNode :=
  mkSNode (isLeaf n) (dTree n) (axis n)
          (if i =? 0 then (idx, (children n).2) else ((children n).1, idx)) (level n).

Definition setAxis (n : STreeNode) (a : Z) : STreeNode :=
  mkSNode (isLeaf n) (dTree n) a (children n) (level n).

Definition setDTree (n : STreeNode) (w : DTreeWrapper) : STreeNode :=
  mkSNode (isLeaf n) w (axis n) (children n) (level n).

Definition setLevel (n : STreeNode) (l : Z) : STreeNode :=
  mkSNode (isLeaf n) (dTree n) (axis n) (children n) l.

Definition setIsLeaf (n : STreeNode) (b : bool) : STreeNode :=
  mkSNode b (dTree n) (axis n) (children n) (level n).

(** [childIndex(p)] folds [p] along the node's axis; the folded point is
    returned with the selector. *)
Definition childIndex (n : STreeNode) (p : Point) : Z * Point :=
  if Qltb (get3 p (axis n)) (1 # 2)
  then (0, set3 p (axis n) (get3 p (axis n) * 2)%Q)
  else (1, set3 p (axis n) ((get3 p (axis n) - (1 # 2)) * 2)%Q).

Definition nodeIndex (n : STreeNode) (p : Point) : nat * Point :=
  let '(i, p') := childIndex n p in (getChild n i, p').

(** [SAssert(p[axis] >= 0 && p[axis] <= 1)] *)
Definition onAxis (n : STreeNode) (p : Point) : bool :=
  Qle_bool 0 (get3 p (axis n)) && Qle_bool (get3 p (axis n)) 1.

(** [dTreeWrapper(p, size, nodes)] on the node at index [self]: the
    index of the leaf whose wrapper is returned, and the final [size]. *)
Fixpoint dTreeWrapper (fuel : nat) (nodes : list STreeNode) (self : nat)
    (p : Point) (size : Vector) : option (nat * Vector) :=
  match fuel with
  | O => None
  | S fuel' =>
    n ← nodes !! self;
    if negb (onAxis n p) then None
    else if isLeaf n then Some (self, size)
    else
      let size := set3 size (axis n) (get3 size (axis n) / 2)%Q in
      let '(c, p') := nodeIndex n p in
      dTreeWrapper fuel' nodes c p' size
  end.

(** [depth(p, nodes)] *)
Fixpoint depthAt (fuel : nat) (nodes : list STreeNode) (self : nat) (p : Point)
  : option Z :=
  match fuel with
  | O => None
  | S fuel' =>
    n ← nodes !! self;
    if negb (onAxis n p) then None
    else if isLeaf n then Some 1
    else
      let '(c, p') := nodeIndex n p in
      d ← depthAt fuel' nodes c p'; Some (1 + d)
  end.

(** [depth(nodes)] *)
Fixpoint depth (fuel : nat) (nodes : list STreeNode) (self : nat) : option Z :=
  match fuel with
  | O => None
  | S fuel' =>
    n ← nodes !! self;
    let result := 1 in
    if negb (isLeaf n) then
      d0 ← depth fuel' nodes (children n).1;
      let result := Z.max result (1 + d0) in
      d1 ← depth fuel' nodes (children n).2;
      Some (Z.max result (1 + d1))
    else Some result
  end.

End STreeNode.

Module STree.
Import STreeNode.

(** [std::numeric_limits<uint32_t>::max()] *)
Definition UINT32_MAX : Z := 4294967295.

(** [clear()]: a single root. *)
Definition clear : list STreeNode := [STreeNode.empty].

(** One iteration of the loop of [subdivide]: link child [i] and
    initialise it from the node being split. *)
Definition subdivideChild (nodeIdx : nat) (i : Z) (nodes : list STreeNode)
  : option (list STreeNode) :=
  let idx := Z.to_nat (Z.of_nat (length nodes) - 2 + i) in
  cur ← nodes !! nodeIdx;
  let nodes := <[nodeIdx := setChild cur i idx]> nodes in
  cur ← nodes !! nodeIdx;
  c ← nodes !! idx;
  let c := setAxis c (Z.rem (axis cur + 1) 3) in
  let c := setDTree c (dTree cur) in
  let c := setLevel c (level cur + 1) in
  let c := setDTree c (DTreeWrapper.setStatisticalWeightBuilding (dTree c)
                         (DTreeWrapper.statisticalWeightBuilding (dTree c) / 2)%Q) in
  Some (<[idx := c]> nodes).

(** [subdivide(nodeIdx, nodes)] *)
Definition subdivide (nodeIdx : nat) (nodes : list STreeNode) : option (list STreeNode) :=
  let nodes := nodes ++ [STreeNode.empty; STreeNode.empty] in
  if Z.of_nat (length nodes) >? UINT32_MAX then Some nodes
  else
    nodes ← subdivideChild nodeIdx 0 nodes;
    nodes ← subdivideChild nodeIdx 1 nodes;
    cur ← nodes !! nodeIdx;
    Some (<[nodeIdx := setDTree (setIsLeaf cur false) DTreeWrapper.empty]> nodes).

(** [subdivideAll()]: split every node that is a leaf when it is reached,
    among the nodes present at the start. *)
Definition subdivideAll (nodes : list STreeNode) : option (list STreeNode) :=
  foldl (fun acc i =>
           nodes ← acc;
           n ← nodes !! i;
           if isLeaf n then subdivide i nodes else Some nodes)
        (Some nodes) (seq 0 (length nodes)).

(** [subdivide(int levels)]: [levels] rounds of [subdivideAll]. *)
Fixpoint subdivideLevels (levels : nat) (nodes : list STreeNode)
  : option (list STreeNode) :=
  match levels with
  | O => Some nodes
  | S levels' => nodes ← subdivideAll nodes; subdivideLevels levels' nodes
  end.

(** [shallSplit(node, depth, samplesRequired)]: the comparison of the
    float weight with the [size_t] converts the [size_t] to [float]. *)
Definition shallSplit (nodes : list STreeNode) (node : STreeNode) (depth : Z)
    (samplesRequired : Z) : bool :=
  (Z.of_nat (length nodes) <? UINT32_MAX - 1)
  && Qltb (floatOfSize samplesRequired)
          (DTreeWrapper.statisticalWeightBuilding (dTree node)).

(** The loop of [refine]: the stack holds [(index, depth)].  The source
    passes the index to [subdivide] as [(int)sNode.index], which is the
    index itself in a vector of at most [2^31] nodes. *)
Fixpoint refineLoop (fuel : nat) (sTreeThreshold : Z) (staticSTree : bool)
    (nodes : list STreeNode) (nodeIndices : list (nat * Z)) : option (list STreeNode) :=
  match fuel with
  | O => None
  | S fuel' =>
    match nodeIndices with
    | [] => Some nodes
    | sNode :: rest =>
      n ← nodes !! sNode.1;
      nodes ← (if isLeaf n && shallSplit nodes n sNode.2 sTreeThreshold && negb staticSTree
               then subdivide sNode.1 nodes else Some nodes);
      n ← nodes !! sNode.1;
      if negb (isLeaf n) then
        refineLoop fuel' sTreeThreshold staticSTree nodes
          ((getChild n 1, sNode.2 + 1) :: (getChild n 0, sNode.2 + 1) :: rest)
      else refineLoop fuel' sTreeThreshold staticSTree nodes rest
    end
  end.

(** [refine(sTreeThreshold, maxMB, staticSTree)]; [approxMemoryFootprint]
    is the sum over the nodes that the source forms from the capacities
    of the vectors when [maxMB >= 0]. *)
Definition refine (fuel : nat) (approxMemoryFootprint : Z) (sTreeThreshold maxMB : Z)
    (staticSTree : bool) (nodes : list STreeNode) : option (list STreeNode) :=
  if (0 <=? maxMB) && (maxMB <=? approxMemoryFootprint / 1000000) then Some nodes
  else refineLoop fuel sTreeThreshold staticSTree nodes [(0%nat, 1)].

End STree.

(** ** Retained paths and their replay *)

Definition Spectrum : Type := Q * Q * Q.
Definition Point3 : Type := Q * Q * Q.

Module Spectrum.
Definition const (c : Q) : Spectrum := (c, c, c).
Definition mul (a b : Spectrum) : Spectrum :=
  let '(a1, a2, a3) := a in let '(b1, b2, b3) := b in ((a1 * b1)%Q, (a2 * b2)%Q, (a3 * b3)%Q).
Definition scale (a : Spectrum) (c : Q) : Spectrum :=
  let '(a1, a2, a3) := a in ((a1 * c)%Q, (a2 * c)%Q, (a3 * c)%Q).
Definition div (a : Spectrum) (c : Q) : Spectrum :=
  let '(a1, a2, a3) := a in ((a1 / c)%Q, (a2 / c)%Q, (a3 / c)%Q).
Definition max (a : Spectrum) : Q :=
  let '(a1, a2, a3) := a in std_max (std_max a1 a2) a3.
End Spectrum.

Record RVertex := mkRVertex {
  rv_o : Point3;
  rv_d : Point3;
  rv_time : Float;
  rv_bsdfVal : Spectrum;
  rv_bsdfPdf : Float;
  rv_woPdf : Float;
  rv_isDelta : bool;
  rv_sc : Float
}.

Record RadRecord := mkRadRecord { rad_pos : Z; rad_L : Spectrum; rad_pdf : Float }.

Record NEERecord := mkNEERecord {
  nee_pos : Z; nee_L : Spectrum; nee_pdf : Float;
  nee_wo : Point3; nee_bsdfVal : Spectrum; nee_bsdfPdf : Float
}.

Record RPath := mkRPath {
  path : list RVertex;
  radiance_records : list RadRecord;
  nee_records : list NEERecord;
  sample_pos : Point2;
  active : bool;
  iter : Z
}.

Module Replay.
Section Replay.

(** The collaborators of the replay loops.  [World] is everything the
    loops reach besides the path buffer: the SD-tree and the sampler.
    [DTreeRef] is the [DTreeWrapper*] that [computePdf] looks up. *)
Variable World : Type.
Variable DTreeRef : Type.
(** [computePdf(vertex, dTree, dTreeVoxelSize, dTreePdf)]: the new
    [woPdf], the wrapper, the voxel size and the directional pdf. *)
Variable computePdf : World -> RVertex -> Float * DTreeRef * Point3 * Float.
(** [dTree->getAugmentedMultiplier()] *)
Variable getAugmentedMultiplier : World -> DTreeRef -> Float.
(** [sampler->next1D()] *)
Variable next1D : World -> Float * World.
(** [m_rrDepth] *)
Variable m_rrDepth : Z.

Record Vertex := mkVertex {
  v_dTree : DTreeRef;
  v_dTreeVoxelSize : Point3;
  v_ray : Point3 * Point3 * Float;
  v_throughput : Spectrum;
  v_bsdfVal : Spectrum;
  v_radiance : Spectrum;
  v_woPdf : Float;
  v_bsdfPdf : Float;
  v_dTreePdf : Float;
  v_isDelta : bool
}.

(** What follows a replay that was not terminated: [computeRadiance],
    [computeNee] and the [commit] of every vertex into the SD-tree. *)
Variable commitPath : World -> RPath -> list Vertex -> World.

Definition setVertex (v : RVertex) (woPdf sc : Float) : RVertex :=
  mkRVertex (rv_o v) (rv_d v) (rv_time v) (rv_bsdfVal v) (rv_bsdfPdf v) woPdf
            (rv_isDelta v) sc.

(** The Russian-roulette division at the end of a vertex iteration. *)
Definition roulette (j : Z) (isDelta : bool) (throughput : Spectrum) : Spectrum :=
  if (m_rrDepth <=? j) && negb isDelta then
    let successProb := std_max (1 # 10) (std_min (Spectrum.max throughput) (99 # 100)) in
    Spectrum.div throughput successProb
  else throughput.

(** The state of a vertex loop: the sampler and SD-tree, the vertices
    already replayed (updated in place), [vertices], [throughput]. *)
Record LoopState := mkLoop {
  ls_world : World;
  ls_done : list RVertex;
  ls_vertices : list Vertex;
  ls_throughput : Spectrum
}.

(** The vertex loop of [reweightAugmentHybrid] from index [j] on.  The
    result is the state and the [terminated] flag; on a [break] the
    vertices from the current one on are left as they are. *)
Fixpoint reweightAugmentVertices (j : Z) (rest : list RVertex) (st : LoopState)
  : LoopState * list RVertex * bool :=
  match rest with
  | [] => (st, [], false)
  | curr_vertex :: rest' =>
    let '(nwo, dTree, dTreeVoxelSize, dTreePdf) := computePdf (ls_world st) curr_vertex in
    if Qltb nwo EPSILON then (st, rest, true)
    else
      let reweight := (nwo / rv_woPdf curr_vertex)%Q in
      let sc := if Qltb reweight 1 then (rv_sc curr_vertex * reweight)%Q
                else rv_sc curr_vertex in
      let sc := (sc * getAugmentedMultiplier (ls_world st) dTree)%Q in
      let curr_vertex := setVertex curr_vertex nwo sc in
      let bsdfWeight := Spectrum.div (rv_bsdfVal curr_vertex) nwo in
      let throughput := Spectrum.mul (ls_throughput st) (Spectrum.scale bsdfWeight sc) in
      let v := mkVertex dTree dTreeVoxelSize
                 (rv_o curr_vertex, rv_d curr_vertex, rv_time curr_vertex)
                 throughput (rv_bsdfVal curr_vertex) (Spectrum.const 0) nwo
                 (rv_bsdfPdf curr_vertex) dTreePdf (rv_isDelta curr_vertex) in
      let throughput := roulette j (rv_isDelta curr_vertex) throughput in
      reweightAugmentVertices (j + 1) rest'
        (mkLoop (ls_world st) (ls_done st ++ [curr_vertex])
                (ls_vertices st ++ [v]) throughput)
  end.

(** The vertex loop of [rejectAugmentHybrid]. *)
Fixpoint rejectAugmentVertices (j : Z) (rest : list RVertex) (st : LoopState)
  : LoopState * list RVertex * bool :=
  match rest with
  | [] => (st, [], false)
  | curr_vert :: rest' =>
    let '(newWoPdf, dTree, dTreeVoxelSize, dTreePdf) := computePdf (ls_world st) curr_vert in
    let acceptProb := (newWoPdf / rv_woPdf curr_vert)%Q in
    let sc := (rv_sc curr_vert * getAugmentedMultiplier (ls_world st) dTree)%Q in
    let curr_vert := setVertex curr_vert newWoPdf sc in
    let '(u, world) := next1D (ls_world st) in
    if Qltb acceptProb u
    then (mkLoop world (ls_done st ++ [curr_vert]) (ls_vertices st) (ls_throughput st),
          rest', true)
    else
      let bsdfWeight := Spectrum.div (rv_bsdfVal curr_vert) newWoPdf in
      let throughput := Spectrum.mul (ls_throughput st) (Spectrum.scale bsdfWeight sc) in
      let v := mkVertex dTree dTreeVoxelSize
                 (rv_o curr_vert, rv_d curr_vert, rv_time curr_vert)
                 throughput (rv_bsdfVal curr_vert) (Spectrum.const 0) newWoPdf
                 (rv_bsdfPdf curr_vert) dTreePdf (rv_isDelta curr_vert) in
      let throughput := roulette j (rv_isDelta curr_vert) throughput in
      rejectAugmentVertices (j + 1) rest'
        (mkLoop world (ls_done st ++ [curr_vert]) (ls_vertices st ++ [v]) throughput)
  end.

(** The body of the path loop, after the [active] test: run the vertex
    loop, then either deactivate and clear the path or commit it. *)
Definition replayPath
    (vertexLoop : Z -> list RVertex -> LoopState -> LoopState * list RVertex * bool)
    (world : World) (curr_path : RPath) : World * RPath :=
  let '(st, rest, terminated) :=
    vertexLoop 0 (path curr_path) (mkLoop world [] [] (Spectrum.const 1)) in
  let curr_path := mkRPath (ls_done st ++ rest) (radiance_records curr_path)
                           (nee_records curr_path) (sample_pos curr_path)
                           (active curr_path) (iter curr_path) in
  if terminated
  then (ls_world st,
        mkRPath [] [] [] (sample_pos curr_path) false (iter curr_path))
  else (commitPath (ls_world st) curr_path (ls_vertices st), curr_path).

(** The tracer's members that the replay loops use. *)
Record GuidedPathTracer := mkTracer {
  m_world : World;
  m_samplePaths : list RPath;
  m_augmentedStartPos : nat
}.

(** [for (i = 0; i < bound; ++i) { if (!active) continue; body }] over the
    path buffer.  The source runs the iterations in parallel; here they
    run in index order. *)
Definition pathLoop (body : World -> RPath -> World * RPath) (bound : nat)
    (world : World) (paths : list RPath) : World * list RPath :=
  foldl (fun '(world, paths) i =>
           match paths !! i with
           | None => (world, paths)
           | Some curr_path =>
             if negb (active curr_path) then (world, paths)
             else let '(world, curr_path) := body world curr_path in
                  (world, <[i := curr_path]> paths)
           end)
        (world, paths) (seq 0 bound).

(** [reweightAugmentHybrid]: the loop runs to [m_samplePaths->size()]. *)
Definition reweightAugmentHybrid (t : GuidedPathTracer) : GuidedPathTracer :=
  let '(world, paths) :=
    pathLoop (replayPath reweightAugmentVertices) (length (m_samplePaths t))
             (m_world t) (m_samplePaths t) in
  mkTracer world paths (m_augmentedStartPos t).

(** [rejectAugmentHybrid]: the loop runs to [m_augmentedStartPos].  The
    closing [checkActivePerc()] only prints. *)
Definition rejectAugmentHybrid (t : GuidedPathTracer) : GuidedPathTracer :=
  let '(world, paths) :=
    pathLoop (replayPath rejectAugmentVertices) (m_augmentedStartPos t)
             (m_world t) (m_samplePaths t) in
  mkTracer world paths (m_augmentedStartPos t).

(** The vertex loop of [performAugmentedSamples]. *)
Fixpoint performAugmentedVertices (j : Z) (rest : list RVertex) (st : LoopState)
  : LoopState * list RVertex * bool :=
  match rest with
  | [] => (st, [], false)
  | curr_vert :: rest' =>
    let '(newWoPdf, dTree, dTreeVoxelSize, dTreePdf) := computePdf (ls_world st) curr_vert in
    if Qltb newWoPdf EPSILON then (st, rest, true)
    else
      let sc := (rv_sc curr_vert * getAugmentedMultiplier (ls_world st) dTree)%Q in
      let curr_vert := setVertex curr_vert newWoPdf sc in
      let bsdfWeight := Spectrum.div (rv_bsdfVal curr_vert) (rv_woPdf curr_vert) in
      let throughput := Spectrum.mul (ls_throughput st) (Spectrum.scale bsdfWeight sc) in
      let v := mkVertex dTree dTreeVoxelSize
                 (rv_o curr_vert, rv_d curr_vert, rv_time curr_vert)
                 throughput (rv_bsdfVal curr_vert) (Spectrum.const 0) (rv_woPdf curr_vert)
                 (rv_bsdfPdf curr_vert) dTreePdf (rv_isDelta curr_vert) in
      let throughput := roulette j (rv_isDelta curr_vert) throughput in
      performAugmentedVertices (j + 1) rest'
        (mkLoop (ls_world st) (ls_done st ++ [curr_vert])
                (ls_vertices st ++ [v]) throughput)
  end.

(** [performAugmentedSamples]: the loop runs to [m_augmentedStartPos]. *)
Definition performAugmentedSamples (t : GuidedPathTracer) : GuidedPathTracer :=
  let '(world, paths) :=
    pathLoop (replayPath performAugmentedVertices) (m_augmentedStartPos t)
             (m_world t) (m_samplePaths t) in
  mkTracer world paths (m_augmentedStartPos t).

(** The vertex loop of [reweightCurrentPaths]. *)
Fixpoint reweightVertices (j : Z) (rest : list RVertex) (st : LoopState)
  : LoopState * list RVertex * bool :=
  match rest with
  | [] => (st, [], false)
  | curr_vert :: rest' =>
    let '(newWoPdf, dTree, dTreeVoxelSize, dTreePdf) := computePdf (ls_world st) curr_vert in
    if Qltb newWoPdf EPSILON then (st, rest, true)
    else
      let reweight := (newWoPdf / rv_woPdf curr_vert)%Q in
      let sc := (rv_sc curr_vert * reweight)%Q in
      let curr_vert := setVertex curr_vert newWoPdf sc in
      let bsdfWeight := Spectrum.div (rv_bsdfVal curr_vert) (rv_woPdf curr_vert) in
      let throughput := Spectrum.mul (ls_throughput st) (Spectrum.scale bsdfWeight sc) in
      let v := mkVertex dTree dTreeVoxelSize
                 (rv_o curr_vert, rv_d curr_vert, rv_time curr_vert)
                 throughput (rv_bsdfVal curr_vert) (Spectrum.const 0) (rv_woPdf curr_vert)
                 (rv_bsdfPdf curr_vert) dTreePdf (rv_isDelta curr_vert) in
      let throughput := roulette j (rv_isDelta curr_vert) throughput in
      reweightVertices (j + 1) rest'
        (mkLoop (ls_world st) (ls_done st ++ [curr_vert])
                (ls_vertices st ++ [v]) throughput)
  end.

(** [reweightCurrentPaths]: the loop runs over the whole buffer. *)
Definition reweightCurrentPaths (t : GuidedPathTracer) : GuidedPathTracer :=
  let '(world, paths) :=
    pathLoop (replayPath reweightVertices) (length (m_samplePaths t))
             (m_world t) (m_samplePaths t) in
  mkTracer world paths (m_augmentedStartPos t).

(** The vertex loop of [rejectReweightHybrid]. *)
Fixpoint rejectReweightVertices (j : Z) (rest : list RVertex) (st : LoopState)
  : LoopState * list RVertex * bool :=
  match rest with
  | [] => (st, [], false)
  | curr_vertex :: rest' =>
    let '(newWoPdf, dTree, dTreeVoxelSize, dTreePdf) :=
      computePdf (ls_world st) curr_vertex in
    let acceptProb := (newWoPdf / rv_woPdf curr_vertex)%Q in
    let oldWo := rv_woPdf curr_vertex in
    let curr_vertex := setVertex curr_vertex newWoPdf (rv_sc curr_vertex) in
    let '(u, world) := next1D (ls_world st) in
    if Qltb acceptProb u
    then (mkLoop world (ls_done st ++ [curr_vertex]) (ls_vertices st) (ls_throughput st),
          rest', true)
    else
      let rw_scale := std_max 1%Q (newWoPdf / oldWo)%Q in
      let curr_vertex := setVertex curr_vertex newWoPdf (rv_sc curr_vertex * rw_scale)%Q in
      let bsdfWeight := Spectrum.div (rv_bsdfVal curr_vertex) newWoPdf in
      let throughput :=
        Spectrum.mul (ls_throughput st) (Spectrum.scale bsdfWeight (rv_sc curr_vertex)) in
      let v := mkVertex dTree dTreeVoxelSize
                 (rv_o curr_vertex, rv_d curr_vertex, rv_time curr_vertex)
                 throughput (rv_bsdfVal curr_vertex) (Spectrum.const 0)
                 (rv_woPdf curr_vertex)
                 (rv_bsdfPdf curr_vertex) dTreePdf (rv_isDelta curr_vertex) in
      let throughput := roulette j (rv_isDelta curr_vertex) throughput in
      rejectReweightVertices (j + 1) rest'
        (mkLoop world (ls_done st ++ [curr_vertex]) (ls_vertices st ++ [v]) throughput)
  end.

(** [rejectReweightHybrid]: the loop runs over the whole buffer. *)
Definition rejectReweightHybrid (t : GuidedPathTracer) : GuidedPathTracer :=
  let '(world, paths) :=
    pathLoop (replayPath rejectReweightVertices) (length (m_samplePaths t))
             (m_world t) (m_samplePaths t) in
  mkTracer world paths (m_augmentedStartPos t).

(** [miWeight(pdfA, pdfB)]: the power heuristic. *)
Definition miWeight (pdfA pdfB : Float) : Float :=
  let pdfA := (pdfA * pdfA)%Q in
  let pdfB := (pdfB * pdfB)%Q in
  (pdfA / (pdfA + pdfB))%Q.

End Replay.
End Replay.

(** * Specification vocabulary *)

(** Every [int] index addresses one of the four slots of an [Arr4]. *)
Definition slot (i : Z) : Z :=
  if i =? 0 then 0 else if i =? 1 then 1 else if i =? 2 then 2 else 3.

(** ** Well-formed quadtrees *)

Module WF.
Import QuadTreeNode.

(** Children are allocated after their parent: a child index is 0 (leaf)
    or lies strictly between the parent's index and the node count.
    [reset], [buildAugmented] and [buildUnmajorizedAugmented] only
    produce such vectors. *)
Definition wfNodes (nodes : list QuadTreeNode) : Prop :=
  forall n nd i, nodes !! n = Some nd ->
    child nd i = 0%nat \/ (n < child nd i < length nodes)%nat.

Definition wfDTree (t : DTree) : Prop :=
  (0 < length (m_nodes t))%nat /\ wfNodes (m_nodes t).

(** The executable form of [wfNodes]. *)
Definition wfSlotb (len n : nat) (nd : QuadTreeNode) (i : Z) : bool :=
  Nat.eqb (child nd i) 0 || (Nat.ltb n (child nd i) && Nat.ltb (child nd i) len).

Definition wfNodesb (nodes : list QuadTreeNode) : bool :=
  forallb (fun '(n, nd) =>
             wfSlotb (length nodes) n nd 0 && wfSlotb (length nodes) n nd 1
             && wfSlotb (length nodes) n nd 2 && wfSlotb (length nodes) n nd 3)
          (imap pair nodes).

Definition wfDTreeb (t : DTree) : bool :=
  Nat.ltb 0 (length (m_nodes t)) && wfNodesb (m_nodes t).

End WF.

(** ** Built quadtrees *)

Module Built.
Import QuadTreeNode.

(** The node at index [n] is built: at it and below it, every non-leaf
    slot holds the accumulated sum of its child's four sums. *)
Inductive built (nodes : list QuadTreeNode) : nat -> Prop :=
| built_node n nd :
    nodes !! n = Some nd ->
    (forall i, isLeaf nd i = false -> built nodes (child nd i)) ->
    (forall i c, isLeaf nd i = false -> nodes !! child nd i = Some c ->
                 sum nd i = sumOfSums c) ->
    built nodes n.

(** Slot [i] of the node at [n] is consistent with its child. *)
Definition slotBuilt (nodes : list QuadTreeNode) (n : nat) (i : Z) : Prop :=
  forall nd, nodes !! n = Some nd -> isLeaf nd i = false ->
    built nodes (child nd i) /\
    forall c, nodes !! child nd i = Some c -> sum nd i = sumOfSums c.

(** [build] keeps the child links and the sums of the leaf slots. *)
Definition sameLeaves (nodes nodes' : list QuadTreeNode) : Prop :=
  forall m nd, nodes !! m = Some nd ->
    exists nd', nodes' !! m = Some nd' /\ m_children nd' = m_children nd /\
                forall i, isLeaf nd i = true -> sum nd' i = sum nd i.

End Built.

(** ** The descent of [pdf]

    Modelled from the spec: the quadrant that a point selects, the factor
    of a slot and the descent of a point through the tree, written on the
    data of the nodes and without the functions of [QuadTreeNode], against
    which [pdf] is compared. *)

Module Descent.

(** The upper half of an axis of the unit square. *)
Definition upper (c : Q) : bool := Qle_bool (1 # 2) c.

(** The slot selected by [p]: bit 0 is set in the half [1/2 <= x], bit 1
    in the half [1/2 <= y]. *)
Definition slotOf (p : Point2) : Z :=
  (if upper (fst p) then 1 else 0) + (if upper (snd p) then 2 else 0).

(** The coordinates of [p] within its quadrant, the side of the
    quadrant being the unit. *)
Definition within (c : Q) : Q := if upper c then ((c - (1 # 2)) * 2)%Q else (c * 2)%Q.

Definition localPoint (p : Point2) : Point2 := (within (fst p), within (snd p)).

(** [sum[i]], and the index of the child in slot [i], which is 0 for a
    leaf. *)
Definition sumAt (nd : QuadTreeNode) (i : Z) : Float := get4 (m_sum nd) i.

Definition childAt (nd : QuadTreeNode) (i : Z) : nat := get4 (m_children nd) i.

(** The descent of [p] from the node [self]: the nodes visited with the
    slot that [p] selects in each, down to the first slot that is a leaf
    or at which [curr_level] has reached [level]. *)
Fixpoint descent (fuel : nat) (nodes : list QuadTreeNode) (self : nat) (p : Point2)
    (level curr_level : Z) : list (QuadTreeNode * Z) :=
  match fuel with
  | O => []
  | S fuel' =>
    match nodes !! self with
    | None => []
    | Some nd =>
      (nd, slotOf p) ::
        (if (childAt nd (slotOf p) =? 0)%nat || (level =? curr_level) then []
         else descent fuel' nodes (childAt nd (slotOf p)) (localPoint p)
                      level (curr_level + 1))
    end
  end.

(** The factor [4 * sum[i] / (sum[0] + sum[1] + sum[2] + sum[3])]. *)
Definition factor (step : QuadTreeNode * Z) : Float :=
  (4 * sumAt step.1 step.2
   / (sumAt step.1 0 + sumAt step.1 1 + sumAt step.1 2 + sumAt step.1 3))%Q.

(** The selected slot has a non-positive sum. *)
Definition nonPositive (step : QuadTreeNode * Z) : bool :=
  Qle_bool (sumAt step.1 step.2) 0.

(** The value the specification gives to a descent: 0 if a selected slot
    has a non-positive sum, the product of the factors otherwise. *)
Definition pathPdf (steps : list (QuadTreeNode * Z)) : Float :=
  if existsb nonPositive steps then 0%Q
  else foldr (fun s acc => (factor s * acc)%Q) 1%Q steps.

End Descent.

(** ** The dual walk of [getMajorizingFactor] *)

Module Walk.
Import DTree.

(** Both components of the pair are at least [EPSILON]: each is the
    initial 1 or was floored at a comparison. *)
Definition flooredPair (pp : Float * Float) : Prop :=
  (EPSILON <= pp.1)%Q /\ (EPSILON <= pp.2)%Q.

(** A stack entry refers to existing nodes. *)
Definition validPair (this other : list QuadTreeNode) (e : NodePair) : Prop :=
  ((nodeIndex e).1 < length this)%nat /\ ((otherNodeIndex e).1 < length other)%nat.

(** The termination measure of the walk: an entry at node [n] weighs
    [5 ^ (length this - n)], more than four entries further down. *)
Definition weight (len : nat) (e : NodePair) : nat := 5 ^ (len - (nodeIndex e).1).

Definition stackWeight (len : nat) (stack : list NodePair) : nat :=
  foldr (fun e acc => (weight len e + acc)%nat) 0%nat stack.

End Walk.

(** ** The augmented distribution *)

Module Residual.
Import QuadTreeNode DTree.

(** The residual density before clamping. *)
Definition residual (A oldPdf newPdf : Float) : Float :=
  ((A * newPdf - oldPdf) / (A - 1))%Q.

(** The value of a slot under a potential [P] on the nodes: the stored
    density for a leaf slot, the potential of the child otherwise. *)
Definition slotVal (P : nat -> Float) (nd : QuadTreeNode) (i : Z) : Float :=
  if isLeaf nd i then sum nd i else P (child nd i).

(** [f 0 + ... + f (j - 1)] for [j] from 0 to 4. *)
Definition prefix4 (f : Z -> Float) (j : Z) : Float :=
  let v0 := f 0 in let v1 := f 1 in let v2 := f 2 in let v3 := f 3 in
  if j <=? 0 then 0%Q
  else if j <=? 1 then v0
  else if j <=? 2 then (v0 + v1)%Q
  else if j <=? 3 then (v0 + v1 + v2)%Q
  else (v0 + v1 + v2 + v3)%Q.

(** The mean of the four slot values of a node. *)
Definition nodeVal (P : nat -> Float) (nd : QuadTreeNode) : Float :=
  (prefix4 (slotVal P nd) 4 / 4)%Q.

(** The potential of every node is the mean of its slot values. *)
Definition balanced (P : nat -> Float) (nodes : list QuadTreeNode) : Prop :=
  forall k nd, nodes !! k = Some nd -> (nodeVal P nd == P k)%Q.

(** What the entries of the stack of [computeIntegral] stand for. *)
Definition stackVal (P : nat -> Float) (stack : list (Float * nat)) : Float :=
  foldr (fun e s => (e.1 * P e.2 + s)%Q) 0%Q stack.

Definition intWeight (len : nat) (stack : list (Float * nat)) : nat :=
  foldr (fun e acc => (5 ^ (len - e.2) + acc)%nat) 0%nat stack.

End Residual.

Module AugWalk.
Import QuadTreeNode DTree Residual.

(** The pairs of nodes that the dual walk of [buildAugmented] visits, as
    [(new index, old index, new factor, old factor)]: the two roots, and
    the children in every slot that is a leaf in neither tree. *)
Inductive visited (oldDist newDist : list QuadTreeNode)
  : nat -> nat -> Float -> Float -> Prop :=
| visited_root : visited oldDist newDist 0 0 1%Q 1%Q
| visited_child n o newF oldF newNode oldNode i :
    visited oldDist newDist n o newF oldF ->
    newDist !! n = Some newNode -> oldDist !! o = Some oldNode ->
    0 <= i < 4 -> isLeaf newNode i = false -> isLeaf oldNode i = false ->
    visited oldDist newDist (child newNode i) (child oldNode i)
            (slotPdf (total newNode) newF newNode i)
            (slotPdf (total oldNode) oldF oldNode i).

(** No residual is clamped and no density is zeroed: every visited node
    has a total of at least [EPSILON] in both trees, and at every slot
    where the walk stops the residual is non-negative. *)
Definition unclamped (A : Float) (oldDist newDist : list QuadTreeNode) : Prop :=
  forall n o newF oldF newNode oldNode,
    visited oldDist newDist n o newF oldF ->
    newDist !! n = Some newNode -> oldDist !! o = Some oldNode ->
    (EPSILON <= total newNode)%Q /\ (EPSILON <= total oldNode)%Q /\
    forall i, 0 <= i < 4 -> isLeaf newNode i || isLeaf oldNode i = true ->
      (0 <= residual A (slotPdf (total oldNode) oldF oldNode i)
                       (slotPdf (total newNode) newF newNode i))%Q.

(** The residual of slot [i] of the pair of nodes of a stack entry. *)
Definition slotResidual (A : Float) (e : AugPair) (oldNode newNode : QuadTreeNode)
    (i : Z) : Float :=
  residual A (slotPdf (total oldNode) (oldNodeFactor e) oldNode i)
             (slotPdf (total newNode) (newNodeFactor e) newNode i).

(** A stack entry of [buildAugmented] refers to existing nodes and
    visits all four slots on both sides. *)
Definition validAug (oldDist newDist nodes : list QuadTreeNode) (e : AugPair) : Prop :=
  ((newNodeIndex e).1 < length newDist)%nat /\ (newNodeIndex e).2 = -1 /\
  ((oldNodeIndex e).1 < length oldDist)%nat /\ (oldNodeIndex e).2 = -1 /\
  (nodeIdx e < length nodes)%nat.

Definition augWeight (len : nat) (stack : list AugPair) : nat :=
  foldr (fun e acc => (5 ^ (len - (newNodeIndex e).1) + acc)%nat) 0%nat stack.

(** The node of a stack entry is still to be filled: all its slots are
    leaves, and its potential is the residual of the entry's factors. *)
Definition pending (A : Float) (oldDist newDist : list QuadTreeNode)
    (P : nat -> Float) (nodes : list QuadTreeNode) (e : AugPair) : Prop :=
  validAug oldDist newDist nodes e /\
  (exists nd, nodes !! nodeIdx e = Some nd /\ forall i, child nd i = 0%nat) /\
  visited oldDist newDist (newNodeIndex e).1 (oldNodeIndex e).1
          (newNodeFactor e) (oldNodeFactor e) /\
  (unclamped A oldDist newDist ->
   (P (nodeIdx e) == residual A (oldNodeFactor e) (newNodeFactor e))%Q).

(** The invariant of the loop of [buildAugmented], while the slots below
    [j] of the node [k] of the entry on top have been filled: the slots
    from [j] on are still leaves and, when nothing is clamped, the slots
    below [j] have the residuals [r] as values and the nodes that are
    neither on the stack nor [k] are balanced. *)
Definition slotInv (A : Float) (oldDist newDist : list QuadTreeNode)
    (k : nat) (r : Z -> Float) (j : Z) (P : nat -> Float) (st : AugState) : Prop :=
  WF.wfNodes st.1 /\
  Forall (pending A oldDist newDist P st.1) st.2 /\
  NoDup (nodeIdx <$> st.2) /\
  (k ∉ (nodeIdx <$> st.2)) /\
  (exists nd, st.1 !! k = Some nd /\ forall i, j <= slot i -> child nd i = 0%nat) /\
  (unclamped A oldDist newDist ->
   (forall m nd, st.1 !! m = Some nd -> m ∉ (nodeIdx <$> st.2) -> m <> k ->
                 (nodeVal P nd == P m)%Q) /\
   (forall nd, st.1 !! k = Some nd ->
               forall i, 0 <= i < j -> (slotVal P nd i == r i)%Q)).

(** The invariant between two iterations of the loop. *)
Definition augInv (A : Float) (oldDist newDist : list QuadTreeNode)
    (P : nat -> Float) (st : AugState) : Prop :=
  WF.wfNodes st.1 /\
  Forall (pending A oldDist newDist P st.1) st.2 /\
  NoDup (nodeIdx <$> st.2) /\
  (unclamped A oldDist newDist ->
   forall m nd, st.1 !! m = Some nd -> m ∉ (nodeIdx <$> st.2) ->
                (nodeVal P nd == P m)%Q).

End AugWalk.

(** ** Reachable spatial trees *)

Module Reach.
Import STreeNode STree.

(** The trees the program builds: it starts from [clear()], splits
    leaves with [subdivide] (from [subdivideAll] and [refine], which both
    test [isLeaf] first), and reaches the wrappers of leaves only
    ([dTreeWrapper(p)], [record], [forEachDTreeWrapperParallel]). *)
Inductive reachable : list STreeNode -> Prop :=
| reach_clear : reachable clear
| reach_subdivide nodes idx nd nodes' :
    reachable nodes -> nodes !! idx = Some nd -> isLeaf nd = true ->
    subdivide idx nodes = Some nodes' -> reachable nodes'
| reach_wrapper nodes idx nd w :
    reachable nodes -> nodes !! idx = Some nd -> isLeaf nd = true ->
    reachable (<[idx := setDTree nd w]> nodes).

(** The wrapper a child receives: the parent's, with half the building
    statistical weight. *)
Definition halved (w : DTreeWrapper) : DTreeWrapper :=
  DTreeWrapper.setStatisticalWeightBuilding w
    (DTreeWrapper.statisticalWeightBuilding w / 2)%Q.

(** The state right after [subdivide(idx)] split the node [cur]: the
    node is a non-leaf with a cleared wrapper, linked to two new leaves
    at the end of the vector that carry the halved wrapper, the next
    axis and the next level; all other nodes are as before. *)
Definition splitOf (nodes : list STreeNode) (idx : nat) (cur : STreeNode)
    (nodes' : list STreeNode) : Prop :=
  length nodes' = (length nodes + 2)%nat /\
  nodes' !! idx = Some (mkSNode false DTreeWrapper.empty (axis cur)
                          (length nodes, S (length nodes)) (level cur)) /\
  (forall i : nat, (i < 2)%nat ->
     nodes' !! (length nodes + i)%nat =
       Some (mkSNode true (halved (dTree cur)) ((axis cur + 1) mod 3) (0%nat, 0%nat)
                     (level cur + 1))) /\
  (forall m, m <> idx -> (m < length nodes)%nat -> nodes' !! m = nodes !! m).

(** The invariant of reachable trees: every axis is 0, 1 or 2, and every
    non-leaf has a cleared wrapper and two children on the next axis and
    the next level. *)
Definition axisCycle (nodes : list STreeNode) : Prop :=
  forall n nd, nodes !! n = Some nd ->
    0 <= axis nd < 3 /\
    (isLeaf nd = false ->
     dTree nd = DTreeWrapper.empty /\
     forall i, exists c, nodes !! getChild nd i = Some c /\
                         axis c = (axis nd + 1) mod 3 /\ level c = level nd + 1).

End Reach.

(** ** Concrete inputs *)

Module Examples.
Import QuadTreeNode.

(** A node whose four slots are leaves. *)
Definition leaves (s0 s1 s2 s3 : Float) : QuadTreeNode :=
  mkNode (mkArr4 s0 s1 s2 s3) (mkArr4 0%nat 0%nat 0%nat 0%nat).

(** The uniform one-node tree. *)
Definition uniform : DTree := mkDTree [leaves 1%Q 1%Q 1%Q 1%Q] 4%Q 1%Q 0.

(** A built two-node tree: slot 0 of the root is subdivided and all its
    energy lies in its first quarter. *)
Definition peaked : DTree :=
  mkDTree [mkNode (mkArr4 1 1 1 1)%Q (mkArr4 1%nat 0%nat 0%nat 0%nat);
           leaves 1%Q 0%Q 0%Q 0%Q] 4%Q 1%Q 1.

(** A built two-node tree: slot 0 of the root is subdivided and its
    first quarter holds a third of the energy of each other quarter. *)
Definition graded : DTree :=
  mkDTree [mkNode (mkArr4 10 10 10 10)%Q (mkArr4 1%nat 0%nat 0%nat 0%nat);
           leaves 1%Q 3%Q 3%Q 3%Q] 40%Q 3%Q 1.

(** A one-node tree with less energy in slot 0. *)
Definition skewed : DTree := mkDTree [leaves 1%Q 5%Q 5%Q 5%Q] 16%Q 7%Q 0.

(** A two-node tree that is not built: the sum of slot 1 of the root is
    stale. *)
Definition unbuilt : DTree :=
  mkDTree [mkNode (mkArr4 1 9 1 1)%Q (mkArr4 0%nat 1%nat 0%nat 0%nat);
           leaves 1%Q 2%Q 3%Q 4%Q] 0%Q 1%Q 1.

(** A wrapper whose residual mass is below [EPSILON] while it has many
    weighted previous samples. *)
Definition smallB : DTreeWrapper :=
  mkWrapper DTree.empty DTree.empty DTree.empty DTree.empty
            0 0 400000%Q (1 # 200000)%Q (1%Q, 1%Q)
            DTreeWrapper.defaultOptimizer DTreeWrapper.FLT_MAX.

(** A wrapper with [B = 1/2] and 5 weighted previous samples. *)
Definition halfB : DTreeWrapper :=
  mkWrapper DTree.empty DTree.empty DTree.empty DTree.empty
            0 0 5%Q (1 # 2)%Q (1%Q, 1%Q)
            DTreeWrapper.defaultOptimizer DTreeWrapper.FLT_MAX.

(** A retained path of one vertex, and a tracer that holds it twice with
    [m_augmentedStartPos = 1].  In the runs below the SD-tree and the
    sampler carry no state, every direction has the new pdf 1, and the
    wrapper is half-way through its augmented quota, so that
    [getAugmentedMultiplier()] is 1/2. *)
Definition vertex1 : RVertex :=
  mkRVertex (0%Q, 0%Q, 0%Q) (0%Q, 0%Q, 1%Q) 0%Q (1%Q, 1%Q, 1%Q) 1%Q 1%Q false 1%Q.

Definition path1 : RPath := mkRPath [vertex1] [] [] (0%Q, 0%Q) true 0.

Definition tracer2 : Replay.GuidedPathTracer unit :=
  Replay.mkTracer unit tt [path1; path1] 1.

Definition run_reweightAugmentHybrid
  : Replay.GuidedPathTracer unit -> Replay.GuidedPathTracer unit :=
  Replay.reweightAugmentHybrid unit unit
    (fun _ _ => (1%Q, tt, (1%Q, 1%Q, 1%Q), 1%Q))
    (fun _ _ => (1 # 2)%Q)
    5
    (fun w _ _ => w).

Definition run_rejectAugmentHybrid
  : Replay.GuidedPathTracer unit -> Replay.GuidedPathTracer unit :=
  Replay.rejectAugmentHybrid unit unit
    (fun _ _ => (1%Q, tt, (1%Q, 1%Q, 1%Q), 1%Q))
    (fun _ _ => (1 # 2)%Q)
    (fun w => (0%Q, w))
    5
    (fun w _ _ => w).

End Examples.

(** * Vocabulary of the further properties *)

(** ** The energy held by the leaves *)

Module Energy.
Import QuadTreeNode.

(** The sum stored in slot [i] if the slot is a leaf, 0 otherwise. *)
Definition leafSlot (nd : QuadTreeNode) (i : Z) : Float :=
  if isLeaf nd i then sum nd i else 0%Q.

Definition leafSum (nd : QuadTreeNode) : Float :=
  (leafSlot nd 0 + leafSlot nd 1 + leafSlot nd 2 + leafSlot nd 3)%Q.

(** The total of the sums of all leaf slots of a node vector: what the
    recording functions accumulate into. *)
Definition leafEnergy (nodes : list QuadTreeNode) : Float :=
  foldr (fun nd acc => (leafSum nd + acc)%Q) 0%Q nodes.

(** The square [[o, o + s] x [o, o + s]] given by its corner and side. *)
Definition boxMax (o : Point2) (s : Float) : Point2 := ((fst o + s)%Q, (snd o + s)%Q).

(** The area that the box of corner [origin] and side [size] shares with
    the cell of corner [nodeOrigin] and side [nodeSize]. *)
Definition overlap (origin : Point2) (size : Float) (nodeOrigin : Point2)
    (nodeSize : Float) : Float :=
  computeOverlappingArea origin (boxMax origin size) nodeOrigin (boxMax nodeOrigin nodeSize).

End Energy.

(** ** The leaf that contains a point *)

Module Locate.
Import QuadTreeNode.

(** The descent shared by [eval], [depthAt] and [record]: the node and
    the slot of the leaf that contains [p], and the number of nodes on
    the way. *)
Fixpoint leafAt (fuel : nat) (nodes : list QuadTreeNode) (self : nat) (p : Point2)
  : option (nat * Z * Z) :=
  match fuel with
  | O => None
  | S fuel' =>
    nd ← nodes !! self;
    let '(index, p') := childIndex p in
    if isLeaf nd index then Some (self, index, 1)
    else '(m, i, d) ← leafAt fuel' nodes (child nd index) p'; Some (m, i, 1 + d)
  end.

(** A point of the unit square, as [eval], [pdf], [depthAt] and [record]
    assert of their argument. *)
Definition inSquare (p : Point2) : Prop :=
  (0 <= fst p <= 1)%Q /\ (0 <= snd p <= 1)%Q.

End Locate.

Module Box.
Import QuadTreeNode Energy.

(** The corner of quadrant [i] of the cell of corner [nodeOrigin], for
    the quadrant side [childSize]. *)
Definition quadrant (nodeOrigin : Point2) (childSize : Float) (i : Z) : Point2 :=
  ((if Z.eqb (Z.land i 1) 0 then fst nodeOrigin else fst nodeOrigin + childSize)%Q,
   (if Z.eqb (Z.land i 2) 0 then snd nodeOrigin else snd nodeOrigin + childSize)%Q).

(** The length shared by two intervals, as [computeOverlappingArea]
    forms it. *)
Definition len (lo1 hi1 lo2 hi2 : Q) : Q :=
  std_max (std_min hi1 hi2 - std_max lo1 lo2)%Q 0%Q.

End Box.

(** ** Floored and positive quadtrees *)

Module Floor.
Import QuadTreeNode.

(** At the node [n] and below it, every leaf slot holds at least [irr]. *)
Inductive floored (irr : Float) (nodes : list QuadTreeNode) : nat -> Prop :=
| floored_node n nd :
    nodes !! n = Some nd ->
    (forall i, isLeaf nd i = true -> (irr <= sum nd i)%Q) ->
    (forall i, isLeaf nd i = false -> floored irr nodes (child nd i)) ->
    floored irr nodes n.

(** At the node [n] and below it, every slot holds a positive sum. *)
Inductive positive (nodes : list QuadTreeNode) : nat -> Prop :=
| positive_node n nd :
    nodes !! n = Some nd ->
    (forall i, (0 < sum nd i)%Q) ->
    (forall i, isLeaf nd i = false -> positive nodes (child nd i)) ->
    positive nodes n.

(** [nodes'] has the child links of [nodes] and no smaller sum. *)
Definition raised (nodes nodes' : list QuadTreeNode) : Prop :=
  m_children <$> nodes' = m_children <$> nodes /\
  forall m nd nd', nodes !! m = Some nd -> nodes' !! m = Some nd' ->
    forall i, (sum nd i <= sum nd' i)%Q.

End Floor.

(** ** The dual walks on one tree *)

Module SelfWalk.
Import DTree.

(** A stack entry whose two sides coincide. *)
Definition symmetric (e : NodePair) : Prop :=
  nodeIndex e = otherNodeIndex e /\ nodeFactor e = otherNodeFactor e.

End SelfWalk.

Module ValidWalk.
Import QuadTreeNode DTree.

(** No sum of the vector is negative. *)
Definition nonnegSums (nodes : list QuadTreeNode) : Prop :=
  forall m nd i, nodes !! m = Some nd -> (0 <= sum nd i)%Q.

(** The termination measure of the walk of [validateMajorizingFactor],
    in which one side may stay on a leaf while the other descends. *)
Definition weight2 (len olen : nat) (e : NodePair) : nat :=
  5 ^ ((len - (nodeIndex e).1) + (olen - (otherNodeIndex e).1)).

Definition stackWeight2 (len olen : nat) (stack : list NodePair) : nat :=
  foldr (fun e acc => (weight2 len olen e + acc)%nat) 0%nat stack.

End ValidWalk.

(** ** Sampling a quadtree *)

Module Sampled.
Import QuadTreeNode.

(** A sampler whose values lie in [[0, 1)]. *)
Definition unitSampler {Sampler : Type} (next1D : Sampler -> Float * Sampler)
    (next2D : Sampler -> Point2 * Sampler) : Prop :=
  forall s, (0 <= (next1D s).1 < 1)%Q /\
            (0 <= fst (next2D s).1 < 1)%Q /\ (0 <= snd (next2D s).1 < 1)%Q.

Definition inUnit (p : Point2) : Prop := (0 <= fst p < 1)%Q /\ (0 <= snd p < 1)%Q.

(** Two points with equal coordinates. *)
Definition samePoint (p q : Point2) : Prop := (fst p == fst q)%Q /\ (snd p == snd q)%Q.

(** The quadrant that [sample] picks in the node [nd] for the random
    number [sample0]: its corner and its slot. *)
Definition pick (nd : QuadTreeNode) (sample0 : Float) : option (Point2 * Z) :=
  let index := 0 in
  let topLeft := sum nd 0 in
  let topRight := sum nd 1 in
  let partial := (topLeft + sum nd 2)%Q in
  let total := (partial + topRight + sum nd 3)%Q in
  let boundary := (partial / total)%Q in
  let origin : Point2 := (0%Q, 0%Q) in
  '(sample1, boundary, origin, index) ←
    (if Qltb sample0 boundary
     then
       if Qltb 0 partial
       then Some ((sample0 / boundary)%Q, (topLeft / partial)%Q, origin, index)
       else None
     else
       let partial := (total - partial)%Q in
       if Qltb 0 partial
       then Some (((sample0 - boundary) / (1 - boundary))%Q, (topRight / partial)%Q,
                  ((1 # 2)%Q, snd origin), Z.lor index (Z.shiftl 1 0))
       else None);
  Some (if Qltb sample1 boundary then (origin, index)
        else ((fst origin, (1 # 2)%Q), Z.lor index (Z.shiftl 1 1))).

(** The corner of the quadrant of slot [index]. *)
Definition cornerOf (index : Z) (origin : Point2) : Prop :=
  (index = 0 /\ origin = (0%Q, 0%Q)) \/ (index = 1 /\ origin = ((1 # 2)%Q, 0%Q)) \/
  (index = 2 /\ origin = (0%Q, (1 # 2)%Q)) \/ (index = 3 /\ origin = ((1 # 2)%Q, (1 # 2)%Q)).

End Sampled.

(** ** The walk of [reset] *)

Module ResetWalk.
Import QuadTreeNode DTree.

(** No sum of the node is above [(1 + Epsilon) * total] when [total] is
    above [FLT_MIN]: the assertion on [fraction] holds for its slots. *)
Definition bounded (Epsilon total : Float) (nd : QuadTreeNode) : Prop :=
  Qltb FLT_MIN total = true -> forall i, (sum nd i <= (1 + Epsilon) * total)%Q.

(** A stack entry of [reset]: its node exists, has no child yet and is
    bounded; the node it copies from is that node itself or a node of the
    previous tree. *)
Definition entryOk (Epsilon total : Float) (previous nodes : list QuadTreeNode)
    (e : StackNode) : Prop :=
  1 <= sn_depth e /\
  (exists nd, nodes !! sn_nodeIndex e = Some nd /\ (forall i, child nd i = 0%nat) /\
              bounded Epsilon total nd) /\
  if otherIsThis e then sn_otherNodeIndex e = sn_nodeIndex e
  else (sn_otherNodeIndex e < length previous)%nat.

(** The termination measure: every push also allocates a node, and the
    walk stops at 65536 nodes. *)
Definition resetMeasure (st : ResetState) : Z :=
  2 * (65536 - Z.of_nat (length st.1.1)) + Z.of_nat (length st.1.2).

(** The invariant of the inner loop while the node [k] is filled, for a
    vector whose capacity suffices for 65536 nodes. *)
Definition slotsInv (Epsilon total : Float) (previous : list QuadTreeNode) (k : nat)
    (st : ResetState) : Prop :=
  65536 <= Z.of_nat st.2 /\
  Z.of_nat (length st.1.1) <= 65535 /\ WF.wfNodes st.1.1 /\ (k < length st.1.1)%nat /\
  Forall (entryOk Epsilon total previous st.1.1) st.1.2 /\
  NoDup (sn_nodeIndex <$> st.1.2) /\
  (k ∉ (sn_nodeIndex <$> st.1.2)).

(** The invariant between two iterations of the outer loop. *)
Definition resetInv (Epsilon total : Float) (previous : list QuadTreeNode)
    (st : ResetState) : Prop :=
  65536 <= Z.of_nat st.2 /\
  (1 <= length st.1.1)%nat /\ Z.of_nat (length st.1.1) <= 65536 /\
  (st.1.2 <> [] -> Z.of_nat (length st.1.1) <= 65535) /\
  WF.wfNodes st.1.1 /\ Forall (entryOk Epsilon total previous st.1.1) st.1.2 /\
  NoDup (sn_nodeIndex <$> st.1.2).

End ResetWalk.

(** ** The walk of [buildUnmajorizedAugmented] *)

Module UnmajWalk.
Import QuadTreeNode DTree.

(** A stack entry refers to existing nodes of the three vectors. *)
Definition validUm (oldDist newDist nodes : list QuadTreeNode) (e : UnmajPair) : Prop :=
  (um_newNodeIndex e < length newDist)%nat /\ (um_oldNodeIndex e < length oldDist)%nat /\
  (um_nodeIdx e < length nodes)%nat.

Definition umWeight (len : nat) (stack : list UnmajPair) : nat :=
  foldr (fun e acc => (5 ^ (len - um_newNodeIndex e) + acc)%nat) 0%nat stack.

(** The invariant of the loop: the vector is well formed and holds no
    negative sum. *)
Definition umInv (oldDist newDist : list QuadTreeNode) (st : UnmajState) : Prop :=
  WF.wfNodes st.1 /\ ValidWalk.nonnegSums st.1 /\
  Forall (validUm oldDist newDist st.1) st.2.

(** No leaf slot holds a negative sum. *)
Definition leafNonneg (nodes : list QuadTreeNode) : Prop :=
  forall m nd i, nodes !! m = Some nd -> isLeaf nd i = true -> (0 <= sum nd i)%Q.

(** A stack entry whose two sides coincide. *)
Definition symmetricUm (e : UnmajPair) : Prop :=
  um_newNodeIndex e = um_oldNodeIndex e /\ um_newNodeFactor e = um_oldNodeFactor e.

(** Every sum is 0; every sum of a leaf slot is 0. *)
Definition zeroSums (nodes : list QuadTreeNode) : Prop :=
  forall m nd i, nodes !! m = Some nd -> (sum nd i == 0)%Q.

Definition leafZero (nodes : list QuadTreeNode) : Prop :=
  forall m nd i, nodes !! m = Some nd -> isLeaf nd i = true -> (sum nd i == 0)%Q.

(** The mean density below the node [k], which [computeIntegral]
    returns for the root: the mean of the four slots, a leaf slot
    counting its sum and any other slot the mean below its child. *)
Fixpoint potential (fuel : nat) (nodes : list QuadTreeNode) (k : nat) : Float :=
  match fuel with
  | O => 0%Q
  | S fuel' =>
    match nodes !! k with
    | None => 0%Q
    | Some nd =>
      let v (i : Z) := if isLeaf nd i then sum nd i
                       else potential fuel' nodes (child nd i) in
      ((v 0%Z + v 1%Z + v 2%Z + v 3%Z) / 4)%Q
    end
  end.

End UnmajWalk.

(** ** Complete spatial trees *)

Module Heap.
Import STreeNode STree Reach.

(** The complete binary tree of [L] levels below the root, in heap
    order: [2 ^ (L + 1) - 1] nodes, the first [2 ^ L - 1] of them split
    with the children [2 j + 1] and [2 j + 2], the others leaves on level
    [L]. *)
Definition complete (L : nat) (nodes : list STreeNode) : Prop :=
  length nodes = (2 ^ S L - 1)%nat /\
  forall j nd, nodes !! j = Some nd ->
    0 <= axis nd < 3 /\
    ((j < 2 ^ L - 1)%nat ->
     isLeaf nd = false /\ children nd = (2 * j + 1, 2 * j + 2)%nat) /\
    ((2 ^ L - 1 <= j)%nat ->
     isLeaf nd = true /\ level nd = Z.of_nat L /\ axis nd = Z.of_nat L mod 3).

(** The state of [subdivideAll] on a complete tree of first leaf [f]
    after the nodes below [k] were visited. *)
Definition visitedTo (nodes : list STreeNode) (f k : nat) (x : list STreeNode) : Prop :=
  length x = (length nodes + 2 * (k - f))%nat /\
  (forall j, (j < f \/ k <= j)%nat -> (j < length nodes)%nat -> x !! j = nodes !! j) /\
  (forall j nd, (f <= j < k)%nat -> nodes !! j = Some nd ->
     x !! j = Some (mkSNode false DTreeWrapper.empty (axis nd)
                            (2 * j + 1, 2 * j + 2)%nat (level nd)) /\
     forall i, (i < 2)%nat ->
       x !! (2 * j + 1 + i)%nat =
         Some (mkSNode true (halved (dTree nd)) ((axis nd + 1) mod 3) (0%nat, 0%nat)
                       (level nd + 1))).

End Heap.

(** ** The spatial lookup *)

Module Spatial.
Import STreeNode.

(** Children are allocated after their parent, and the root is the
    node of level 0 on axis 0. *)
Definition ordered (nodes : list STreeNode) : Prop :=
  (exists r, nodes !! 0%nat = Some r /\ level r = 0 /\ axis r = 0) /\
  forall n nd, nodes !! n = Some nd -> isLeaf nd = false ->
    forall i, (n < getChild nd i < length nodes)%nat.

(** A point of the unit cube. *)
Definition inCube (p : Point) : Prop := forall a, (0 <= get3 p a <= 1)%Q.

(** The volume of a box given by its extents. *)
Definition volume (size : Vector) : Q := (size.1.1 * size.1.2 * size.2)%Q.

End Spatial.

(** ** The walk of [refine] *)

Module Refined.
Import STreeNode STree.

(** [b] is the node [a] or a node below it. *)
Inductive below (nodes : list STreeNode) : nat -> nat -> Prop :=
| below_refl a : below nodes a a
| below_child a nd i b :
    nodes !! a = Some nd -> isLeaf nd = false ->
    below nodes (getChild nd i) b -> below nodes a b.

(** A leaf for which [shallSplit] is false in a vector of [len] nodes. *)
Definition settled (sTreeThreshold : Z) (len : nat) (nd : STreeNode) : Prop :=
  UINT32_MAX - 1 <= Z.of_nat len \/
  (DTreeWrapper.statisticalWeightBuilding (dTree nd) <= floatOfSize sTreeThreshold)%Q.

(** The termination measure of the walk of [refine], for a bound [M] on
    the number of nodes. *)
Definition refineMeasure (M : nat) (stack : list (nat * Z)) : nat :=
  foldr (fun e acc => (3 ^ (M - e.1) + acc)%nat) 0%nat stack.

(** The invariant of the loop of [refine] started on [nodes0]: every
    leaf is settled or lies below a node of the stack. *)
Definition refineInv (sTreeThreshold : Z) (staticSTree : bool)
    (nodes0 nodes : list STreeNode) (stack : list (nat * Z)) : Prop :=
  Reach.reachable nodes /\
  Z.of_nat (length nodes) <= UINT32_MAX /\
  Forall (fun e => (e.1 < length nodes)%nat) stack /\
  (staticSTree = true -> nodes = nodes0) /\
  (staticSTree = false ->
   forall idx nd, nodes !! idx = Some nd -> isLeaf nd = true ->
     settled sTreeThreshold (length nodes) nd \/
     exists e, e ∈ stack /\ below nodes e.1 idx).

End Refined.

(** ** Replayed paths *)

Module Retained.

(** A replay rewrites [woPdf] and [sc] of a vertex and nothing else. *)
Definition rewritten (v v' : RVertex) : Prop :=
  v' = mkRVertex (rv_o v) (rv_d v) (rv_time v) (rv_bsdfVal v) (rv_bsdfPdf v)
                 (rv_woPdf v') (rv_isDelta v) (rv_sc v').

(** What a replay pass makes of an active path [p], for a relation [Rv]
    between a vertex and its replayed version: the path is either
    cleared and deactivated, or kept active with every vertex replayed
    and the records untouched. *)
Definition replayed (Rv : RVertex -> RVertex -> Prop) (p p' : RPath) : Prop :=
  sample_pos p' = sample_pos p /\ iter p' = iter p /\
  ((active p' = false /\ path p' = [] /\ radiance_records p' = [] /\ nee_records p' = []) \/
   (active p' = true /\ Forall2 Rv (path p) (path p') /\
    radiance_records p' = radiance_records p /\ nee_records p' = nee_records p)).

(** The outcome of a pass over the buffer [paths] up to [bound]: the
    active paths below [bound] are replayed, all others are unchanged. *)
Definition passed (Rv : RVertex -> RVertex -> Prop) (bound : nat)
    (paths paths' : list RPath) : Prop :=
  length paths' = length paths /\
  forall i p, paths !! i = Some p ->
    exists p', paths' !! i = Some p' /\
      if decide (i < bound)%nat then
        if active p then replayed Rv p p' else p' = p
      else p' = p.

(** A vertex loop that, unless it terminates the path, consumes all
    vertices and appends their replayed versions. *)
Definition loopOk {World DTreeRef : Type} (Rv : RVertex -> RVertex -> Prop)
    (L : Z -> list RVertex -> Replay.LoopState World DTreeRef ->
         Replay.LoopState World DTreeRef * list RVertex * bool) : Prop :=
  forall rest j st st' rest',
    L j rest st = (st', rest', false) ->
    rest' = [] /\
    exists vs, Replay.ls_done _ _ st' = Replay.ls_done _ _ st ++ vs /\ Forall2 Rv rest vs.

End Retained.

Module Weights.

(** The weight of a replayed vertex is not negative and not above the
    old one, when the old weight is not negative and the old pdf is
    positive. *)
Definition lowered (v v' : RVertex) : Prop :=
  (0 <= rv_sc v)%Q -> (0 < rv_woPdf v)%Q ->
  (0 <= rv_sc v')%Q /\ (rv_sc v' <= rv_sc v)%Q.

(** The weight of a replayed vertex is not below the old one, when the
    old weight is not negative. *)
Definition raisedWeight (v v' : RVertex) : Prop :=
  (0 <= rv_sc v)%Q -> (rv_sc v <= rv_sc v')%Q.

(** The weight is scaled by the ratio of the new pdf to the old one. *)
Definition rescaled (v v' : RVertex) : Prop :=
  rv_sc v' = (rv_sc v * (rv_woPdf v' / rv_woPdf v))%Q.

(** [getAugmentedMultiplier()] returns a value between 0 and 1. *)
Definition unitMultiplier {World DTreeRef : Type}
    (getAugmentedMultiplier : World -> DTreeRef -> Float) : Prop :=
  forall world dTree, (0 <= getAugmentedMultiplier world dTree <= 1)%Q.

(** The new pdf is at least [EPSILON]. *)
Definition supported (v v' : RVertex) : Prop := (EPSILON <= rv_woPdf v')%Q.

End Weights.

(** * Properties *)

(** ** Floats and arrays *)

Lemma Qltb_lt (x y : Q) : Qltb x y = true <-> (x < y)%Q.
Proof.
  unfold Qltb. rewrite negb_true_iff, <- not_true_iff_false, Qle_bool_iff.
  split; [apply Qnot_le_lt | apply Qlt_not_le].
Qed.

Lemma Qltb_ge (x y : Q) : Qltb x y = false <-> (y <= x)%Q.
Proof.
  unfold Qltb. rewrite negb_false_iff, Qle_bool_iff. reflexivity.
Qed.

Lemma std_max_ge_r (a b : Q) : (b <= std_max a b)%Q.
Proof.
  unfold std_max. destruct (Qltb a b) eqn:E; [apply Qle_refl | by apply Qltb_ge].
Qed.

Lemma std_max_ge_l (a b : Q) : (a <= std_max a b)%Q.
Proof.
  unfold std_max. destruct (Qltb a b) eqn:E; [| apply Qle_refl].
  apply Qlt_le_weak. by apply Qltb_lt.
Qed.

Lemma slot_cases (i : Z) : slot i = 0 \/ slot i = 1 \/ slot i = 2 \/ slot i = 3.
Proof. unfold slot. repeat case_match; auto. Qed.

Lemma get4_slot {A} (a : Arr4 A) (i : Z) : get4 a (slot i) = get4 a i.
Proof. unfold get4, slot. repeat case_match; try reflexivity; lia. Qed.

Lemma get4_set4_eq {A} (a : Arr4 A) (i : Z) (v : A) : get4 (set4 a i v) i = v.
Proof. unfold get4, set4. repeat case_match; try reflexivity; lia. Qed.

Lemma get4_set4_ne {A} (a : Arr4 A) (i j : Z) (v : A) :
  slot i <> slot j -> get4 (set4 a i v) j = get4 a j.
Proof. unfold get4, set4, slot. repeat case_match; simpl; intros; try reflexivity; lia. Qed.

Lemma set4_get4 {A} (a : Arr4 A) (i : Z) : set4 a i (get4 a i) = a.
Proof. destruct a. unfold get4, set4. repeat case_match; reflexivity. Qed.

(** The loop rule of [for4]: an invariant indexed by the number of
    iterations done. *)
Lemma for4_inv {S : Type} (body : Z -> S -> option S) (I : Z -> S -> Prop) (s s' : S) :
  I 0 s ->
  (forall i x y, 0 <= i < 4 -> I i x -> body i x = Some y -> I (i + 1) y) ->
  for4 body s = Some s' -> I 4 s'.
Proof.
  intros H0 Hstep. unfold for4. intros H.
  destruct (body 0 s) as [s1|] eqn:E0; [simpl in H | done].
  destruct (body 1 s1) as [s2|] eqn:E1; [simpl in H | done].
  destruct (body 2 s2) as [s3|] eqn:E2; [simpl in H | done].
  apply (Hstep 0) in E0; [| lia | done].
  apply (Hstep 1) in E1; [| lia | done].
  apply (Hstep 2) in E2; [| lia | done].
  apply (Hstep 3) in H; [done | lia | done].
Qed.

(** [for4] returns when every iteration does. *)
Lemma for4_total {S : Type} (body : Z -> S -> option S) (I : Z -> S -> Prop) (s : S) :
  I 0 s ->
  (forall i x, 0 <= i < 4 -> I i x -> exists y, body i x = Some y /\ I (i + 1) y) ->
  exists s', for4 body s = Some s' /\ I 4 s'.
Proof.
  intros H0 Hstep. unfold for4.
  destruct (Hstep 0 s) as (s1 & E0 & I1); [lia | done |].
  destruct (Hstep 1 s1) as (s2 & E1 & I2); [lia | done |].
  destruct (Hstep 2 s2) as (s3 & E2 & I3); [lia | done |].
  destruct (Hstep 3 s3) as (s4 & E3 & I4); [lia | done |].
  exists s4. rewrite E0; simpl. rewrite E1; simpl. rewrite E2; simpl. done.
Qed.

(** ** Well-formed quadtrees *)

Module WFFacts.
Import QuadTreeNode WF.

Lemma wfNodesb_sound nodes : wfNodesb nodes = true -> wfNodes nodes.
Proof.
  unfold wfNodesb. rewrite forallb_forall. intros H n nd i Hn.
  specialize (H (n, nd)). simpl in H.
  assert (Hin : In (n, nd) (imap pair nodes)).
  { apply list_elem_of_In, list_elem_of_lookup. exists n.
    rewrite list_lookup_imap, Hn. done. }
  apply H in Hin. rewrite !andb_true_iff in Hin.
  destruct Hin as [[[H0 H1] H2] H3].
  assert (Hs : wfSlotb (length nodes) n nd (slot i) = true).
  { destruct (slot_cases i) as [-> | [-> | [-> | ->]]]; done. }
  unfold wfSlotb, child in Hs. rewrite get4_slot in Hs.
  apply orb_true_iff in Hs as [Hs | Hs].
  - left. by apply Nat.eqb_eq.
  - right. apply andb_true_iff in Hs as [Ha Hb].
    apply Nat.ltb_lt in Ha, Hb. unfold child. lia.
Qed.

Lemma wfDTreeb_sound t : wfDTreeb t = true -> wfDTree t.
Proof.
  unfold wfDTreeb, wfDTree. rewrite andb_true_iff, Nat.ltb_lt.
  intros [? ?]. split; [done | by apply wfNodesb_sound].
Qed.

(** Well-formedness only depends on the child links. *)
Lemma wfNodes_shape nodes nodes' :
  m_children <$> nodes' = m_children <$> nodes -> wfNodes nodes -> wfNodes nodes'.
Proof.
  intros Hs Hwf n nd i Hn.
  assert (Hl : length nodes' = length nodes).
  { rewrite <- (length_fmap m_children nodes'), Hs. apply length_fmap. }
  assert (Hc : (m_children <$> nodes) !! n = Some (m_children nd)).
  { rewrite <- Hs, list_lookup_fmap, Hn. done. }
  rewrite list_lookup_fmap in Hc.
  destruct (nodes !! n) as [nd0|] eqn:E0; [| done].
  simpl in Hc. injection Hc as Hc.
  specialize (Hwf n nd0 i E0). unfold child in *. rewrite <- Hc, Hl. done.
Qed.

Lemma nonleaf_child nodes n nd i :
  wfNodes nodes -> nodes !! n = Some nd -> isLeaf nd i = false ->
  (n < child nd i < length nodes)%nat.
Proof.
  intros Hwf Hn El. destruct (Hwf n nd i Hn) as [Hz | ?]; [| lia].
  unfold isLeaf in El. apply Nat.eqb_neq in El. lia.
Qed.

End WFFacts.

(** ** build *)

Module BuildFacts.
Import QuadTreeNode WF Built WFFacts.

Lemma setSum_same nd i : setSum nd i (sum nd i) = nd.
Proof. destruct nd. unfold setSum, sum. simpl. by rewrite set4_get4. Qed.

Lemma child_setSum nd i j v : child (setSum nd i v) j = child nd j.
Proof. reflexivity. Qed.

Lemma isLeaf_setSum nd i j v : isLeaf (setSum nd i v) j = isLeaf nd j.
Proof. reflexivity. Qed.

Lemma sum_setSum_eq nd i v : sum (setSum nd i v) i = v.
Proof. apply get4_set4_eq. Qed.

Lemma sum_setSum_ne nd i j v : slot i <> slot j -> sum (setSum nd i v) j = sum nd j.
Proof. apply get4_set4_ne. Qed.

Lemma sum_slot nd i : sum nd (slot i) = sum nd i.
Proof. apply get4_slot. Qed.

Lemma child_slot nd i : child nd (slot i) = child nd i.
Proof. apply get4_slot. Qed.

Lemma isLeaf_slot nd i : isLeaf nd (slot i) = isLeaf nd i.
Proof. unfold isLeaf. by rewrite child_slot. Qed.

(** *** [build] keeps the child links *)

Lemma buildSlot_shape rec self i nodes nodes' :
  (forall c x y, rec c x = Some y -> m_children <$> y = m_children <$> x) ->
  buildSlot rec self i nodes = Some nodes' ->
  m_children <$> nodes' = m_children <$> nodes.
Proof.
  intros Hrec. unfold buildSlot. intros H.
  destruct (nodes !! self) as [nd|] eqn:En; [simpl in H | done].
  destruct (isLeaf nd i); [by simplify_eq |].
  destruct (rec (child nd i) nodes) as [nodes1|] eqn:Er; [simpl in H | done].
  destruct (nodes1 !! child nd i) as [c|] eqn:Ec; [simpl in H | done].
  destruct (nodes1 !! self) as [nd1|] eqn:En1; [simpl in H | done].
  simplify_eq. rewrite list_fmap_insert. simpl.
  rewrite list_insert_id; [by eapply Hrec |].
  rewrite list_lookup_fmap, En1. done.
Qed.

Lemma build_shape fuel : forall self nodes nodes',
  build fuel self nodes = Some nodes' ->
  m_children <$> nodes' = m_children <$> nodes.
Proof.
  induction fuel as [|fuel IH]; intros self nodes nodes' H; [done |].
  simpl in H.
  apply (for4_inv _ (fun _ x => m_children <$> x = m_children <$> nodes)) in H; try done.
  intros i x y _ Hx Hb. rewrite <- Hx.
  eapply buildSlot_shape; [| exact Hb]. intros c x0 y0. apply IH.
Qed.

Lemma build_length fuel self nodes nodes' :
  build fuel self nodes = Some nodes' -> length nodes' = length nodes.
Proof.
  intros H%build_shape.
  rewrite <- (length_fmap m_children nodes'), H. apply length_fmap.
Qed.

Lemma build_wf fuel self nodes nodes' :
  build fuel self nodes = Some nodes' -> wfNodes nodes -> wfNodes nodes'.
Proof. intros H%build_shape. by apply wfNodes_shape. Qed.

(** *** [build] only writes at and after the node it is called on *)

Lemma build_frame fuel : forall self nodes nodes',
  wfNodes nodes ->
  build fuel self nodes = Some nodes' ->
  forall m, (m < self)%nat -> nodes' !! m = nodes !! m.
Proof.
  induction fuel as [|fuel IH]; intros self nodes nodes' Hwf H; [done |].
  simpl in H.
  apply (for4_inv _ (fun _ x => wfNodes x /\
           forall m, (m < self)%nat -> x !! m = nodes !! m)) in H; try done.
  - by destruct H.
  - intros i x y _ [Hwx Hx] Hb. split.
    { eapply wfNodes_shape; [| exact Hwx].
      eapply buildSlot_shape; [| exact Hb]. intros c x0 y0. apply build_shape. }
    intros m Hm. rewrite <- (Hx m Hm).
    unfold buildSlot in Hb.
    destruct (x !! self) as [nd|] eqn:En; [simpl in Hb | done].
    destruct (isLeaf nd i) eqn:El; [by simplify_eq |].
    destruct (build fuel (child nd i) x) as [nodes1|] eqn:Er; [simpl in Hb | done].
    destruct (nodes1 !! child nd i) as [c|] eqn:Ec; [simpl in Hb | done].
    destruct (nodes1 !! self) as [nd1|] eqn:En1; [simpl in Hb | done].
    simplify_eq. rewrite list_lookup_insert_ne by lia.
    eapply IH; [exact Hwx | exact Er |].
    destruct (Hwx self nd i En) as [Hz | Hlt]; [| lia].
    unfold isLeaf in El. apply Nat.eqb_neq in El. lia.
Qed.

(** *** Nodes that are built are left as they are *)

Lemma built_preserved nodes nodes' :
  (forall m, built nodes m -> nodes' !! m = nodes !! m) ->
  forall m, built nodes m -> built nodes' m.
Proof.
  intros Hsame m Hb. induction Hb as [n nd Hn Hch IH Hsum].
  apply (built_node _ n nd).
  - rewrite Hsame; [done |]. by apply (built_node _ n nd).
  - exact IH.
  - intros i c Hl Hc. rewrite Hsame in Hc by auto. by apply Hsum.
Qed.

Lemma build_keeps_built fuel : forall self nodes nodes',
  build fuel self nodes = Some nodes' ->
  forall m, built nodes m -> nodes' !! m = nodes !! m.
Proof.
  induction fuel as [|fuel IH]; intros self nodes nodes' H; [done |].
  simpl in H.
  refine (for4_inv _ (fun _ x => forall m, built nodes m -> x !! m = nodes !! m)
            _ _ _ _ H); [done |].
  clear H. intros i x y _ Hx Hb m Hm.
  assert (Hbx : forall k, built nodes k -> built x k) by (by apply built_preserved).
  rewrite <- (Hx m Hm).
  unfold buildSlot in Hb.
  destruct (x !! self) as [nd|] eqn:En; [simpl in Hb | done].
  destruct (isLeaf nd i) eqn:El; [by simplify_eq |].
  destruct (build fuel (child nd i) x) as [nodes1|] eqn:Er; [simpl in Hb | done].
  destruct (nodes1 !! child nd i) as [c|] eqn:Ec; [simpl in Hb | done].
  destruct (nodes1 !! self) as [nd1|] eqn:En1; [simpl in Hb | done].
  simplify_eq.
  destruct (decide (m = self)) as [-> | Hne].
  - (* the node itself was built: the stored sum is the one it has *)
    pose proof (Hbx _ Hm) as Hself. inversion Hself as [n nd' Hn' Hch Hsum]; subst.
    rewrite En in Hn'. injection Hn' as <-.
    pose proof (IH _ _ _ Er self Hself) as E1. rewrite En1, En in E1.
    injection E1 as ->.
    pose proof (IH _ _ _ Er _ (Hch i El)) as E2. rewrite Ec in E2.
    symmetry in E2. rewrite <- (Hsum i c El E2).
    rewrite setSum_same. rewrite list_insert_id by done. by rewrite En1.
  - rewrite list_lookup_insert_ne by done. eapply IH; [exact Er |]. by apply Hbx.
Qed.

Lemma built_fixpoint fuel : forall self nodes nodes',
  built nodes self -> build fuel self nodes = Some nodes' -> nodes' = nodes.
Proof.
  induction fuel as [|fuel IH]; intros self nodes nodes' Hb H; [done |].
  simpl in H.
  apply (for4_inv _ (fun _ x => x = nodes)) in H; try done.
  intros i x y _ -> Hs. unfold buildSlot in Hs.
  inversion Hb as [n nd Hn Hch Hsum]; subst.
  rewrite Hn in Hs. simpl in Hs.
  destruct (isLeaf nd i) eqn:El; [by simplify_eq |].
  destruct (build fuel (child nd i) nodes) as [nodes1|] eqn:Er; [simpl in Hs | done].
  apply IH in Er; [subst nodes1 | by apply Hch].
  destruct (nodes !! child nd i) as [c|] eqn:Ec; [simpl in Hs | done].
  rewrite Hn in Hs. simpl in Hs. simplify_eq.
  rewrite <- (Hsum i c El Ec), setSum_same. by apply list_insert_id.
Qed.


(** *** [build] makes the node it is called on built *)

Lemma built_insert_lt nodes n x m :
  wfNodes nodes -> built nodes m -> (n < m)%nat -> built (<[n := x]> nodes) m.
Proof.
  intros Hwf Hb. induction Hb as [k nd Hk Hch IH Hsum]. intros Hlt.
  assert (Hgt : forall i, isLeaf nd i = false -> (n < child nd i)%nat).
  { intros i El. destruct (Hwf k nd i Hk) as [Hz | ?]; [| lia].
    unfold isLeaf in El. apply Nat.eqb_neq in El. lia. }
  apply (built_node _ k nd).
  - rewrite list_lookup_insert_ne by lia. done.
  - intros i El. apply IH; auto.
  - intros i c El Hc. rewrite list_lookup_insert_ne in Hc by (specialize (Hgt i El); lia).
    by apply Hsum.
Qed.

Lemma buildSlot_establish fuel self i x y :
  wfNodes x ->
  (forall c x0 y0, wfNodes x0 -> build fuel c x0 = Some y0 -> built y0 c) ->
  buildSlot (build fuel) self i x = Some y ->
  slotBuilt y self i /\
  (forall j, slot j <> slot i -> slotBuilt x self j -> slotBuilt y self j).
Proof.
  intros Hwf IH Hb. unfold buildSlot in Hb.
  destruct (x !! self) as [nd|] eqn:En; [simpl in Hb | done].
  destruct (isLeaf nd i) eqn:El.
  { simplify_eq. split; [| done]. intros nd' Hn' El'. congruence. }
  destruct (build fuel (child nd i) x) as [nodes1|] eqn:Er; [simpl in Hb | done].
  destruct (nodes1 !! child nd i) as [cn|] eqn:Ec; [simpl in Hb | done].
  destruct (nodes1 !! self) as [nd1|] eqn:En1; [simpl in Hb | done].
  simplify_eq.
  assert (Hc : (self < child nd i)%nat).
  { destruct (Hwf self nd i En) as [Hz | ?]; [| lia].
    unfold isLeaf in El. apply Nat.eqb_neq in El. lia. }
  assert (Hwf1 : wfNodes nodes1) by (by eapply build_wf).
  assert (E1 : nd1 = nd).
  { pose proof (build_frame _ _ _ _ Hwf Er self Hc) as E. congruence. }
  subst nd1.
  assert (Hself : forall v, <[self := v]> nodes1 !! self = Some v).
  { intros v. apply list_lookup_insert_eq. by eapply lookup_lt_Some. }
  split.
  - intros nd' Hn' El'. rewrite Hself in Hn'. injection Hn' as <-.
    rewrite child_setSum. split.
    + apply built_insert_lt; [done | exact (IH _ _ _ Hwf Er) | done].
    + intros c Hcn. rewrite list_lookup_insert_ne in Hcn by lia.
      rewrite sum_setSum_eq. congruence.
  - intros j Hj Hok nd' Hn' El'. rewrite Hself in Hn'. injection Hn' as <-.
    rewrite isLeaf_setSum in El'. rewrite child_setSum.
    destruct (Hok nd En El') as [Hbj Hsj].
    assert (Hcj : (self < child nd j)%nat).
    { destruct (Hwf self nd j En) as [Hz | ?]; [| lia].
      unfold isLeaf in El'. apply Nat.eqb_neq in El'. lia. }
    pose proof (build_keeps_built _ _ _ _ Er) as Hkeep.
    split.
    + apply built_insert_lt; [done | | done]. by apply (built_preserved x).
    + intros c Hcn. rewrite list_lookup_insert_ne in Hcn by lia.
      rewrite Hkeep in Hcn by done.
      rewrite sum_setSum_ne by auto. by apply Hsj.
Qed.

Lemma build_establish fuel : forall self nodes nodes',
  wfNodes nodes -> build fuel self nodes = Some nodes' -> built nodes' self.
Proof.
  induction fuel as [|fuel IH]; intros self nodes nodes' Hwf H; [done |].
  simpl in H.
  assert (Hinv : wfNodes nodes' /\ m_children <$> nodes' = m_children <$> nodes /\
                 forall j, 0 <= j < 4 -> slotBuilt nodes' self j).
  { refine (for4_inv _ (fun k x => wfNodes x /\
              m_children <$> x = m_children <$> nodes /\
              forall j, 0 <= j < k -> slotBuilt x self j) _ _ _ _ H).
    { split; [done |]. split; [done |]. intros j Hj. lia. }
    clear H. intros i x y Hi (Hwx & Hsx & Hx) Hb.
    assert (Hsy : m_children <$> y = m_children <$> x).
    { eapply buildSlot_shape; [| exact Hb]. intros c x0 y0. apply build_shape. }
    destruct (buildSlot_establish _ _ _ _ _ Hwx (fun c x0 y0 => IH c x0 y0) Hb)
      as [Hnew Hold].
    split; [by eapply wfNodes_shape |]. split; [congruence |].
    intros j Hj. destruct (decide (j = i)) as [-> | Hne]; [done |].
    apply Hold; [| apply Hx; lia].
    unfold slot. repeat case_match; lia. }
  destruct Hinv as (Hwf' & Hs & Hslots).
  assert (Hlen : length nodes' = length nodes).
  { rewrite <- (length_fmap m_children nodes'), Hs. apply length_fmap. }
  destruct (nodes' !! self) as [nd|] eqn:En.
  - apply (built_node _ self nd En).
    + intros i El. rewrite <- child_slot. rewrite <- isLeaf_slot in El.
      eapply Hslots; [| exact En | exact El].
      destruct (slot_cases i) as [-> | [-> | [-> | ->]]]; lia.
    + intros i c El Hc. rewrite <- sum_slot. rewrite <- isLeaf_slot in El.
      rewrite <- child_slot in Hc.
      eapply Hslots; [| exact En | exact El | exact Hc].
      destruct (slot_cases i) as [-> | [-> | [-> | ->]]]; lia.
  - (* the node exists, since the first iteration looked it up *)
    exfalso. unfold for4 in H.
    destruct (buildSlot (build fuel) self 0 nodes) eqn:E0; [| done].
    unfold buildSlot in E0.
    destruct (nodes !! self) eqn:E; [| done].
    apply lookup_lt_Some in E. apply lookup_ge_None in En. lia.
Qed.

(** *** [build] returns on well-formed trees *)

Lemma build_total fuel : forall self nodes,
  wfNodes nodes -> (self < length nodes)%nat -> (length nodes <= self + fuel)%nat ->
  exists nodes', build fuel self nodes = Some nodes'.
Proof.
  induction fuel as [|fuel IH]; intros self nodes Hwf Hlt Hfuel; [lia |].
  simpl.
  destruct (for4_total (buildSlot (build fuel) self)
              (fun _ x => wfNodes x /\ length x = length nodes) nodes)
    as (nodes' & H & _); [done | | by exists nodes'].
  intros i x _ [Hwx Hlx].
  unfold buildSlot.
  destruct (lookup_lt_is_Some_2 x self) as [nd En]; [lia |].
  rewrite En. simpl.
  destruct (isLeaf nd i) eqn:El; [by exists x |].
  assert (Hc : (self < child nd i < length x)%nat).
  { destruct (Hwx self nd i En) as [Hz | ?]; [| lia].
    unfold isLeaf in El. apply Nat.eqb_neq in El. lia. }
  destruct (IH (child nd i) x) as [nodes1 Er]; [done | lia | lia |].
  rewrite Er. simpl.
  pose proof (build_length _ _ _ _ Er) as Hl1.
  destruct (lookup_lt_is_Some_2 nodes1 (child nd i)) as [cn Ec]; [lia |].
  destruct (lookup_lt_is_Some_2 nodes1 self) as [nd1 En1]; [lia |].
  rewrite Ec, En1. simpl. eexists. split; [done |].
  split.
  - eapply wfNodes_shape; [| eapply build_wf; [exact Er | exact Hwx]].
    rewrite list_fmap_insert. simpl. apply list_insert_id.
    rewrite list_lookup_fmap, En1. done.
  - rewrite length_insert. lia.
Qed.

End BuildFacts.

(** C8. [DTree::build] is idempotent: on a well-formed tree it returns, and
    a second call right after the first returns the very same tree, with
    every slot sum of every node and the atomic root sum unchanged. *)
Theorem build_idempotent (fuel : nat) (t : DTree) :
  WF.wfDTree t -> (DTree.numNodes t <= fuel)%nat ->
  exists t1, DTree.build fuel t = Some t1 /\ DTree.build fuel t1 = Some t1.
Proof.
  intros [Hne Hwf] Hfuel. unfold DTree.build, DTree.numNodes in *.
  destruct (BuildFacts.build_total fuel 0 (m_nodes t)) as [nodes1 E1]; [done | done | lia |].
  rewrite E1. simpl.
  pose proof (BuildFacts.build_length _ _ _ _ E1) as Hl.
  destruct (lookup_lt_is_Some_2 nodes1 0) as [root Er]; [lia |].
  rewrite Er. simpl. eexists. split; [reflexivity |]. simpl.
  destruct (BuildFacts.build_total fuel 0 nodes1) as [nodes2 E2];
    [by eapply BuildFacts.build_wf | lia | lia |].
  rewrite E2. simpl.
  apply BuildFacts.built_fixpoint in E2; [| by eapply BuildFacts.build_establish].
  subst nodes2. rewrite Er. done.
Qed.

Lemma build_idempotent_witness :
  WF.wfDTree Examples.unbuilt /\ (DTree.numNodes Examples.unbuilt <= 2)%nat /\
  exists t1, DTree.build 2 Examples.unbuilt = Some t1 /\ DTree.build 2 t1 = Some t1.
Proof.
  assert (H : WF.wfDTree Examples.unbuilt) by (apply WFFacts.wfDTreeb_sound; reflexivity).
  split; [exact H |]. split; [cbv; lia |].
  apply (build_idempotent 2 Examples.unbuilt); [exact H | cbv; lia].
Defined.

(** ** pdf *)

Module PdfFacts.
Import QuadTreeNode WF Descent WFFacts.

(** [childIndex] selects the slot of the quadrant of [p] and folds [p]
    into the coordinates within it. *)
Lemma childIndex_slotOf p : childIndex p = (slotOf p, localPoint p).
Proof.
  destruct p as [x y]. unfold childIndex, slotOf, localPoint, within, upper, Qltb.
  simpl. by destruct (Qle_bool (1 # 2) x), (Qle_bool (1 # 2) y).
Qed.

(** The coordinates within the quadrant are a point of the unit square
    again, as [pdf] asserts of its argument in the child. *)
Lemma within_unit c : (0 <= c <= 1)%Q -> (0 <= within c <= 1)%Q.
Proof.
  intros [H0 H1]. unfold within, upper. destruct (Qle_bool (1 # 2) c) eqn:E.
  - apply Qle_bool_iff in E. split; lra.
  - assert (c < 1 # 2)%Q as Hc.
    { apply Qnot_le_lt. intros Hc. apply Qle_bool_iff in Hc. congruence. }
    split; lra.
Qed.

Lemma total_sumAt nd : total nd = (sumAt nd 0 + sumAt nd 1 + sumAt nd 2 + sumAt nd 3)%Q.
Proof. reflexivity. Qed.

Lemma pdf_descent fuel : forall nodes self p level curr v cl,
  pdf fuel nodes self p level curr = Some (v, cl) ->
  (v == pathPdf (descent fuel nodes self p level curr))%Q.
Proof.
  induction fuel as [|fuel IH]; intros nodes self p level curr v cl H; [done |].
  simpl in H. simpl.
  destruct (nodes !! self) as [nd|] eqn:En; [simpl in H | done].
  rewrite childIndex_slotOf in H. set (index := slotOf p) in *.
  unfold pathPdf. simpl. unfold nonPositive at 1. simpl.
  change (sum nd index) with (sumAt nd index) in H.
  unfold Qltb in H at 1. rewrite negb_involutive in H.
  destruct (Qle_bool (sumAt nd index) 0) eqn:Epos; simpl in H |- *.
  { simplify_eq. reflexivity. }
  rewrite total_sumAt in H.
  change (isLeaf nd index) with (childAt nd index =? 0)%nat in H.
  change (child nd index) with (childAt nd index) in H.
  destruct ((childAt nd index =? 0)%nat || (level =? curr)) eqn:Estop.
  { simplify_eq. simpl. unfold factor. simpl. ring. }
  destruct (pdf fuel nodes (childAt nd index) (localPoint p) level (curr + 1))
    as [[r cl']|] eqn:Er; [simpl in H | done].
  simplify_eq. apply IH in Er. unfold pathPdf in Er.
  destruct (existsb nonPositive _); rewrite Er; unfold factor; simpl; ring.
Qed.

Lemma pdf_total fuel : forall nodes self p level curr,
  wfNodes nodes -> (self < length nodes)%nat -> (length nodes <= self + fuel)%nat ->
  exists v cl, pdf fuel nodes self p level curr = Some (v, cl).
Proof.
  induction fuel as [|fuel IH]; intros nodes self p level curr Hwf Hlt Hfuel; [lia |].
  simpl.
  destruct (lookup_lt_is_Some_2 nodes self) as [nd En]; [lia |].
  rewrite En. simpl. destruct (childIndex p) as [index p'].
  destruct (Qltb 0 (sum nd index)); simpl; [| by eauto].
  destruct (isLeaf nd index) eqn:El; simpl; [by eauto |].
  destruct (level =? curr); [by eauto |].
  assert (Hc : (self < child nd index < length nodes)%nat).
  { destruct (Hwf self nd index En) as [Hz | ?]; [| lia].
    unfold isLeaf in El. apply Nat.eqb_neq in El. lia. }
  destruct (IH nodes (child nd index) p' level (curr + 1)) as (r & cl & Er);
    [done | lia | lia |].
  rewrite Er. simpl. eauto.
Qed.

(** A sum that is neither positive nor negative is zero, and so is its
    factor: without negative sums the value of a descent is the product
    of its factors. *)
Lemma pathPdf_nonneg steps :
  Forall (fun s => (0 <= sumAt s.1 s.2)%Q) steps ->
  (pathPdf steps == foldr (fun s acc => (factor s * acc)%Q) 1%Q steps)%Q.
Proof.
  unfold pathPdf. induction 1 as [|s steps Hs Hrest IH]; [reflexivity |]. simpl.
  unfold nonPositive at 1. destruct (Qle_bool (sumAt s.1 s.2) 0) eqn:E; simpl.
  - apply Qle_bool_iff in E.
    assert (Hz : (sumAt s.1 s.2 == 0)%Q) by (by apply Qle_antisym).
    unfold factor. rewrite Hz. unfold Qdiv. ring.
  - destruct (existsb nonPositive steps); [| reflexivity].
    rewrite <- IH. ring.
Qed.

End PdfFacts.

(** C6. For a point [p] of the unit square, [QuadTreeNode::pdf] returns on
    a well-formed tree.  The value is 0 when the slot selected by [p] (in
    the node itself or further down the descent) has a non-positive sum,
    and otherwise the product of the factors
    [4 * sum[i] / (sum[0] + sum[1] + sum[2] + sum[3])] along the descent,
    which stops at a leaf slot or when [curr_level] equals [level].  The
    slot selected by [p] is the quadrant of [p], bit 0 for the half
    [1/2 <= x] and bit 1 for the half [1/2 <= y], and the descent goes on
    with the coordinates of [p] within that quadrant, which are a point of
    the unit square again.  When no selected sum is negative, the value is
    the product of the factors in both cases. *)
Theorem pdf_is_product_along_descent (fuel : nat) (nodes : list QuadTreeNode) (self : nat)
    (p : Point2) (level curr_level : Z) :
  WF.wfNodes nodes -> (self < length nodes)%nat -> (length nodes <= self + fuel)%nat ->
  Locate.inSquare p ->
  exists v cl,
    QuadTreeNode.pdf fuel nodes self p level curr_level = Some (v, cl) /\
    (v == Descent.pathPdf (Descent.descent fuel nodes self p level curr_level))%Q /\
    (forall nd, nodes !! self = Some nd ->
       (Descent.sumAt nd (Descent.slotOf p) <= 0)%Q -> v = 0%Q) /\
    (Forall (fun s => (0 <= Descent.sumAt s.1 s.2)%Q)
            (Descent.descent fuel nodes self p level curr_level) ->
     (v == foldr (fun s acc => (Descent.factor s * acc)%Q) 1%Q
                 (Descent.descent fuel nodes self p level curr_level))%Q) /\
    Locate.inSquare (Descent.localPoint p).
Proof.
  intros Hwf Hlt Hfuel [Hx Hy].
  destruct (PdfFacts.pdf_total fuel nodes self p level curr_level Hwf Hlt Hfuel)
    as (v & cl & H).
  exists v, cl. split; [done |]. split; [by eapply PdfFacts.pdf_descent |].
  split; [| split; [| split; by apply PdfFacts.within_unit]].
  - intros nd En Hneg. destruct fuel as [|fuel]; [done |].
    simpl in H. rewrite En in H. simpl in H.
    rewrite PdfFacts.childIndex_slotOf in H.
    apply Qle_bool_iff in Hneg.
    change (QuadTreeNode.sum nd (Descent.slotOf p))
      with (Descent.sumAt nd (Descent.slotOf p)) in H.
    unfold Qltb in H at 1. rewrite Hneg in H. simpl in H. by simplify_eq.
  - intros Hnn. rewrite (PdfFacts.pdf_descent _ _ _ _ _ _ _ _ H).
    by apply PdfFacts.pathPdf_nonneg.
Qed.

Lemma pdf_is_product_along_descent_witness :
  let nodes := m_nodes Examples.peaked in
  let p := (1 # 8, 1 # 8)%Q in
  WF.wfNodes nodes /\ (0 < length nodes)%nat /\ (length nodes <= 0 + 2)%nat /\
  Locate.inSquare p /\
  Descent.descent 2 nodes 0 p (-1) 0
    = [(mkNode (mkArr4 1 1 1 1)%Q (mkArr4 1%nat 0%nat 0%nat 0%nat), 0);
       (mkNode (mkArr4 1 0 0 0)%Q (mkArr4 0%nat 0%nat 0%nat 0%nat), 0)] /\
  exists v cl,
    QuadTreeNode.pdf 2 nodes 0 p (-1) 0 = Some (v, cl) /\ (v == 1 * (4 * 1))%Q.
Proof.
  intros nodes p.
  assert (H : WF.wfNodes nodes) by (apply WFFacts.wfNodesb_sound; reflexivity).
  assert (Hp : Locate.inSquare p) by (repeat split; discriminate).
  split; [exact H |]. split; [cbv; lia |]. split; [cbv; lia |]. split; [exact Hp |].
  split; [reflexivity |].
  destruct (pdf_is_product_along_descent 2 nodes 0 p (-1) 0 H
              ltac:(cbv; lia) ltac:(cbv; lia) Hp) as (v & cl & E & Hv & _).
  exists v, cl. split; [exact E |]. rewrite Hv. reflexivity.
Defined.

(** ** getMajorizingFactor *)

Module MajFacts.
Import QuadTreeNode DTree WF Walk WFFacts.

Lemma EPSILON_pos : (0 < EPSILON)%Q.
Proof. reflexivity. Qed.

(** One slot of the walk keeps the pair floored and pushes at most one
    entry, which lies further down in [this]. *)
Lemma majorizingSlot_step this other nodePair node otherNode denom otherDenom i
    pp l stk st' :
  wfNodes this -> wfNodes other ->
  this !! (nodeIndex nodePair).1 = Some node ->
  other !! (otherNodeIndex nodePair).1 = Some otherNode ->
  majorizingSlot nodePair node otherNode denom otherDenom i (pp, l, stk) = Some st' ->
  flooredPair pp ->
  flooredPair st'.1.1 /\
  (st'.2 = stk \/
   exists e, st'.2 = e :: stk /\ validPair this other e /\
             ((nodeIndex nodePair).1 < (nodeIndex e).1)%nat).
Proof.
  intros Hwf Hwfo Hn Ho H Hpp. unfold majorizingSlot in H.
  destruct (isLeaf node _) eqn:El; simpl in H.
  { destruct (Qltb l _); simplify_eq; simpl; [| by auto].
    split; [| by auto]. split; apply std_max_ge_r. }
  destruct (isLeaf otherNode _) eqn:Elo; simpl in H.
  { destruct (Qltb l _); simplify_eq; simpl; [| by auto].
    split; [| by auto]. split; apply std_max_ge_r. }
  simplify_eq. simpl. split; [done |]. right. eexists. split; [done |].
  unfold validPair, descend. simpl. rewrite El, Elo. simpl.
  pose proof (nonleaf_child _ _ _ _ Hwf Hn El).
  pose proof (nonleaf_child _ _ _ _ Hwfo Ho Elo). lia.
Qed.

Lemma weight_child len e e' :
  ((nodeIndex e).1 < (nodeIndex e').1)%nat -> ((nodeIndex e').1 < len)%nat ->
  (5 * weight len e' <= weight len e)%nat.
Proof.
  intros H1 H2. unfold weight.
  rewrite <- Nat.pow_succ_r'. apply Nat.pow_le_mono_r; lia.
Qed.

Lemma weight_pos len e : (0 < weight len e)%nat.
Proof. unfold weight. apply Nat.neq_0_lt_0. apply Nat.pow_nonzero. lia. Qed.

(** The walk returns, with a positive pair, from any valid stack. *)
Lemma majorizingLoop_total this other :
  wfNodes this -> wfNodes other ->
  forall N pp l stack,
    (stackWeight (length this) stack < N)%nat ->
    Forall (validPair this other) stack ->
    flooredPair pp ->
    exists fuel pp', majorizingLoop fuel this other (pp, l, stack) = Some pp' /\
                     flooredPair pp'.
Proof.
  intros Hwf Hwfo. induction N as [|N IH]; intros pp l stack Hw Hv Hpp; [lia |].
  destruct stack as [|e rest].
  { exists 1%nat, pp. done. }
  apply Forall_cons in Hv as [[Hvn Hvo] Hvr].
  destruct (lookup_lt_is_Some_2 this (nodeIndex e).1) as [node Hn]; [done |].
  destruct (lookup_lt_is_Some_2 other (otherNodeIndex e).1) as [onode Ho]; [done |].
  set (body := majorizingSlot e node onode (denomOf node (nodeIndex e))
                 (denomOf onode (otherNodeIndex e))).
  destruct (for4_total body
    (fun k st => flooredPair st.1.1 /\ Forall (validPair this other) st.2 /\
                 (5 * stackWeight (length this) st.2
                  <= 5 * stackWeight (length this) rest
                     + Z.to_nat k * weight (length this) e)%nat)
    (pp, l, rest)) as (st' & Hfor & Hpp' & Hv' & Hw').
  { simpl. split; [done |]. split; [done | lia]. }
  { intros i [[pp0 l0] stk0] Hi (Hp0 & Hv0 & Hw0). simpl in *.
    destruct (body i (pp0, l0, stk0)) as [st1|] eqn:Eb.
    2:{ unfold body, majorizingSlot in Eb. repeat case_match; done. }
    exists st1. split; [done |].
    destruct (majorizingSlot_step _ _ _ _ _ _ _ _ _ _ _ _ Hwf Hwfo Hn Ho Eb Hp0)
      as [Hp1 Hstk].
    split; [done |].
    replace (Z.to_nat (i + 1)) with (S (Z.to_nat i)) by lia.
    destruct Hstk as [-> | (e' & -> & Hve' & Hlt)].
    - split; [done | lia].
    - split; [by apply Forall_cons |]. simpl.
      pose proof (weight_child (length this) e e' Hlt (proj1 Hve')). lia. }
  destruct st' as [[pp' l'] stk']. simpl in *.
  destruct (IH pp' l' stk') as (fuel & r & Hloop & Hr); [| done | done |].
  { pose proof (weight_pos (length this) e). lia. }
  exists (S fuel), r. split; [| done].
  simpl. rewrite Hn, Ho. simpl. fold body. rewrite Hfor. simpl. done.
Qed.

(** More fuel does not change a result. *)
Lemma majorizingLoop_mono fuel : forall this other st r fuel',
  majorizingLoop fuel this other st = Some r -> (fuel <= fuel')%nat ->
  majorizingLoop fuel' this other st = Some r.
Proof.
  induction fuel as [|fuel IH]; intros this other st r fuel' H Hle; [done |].
  destruct fuel' as [|fuel']; [lia |].
  simpl in H |- *. destruct st as [[pp l] [|e rest]]; [done |].
  destruct (this !! (nodeIndex e).1) as [node|]; [simpl in H |- * | done].
  destruct (other !! (otherNodeIndex e).1) as [onode|]; [simpl in H |- * | done].
  destruct (for4 _ _) as [st'|]; [simpl in H |- * | done].
  apply IH; [done | lia].
Qed.

Lemma flooredPair_pos pp : flooredPair pp -> (0 < pp.1)%Q /\ (0 < pp.2)%Q.
Proof.
  intros [H1 H2]. split; (eapply Qlt_le_trans; [apply EPSILON_pos | done]).
Qed.

Lemma majorizingA_pos pp : flooredPair pp -> (0 < majorizingA pp)%Q.
Proof.
  intros [H1 H2]%flooredPair_pos. unfold majorizingA.
  destruct (Qltb pp.1 EPSILON && Qltb pp.2 EPSILON); [reflexivity |].
  apply Qlt_shift_div_l; [done |]. by rewrite Qmult_0_l.
Qed.

End MajFacts.

(** C10. On well-formed trees [getMajorizingFactor] returns, and both
    components of the returned pair are at least [EPSILON], hence strictly
    positive; the factor [A] that [buildAugmented] forms from the pair
    divides by a non-zero value and is positive. *)
Theorem getMajorizingFactor_positive (this other : DTree) :
  WF.wfDTree this -> WF.wfDTree other ->
  exists fuel pp,
    DTree.getMajorizingFactor fuel this other = Some pp /\
    (EPSILON <= pp.1)%Q /\ (EPSILON <= pp.2)%Q /\
    (0 < pp.1)%Q /\ (0 < pp.2)%Q /\ ~ (pp.1 == 0)%Q /\ (0 < DTree.majorizingA pp)%Q.
Proof.
  intros [Hne Hwf] [Hneo Hwfo]. unfold DTree.getMajorizingFactor.
  destruct (MajFacts.majorizingLoop_total (m_nodes this) (m_nodes other) Hwf Hwfo
              (S (Walk.stackWeight (length (m_nodes this))
                    [DTree.mkNodePair (0%nat, -1) (0%nat, -1) 1%Q 1%Q 0 0]))
              (1%Q, 1%Q) 0%Q [DTree.mkNodePair (0%nat, -1) (0%nat, -1) 1%Q 1%Q 0 0])
    as (fuel & pp & H & Hpp).
  - lia.
  - apply Forall_cons. split; [| done]. split; simpl; lia.
  - split; discriminate.
  - exists fuel, pp. destruct (MajFacts.flooredPair_pos pp Hpp) as [H1 H2].
    split; [done |]. split; [by destruct Hpp |]. split; [by destruct Hpp |].
    split; [done |]. split; [done |]. split.
    + intros E. rewrite E in H1. by apply Qlt_irrefl in H1.
    + by apply MajFacts.majorizingA_pos.
Qed.

Lemma getMajorizingFactor_positive_witness :
  WF.wfDTree Examples.uniform /\ WF.wfDTree Examples.peaked /\
  exists fuel pp,
    DTree.getMajorizingFactor fuel Examples.uniform Examples.peaked = Some pp /\
    (EPSILON <= pp.1)%Q /\ (EPSILON <= pp.2)%Q /\
    (0 < pp.1)%Q /\ (0 < pp.2)%Q /\ ~ (pp.1 == 0)%Q /\ (0 < DTree.majorizingA pp)%Q.
Proof.
  assert (H1 : WF.wfDTree Examples.uniform) by (apply WFFacts.wfDTreeb_sound; reflexivity).
  assert (H2 : WF.wfDTree Examples.peaked) by (apply WFFacts.wfDTreeb_sound; reflexivity).
  split; [exact H1 |]. split; [exact H2 |].
  apply (getMajorizingFactor_positive Examples.uniform Examples.peaked); [exact H1 | exact H2].
Defined.

(** ** STree *)

Module STreeFacts.
Import STreeNode STree Reach.

Lemma subdivideChild_eq nodeIdx i nodes cur c :
  let idx := Z.to_nat (Z.of_nat (length nodes) - 2 + i) in
  nodes !! nodeIdx = Some cur -> nodes !! idx = Some c -> idx <> nodeIdx ->
  subdivideChild nodeIdx i nodes =
    Some (<[idx := mkSNode (isLeaf c) (halved (dTree cur)) (Z.rem (axis cur + 1) 3)
                           (children c) (level cur + 1)]>
            (<[nodeIdx := setChild cur i idx]> nodes)).
Proof.
  intros idx Hcur Hc Hne. unfold subdivideChild. fold idx.
  pose proof (lookup_lt_Some _ _ _ Hcur) as Hlt.
  rewrite Hcur. simpl. rewrite list_lookup_insert_eq by done. simpl.
  rewrite list_lookup_insert_ne by done. rewrite Hc. simpl. done.
Qed.

Lemma subdivide_split nodes idx cur :
  nodes !! idx = Some cur -> 0 <= axis cur ->
  Z.of_nat (length nodes) + 2 <= UINT32_MAX ->
  exists nodes', subdivide idx nodes = Some nodes' /\ splitOf nodes idx cur nodes'.
Proof.
  intros Hcur Hax Hsize.
  pose proof (lookup_lt_Some _ _ _ Hcur) as Hlt.
  unfold subdivide. rewrite length_app. simpl.
  unfold UINT32_MAX in *.
  destruct (Z.gtb_spec (Z.of_nat (length nodes + 2)) 4294967295) as [E | _]; [lia |].
  set (nodes0 := nodes ++ [STreeNode.empty; STreeNode.empty]).
  assert (Hl0 : length nodes0 = (length nodes + 2)%nat).
  { unfold nodes0. rewrite length_app. done. }
  assert (H0 : nodes0 !! idx = Some cur).
  { unfold nodes0. by rewrite lookup_app_l. }
  assert (Hn0 : nodes0 !! length nodes = Some STreeNode.empty).
  { unfold nodes0. rewrite lookup_app_r by lia. by rewrite Nat.sub_diag. }
  assert (Hn1 : nodes0 !! S (length nodes) = Some STreeNode.empty).
  { unfold nodes0. rewrite lookup_app_r by lia.
    by replace (S (length nodes) - length nodes)%nat with 1%nat by lia. }
  (* first child *)
  assert (Hi0 : Z.to_nat (Z.of_nat (length nodes0) - 2 + 0) = length nodes) by lia.
  rewrite (subdivideChild_eq idx 0 nodes0 cur STreeNode.empty);
    rewrite ?Hi0; [| done | done | lia].
  simpl.
  set (nodes1 := <[length nodes := _]> (<[idx := _]> nodes0)).
  assert (Hl1 : length nodes1 = (length nodes + 2)%nat).
  { unfold nodes1. by rewrite !length_insert. }
  assert (H1 : nodes1 !! idx = Some (setChild cur 0 (length nodes))).
  { unfold nodes1. rewrite list_lookup_insert_ne by lia.
    by rewrite list_lookup_insert_eq by lia. }
  assert (H1n : nodes1 !! S (length nodes) = Some STreeNode.empty).
  { unfold nodes1. rewrite !list_lookup_insert_ne by lia. done. }
  (* second child *)
  assert (Hi1 : Z.to_nat (Z.of_nat (length nodes1) - 2 + 1) = S (length nodes)) by lia.
  rewrite (subdivideChild_eq idx 1 nodes1 (setChild cur 0 (length nodes)) STreeNode.empty);
    rewrite ?Hi1; [| done | done | lia].
  simpl.
  rewrite list_lookup_insert_ne by lia.
  rewrite list_lookup_insert_eq by lia. simpl.
  eexists. split; [reflexivity |].
  assert (Hrem : Z.rem (axis cur + 1) 3 = (axis cur + 1) mod 3).
  { apply Z.rem_mod_nonneg; lia. }
  unfold splitOf. split; [by rewrite !length_insert |]. split; [| split].
  - rewrite list_lookup_insert_eq by (rewrite !length_insert; lia). done.
  - intros i Hi. rewrite list_lookup_insert_ne by lia.
    destruct i as [|[|i]]; [| | lia].
    + rewrite Nat.add_0_r. rewrite list_lookup_insert_ne by lia.
      rewrite list_lookup_insert_ne by lia. unfold nodes1.
      rewrite list_lookup_insert_eq by (rewrite length_insert; lia).
      simpl. by rewrite Hrem.
    + replace (length nodes + 1)%nat with (S (length nodes)) by lia.
      rewrite list_lookup_insert_eq by (rewrite length_insert; lia).
      simpl. by rewrite Hrem.
  - intros m Hm Hlm. rewrite !list_lookup_insert_ne by lia.
    unfold nodes1. rewrite !list_lookup_insert_ne by lia.
    unfold nodes0. by rewrite lookup_app_l.
Qed.

(** Beyond the node limit [subdivide] only appends two unlinked nodes. *)
Lemma subdivide_full nodes idx :
  UINT32_MAX < Z.of_nat (length nodes) + 2 ->
  subdivide idx nodes = Some (nodes ++ [STreeNode.empty; STreeNode.empty]).
Proof.
  intros H. unfold subdivide. rewrite length_app. simpl.
  unfold UINT32_MAX in *.
  destruct (Z.gtb_spec (Z.of_nat (length nodes + 2)) 4294967295) as [_ | E]; [done | lia].
Qed.

Lemma axisCycle_clear : axisCycle clear.
Proof.
  intros n nd Hn. destruct n; simpl in Hn; [| done].
  injection Hn as <-. simpl. split; [lia | done].
Qed.

Lemma axisCycle_append nodes :
  axisCycle nodes -> axisCycle (nodes ++ [STreeNode.empty; STreeNode.empty]).
Proof.
  intros Hinv n nd Hn.
  destruct (decide (n < length nodes)%nat) as [Hlt | Hge].
  - rewrite lookup_app_l in Hn by done.
    destruct (Hinv n nd Hn) as [Hax Hnl]. split; [done |].
    intros El. destruct (Hnl El) as [Hd Hc]. split; [done |].
    intros i. destruct (Hc i) as (c & Hci & ?). exists c. split; [| done].
    rewrite lookup_app_l; [done | by eapply lookup_lt_Some].
  - rewrite lookup_app_r in Hn by lia.
    destruct (n - length nodes)%nat as [|[|k]]; simpl in Hn; [| | done];
      injection Hn as <-; simpl; (split; [lia | done]).
Qed.

Lemma axisCycle_split nodes idx cur nodes' :
  axisCycle nodes -> nodes !! idx = Some cur ->
  splitOf nodes idx cur nodes' -> axisCycle nodes'.
Proof.
  intros Hinv Hcur (Hlen & Hpar & Hch & Hother) n nd Hn.
  pose proof (lookup_lt_Some _ _ _ Hcur) as Hlt.
  destruct (Hinv idx cur Hcur) as [Haxc _].
  destruct (decide (n = idx)) as [-> | Hne].
  { rewrite Hpar in Hn. injection Hn as <-. simpl. split; [done |].
    intros _. split; [done |]. intros i.
    exists (mkSNode true (halved (dTree cur)) ((axis cur + 1) mod 3) (0%nat, 0%nat)
                    (level cur + 1)).
    split; [| done].
    unfold getChild. simpl. destruct (i =? 0).
    - rewrite <- (Hch 0%nat) by lia. f_equal. lia.
    - rewrite <- (Hch 1%nat) by lia. f_equal. lia. }
  destruct (decide (n < length nodes)%nat) as [Hn_lt | Hn_ge].
  - rewrite Hother in Hn by done.
    destruct (Hinv n nd Hn) as [Hax Hnl]. split; [done |].
    intros El. destruct (Hnl El) as [Hd Hc]. split; [done |].
    intros i. destruct (Hc i) as (c & Hci & Hca & Hcl).
    pose proof (lookup_lt_Some _ _ _ Hci) as Hclt.
    destruct (decide (getChild nd i = idx)) as [Hsame | Hdiff].
    + rewrite Hsame in *. rewrite Hcur in Hci. injection Hci as <-.
      eexists. split; [exact Hpar |]. done.
    + exists c. split; [| done]. by rewrite Hother.
  - apply lookup_lt_Some in Hn as Hn_lt'. rewrite Hlen in Hn_lt'.
    assert (Hi : exists i : nat, (i < 2)%nat /\ n = (length nodes + i)%nat).
    { exists (n - length nodes)%nat. lia. }
    destruct Hi as (i & Hi & ->). rewrite Hch in Hn by done.
    injection Hn as <-. simpl. split; [| done].
    apply Z.mod_pos_bound. lia.
Qed.

Lemma axisCycle_wrapper nodes idx nd w :
  axisCycle nodes -> nodes !! idx = Some nd -> isLeaf nd = true ->
  axisCycle (<[idx := setDTree nd w]> nodes).
Proof.
  intros Hinv Hnd Hleaf n x Hn.
  pose proof (lookup_lt_Some _ _ _ Hnd) as Hlt.
  assert (Hlook : forall m c, nodes !! m = Some c ->
            exists c', <[idx := setDTree nd w]> nodes !! m = Some c' /\
                       axis c' = axis c /\ level c' = level c).
  { intros m c Hm. destruct (decide (m = idx)) as [-> | Hne].
    - rewrite list_lookup_insert_eq by done. eexists. split; [done |].
      rewrite Hnd in Hm. injection Hm as <-. done.
    - rewrite list_lookup_insert_ne by done. eauto. }
  destruct (decide (n = idx)) as [-> | Hne].
  - rewrite list_lookup_insert_eq in Hn by done. injection Hn as <-. simpl.
    split; [by destruct (Hinv idx nd Hnd) | congruence].
  - rewrite list_lookup_insert_ne in Hn by done.
    destruct (Hinv n x Hn) as [Hax Hnl]. split; [done |].
    intros El. destruct (Hnl El) as [Hd Hc]. split; [done |].
    intros i. destruct (Hc i) as (c & Hci & Hca & Hcl).
    destruct (Hlook _ _ Hci) as (c' & Hc' & Ha' & Hl'). exists c'.
    split; [done |]. split; congruence.
Qed.

Lemma reachable_axisCycle nodes : reachable nodes -> axisCycle nodes.
Proof.
  induction 1 as [| nodes idx nd nodes' Hr IH Hnd Hleaf Hsub | nodes idx nd w Hr IH Hnd Hleaf].
  - apply axisCycle_clear.
  - destruct (Z_le_gt_dec (Z.of_nat (length nodes) + 2) UINT32_MAX) as [Hle | Hgt].
    + destruct (subdivide_split nodes idx nd Hnd) as (nodes2 & Hs & Hsplit);
        [by destruct (IH idx nd Hnd) as [[? ?] _] | done |].
      rewrite Hs in Hsub. injection Hsub as <-. by eapply axisCycle_split.
    + rewrite subdivide_full in Hsub by lia. injection Hsub as <-.
      by apply axisCycle_append.
  - by apply axisCycle_wrapper.
Qed.

Lemma halved_aggregate w :
  (DTreeWrapper.statisticalWeightBuilding (halved w)
   + DTreeWrapper.statisticalWeightBuilding (halved w)
   == DTreeWrapper.statisticalWeightBuilding w)%Q.
Proof.
  unfold halved, DTreeWrapper.statisticalWeightBuilding,
    DTreeWrapper.setStatisticalWeightBuilding, DTree.statisticalWeight,
    DTree.setStatisticalWeight. simpl. field.
Qed.

End STreeFacts.



(** ** recordIrradiance *)

(** C9. [recordIrradiance] with a finite positive [statisticalWeight] and
    an [irradiance] that is non-positive or not finite adds
    [statisticalWeight] to the weight accumulator and changes nothing else;
    with a [statisticalWeight] that is non-positive or not finite it
    changes nothing at all. *)
Theorem recordIrradiance_guards (fuel : nat) (t : DTree) (p : Point2)
    (irradiance statisticalWeight : XFloat) (directionalFilter : EDirectionalFilter) :
  (isfinite statisticalWeight = true -> xpositive statisticalWeight = true ->
   isfinite irradiance = false \/ xpositive irradiance = false ->
   DTree.recordIrradiance fuel t p irradiance statisticalWeight directionalFilter
   = Some (mkDTree (m_nodes t) (atomic_sum t)
                   (atomic_statisticalWeight t + xvalue statisticalWeight)%Q
                   (m_maxDepth t))) /\
  (isfinite statisticalWeight = false \/ xpositive statisticalWeight = false ->
   DTree.recordIrradiance fuel t p irradiance statisticalWeight directionalFilter
   = Some t).
Proof.
  unfold DTree.recordIrradiance. split.
  - intros -> -> Hirr. simpl.
    destruct Hirr as [-> | ->]; [done | by rewrite andb_false_r].
  - intros [-> | ->]; [done | by rewrite andb_false_r].
Qed.

Lemma recordIrradiance_guards_witness :
  isfinite (Finite 2) = true /\ xpositive (Finite 2) = true /\
  (isfinite NaN = false \/ xpositive NaN = false) /\
  DTree.recordIrradiance 1 DTree.empty (1 # 4, 1 # 4)%Q NaN (Finite 2) ENearest
  = Some (mkDTree (m_nodes DTree.empty) (atomic_sum DTree.empty)
                  (atomic_statisticalWeight DTree.empty + xvalue (Finite 2))%Q
                  (m_maxDepth DTree.empty)).
Proof.
  split; [reflexivity |]. split; [reflexivity |]. split; [left; reflexivity |].
  apply (recordIrradiance_guards 1 DTree.empty (1 # 4, 1 # 4)%Q NaN (Finite 2) ENearest);
    [reflexivity | reflexivity | left; reflexivity].
Defined.

(** ** computeRequiredSamples *)

Module SamplesFacts.
Import DTreeWrapper.

Lemma truncate_floor q : (0 <= q)%Q -> truncate q = Qfloor q.
Proof.
  destruct q as [n d]. unfold Qle, truncate, Qfloor. simpl. intros H.
  apply Z.quot_div_nonneg; lia.
Qed.

(** Below [2^31] both conversions of a non-negative float are defined
    and give its floor. *)
Lemma conversions_floor q :
  (0 <= q)%Q -> (q < inject_Z (2 ^ 31))%Q ->
  toInt q = Some (Qfloor q) /\ toUint64 q = Some (Qfloor q) /\
  0 <= Qfloor q < 2 ^ 31.
Proof.
  intros H0 H1.
  assert (Hlo : 0 <= Qfloor q).
  { change 0 with (Qfloor 0). by apply Qfloor_resp_le. }
  assert (Hhi : Qfloor q < 2 ^ 31).
  { apply Z.lt_nge. intros Hge.
    apply (Qlt_not_le _ _ H1). eapply Qle_trans; [| apply Qfloor_le].
    rewrite <- Zle_Qle. exact Hge. }
  unfold toInt, toUint64. rewrite (truncate_floor q H0).
  assert (Hhi' : Qfloor q < 2 ^ 64).
  { eapply Z.lt_trans; [exact Hhi | reflexivity]. }
  assert (Hlo' : - 2 ^ 31 <= Qfloor q).
  { eapply Z.le_trans; [| exact Hlo]. discriminate. }
  rewrite (proj2 (Z.leb_le _ _) Hlo), (proj2 (Z.leb_le _ _) Hlo'),
          (proj2 (Z.ltb_lt _ _) Hhi), (proj2 (Z.ltb_lt _ _) Hhi').
  done.
Qed.

(** From [2^31] on [int(req)] is undefined. *)
Lemma toInt_undefined q : (inject_Z (2 ^ 31) <= q)%Q -> toInt q = None.
Proof.
  intros H.
  assert (H0 : (0 <= q)%Q) by (eapply Qle_trans; [| exact H]; discriminate).
  unfold toInt. rewrite (truncate_floor q H0).
  assert (Hge : 2 ^ 31 <= Qfloor q).
  { rewrite <- (Qfloor_Z (2 ^ 31)). by apply Qfloor_resp_le. }
  rewrite (proj2 (Z.ltb_ge _ _) Hge). by rewrite andb_false_r.
Qed.

End SamplesFacts.

(** C5, as stated, fails: with [B = 5e-6] and 400000 weighted previous
    samples [req] is 2, but the counter is set to 0, which is neither
    [floor(req)] nor [floor(req) + 1]. *)
Lemma computeRequiredSamples_not_floor :
  let w := Examples.smallB in
  let req := (B w * weighted_previous_samples w)%Q in
  Qfloor req = 2 /\
  exists w',
    DTreeWrapper.computeRequiredSamples w 0%Q = Some w' /\
    req_augmented_samples w' = 0 /\
    ~ (req_augmented_samples w' = Qfloor req \/
       req_augmented_samples w' = Qfloor req + 1).
Proof.
  simpl. split; [reflexivity |]. eexists. split; [reflexivity |].
  split; [reflexivity |].
  intros [H | H]; vm_compute in H; discriminate.
Qed.

(** C5, amended.  When [B < EPSILON] the counter is set to 0.  Otherwise,
    for a non-negative [weighted_previous_samples] and
    [req = B * weighted_previous_samples] below [2^31], it is set to
    [floor(req)] or [floor(req) + 1], and the 1 is added exactly when the
    draw is below [req - floor(req)].  From [2^31] on [int(req)] is
    undefined.  Nothing else in the wrapper changes. *)
Theorem computeRequiredSamples_floor (w : DTreeWrapper) (next1D : Float) :
  let req := (B w * weighted_previous_samples w)%Q in
  ((B w < EPSILON)%Q ->
   DTreeWrapper.computeRequiredSamples w next1D
     = Some (DTreeWrapper.set_req_augmented_samples w 0)) /\
  ((EPSILON <= B w)%Q -> (0 <= weighted_previous_samples w)%Q ->
   (req < inject_Z (2 ^ 31))%Q ->
   DTreeWrapper.computeRequiredSamples w next1D
     = Some (DTreeWrapper.set_req_augmented_samples w
               (Qfloor req
                + (if Qltb next1D (req - inject_Z (Qfloor req))%Q then 1 else 0)))) /\
  ((EPSILON <= B w)%Q -> (inject_Z (2 ^ 31) <= req)%Q ->
   DTreeWrapper.computeRequiredSamples w next1D = None).
Proof.
  intros req. unfold DTreeWrapper.computeRequiredSamples. fold req.
  destruct (Qltb (B w) EPSILON) eqn:E.
  - split; [done |]. apply Qltb_lt in E.
    split; intros Hge; exfalso; by apply (Qlt_not_le _ _ E).
  - apply Qltb_ge in E. split.
    { intros Hlt. exfalso. by apply (Qlt_not_le _ _ Hlt). }
    split.
    + intros _ Hw Hreq.
      assert (H0 : (0 <= req)%Q).
      { unfold req. apply Qmult_le_0_compat; [| done].
        eapply Qle_trans; [| exact E]. done. }
      destruct (SamplesFacts.conversions_floor req H0 Hreq) as (-> & -> & Hr).
      cbn [mbind option_bind]. set (k := Qfloor req) in *. clearbody k.
      assert (Hk : (k + 1) mod 2 ^ 64 = k + 1).
      { apply Z.mod_small. split; [lia |].
        eapply Z.lt_trans; [apply Z.add_lt_mono_r, (proj2 Hr) | reflexivity]. }
      destruct (Qltb next1D _).
      * unfold DTreeWrapper.set_req_augmented_samples.
        cbn [req_augmented_samples building sampling previous augmented current_samples
             weighted_previous_samples B m_rejPdfPair bsdfSamplingFractionOptimizer
             min_nzradiance].
        by rewrite Hk.
      * by rewrite Z.add_0_r.
    + intros _ Hreq. by rewrite (SamplesFacts.toInt_undefined req Hreq).
Qed.

Lemma computeRequiredSamples_floor_witness :
  let w := Examples.halfB in
  let req := (B w * weighted_previous_samples w)%Q in
  (EPSILON <= B w)%Q /\ (0 <= weighted_previous_samples w)%Q /\
  (req < inject_Z (2 ^ 31))%Q /\
  DTreeWrapper.computeRequiredSamples w (1 # 4)%Q
    = Some (DTreeWrapper.set_req_augmented_samples w
              (Qfloor req
               + (if Qltb (1 # 4) (req - inject_Z (Qfloor req))%Q then 1 else 0))).
Proof.
  split; [by vm_compute |]. split; [by vm_compute |]. split; [by vm_compute |].
  apply (computeRequiredSamples_floor Examples.halfB (1 # 4)%Q); by vm_compute.
Defined.

(** ** Replay *)

Module ReplayFacts.
Import Replay.

Section Frame.
Context {World DTreeRef : Type}.
Variable computePdf : World -> RVertex -> Float * DTreeRef * Point3 * Float.
Variable getAugmentedMultiplier : World -> DTreeRef -> Float.
Variable next1D : World -> Float * World.
Variable m_rrDepth : Z.
Variable commitPath : World -> RPath -> list (Vertex DTreeRef) -> World.

(** The path loop leaves the paths at and beyond its bound alone. *)
Lemma pathLoop_frame (body : World -> RPath -> World * RPath) (bound : nat) :
  forall world paths i, (bound <= i)%nat ->
    (pathLoop World body bound world paths).2 !! i = paths !! i.
Proof.
  unfold pathLoop. induction bound as [|bound IH]; intros world paths i Hi; [done |].
  rewrite seq_S, foldl_app. simpl.
  destruct (foldl _ (world, paths) (seq 0 bound)) as [w1 paths1] eqn:E.
  pose proof (IH world paths i ltac:(lia)) as IHi. rewrite E in IHi. simpl in IHi.
  destruct (paths1 !! bound) as [curr_path|]; [| done].
  destruct (negb (active curr_path)); [done |].
  destruct (body w1 curr_path) as [w2 p2]. simpl.
  rewrite list_lookup_insert_ne by lia. done.
Qed.

(** [rejectAugmentHybrid] replays the prefix only: the paths from
    [m_augmentedStartPos] on are unchanged. *)
Lemma rejectAugmentHybrid_frame (t : GuidedPathTracer World) (i : nat) :
  (m_augmentedStartPos World t <= i)%nat ->
  m_samplePaths World
    (rejectAugmentHybrid World DTreeRef computePdf getAugmentedMultiplier next1D
       m_rrDepth commitPath t) !! i
  = m_samplePaths World t !! i.
Proof.
  intros Hi. unfold rejectAugmentHybrid.
  pose proof (pathLoop_frame
    (replayPath World DTreeRef commitPath
       (rejectAugmentVertices World DTreeRef computePdf getAugmentedMultiplier
          next1D m_rrDepth))
    (m_augmentedStartPos World t) (m_world World t) (m_samplePaths World t) i Hi) as H.
  destruct (pathLoop _ _ _ _ _) as [world paths]. done.
Qed.
End Frame.

End ReplayFacts.

(** C3 fails for the reweight+augment strategy.  With two active retained
    paths and [m_augmentedStartPos = 1], [reweightAugmentHybrid] also
    replays the path at index 1: its vertex comes out with [sc] halved,
    whereas [rejectAugmentHybrid] leaves that path as it was. *)
Theorem reweightAugmentHybrid_replays_beyond_start :
  let t := Examples.tracer2 in
  Replay.m_augmentedStartPos unit t = 1%nat /\
  Replay.m_samplePaths unit t !! 1%nat = Some Examples.path1 /\
  Replay.m_samplePaths unit (Examples.run_reweightAugmentHybrid t) !! 1%nat
    = Some (mkRPath [Replay.setVertex Examples.vertex1 1%Q (1 # 2)%Q] [] []
                    (0%Q, 0%Q) true 0) /\
  Replay.m_samplePaths unit (Examples.run_reweightAugmentHybrid t) !! 1%nat
    <> Replay.m_samplePaths unit t !! 1%nat /\
  Replay.m_samplePaths unit (Examples.run_rejectAugmentHybrid t) !! 1%nat
    = Replay.m_samplePaths unit t !! 1%nat.
Proof.
  simpl. split; [reflexivity |]. split; [reflexivity |]. split; [reflexivity |].
  split; [| reflexivity]. vm_compute. discriminate.
Qed.

(** ** The majorizing factor and the augmented distribution *)

(** C1 fails on the code.  For [curr] uniform and [prev] peaked in a
    sub-quadrant that [curr] does not resolve, [curr.getMajorizingFactor(prev)]
    compares the two trees only at the root slots and returns a pair with
    ratio [A = 1], while [pdf_prev] reaches 4 where [pdf_curr] is 1; so
    [curr.validateMajorizingFactor(prev, A)] returns false. *)
Theorem majorizing_factor_fails_to_majorize :
  let curr := Examples.uniform in
  let prev := Examples.peaked in
  exists pp pdf_curr pdf_prev cl1 cl2,
    DTree.getMajorizingFactor 2 curr prev = Some pp /\
    (pp.2 / pp.1 == 1)%Q /\
    DTree.validateMajorizingFactor 3 curr prev (pp.2 / pp.1)%Q = Some false /\
    QuadTreeNode.pdf 2 (m_nodes curr) 0 (1 # 8, 1 # 8)%Q (-1) 0 = Some (pdf_curr, cl1) /\
    QuadTreeNode.pdf 2 (m_nodes prev) 0 (1 # 8, 1 # 8)%Q (-1) 0 = Some (pdf_prev, cl2) /\
    (pp.2 / pp.1 * pdf_curr < pdf_prev - EPSILON)%Q.
Proof.
  simpl. eexists _, _, _, _, _.
  split; [vm_compute; reflexivity |].
  split; [vm_compute; reflexivity |].
  split; [vm_compute; reflexivity |].
  split; [vm_compute; reflexivity |].
  split; [vm_compute; reflexivity |].
  vm_compute. reflexivity.
Qed.

Module AugFacts.
Import QuadTreeNode DTree.

(** The early return of [buildAugmented] resets the atomics and
    [m_maxDepth] but keeps [m_nodes]. *)
Lemma buildAugmented_early_return fuel this oldDist newDist pp :
  getMajorizingFactor fuel newDist oldDist = Some pp ->
  Qltb (Qabs (majorizingA pp - 1)) EPSILON = true ->
  buildAugmented fuel this oldDist newDist = Some (0%Q, mkDTree (m_nodes this) 0%Q 0%Q 0).
Proof.
  intros Hpp HA. unfold buildAugmented. rewrite Hpp.
  cbn [mbind option_bind]. by rewrite HA.
Qed.

(** Past the early return, the value returned is [A - 1] and the
    statistical weight is the new tree's. *)
Lemma buildAugmented_result fuel this oldDist newDist pp B aug :
  getMajorizingFactor fuel newDist oldDist = Some pp ->
  Qltb (Qabs (majorizingA pp - 1)) EPSILON = false ->
  buildAugmented fuel this oldDist newDist = Some (B, aug) ->
  B = (majorizingA pp - 1)%Q /\
  atomic_statisticalWeight aug = atomic_statisticalWeight newDist.
Proof.
  intros Hpp HA. unfold buildAugmented. rewrite Hpp.
  cbn [mbind option_bind]. rewrite HA.
  intros H. destruct (augmentedNodes _ _ _ _) as [nodes|]; [simpl in H | done].
  destruct (build fuel _) as [this2|]; [simpl in H | done].
  by simplify_eq.
Qed.

End AugFacts.

(** C4 fails on the code.  When the new tree equals the old one, [A] is 1
    and [buildAugmented] returns 0 before it clears [m_nodes]: the
    augmented tree keeps the nodes and sums of an earlier construction
    (here the one node of [skewed]); only its atomics are reset. *)
Theorem buildAugmented_keeps_stale_nodes :
  let stale := Examples.skewed in
  exists pp aug,
    DTree.getMajorizingFactor 2 Examples.uniform Examples.uniform = Some pp /\
    (Qabs (DTree.majorizingA pp - 1) < EPSILON)%Q /\
    DTree.buildAugmented 2 stale Examples.uniform Examples.uniform = Some (0%Q, aug) /\
    m_nodes aug = m_nodes stale /\
    m_nodes aug <> m_nodes DTree.empty /\
    atomic_sum aug = 0%Q /\ atomic_statisticalWeight aug = 0%Q.
Proof.
  simpl. eexists _, _.
  split; [vm_compute; reflexivity |].
  split; [vm_compute; reflexivity |].
  split; [vm_compute; reflexivity |].
  split; [reflexivity |]. split; [| done]. vm_compute. discriminate.
Qed.


Module IntegralFacts.
Import QuadTreeNode DTree WF WFFacts Residual.

Lemma prefix4_step (f : Z -> Float) (i : Z) :
  0 <= i < 4 -> (prefix4 f (i + 1) == prefix4 f i + f i)%Q.
Proof.
  intros Hi. assert (i = 0 \/ i = 1 \/ i = 2 \/ i = 3) as [-> | [-> | [-> | ->]]] by lia;
    unfold prefix4; simpl; ring.
Qed.

(** One slot of [computeIntegral]: the running integral plus the value
    of the stack grows by the value of the slot times the factor. *)
Lemma integralSlot_step P nodes k nd factor i acc stk st' :
  wfNodes nodes -> nodes !! k = Some nd ->
  integralSlot nd factor i (acc, stk) = Some st' ->
  (st'.1 + stackVal P st'.2 == acc + stackVal P stk + factor * slotVal P nd i)%Q /\
  (st'.2 = stk \/
   exists c, st'.2 = (factor, c) :: stk /\ (k < c < length nodes)%nat).
Proof.
  intros Hwf Hk H. unfold integralSlot in H. unfold slotVal.
  destruct (isLeaf nd i) eqn:El; simplify_eq; simpl.
  - split; [ring | by left].
  - split; [ring |]. right. eexists. split; [done |].
    by eapply nonleaf_child.
Qed.

(** [computeIntegral] returns the potential of the root of a balanced
    tree. *)
Lemma integralLoop_value P nodes :
  wfNodes nodes -> balanced P nodes ->
  forall N acc stack,
    (intWeight (length nodes) stack < N)%nat ->
    Forall (fun e => (e.2 < length nodes)%nat) stack ->
    exists fuel r, integralLoop fuel nodes (acc, stack) = Some r /\
                   (r == acc + stackVal P stack)%Q.
Proof.
  intros Hwf Hbal. induction N as [|N IH]; intros acc stack Hw Hv; [lia |].
  destruct stack as [|[f k] rest].
  { exists 1%nat, acc. split; [done |]. simpl. ring. }
  apply Forall_cons in Hv as [Hk Hvr]. simpl in Hk, Hw.
  destruct (lookup_lt_is_Some_2 nodes k) as [nd Hn]; [done |].
  set (body := integralSlot nd (f / 4)%Q).
  destruct (for4_total body
    (fun j st =>
       (st.1 + stackVal P st.2
        == acc + stackVal P rest + (f / 4) * prefix4 (slotVal P nd) j)%Q /\
       Forall (fun e => (e.2 < length nodes)%nat) st.2 /\
       (5 * intWeight (length nodes) st.2
        <= 5 * intWeight (length nodes) rest + Z.to_nat j * 5 ^ (length nodes - k))%nat)
    (acc, rest)) as (st' & Hfor & Hval & Hv' & Hw').
  { simpl. split; [unfold prefix4; simpl; ring |]. split; [done | lia]. }
  { intros i [acc0 stk0] Hi (Hval0 & Hv0 & Hw0). simpl in *.
    destruct (body i (acc0, stk0)) as [st1|] eqn:Eb.
    2:{ unfold body, integralSlot in Eb. by destruct (isLeaf nd i). }
    exists st1. split; [done |].
    destruct (integralSlot_step P nodes k nd _ _ _ _ _ Hwf Hn Eb) as [Hv1 Hstk].
    split.
    { rewrite Hv1, Hval0, prefix4_step by done. ring. }
    replace (Z.to_nat (i + 1)) with (S (Z.to_nat i)) by lia.
    destruct Hstk as [-> | (c & -> & Hc)].
    - split; [done | lia].
    - split; [apply Forall_cons; split; [simpl; lia | done] |]. simpl.
      assert (5 * 5 ^ (length nodes - c) <= 5 ^ (length nodes - k))%nat.
      { rewrite <- Nat.pow_succ_r'. apply Nat.pow_le_mono_r; lia. }
      lia. }
  destruct st' as [acc' stk']. simpl in *.
  destruct (IH acc' stk') as (fuel & r & Hloop & Hr); [| done |].
  { assert (0 < 5 ^ (length nodes - k))%nat
      by (apply Nat.neq_0_lt_0, Nat.pow_nonzero; lia). lia. }
  exists (S fuel), r. split.
  { simpl. rewrite Hn. simpl. fold body. rewrite Hfor. simpl. done. }
  rewrite Hr, Hval. rewrite <- (Hbal k nd Hn). unfold nodeVal. field.
Qed.

Lemma computeIntegral_balanced P (t : DTree) :
  wfDTree t -> balanced P (m_nodes t) ->
  exists fuel r, computeIntegral fuel t = Some r /\ (r == P 0%nat)%Q.
Proof.
  intros [Hne Hwf] Hbal. unfold computeIntegral.
  destruct (integralLoop_value P (m_nodes t) Hwf Hbal
              (S (intWeight (length (m_nodes t)) [(1%Q, 0%nat)])) 0%Q [(1%Q, 0%nat)])
    as (fuel & r & H & Hr); [lia | |].
  { apply Forall_cons. split; [done | done]. }
  exists fuel, r. split; [done |]. rewrite Hr. simpl. ring.
Qed.

End IntegralFacts.

Module AugLoopFacts.
Import QuadTreeNode DTree WF WFFacts Residual AugWalk.

Lemma for4_steps {S : Type} (body : Z -> S -> option S) (s s' : S) :
  for4 body s = Some s' ->
  exists s1 s2 s3, body 0 s = Some s1 /\ body 1 s1 = Some s2 /\
                   body 2 s2 = Some s3 /\ body 3 s3 = Some s'.
Proof.
  unfold for4. intros H.
  destruct (body 0 s) as [s1|] eqn:E0; [simpl in H | done].
  destruct (body 1 s1) as [s2|] eqn:E1; [simpl in H | done].
  destruct (body 2 s2) as [s3|] eqn:E2; [simpl in H | done].
  exists s1, s2, s3. repeat split; done.
Qed.

(** The loop rule of [for4] for an invariant that needs a bound on a
    measure that the body only lets grow. *)
Lemma for4_inv_bounded {S : Type} (body : Z -> S -> option S) (m : S -> nat)
    (bound : nat) (I : Z -> S -> Prop) (s s' : S) :
  I 0 s ->
  (forall i x y, body i x = Some y -> (m x <= m y)%nat) ->
  (forall i x y, 0 <= i < 4 -> I i x -> body i x = Some y -> (m y <= bound)%nat ->
                 I (i + 1) y) ->
  for4 body s = Some s' -> (m s' <= bound)%nat -> I 4 s'.
Proof.
  intros H0 Hmono Hstep H Hb.
  destruct (for4_steps _ _ _ H) as (s1 & s2 & s3 & E0 & E1 & E2 & E3).
  pose proof (Hmono _ _ _ E3). pose proof (Hmono _ _ _ E2). pose proof (Hmono _ _ _ E1).
  apply (Hstep 0) in E0; [| lia | done | lia].
  apply (Hstep 1) in E1; [| lia | done | lia].
  apply (Hstep 2) in E2; [| lia | done | lia].
  apply (Hstep 3) in E3; [done | lia | done | lia].
Qed.

(** The two outcomes of one slot of the loop. *)
Lemma augmentedSlot_leaf A e oldNode newNode i nodes stk cur :
  (newNodeIndex e).2 = -1 -> (oldNodeIndex e).2 = -1 ->
  isLeaf newNode i || isLeaf oldNode i = true ->
  nodes !! nodeIdx e = Some cur ->
  augmentedSlot A e oldNode newNode (total oldNode) (total newNode) i (nodes, stk)
  = Some (<[nodeIdx e := setSum cur i
             (computeAugmentedPdf (slotPdf (total oldNode) (oldNodeFactor e) oldNode i)
                                  (slotPdf (total newNode) (newNodeFactor e) newNode i) A)]>
            nodes, stk).
Proof.
  intros Hn Ho Hl Hcur. unfold augmentedSlot, slotOf. rewrite Hn, Ho. simpl.
  rewrite Hl. simpl. rewrite Hcur. done.
Qed.

Lemma augmentedSlot_alloc A e oldNode newNode i nodes stk cur :
  (newNodeIndex e).2 = -1 -> (oldNodeIndex e).2 = -1 ->
  isLeaf newNode i || isLeaf oldNode i = false ->
  nodes !! nodeIdx e = Some cur ->
  let oldPdf := slotPdf (total oldNode) (oldNodeFactor e) oldNode i in
  let newPdf := slotPdf (total newNode) (newNodeFactor e) newNode i in
  let pdf := computeAugmentedPdf oldPdf newPdf A in
  augmentedSlot A e oldNode newNode (total oldNode) (total newNode) i (nodes, stk)
  = Some (<[nodeIdx e := setSum (setChild cur i (uint16 (length nodes))) i pdf]> nodes
            ++ [setSumAll QuadTreeNode.empty (pdf / 4)%Q],
          mkAugPair (child newNode i, -1) (child oldNode i, -1) newPdf oldPdf
                    (length nodes) :: stk).
Proof.
  intros Hn Ho Hl Hcur oldPdf newPdf pdf.
  pose proof (lookup_lt_Some _ _ _ Hcur) as Hlt.
  apply orb_false_iff in Hl as [Hln Hlo].
  unfold augmentedSlot, slotOf, descend. rewrite Hn, Ho. simpl.
  rewrite Hln, Hlo. simpl. rewrite Hcur. simpl.
  rewrite lookup_app_l by (rewrite length_insert; lia).
  rewrite list_lookup_insert_eq by lia. simpl.
  rewrite insert_app_l by (rewrite length_insert; lia).
  rewrite list_insert_insert_eq.
  rewrite length_app, length_insert. simpl.
  replace (length nodes + 1 - 1)%nat with (length nodes) by lia. done.
Qed.

Lemma augmentedSlot_cases A e oldNode newNode i nodes stk cur :
  (newNodeIndex e).2 = -1 -> (oldNodeIndex e).2 = -1 ->
  nodes !! nodeIdx e = Some cur ->
  let oldPdf := slotPdf (total oldNode) (oldNodeFactor e) oldNode i in
  let newPdf := slotPdf (total newNode) (newNodeFactor e) newNode i in
  let pdf := computeAugmentedPdf oldPdf newPdf A in
  (isLeaf newNode i || isLeaf oldNode i = true /\
   augmentedSlot A e oldNode newNode (total oldNode) (total newNode) i (nodes, stk)
   = Some (<[nodeIdx e := setSum cur i pdf]> nodes, stk)) \/
  (isLeaf newNode i = false /\ isLeaf oldNode i = false /\
   augmentedSlot A e oldNode newNode (total oldNode) (total newNode) i (nodes, stk)
   = Some (<[nodeIdx e := setSum (setChild cur i (uint16 (length nodes))) i pdf]> nodes
             ++ [setSumAll QuadTreeNode.empty (pdf / 4)%Q],
           mkAugPair (child newNode i, -1) (child oldNode i, -1) newPdf oldPdf
                     (length nodes) :: stk)).
Proof.
  intros Hn Ho Hcur oldPdf newPdf pdf.
  destruct (isLeaf newNode i || isLeaf oldNode i) eqn:Hl.
  - left. split; [done |]. by apply augmentedSlot_leaf.
  - right. pose proof Hl as Hl'. apply orb_false_iff in Hl' as [? ?].
    split; [done |]. split; [done |]. by apply augmentedSlot_alloc.
Qed.

Lemma denomOf_all node r : r.2 = -1 -> denomOf node r = total node.
Proof. intros H. unfold denomOf. by rewrite H. Qed.


Lemma augmentedSlot_length A e oldNode newNode oldDenom newDenom i st st' :
  augmentedSlot A e oldNode newNode oldDenom newDenom i st = Some st' ->
  (length st.1 <= length st'.1)%nat.
Proof.
  destruct st as [nodes stk]. unfold augmentedSlot. simpl.
  destruct (negb _).
  - destruct (nodes !! nodeIdx e) as [cur|]; [simpl | done].
    destruct (_ !! nodeIdx e) as [cur'|]; [simpl | done].
    intros H. simplify_eq. simpl.
    rewrite length_insert, length_app, length_insert. lia.
  - simpl. destruct (nodes !! nodeIdx e) as [cur|]; [simpl | done].
    intros H. simplify_eq. simpl. rewrite length_insert. lia.
Qed.

Lemma augmentedLoop_length fuel : forall A oldDist newDist st nodes',
  augmentedLoop fuel A oldDist newDist st = Some nodes' ->
  (length st.1 <= length nodes')%nat.
Proof.
  induction fuel as [|fuel IH]; intros A oldDist newDist [nodes stack] nodes' H; [done |].
  simpl in H. destruct stack as [|e rest]; [by simplify_eq |].
  destruct (oldDist !! _) as [oldNode|]; [simpl in H | done].
  destruct (newDist !! _) as [newNode|]; [simpl in H | done].
  destruct (for4 _ _) as [st'|] eqn:Hfor; [simpl in H | done].
  apply IH in H.
  assert (length nodes <= length st'.1)%nat; [| simpl; lia].
  refine (for4_inv _ (fun _ x => (length nodes <= length x.1)%nat) _ _ _ _ Hfor); [done |].
  intros i x y _ Hx Hb. apply augmentedSlot_length in Hb. lia.
Qed.

Lemma augmentedLoop_mono fuel : forall A oldDist newDist st r fuel',
  augmentedLoop fuel A oldDist newDist st = Some r -> (fuel <= fuel')%nat ->
  augmentedLoop fuel' A oldDist newDist st = Some r.
Proof.
  induction fuel as [|fuel IH]; intros A oldDist newDist st r fuel' H Hle; [done |].
  destruct fuel' as [|fuel']; [lia |].
  simpl in H |- *. destruct st as [nodes [|e rest]]; [done |].
  destruct (oldDist !! _) as [oldNode|]; [simpl in H |- * | done].
  destruct (newDist !! _) as [newNode|]; [simpl in H |- * | done].
  destruct (for4 _ _) as [st'|]; [simpl in H |- * | done].
  apply IH; [done | lia].
Qed.

Lemma validAug_grow oldDist newDist nodes nodes' e :
  (length nodes <= length nodes')%nat ->
  validAug oldDist newDist nodes e -> validAug oldDist newDist nodes' e.
Proof. unfold validAug. intros ? (? & ? & ? & ? & ?). repeat split; try done. lia. Qed.

(** One slot returns, and pushes at most one entry, further down in
    [newDist]. *)
Lemma augmentedSlot_progress A oldDist newDist e oldNode newNode i nodes stk :
  wfNodes oldDist -> wfNodes newDist ->
  validAug oldDist newDist nodes e ->
  oldDist !! (oldNodeIndex e).1 = Some oldNode ->
  newDist !! (newNodeIndex e).1 = Some newNode ->
  exists st',
    augmentedSlot A e oldNode newNode (total oldNode) (total newNode) i (nodes, stk)
    = Some st' /\
    (length nodes <= length st'.1)%nat /\
    (st'.2 = stk \/
     exists e', st'.2 = e' :: stk /\ validAug oldDist newDist st'.1 e' /\
                ((newNodeIndex e).1 < (newNodeIndex e').1)%nat).
Proof.
  intros Hwfo Hwfn (Hn & Hn2 & Ho & Ho2 & Hk) Hold Hnew.
  destruct (lookup_lt_is_Some_2 nodes (nodeIdx e)) as [cur Hcur]; [done |].
  destruct (augmentedSlot_cases A e oldNode newNode i nodes stk cur Hn2 Ho2 Hcur)
    as [[Hl ->] | (Hln & Hlo & ->)]; eexists; (split; [done |]); simpl.
  - rewrite length_insert. split; [lia | by left].
  - rewrite length_app, length_insert. simpl. split; [lia |]. right.
    eexists. split; [done |].
    pose proof (nonleaf_child _ _ _ _ Hwfn Hnew Hln).
    pose proof (nonleaf_child _ _ _ _ Hwfo Hold Hlo).
    unfold validAug. simpl. rewrite length_app, length_insert. simpl. lia.
Qed.

(** The loop of [buildAugmented] returns from any valid stack. *)
Lemma augmentedLoop_total A oldDist newDist :
  wfNodes oldDist -> wfNodes newDist ->
  forall N nodes stack,
    (augWeight (length newDist) stack < N)%nat ->
    Forall (validAug oldDist newDist nodes) stack ->
    exists fuel nodes', augmentedLoop fuel A oldDist newDist (nodes, stack) = Some nodes'.
Proof.
  intros Hwfo Hwfn. induction N as [|N IH]; intros nodes stack Hw Hv; [lia |].
  destruct stack as [|e rest].
  { by exists 1%nat, nodes. }
  apply Forall_cons in Hv as [Hve Hvr].
  pose proof Hve as (Hn & Hn2 & Ho & Ho2 & Hk).
  destruct (lookup_lt_is_Some_2 oldDist (oldNodeIndex e).1) as [oldNode Hold]; [done |].
  destruct (lookup_lt_is_Some_2 newDist (newNodeIndex e).1) as [newNode Hnew]; [done |].
  set (body := augmentedSlot A e oldNode newNode (total oldNode) (total newNode)).
  destruct (for4_total body
    (fun j st => validAug oldDist newDist st.1 e /\
                 Forall (validAug oldDist newDist st.1) st.2 /\
                 (5 * augWeight (length newDist) st.2
                  <= 5 * augWeight (length newDist) rest
                     + Z.to_nat j * 5 ^ (length newDist - (newNodeIndex e).1))%nat)
    (nodes, rest)) as (st' & Hfor & Hve' & Hv' & Hw').
  { simpl. split; [done |]. split; [done | lia]. }
  { intros i [nodes0 stk0] Hi (Hve0 & Hv0 & Hw0). simpl in *.
    destruct (augmentedSlot_progress A oldDist newDist e oldNode newNode i nodes0 stk0)
      as (st1 & Eb & Hlen & Hstk); try done.
    exists st1. split; [done |].
    split; [by eapply validAug_grow |].
    replace (Z.to_nat (i + 1)) with (S (Z.to_nat i)) by lia.
    destruct Hstk as [-> | (e' & -> & Hve' & Hlt)].
    - split; [| lia]. eapply Forall_impl; [exact Hv0 |].
      intros x. by apply validAug_grow.
    - split.
      + apply Forall_cons. split; [done |]. eapply Forall_impl; [exact Hv0 |].
        intros x. by apply validAug_grow.
      + simpl.
        assert (5 * 5 ^ (length newDist - (newNodeIndex e').1)
                <= 5 ^ (length newDist - (newNodeIndex e).1))%nat.
        { rewrite <- Nat.pow_succ_r'. apply Nat.pow_le_mono_r; [lia |].
          destruct Hve' as (? & _). lia. }
        lia. }
  destruct st' as [nodes1 stk1]. simpl in *.
  destruct (IH nodes1 stk1) as (fuel & r & Hloop); [| done |].
  { assert (0 < 5 ^ (length newDist - (newNodeIndex e).1))%nat
      by (apply Nat.neq_0_lt_0, Nat.pow_nonzero; lia). lia. }
  exists (S fuel), r. simpl. rewrite Hold, Hnew. simpl.
  rewrite !denomOf_all by done. fold body. rewrite Hfor. simpl. done.
Qed.

End AugLoopFacts.

Module AugInvFacts.
Import QuadTreeNode DTree WF WFFacts Built BuildFacts Residual AugWalk AugLoopFacts.

Lemma slot_id i : 0 <= i < 4 -> slot i = i.
Proof. intros H. unfold slot. repeat case_match; lia. Qed.

Lemma child_setChild_eq nd i c : child (setChild nd i c) i = c.
Proof. apply get4_set4_eq. Qed.

Lemma child_setChild_ne nd i j c : slot i <> slot j -> child (setChild nd i c) j = child nd j.
Proof. apply get4_set4_ne. Qed.

Lemma sum_setChild nd i j c : sum (setChild nd i c) j = sum nd j.
Proof. reflexivity. Qed.

Lemma child_empty v i : child (setSumAll QuadTreeNode.empty v) i = 0%nat.
Proof. unfold child, get4. simpl. by repeat case_match. Qed.

Lemma uint16_small n : Z.of_nat n < 65536 -> uint16 n = n.
Proof. intros H. unfold uint16. rewrite Z.mod_small by lia. lia. Qed.

(** The value of a slot only depends on the slot's sum and child and on
    the potential of that child. *)
Lemma slotVal_ext P P' nd nd' i :
  sum nd' i = sum nd i -> child nd' i = child nd i ->
  (child nd i <> 0%nat -> P' (child nd i) = P (child nd i)) ->
  slotVal P' nd' i = slotVal P nd i.
Proof.
  intros Hs Hc HP. unfold slotVal, isLeaf. rewrite Hs, Hc.
  destruct (Nat.eqb_spec (child nd i) 0); [done | by apply HP].
Qed.

Lemma nodeVal_ext P P' nd nd' :
  (forall i, slotVal P' nd' i = slotVal P nd i) -> nodeVal P' nd' = nodeVal P nd.
Proof. intros H. unfold nodeVal, prefix4. simpl. by rewrite !H. Qed.

Lemma std_max_0_nonneg (r : Q) : (0 <= r)%Q -> (std_max 0 r == r)%Q.
Proof.
  intros H. unfold std_max. destruct (Qltb 0 r) eqn:E; [reflexivity |].
  apply Qltb_ge in E. by apply Qle_antisym.
Qed.

Section Slot.
Variables (A : Q) (oldDist newDist : list QuadTreeNode).
Hypothesis Hwfo : wfNodes oldDist.
Hypothesis Hwfn : wfNodes newDist.
Variables (e : AugPair) (oldNode newNode : QuadTreeNode).
Hypothesis Hvalid : (newNodeIndex e).2 = -1 /\ (oldNodeIndex e).2 = -1.
Hypothesis Hvis : visited oldDist newDist (newNodeIndex e).1 (oldNodeIndex e).1
                          (newNodeFactor e) (oldNodeFactor e).
Hypothesis Hold : oldDist !! (oldNodeIndex e).1 = Some oldNode.
Hypothesis Hnew : newDist !! (newNodeIndex e).1 = Some newNode.

Local Abbreviation r := (slotResidual A e oldNode newNode).

Lemma augmentedSlot_inv i P st st' :
  0 <= i < 4 ->
  slotInv A oldDist newDist (nodeIdx e) r i P st ->
  augmentedSlot A e oldNode newNode (total oldNode) (total newNode) i st = Some st' ->
  Z.of_nat (length st'.1) <= 65536 ->
  exists P', slotInv A oldDist newDist (nodeIdx e) r (i + 1) P' st' /\
             forall m, (m < length st.1)%nat -> P' m = P m.
Proof using Hwfo Hwfn Hvalid Hvis Hold Hnew.
  intros Hi Hinv Hslot Hlen. destruct st as [nodes stk].
  unfold slotInv in Hinv. simpl in Hinv.
  destruct Hinv as (Hwf & Hpend & Hnd & Hk & (nd & Hcur & Hzero) & Hval).
  destruct Hvalid as [Hn2 Ho2].
  pose proof (lookup_lt_Some _ _ _ Hcur) as Hklt.
  assert (Hstk : forall x, x ∈ stk -> nodeIdx x <> nodeIdx e /\
                                        (nodeIdx x < length nodes)%nat).
  { intros x Hx. split.
    - intros E. apply Hk. rewrite <- E. by apply list_elem_of_fmap_2.
    - rewrite Forall_forall in Hpend. by destruct (Hpend x Hx) as ((_&_&_&_&?) & _). }
  assert (Hleafi : child nd i = 0%nat) by (apply Hzero; rewrite slot_id; lia).
  assert (Hother : forall i', 0 <= i' < i -> slot i <> slot i').
  { intros i' Hi'. rewrite !slot_id by lia. lia. }
  destruct (augmentedSlot_cases A e oldNode newNode i nodes stk nd Hn2 Ho2 Hcur)
    as [[Hl E] | (Hln & Hlo & E)]; rewrite E in Hslot; injection Hslot as <-;
    unfold slotInv; simpl in Hlen |- *.
  - (* the walk stops at this slot: the residual is stored in the leaf *)
    exists P. split; [| done].
    assert (Hlook : forall m, m <> nodeIdx e ->
              <[nodeIdx e := setSum nd i (computeAugmentedPdf
                 (slotPdf (total oldNode) (oldNodeFactor e) oldNode i)
                 (slotPdf (total newNode) (newNodeFactor e) newNode i) A)]> nodes !! m
              = nodes !! m).
    { intros m Hm. by rewrite list_lookup_insert_ne. }
    split; [| split; [| split; [done | split; [done | split]]]].
    + eapply wfNodes_shape; [| exact Hwf].
      rewrite list_fmap_insert. simpl. apply list_insert_id.
      rewrite list_lookup_fmap, Hcur. done.
    + rewrite Forall_forall in Hpend |- *. intros x Hx.
      destruct (Hpend x Hx) as (Hv & (ndx & Hndx & Hzx) & Hvx & HPx).
      destruct (Hstk x Hx) as [Hne _].
      split; [| split; [| done]].
      * eapply validAug_grow; [| exact Hv]. rewrite length_insert. lia.
      * exists ndx. by rewrite Hlook.
    + eexists. split; [by apply list_lookup_insert_eq |].
      intros i' Hi'. rewrite child_setSum. apply Hzero. lia.
    + intros Hunc. destruct (Hval Hunc) as [Hbal Hvals].
      destruct (Hunc _ _ _ _ _ _ Hvis Hnew Hold) as (Htn & Hto & Hres).
      split.
      * intros m x Hm Hnot Hne. rewrite Hlook in Hm by done. by apply Hbal.
      * intros nd0 Hnd0 i' Hi'.
        rewrite list_lookup_insert_eq in Hnd0 by done. injection Hnd0 as <-.
        destruct (decide (i' = i)) as [-> | Hne].
        -- unfold slotVal, isLeaf. rewrite child_setSum, Hleafi. simpl.
           rewrite sum_setSum_eq. unfold computeAugmentedPdf.
           apply std_max_0_nonneg. by apply Hres.
        -- rewrite <- (Hvals nd Hcur i') by lia.
           erewrite slotVal_ext; [reflexivity | | done | done].
           apply sum_setSum_ne. apply Hother. lia.
  - (* both sides go on: a child node is allocated and pushed *)
    rewrite length_app, length_insert in Hlen. simpl in Hlen.
    rewrite uint16_small by lia.
    set (c := length nodes) in *.
    set (oldPdf := slotPdf (total oldNode) (oldNodeFactor e) oldNode i).
    set (newPdf := slotPdf (total newNode) (newNodeFactor e) newNode i).
    set (pdf := computeAugmentedPdf oldPdf newPdf A).
    set (nd' := setSum (setChild nd i c) i pdf).
    set (fresh := setSumAll QuadTreeNode.empty (pdf / 4)%Q).
    set (P' := fun m => if decide (m = c) then residual A oldPdf newPdf else P m).
    assert (HP' : forall m, (m < c)%nat -> P' m = P m).
    { intros m Hm. unfold P'. destruct (decide (m = c)); [lia | done]. }
    assert (Hlook : forall m, m <> nodeIdx e -> (m < c)%nat ->
              (<[nodeIdx e := nd']> nodes ++ [fresh]) !! m = nodes !! m).
    { intros m Hm Hlt. rewrite lookup_app_l by (rewrite length_insert; lia).
      by rewrite list_lookup_insert_ne. }
    assert (Hlookk : (<[nodeIdx e := nd']> nodes ++ [fresh]) !! nodeIdx e = Some nd').
    { rewrite lookup_app_l by (rewrite length_insert; lia).
      by apply list_lookup_insert_eq. }
    assert (Hlookc : (<[nodeIdx e := nd']> nodes ++ [fresh]) !! c = Some fresh).
    { rewrite lookup_app_r by (rewrite length_insert; lia).
      rewrite length_insert. by rewrite Nat.sub_diag. }
    assert (Hlen' : length (<[nodeIdx e := nd']> nodes ++ [fresh]) = S c).
    { rewrite length_app, length_insert. simpl. lia. }
    assert (Hchild : forall x m i', nodes !! m = Some x -> child x i' <> 0%nat ->
                       (child x i' < c)%nat).
    { intros x m i' Hm Hne. destruct (Hwf m x i' Hm); [done | lia]. }
    assert (Hval_old : forall x m, nodes !! m = Some x -> forall i',
                         slotVal P' x i' = slotVal P x i').
    { intros x m Hm i'. apply slotVal_ext; [done | done |].
      intros Hne. apply HP'. by eapply Hchild. }
    exists P'. split; [| exact HP'].
    split; [| split; [| split; [| split; [| split]]]].
    + intros m x i' Hm. rewrite Hlen'.
      destruct (decide (m = c)) as [-> | Hmc].
      { rewrite Hlookc in Hm. injection Hm as <-. left. apply child_empty. }
      assert (m < c)%nat.
      { apply lookup_lt_Some in Hm. rewrite Hlen' in Hm. lia. }
      destruct (decide (m = nodeIdx e)) as [-> | Hmk].
      * rewrite Hlookk in Hm. injection Hm as <-. unfold nd'.
        rewrite child_setSum.
        destruct (decide (slot i = slot i')) as [Hs | Hs].
        -- right. unfold child, setChild. simpl.
           rewrite <- (get4_slot _ i'), <- Hs, get4_slot, get4_set4_eq. lia.
        -- rewrite child_setChild_ne by done.
           destruct (Hwf _ _ i' Hcur); [by left | right; lia].
      * rewrite Hlook in Hm by done.
        destruct (Hwf _ _ i' Hm); [by left | right; lia].
    + apply Forall_cons. split.
      * split; [| split; [| split]].
        -- pose proof (nonleaf_child _ _ _ _ Hwfn Hnew Hln).
           pose proof (nonleaf_child _ _ _ _ Hwfo Hold Hlo).
           unfold validAug. simpl. rewrite Hlen'. lia.
        -- exists fresh. split; [exact Hlookc |]. intros i'. apply child_empty.
        -- simpl. by eapply visited_child.
        -- intros _. simpl. unfold P'. rewrite decide_True by done. reflexivity.
      * rewrite Forall_forall in Hpend |- *. intros x Hx.
        destruct (Hpend x Hx) as (Hv & (ndx & Hndx & Hzx) & Hvx & HPx).
        destruct (Hstk x Hx) as [Hne Hlt].
        split; [| split; [| split; [done |]]].
        -- eapply validAug_grow; [| exact Hv]. rewrite Hlen'. lia.
        -- exists ndx. by rewrite Hlook.
        -- intros Hunc. rewrite HP' by done. by apply HPx.
    + simpl. apply NoDup_cons. split; [| done].
      intros Hin. apply list_elem_of_fmap in Hin as (x & Hcx & Hx).
      destruct (Hstk x Hx) as [_ Hlt]. lia.
    + simpl. apply not_elem_of_cons. split; [lia | done].
    + exists nd'. split; [exact Hlookk |].
      intros i' Hi'. unfold nd'. rewrite child_setSum.
      rewrite child_setChild_ne; [apply Hzero; lia |].
      rewrite (slot_id i) by lia. lia.
    + intros Hunc. destruct (Hval Hunc) as [Hbal Hvals]. split.
      * simpl. intros m x Hm Hnot Hne.
        apply not_elem_of_cons in Hnot as [Hmc Hnot].
        assert (m < c)%nat.
        { apply lookup_lt_Some in Hm. rewrite Hlen' in Hm. lia. }
        rewrite Hlook in Hm by done.
        rewrite (nodeVal_ext P P' x x) by (by eapply Hval_old).
        rewrite HP' by done. by apply Hbal.
      * intros nd0 Hnd0 i' Hi'. rewrite Hlookk in Hnd0. injection Hnd0 as <-.
        destruct (decide (i' = i)) as [-> | Hne].
        -- unfold slotVal, isLeaf, nd'. rewrite child_setSum, child_setChild_eq.
           destruct (Nat.eqb_spec c 0) as [Hc0 | _]; [lia |].
           unfold P'. rewrite decide_True by done. reflexivity.
        -- rewrite <- (Hvals nd Hcur i') by lia.
           unfold nd'. erewrite slotVal_ext; [reflexivity | | |].
           ++ rewrite sum_setSum_ne by (apply Hother; lia). apply sum_setChild.
           ++ rewrite child_setSum. apply child_setChild_ne. apply Hother. lia.
           ++ intros Hc. apply HP'. by eapply Hchild.
Qed.

Lemma residual_mean :
  unclamped A oldDist newDist -> ~ (A - 1 == 0)%Q ->
  (prefix4 r 4 / 4 == residual A (oldNodeFactor e) (newNodeFactor e))%Q.
Proof using Hvis Hold Hnew.
  intros Hunc HA. destruct (Hunc _ _ _ _ _ _ Hvis Hnew Hold) as (Htn & Hto & _).
  assert (Hpos : (0 < EPSILON)%Q) by reflexivity.
  assert (Hn0 : ~ (total newNode == 0)%Q).
  { intros E. rewrite E in Htn. by apply (Qlt_not_le _ _ Hpos). }
  assert (Ho0 : ~ (total oldNode == 0)%Q).
  { intros E. rewrite E in Hto. by apply (Qlt_not_le _ _ Hpos). }
  unfold prefix4, slotResidual, residual, slotPdf. simpl.
  apply Qltb_ge in Htn, Hto. rewrite Htn, Hto.
  unfold total in *. field. repeat split; done.
Qed.

Lemma slotInv_begin P nodes rest :
  augInv A oldDist newDist P (nodes, e :: rest) ->
  slotInv A oldDist newDist (nodeIdx e) r 0 P (nodes, rest).
Proof using Type.
  intros (Hwf & Hpend & Hnd & Hbal). simpl in *.
  apply Forall_cons in Hpend as [(_ & (nd & Hcur & Hzero) & _) Hrest].
  apply NoDup_cons in Hnd as [Hk Hnd].
  split; [done |]. split; [done |]. split; [done |]. split; [done |]. split.
  - exists nd. split; [done | by intros].
  - intros Hunc. split.
    + intros m x Hm Hnot Hne. apply Hbal; [done | done |].
      apply not_elem_of_cons. by split.
    + intros; lia.
Qed.

Lemma slotInv_end P P0 st :
  ~ (A - 1 == 0)%Q ->
  slotInv A oldDist newDist (nodeIdx e) r 4 P st ->
  P (nodeIdx e) = P0 (nodeIdx e) ->
  (unclamped A oldDist newDist ->
   (P0 (nodeIdx e) == residual A (oldNodeFactor e) (newNodeFactor e))%Q) ->
  augInv A oldDist newDist P st.
Proof using Hvis Hold Hnew.
  intros HA (Hwf & Hpend & Hnd & Hk & (nd & Hcur & _) & Hval) HPk HP0.
  split; [done |]. split; [done |]. split; [done |].
  intros Hunc. destruct (Hval Hunc) as [Hbal Hvals].
  intros m x Hm Hnot. destruct (decide (m = nodeIdx e)) as [-> | Hne];
    [| by apply Hbal].
  rewrite HPk, (HP0 Hunc), <- (residual_mean Hunc HA). unfold nodeVal, prefix4. simpl.
  rewrite (Hvals x Hm 0), (Hvals x Hm 1), (Hvals x Hm 2), (Hvals x Hm 3) by lia.
  reflexivity.
Qed.

End Slot.

(** When the loop of [buildAugmented] returns at most 65536 nodes, they
    are well formed; when moreover nothing is clamped, they are balanced,
    and the potential of the root is the one the loop started with. *)
Lemma augmentedLoop_balanced A oldDist newDist :
  ~ (A - 1 == 0)%Q -> wfNodes oldDist -> wfNodes newDist ->
  forall fuel st nodes' P,
    augmentedLoop fuel A oldDist newDist st = Some nodes' ->
    Z.of_nat (length nodes') <= 65536 ->
    augInv A oldDist newDist P st -> (0 < length st.1)%nat ->
    wfNodes nodes' /\
    (unclamped A oldDist newDist ->
     exists P', balanced P' nodes' /\ P' 0%nat = P 0%nat).
Proof.
  intros HA Hwfo Hwfn.
  induction fuel as [|fuel IH]; intros [nodes stack] nodes' P H Hlen Hinv Hne; [done |].
  simpl in H. destruct stack as [|e rest].
  { simplify_eq. destruct Hinv as (Hwf & _ & _ & Hbal). simpl in *.
    split; [done |]. intros Hunc. exists P. split; [| done].
    intros k nd Hk. apply Hbal; [done | done |]. apply not_elem_of_nil. }
  pose proof Hinv as (Hwf & Hpend & Hnd & Hbal). simpl in Hwf, Hpend, Hnd, Hbal.
  apply Forall_cons in Hpend as [(Hv & _ & Hvis & HPe) _].
  destruct Hv as (Hn & Hn2 & Ho & Ho2 & Hk).
  destruct (lookup_lt_is_Some_2 oldDist (oldNodeIndex e).1) as [oldNode Hold]; [done |].
  destruct (lookup_lt_is_Some_2 newDist (newNodeIndex e).1) as [newNode Hnew]; [done |].
  rewrite Hold, Hnew in H. simpl in H. rewrite !denomOf_all in H by done.
  destruct (for4 _ _) as [st1|] eqn:Hfor; [simpl in H | done].
  pose proof (augmentedLoop_length _ _ _ _ _ _ H) as Hlen1.
  set (r := slotResidual A e oldNode newNode).
  assert (Hstep : exists P1,
            slotInv A oldDist newDist (nodeIdx e) r 4 P1 st1 /\
            (forall m, (m < length nodes)%nat -> P1 m = P m) /\
            (length nodes <= length st1.1)%nat).
  { refine (for4_inv_bounded _ (fun x => length x.1) (length st1.1)
              (fun j x => exists Pj,
                 slotInv A oldDist newDist (nodeIdx e) r j Pj x /\
                 (forall m, (m < length nodes)%nat -> Pj m = P m) /\
                 (length nodes <= length x.1)%nat) _ _ _ _ _ Hfor _); [| | | done].
    - exists P. split; [by apply slotInv_begin |]. split; [done | simpl; lia].
    - intros i x y Hb. by apply augmentedSlot_length in Hb.
    - intros i x y Hi (Pj & Hj & Hagree & Hlx) Hb Hly.
      destruct (augmentedSlot_inv A oldDist newDist Hwfo Hwfn e oldNode newNode
                  (conj Hn2 Ho2) Hvis Hold Hnew i Pj x y Hi Hj Hb) as (P' & Hj' & Hag');
        [lia |].
      exists P'. split; [done |]. split.
      + intros m Hm. rewrite Hag' by lia. by apply Hagree.
      + apply augmentedSlot_length in Hb. lia. }
  destruct Hstep as (P1 & Hinv1 & Hagree & Hlen01).
  destruct (IH st1 nodes' P1 H Hlen) as (Hwf' & Hbal').
  - eapply (slotInv_end A oldDist newDist e oldNode newNode Hvis Hold Hnew P1 P);
      [done | done | by apply Hagree | done].
  - lia.
  - split; [done |]. intros Hunc. destruct (Hbal' Hunc) as (P' & HbalP & HP').
    exists P'. split; [done |]. rewrite HP'. apply Hagree. simpl in Hne. lia.
Qed.

(** The state in which [buildAugmented] enters its loop. *)
Lemma augInv_init A oldDist newDist :
  (0 < length oldDist)%nat -> (0 < length newDist)%nat ->
  augInv A oldDist newDist (fun _ => residual A 1 1)
    ([setSumAll QuadTreeNode.empty (computeAugmentedPdf 1 1 A)],
     [mkAugPair (0%nat, -1) (0%nat, -1) 1%Q 1%Q 0%nat]).
Proof.
  intros Ho Hn. split; [| split; [| split]]; simpl.
  - intros m x i Hm. destruct m; [| done]. injection Hm as <-. left. apply child_empty.
  - apply Forall_cons. split; [| done]. split; [| split; [| split]].
    + unfold validAug. simpl. lia.
    + eexists. split; [done |]. intros i. apply child_empty.
    + apply visited_root.
    + intros _. reflexivity.
  - apply NoDup_singleton.
  - intros _ m x Hm Hnot. destruct m; [| done].
    exfalso. apply Hnot. apply list_elem_of_singleton. done.
Qed.

Lemma sameLeaves_trans a b c : sameLeaves a b -> sameLeaves b c -> sameLeaves a c.
Proof.
  intros Hab Hbc m nd Hm.
  destruct (Hab m nd Hm) as (nd1 & H1 & Hc1 & Hs1).
  destruct (Hbc m nd1 H1) as (nd2 & H2 & Hc2 & Hs2).
  exists nd2. split; [done |]. split; [congruence |].
  intros i Hl. rewrite Hs2, Hs1; [done | done |].
  unfold isLeaf, child in *. by rewrite Hc1.
Qed.

Lemma build_sameLeaves fuel : forall self nodes nodes',
  QuadTreeNode.build fuel self nodes = Some nodes' -> sameLeaves nodes nodes'.
Proof.
  induction fuel as [|fuel IH]; intros self nodes nodes' H; [done |].
  simpl in H.
  refine (for4_inv _ (fun _ x => sameLeaves nodes x) _ _ _ _ H).
  { intros m nd Hm. by exists nd. }
  clear H. intros i x y _ Hx Hb. eapply sameLeaves_trans; [exact Hx |].
  unfold buildSlot in Hb.
  destruct (x !! self) as [nd|] eqn:En; [simpl in Hb | done].
  destruct (isLeaf nd i) eqn:El.
  { simplify_eq. intros m nd0 Hm. by exists nd0. }
  destruct (QuadTreeNode.build fuel (child nd i) x) as [nodes1|] eqn:Er; [simpl in Hb | done].
  destruct (nodes1 !! child nd i) as [cn|] eqn:Ec; [simpl in Hb | done].
  destruct (nodes1 !! self) as [nd1|] eqn:En1; [simpl in Hb | done].
  simplify_eq. eapply sameLeaves_trans; [by eapply IH |].
  intros m nd0 Hm. destruct (decide (m = self)) as [-> | Hne].
  - rewrite En1 in Hm. injection Hm as <-.
    rewrite list_lookup_insert_eq by (by eapply lookup_lt_Some).
    eexists. split; [done |]. split; [done |].
    intros j Hj. apply sum_setSum_ne. intros Hs.
    destruct (IH _ _ _ Er self nd En) as (nd1' & E1 & Hc1 & _).
    rewrite En1 in E1. injection E1 as <-.
    assert (isLeaf nd1 i = false).
    { unfold isLeaf, child in *. by rewrite Hc1. }
    rewrite <- isLeaf_slot, <- Hs, isLeaf_slot in Hj. congruence.
  - rewrite list_lookup_insert_ne by done. by exists nd0.
Qed.

Lemma balanced_sameLeaves P nodes nodes' :
  length nodes' = length nodes -> sameLeaves nodes nodes' ->
  balanced P nodes -> balanced P nodes'.
Proof.
  intros Hlen Hsame Hbal k nd' Hk.
  destruct (lookup_lt_is_Some_2 nodes k) as [nd Hnd].
  { apply lookup_lt_Some in Hk. lia. }
  destruct (Hsame k nd Hnd) as (nd2 & H2 & Hc & Hs).
  rewrite Hk in H2. injection H2 as <-.
  rewrite <- (Hbal k nd Hnd).
  rewrite (nodeVal_ext P P nd nd'); [reflexivity |].
  intros i. unfold slotVal, isLeaf, child. rewrite Hc.
  destruct (Nat.eqb_spec (get4 (m_children nd) i) 0) as [Hz | Hnz]; [| done].
  apply Hs. unfold isLeaf, child. by apply Nat.eqb_eq.
Qed.

End AugInvFacts.

Module AugResultFacts.
Import QuadTreeNode DTree WF WFFacts Residual AugWalk AugLoopFacts AugInvFacts.

Lemma not_close_nonzero (A : Q) : (EPSILON <= Qabs (A - 1))%Q -> ~ (A - 1 == 0)%Q.
Proof.
  intros H E. rewrite E in H. by apply (Qlt_not_le 0 EPSILON).
Qed.

Lemma residual_root (A : Q) : ~ (A - 1 == 0)%Q -> (residual A 1 1 == 1)%Q.
Proof. intros H. unfold residual. by field. Qed.

Lemma augmentedNodes_nonempty fuel A oldDist newDist nodes :
  augmentedNodes fuel A oldDist newDist = Some nodes -> (0 < length nodes)%nat.
Proof. intros H%augmentedLoop_length. simpl in H. lia. Qed.

(** The results of two runs with different fuel agree. *)
Lemma getMajorizingFactor_fuel f1 f2 this other p1 p2 :
  getMajorizingFactor f1 this other = Some p1 ->
  getMajorizingFactor f2 this other = Some p2 -> p1 = p2.
Proof.
  unfold getMajorizingFactor. intros H1 H2.
  apply (MajFacts.majorizingLoop_mono _ _ _ _ _ (f1 + f2)) in H1; [| lia].
  apply (MajFacts.majorizingLoop_mono _ _ _ _ _ (f1 + f2)) in H2; [| lia].
  congruence.
Qed.

Lemma augmentedNodes_fuel f1 f2 A oldDist newDist n1 n2 :
  augmentedNodes f1 A oldDist newDist = Some n1 ->
  augmentedNodes f2 A oldDist newDist = Some n2 -> n1 = n2.
Proof.
  unfold augmentedNodes. intros H1 H2.
  apply (augmentedLoop_mono _ _ _ _ _ _ (f1 + f2)) in H1; [| lia].
  apply (augmentedLoop_mono _ _ _ _ _ _ (f1 + f2)) in H2; [| lia].
  congruence.
Qed.

(** The dual walk on the peaked old tree and the graded new one visits
    the two roots and the two children in slot 0. *)
Lemma visited_peaked_graded n o newF oldF :
  AugWalk.visited (m_nodes Examples.peaked) (m_nodes Examples.graded) n o newF oldF ->
  (n = 0%nat /\ o = 0%nat /\ newF = 1%Q /\ oldF = 1%Q) \/
  (exists newNode oldNode,
     m_nodes Examples.graded !! 0%nat = Some newNode /\
     m_nodes Examples.peaked !! 0%nat = Some oldNode /\
     n = 1%nat /\ o = 1%nat /\
     newF = slotPdf (total newNode) 1%Q newNode 0 /\
     oldF = slotPdf (total oldNode) 1%Q oldNode 0).
Proof.
  intros Hv.
  induction Hv as [| n o newF oldF newNode oldNode i Hv IH Hn Ho Hi Hln Hlo];
    [by left |].
  destruct IH as [(-> & -> & -> & ->) | (nn & on & _ & _ & -> & -> & _ & _)].
  - simpl in Hn, Ho. injection Hn as <-. injection Ho as <-.
    assert (i = 0 \/ i = 1 \/ i = 2 \/ i = 3) as [-> | [-> | [-> | ->]]] by lia;
      try (by vm_compute in Hln).
    right. eexists _, _. by repeat split.
  - simpl in Hn. injection Hn as <-.
    assert (i = 0 \/ i = 1 \/ i = 2 \/ i = 3) as [-> | [-> | [-> | ->]]] by lia;
      by vm_compute in Hln.
Qed.

(** The side conditions of the theorem below hold for the peaked old
    tree and the graded new one: [A] is 10, the augmented tree has two
    nodes, and the residuals (1 at the root; 0, 4/3, 4/3, 4/3 in the
    child) are not clamped. *)
Lemma unclamped_peaked_graded (fuel : nat) (pp : Q * Q) (nodes : list QuadTreeNode) :
  getMajorizingFactor fuel Examples.graded Examples.peaked = Some pp ->
  augmentedNodes fuel (majorizingA pp) (m_nodes Examples.peaked)
    (m_nodes Examples.graded) = Some nodes ->
  (majorizingA pp == 10)%Q /\
  (EPSILON <= Qabs (majorizingA pp - 1))%Q /\
  length nodes = 2%nat /\
  AugWalk.unclamped (majorizingA pp) (m_nodes Examples.peaked)
    (m_nodes Examples.graded).
Proof.
  intros Hpp Hnodes.
  assert (pp = (160 # 400, 16 # 4)%Q) as ->.
  { eapply getMajorizingFactor_fuel; [exact Hpp |].
    instantiate (1 := 5%nat). vm_compute. reflexivity. }
  split; [vm_compute; reflexivity |]. split; [vm_compute; discriminate |]. split.
  - assert (En : exists n0 n1,
               augmentedNodes 5 (majorizingA (160 # 400, 16 # 4)%Q)
                 (m_nodes Examples.peaked) (m_nodes Examples.graded) = Some [n0; n1])
      by (eexists _, _; vm_compute; reflexivity).
    destruct En as (n0 & n1 & En).
    by rewrite (augmentedNodes_fuel _ _ _ _ _ _ _ Hnodes En).
  - intros n o newF oldF newNode oldNode Hv Hn Ho.
    destruct (visited_peaked_graded _ _ _ _ Hv)
      as [(-> & -> & -> & ->) | (nn & on & En & Eo & -> & -> & -> & ->)].
    + simpl in Hn, Ho. injection Hn as <-. injection Ho as <-.
      split; [vm_compute; discriminate |]. split; [vm_compute; discriminate |].
      intros i Hi _.
      assert (i = 0 \/ i = 1 \/ i = 2 \/ i = 3) as [-> | [-> | [-> | ->]]] by lia;
        vm_compute; discriminate.
    + simpl in En, Eo, Hn, Ho.
      injection En as <-. injection Eo as <-. injection Hn as <-. injection Ho as <-.
      split; [vm_compute; discriminate |]. split; [vm_compute; discriminate |].
      intros i Hi _.
      assert (i = 0 \/ i = 1 \/ i = 2 \/ i = 3) as [-> | [-> | [-> | ->]]] by lia;
        vm_compute; discriminate.
Qed.

End AugResultFacts.



(** * Further properties of the code *)
(** * Recording into a quadtree *)

Module EnergyFacts.
Import QuadTreeNode WF WFFacts BuildFacts Energy Locate.

Lemma childIndex_range p : 0 <= (childIndex p).1 < 4.
Proof.
  unfold childIndex. destruct p as [x y]. cbn [fst snd].
  destruct (Qltb x (1 # 2)), (Qltb y (1 # 2)); cbn [fst];
    (split; [apply Z.leb_le | apply Z.ltb_lt]; reflexivity).
Qed.

Lemma leafEnergy_insert nodes : forall m nd nd',
  nodes !! m = Some nd ->
  (leafEnergy (<[m := nd']> nodes) == leafEnergy nodes - leafSum nd + leafSum nd')%Q.
Proof.
  induction nodes as [|x xs IH]; intros m nd nd' H; [done |].
  destruct m as [|m]; simpl in *.
  - injection H as ->. ring.
  - rewrite (IH _ _ nd' H). ring.
Qed.

Lemma leafSum_setSum nd i v :
  0 <= i < 4 -> isLeaf nd i = true ->
  (leafSum (setSum nd i v) == leafSum nd - sum nd i + v)%Q.
Proof.
  intros Hi Hl. unfold leafSum, leafSlot.
  rewrite !isLeaf_setSum.
  assert (i = 0 \/ i = 1 \/ i = 2 \/ i = 3) as [-> | [-> | [-> | ->]]] by lia;
    rewrite Hl; rewrite sum_setSum_eq;
    rewrite ?sum_setSum_ne by (unfold slot; simpl; lia);
    repeat case_match; ring.
Qed.

Lemma children_insert_setSum (nodes : list QuadTreeNode) m nd i v :
  nodes !! m = Some nd ->
  m_children <$> <[m := setSum nd i v]> nodes = m_children <$> nodes.
Proof.
  intros H. rewrite list_fmap_insert. simpl.
  apply list_insert_id. by rewrite list_lookup_fmap, H.
Qed.

(** [leafAt] reaches a leaf slot of an existing node on well-formed
    vectors. *)
Lemma leafAt_total fuel : forall nodes self p,
  wfNodes nodes -> (self < length nodes)%nat -> (length nodes <= self + fuel)%nat ->
  exists m i d nd, leafAt fuel nodes self p = Some (m, i, d) /\
    nodes !! m = Some nd /\ 0 <= i < 4 /\ isLeaf nd i = true /\ 1 <= d.
Proof.
  induction fuel as [|fuel IH]; intros nodes self p Hwf Hlt Hfuel; [lia |].
  destruct (lookup_lt_is_Some_2 nodes self Hlt) as [nd Hnd].
  simpl. rewrite Hnd. simpl.
  pose proof (childIndex_range p) as Hr.
  destruct (childIndex p) as [index p'] eqn:Ec. simpl in Hr.
  destruct (isLeaf nd index) eqn:El.
  - exists self, index, 1, nd. repeat split; auto; lia.
  - pose proof (nonleaf_child _ _ _ _ Hwf Hnd El) as Hc.
    destruct (IH nodes (child nd index) p' Hwf) as (m & i & d & nd' & E & H1 & H2 & H3 & H4);
      [lia | lia |].
    rewrite E. simpl. exists m, i, (1 + d), nd'. repeat split; auto; lia.
Qed.

(** [leafAt] only reads the child links. *)
Lemma leafAt_shape fuel : forall (nodes nodes' : list QuadTreeNode) self p,
  m_children <$> nodes' = m_children <$> nodes ->
  leafAt fuel nodes' self p = leafAt fuel nodes self p.
Proof.
  induction fuel as [|fuel IH]; intros nodes nodes' self p Hs; [done |].
  simpl.
  assert (m_children <$> (nodes' !! self) = m_children <$> (nodes !! self)) as Hl.
  { by rewrite <- !list_lookup_fmap, Hs. }
  destruct (nodes' !! self) as [nd'|], (nodes !! self) as [nd|]; simpl in *; try done.
  injection Hl as Hl.
  destruct (childIndex p) as [index p'].
  unfold isLeaf, child. rewrite Hl.
  destruct (get4 (m_children nd) index =? 0)%nat; [done |].
  by rewrite (IH nodes nodes' _ _ Hs).
Qed.

Lemma record_leafAt fuel : forall nodes self p irr,
  record fuel nodes self p irr =
    '(m, i, _) ← leafAt fuel nodes self p;
    nd ← nodes !! m;
    Some (<[m := setSum nd i (sum nd i + irr)%Q]> nodes).
Proof.
  induction fuel as [|fuel IH]; intros nodes self p irr; [done |].
  simpl. destruct (nodes !! self) as [nd|] eqn:Hnd; [simpl | done].
  destruct (childIndex p) as [index p'].
  destruct (isLeaf nd index); simpl.
  - by rewrite Hnd.
  - rewrite IH. destruct (leafAt fuel nodes (child nd index) p') as [[[m i] d]|]; done.
Qed.

Lemma depthAt_leafAt fuel : forall nodes self p,
  depthAt fuel nodes self p = '(_, _, d) ← leafAt fuel nodes self p; Some d.
Proof.
  induction fuel as [|fuel IH]; intros nodes self p; [done |].
  simpl. destruct (nodes !! self) as [nd|] eqn:Hnd; [simpl | done].
  destruct (childIndex p) as [index p'].
  destruct (isLeaf nd index); simpl; [done |].
  rewrite IH. destruct (leafAt fuel nodes (child nd index) p') as [[[m i] d]|]; done.
Qed.

Lemma eval_leafAt fuel : forall nodes self p m i d nd,
  leafAt fuel nodes self p = Some (m, i, d) -> nodes !! m = Some nd ->
  exists e, eval fuel nodes self p = Some e /\ (e == 4 ^ d * sum nd i)%Q /\ 1 <= d.
Proof.
  induction fuel as [|fuel IH]; intros nodes self p m i d nd H Hm; [done |].
  simpl in *. destruct (nodes !! self) as [nd0|] eqn:Hnd; [simpl in * | done].
  destruct (childIndex p) as [index p'].
  destruct (isLeaf nd0 index); simpl in *.
  - injection H as <- <- <-. rewrite Hnd in Hm. injection Hm as <-.
    eexists. split; [done |]. split; [| lia]. reflexivity.
  - destruct (leafAt fuel nodes (child nd0 index) p') as [[[m1 i1] d1]|] eqn:E; [| done].
    simpl in H. injection H as <- <- <-.
    destruct (IH _ _ _ _ _ _ _ E Hm) as (e & He & Hv & Hd).
    rewrite He. simpl. eexists. split; [done |]. split; [| lia].
    rewrite Hv. rewrite Qpower_plus by done. change (4 ^ 1)%Q with 4%Q. ring.
Qed.

Lemma record_energy fuel nodes self p irr :
  wfNodes nodes -> (self < length nodes)%nat -> (length nodes <= self + fuel)%nat ->
  exists nodes',
    record fuel nodes self p irr = Some nodes' /\
    m_children <$> nodes' = m_children <$> nodes /\
    (leafEnergy nodes' == leafEnergy nodes + irr)%Q.
Proof.
  intros Hwf Hlt Hfuel.
  destruct (leafAt_total fuel nodes self p Hwf Hlt Hfuel)
    as (m & i & d & nd & E & Hm & Hi & Hl & Hd).
  rewrite record_leafAt, E. simpl. rewrite Hm. simpl.
  eexists. split; [done |]. split.
  - by apply children_insert_setSum.
  - rewrite (leafEnergy_insert _ _ _ _ Hm), (leafSum_setSum _ _ _ Hi Hl). ring.
Qed.

End EnergyFacts.

(** X1.  [childIndex] decodes a point of the unit square: the slot it
    returns is between 0 and 3, the rescaled point lies in the unit square
    again, bit 0 of the slot is the half of [x] and bit 1 the half of [y],
    so that each coordinate is [(bit + rescaled coordinate) / 2]. *)
Theorem childIndex_quadrant (p : Point2) :
  Locate.inSquare p ->
  let '(index, p') := QuadTreeNode.childIndex p in
  0 <= index < 4 /\
  Locate.inSquare p' /\
  (fst p == (inject_Z (Z.land index 1) + fst p') / 2)%Q /\
  (snd p == (inject_Z (Z.shiftr index 1) + snd p') / 2)%Q.
Proof.
  intros [Hx Hy]. unfold QuadTreeNode.childIndex, Locate.inSquare.
  destruct p as [x y]. cbn [fst snd] in *.
  destruct (Qltb x (1 # 2)) eqn:Ex; [apply Qltb_lt in Ex | apply Qltb_ge in Ex];
    (destruct (Qltb y (1 # 2)) eqn:Ey; [apply Qltb_lt in Ey | apply Qltb_ge in Ey]);
    cbn [fst snd];
    (split; [split; [apply Z.leb_le | apply Z.ltb_lt]; reflexivity |]);
    match goal with
    | |- context [Z.land ?a 1] =>
      let v := eval vm_compute in (Z.land a 1) in change (Z.land a 1) with v;
      let u := eval vm_compute in (Z.shiftr a 1) in change (Z.shiftr a 1) with u
    end;
    unfold inject_Z; repeat split; try lra; field.
Qed.

Lemma childIndex_quadrant_witness :
  Locate.inSquare (3 # 4, 1 # 4)%Q /\
  let '(index, p') := QuadTreeNode.childIndex (3 # 4, 1 # 4)%Q in
  0 <= index < 4 /\
  Locate.inSquare p' /\
  ((3 # 4) == (inject_Z (Z.land index 1) + fst p') / 2)%Q /\
  ((1 # 4) == (inject_Z (Z.shiftr index 1) + snd p') / 2)%Q.
Proof.
  assert (H : Locate.inSquare (3 # 4, 1 # 4)%Q) by (repeat split; discriminate).
  split; [exact H |].
  exact (childIndex_quadrant (3 # 4, 1 # 4)%Q H).
Defined.

(** X2.  On a well-formed node vector and for a point of the unit
    square, [record(p, irradiance, nodes)] returns, changes no child link,
    and raises the total of the sums of the leaf slots by exactly
    [irradiance]. *)
Theorem record_adds_irradiance (nodes : list QuadTreeNode) (self : nat) (p : Point2)
    (irradiance : Float) (fuel : nat) :
  WF.wfNodes nodes -> (self < length nodes)%nat -> (length nodes <= self + fuel)%nat ->
  Locate.inSquare p ->
  exists nodes',
    QuadTreeNode.record fuel nodes self p irradiance = Some nodes' /\
    m_children <$> nodes' = m_children <$> nodes /\
    (Energy.leafEnergy nodes' == Energy.leafEnergy nodes + irradiance)%Q.
Proof.
  intros Hwf Hlt Hfuel _.
  destruct (EnergyFacts.record_energy fuel nodes self p irradiance Hwf Hlt Hfuel)
    as (nodes' & E & Hs & He).
  exists nodes'. split; [exact E |]. split; [exact Hs | exact He].
Qed.

Lemma record_adds_irradiance_witness :
  let nodes := m_nodes Examples.peaked in
  WF.wfNodes nodes /\ (0 < length nodes)%nat /\ (length nodes <= 0 + 2)%nat /\
  Locate.inSquare (1 # 8, 1 # 8)%Q /\
  exists nodes',
    QuadTreeNode.record 2 nodes 0 (1 # 8, 1 # 8)%Q 2 = Some nodes' /\
    m_children <$> nodes' = m_children <$> nodes /\
    (Energy.leafEnergy nodes' == Energy.leafEnergy nodes + 2)%Q.
Proof.
  assert (H : WF.wfNodes (m_nodes Examples.peaked))
    by (apply WFFacts.wfNodesb_sound; reflexivity).
  assert (Hp : Locate.inSquare (1 # 8, 1 # 8)%Q) by (repeat split; discriminate).
  split; [exact H |]. split; [cbv; lia |]. split; [cbv; lia |]. split; [exact Hp |].
  apply (record_adds_irradiance (m_nodes Examples.peaked) 0 (1 # 8, 1 # 8)%Q 2 2);
    [exact H | cbv; lia | cbv; lia | exact Hp].
Defined.

(** X3.  On a well-formed node vector and for a point of the unit
    square, [record(p, irradiance, nodes)] leaves [depthAt(p)] as it is and
    raises [eval(p)] by [4 ^ depthAt(p) * irradiance]. *)
Theorem record_raises_eval (nodes : list QuadTreeNode) (self : nat) (p : Point2)
    (irradiance : Float) (fuel : nat) :
  WF.wfNodes nodes -> (self < length nodes)%nat -> (length nodes <= self + fuel)%nat ->
  Locate.inSquare p ->
  exists nodes' d e e',
    QuadTreeNode.record fuel nodes self p irradiance = Some nodes' /\
    QuadTreeNode.depthAt fuel nodes self p = Some d /\
    QuadTreeNode.depthAt fuel nodes' self p = Some d /\
    QuadTreeNode.eval fuel nodes self p = Some e /\
    QuadTreeNode.eval fuel nodes' self p = Some e' /\
    (e' == e + 4 ^ d * irradiance)%Q.
Proof.
  intros Hwf Hlt Hfuel _.
  destruct (EnergyFacts.leafAt_total fuel nodes self p Hwf Hlt Hfuel)
    as (m & i & d & nd & E & Hm & Hi & Hl & Hd).
  pose proof (EnergyFacts.children_insert_setSum nodes m nd i
                (QuadTreeNode.sum nd i + irradiance)%Q Hm) as Hs.
  pose proof (EnergyFacts.leafAt_shape fuel _ _ self p Hs) as E'. rewrite E in E'.
  destruct (EnergyFacts.eval_leafAt _ _ _ _ _ _ _ _ E Hm) as (e & He & Hv & _).
  assert (<[m := QuadTreeNode.setSum nd i (QuadTreeNode.sum nd i + irradiance)%Q]> nodes !! m
          = Some (QuadTreeNode.setSum nd i (QuadTreeNode.sum nd i + irradiance)%Q)) as Hm'.
  { apply list_lookup_insert_eq. by eapply lookup_lt_Some. }
  destruct (EnergyFacts.eval_leafAt _ _ _ _ _ _ _ _ E' Hm') as (e' & He' & Hv' & _).
  exists (<[m := QuadTreeNode.setSum nd i (QuadTreeNode.sum nd i + irradiance)%Q]> nodes),
    d, e, e'.
  rewrite EnergyFacts.record_leafAt, !EnergyFacts.depthAt_leafAt, E, E'. simpl. rewrite Hm. simpl.
  repeat split; try done.
  rewrite Hv', Hv, BuildFacts.sum_setSum_eq. ring.
Qed.

Lemma record_raises_eval_witness :
  let nodes := m_nodes Examples.peaked in
  WF.wfNodes nodes /\ (0 < length nodes)%nat /\ (length nodes <= 0 + 2)%nat /\
  Locate.inSquare (1 # 8, 1 # 8)%Q /\
  exists nodes' d e e',
    QuadTreeNode.record 2 nodes 0 (1 # 8, 1 # 8)%Q 2 = Some nodes' /\
    QuadTreeNode.depthAt 2 nodes 0 (1 # 8, 1 # 8)%Q = Some d /\
    QuadTreeNode.depthAt 2 nodes' 0 (1 # 8, 1 # 8)%Q = Some d /\
    QuadTreeNode.eval 2 nodes 0 (1 # 8, 1 # 8)%Q = Some e /\
    QuadTreeNode.eval 2 nodes' 0 (1 # 8, 1 # 8)%Q = Some e' /\
    (e' == e + 4 ^ d * 2)%Q.
Proof.
  assert (H : WF.wfNodes (m_nodes Examples.peaked))
    by (apply WFFacts.wfNodesb_sound; reflexivity).
  assert (Hp : Locate.inSquare (1 # 8, 1 # 8)%Q) by (repeat split; discriminate).
  split; [exact H |]. split; [cbv; lia |]. split; [cbv; lia |]. split; [exact Hp |].
  apply (record_raises_eval (m_nodes Examples.peaked) 0 (1 # 8, 1 # 8)%Q 2 2);
    [exact H | cbv; lia | cbv; lia | exact Hp].
Defined.

Module BoxFacts.
Import QuadTreeNode WF WFFacts BuildFacts Energy Box Residual IntegralFacts EnergyFacts.

Lemma computeOverlappingArea_len min1 max1 min2 max2 :
  computeOverlappingArea min1 max1 min2 max2
  = (len (fst min1) (fst max1) (fst min2) (fst max2)
     * len (snd min1) (snd max1) (snd min2) (snd max2))%Q.
Proof. reflexivity. Qed.

(** Case analysis on the innermost comparisons of the goal. *)
Ltac cases_Qltb :=
  repeat match goal with
         | |- context [Qltb ?a ?b] =>
           lazymatch a with
           | context [Qltb _ _] => fail
           | _ =>
             lazymatch b with
             | context [Qltb _ _] => fail
             | _ =>
               let E := fresh "E" in
               destruct (Qltb a b) eqn:E;
               [apply Qltb_lt in E | apply Qltb_ge in E]
             end
           end
         end.

Lemma len_nonneg lo1 hi1 lo2 hi2 : (0 <= len lo1 hi1 lo2 hi2)%Q.
Proof. unfold len. apply std_max_ge_r. Qed.

Lemma len_split a b o h e :
  (0 <= h)%Q -> (e == o + h + h)%Q ->
  (len a b o (o + h) + len a b (o + h) (o + h + h) == len a b o e)%Q.
Proof.
  intros Hh He. unfold len, std_max, std_min. cases_Qltb; lra.
Qed.

End BoxFacts.

Module BoxEnergy.
Import QuadTreeNode WF WFFacts BuildFacts Energy Box Residual IntegralFacts EnergyFacts BoxFacts.

Lemma overlap_nonneg origin size o s : (0 <= overlap origin size o s)%Q.
Proof.
  unfold overlap. rewrite computeOverlappingArea_len.
  apply Qmult_le_0_compat; apply len_nonneg.
Qed.

Lemma overlap_quadrants origin size nodeOrigin nodeSize :
  (0 <= nodeSize)%Q ->
  (prefix4 (fun i => overlap origin size (quadrant nodeOrigin (nodeSize / 2) i) (nodeSize / 2)) 4
   == overlap origin size nodeOrigin nodeSize)%Q.
Proof.
  intros Hs. unfold prefix4, overlap, quadrant, boxMax. simpl.
  rewrite !computeOverlappingArea_len. cbn [fst snd].
  assert (0 <= nodeSize / 2)%Q as Hh.
  { apply Qle_shift_div_l; [reflexivity | lra]. }
  assert (forall o, o + nodeSize == o + nodeSize / 2 + nodeSize / 2)%Q as He.
  { intros o. field. }
  rewrite <- (len_split (fst origin) (fst origin + size) (fst nodeOrigin) (nodeSize / 2)
                (fst nodeOrigin + nodeSize) Hh (He _)).
  rewrite <- (len_split (snd origin) (snd origin + size) (snd nodeOrigin) (nodeSize / 2)
                (snd nodeOrigin + nodeSize) Hh (He _)).
  ring.
Qed.

Lemma fmap_children_length (x y : list QuadTreeNode) :
  m_children <$> x = m_children <$> y -> length x = length y.
Proof. intros H. apply (f_equal length) in H. by rewrite !length_fmap in H. Qed.

Lemma recordBox_energy fuel : forall self origin size nodeOrigin nodeSize value nodes,
  wfNodes nodes -> (self < length nodes)%nat -> (length nodes <= self + fuel)%nat ->
  (0 <= nodeSize)%Q ->
  exists nodes',
    recordBox fuel self origin size nodeOrigin nodeSize value nodes = Some nodes' /\
    m_children <$> nodes' = m_children <$> nodes /\
    (leafEnergy nodes' == leafEnergy nodes
                          + value * overlap origin size nodeOrigin nodeSize)%Q.
Proof.
  induction fuel as [|fuel IH];
    intros self origin size nodeOrigin nodeSize value nodes Hwf Hlt Hfuel Hs; [lia |].
  assert (0 <= nodeSize / 2)%Q as Hh.
  { apply Qle_shift_div_l; [reflexivity | lra]. }
  simpl.
  edestruct (for4_total
    (fun i nodes0 =>
       let childOrigin := quadrant nodeOrigin (nodeSize / 2) i in
       let w := overlap origin size childOrigin (nodeSize / 2) in
       if Qltb 0 w then
         nd ← nodes0 !! self;
         if isLeaf nd i
         then Some (<[self := setSum nd i (sum nd i + value * w)%Q]> nodes0)
         else recordBox fuel (child nd i) origin size childOrigin (nodeSize / 2) value nodes0
       else Some nodes0)
    (fun j x =>
       m_children <$> x = m_children <$> nodes /\
       (leafEnergy x == leafEnergy nodes
          + value * prefix4 (fun i => overlap origin size
                                         (quadrant nodeOrigin (nodeSize / 2) i)
                                         (nodeSize / 2)) j)%Q)
    nodes) as (nodes' & E & Hsh & He).
  - split; [done |]. unfold prefix4. simpl. ring.
  - intros i x Hi [Hsh He].
    pose proof (fmap_children_length _ _ Hsh) as Hlen.
    pose proof (wfNodes_shape _ _ Hsh Hwf) as Hwfx.
    cbv zeta.
    pose proof (prefix4_step (fun i => overlap origin size
                                         (quadrant nodeOrigin (nodeSize / 2) i)
                                         (nodeSize / 2)) i Hi) as Hp.
    cbv beta in Hp.
    destruct (Qltb 0 (overlap origin size (quadrant nodeOrigin (nodeSize / 2) i)
                              (nodeSize / 2))) eqn:Ew.
    + destruct (lookup_lt_is_Some_2 x self) as [nd Hnd]; [lia |].
      rewrite Hnd. simpl.
      destruct (isLeaf nd i) eqn:El.
      * eexists. split; [done |]. split.
        -- by rewrite children_insert_setSum.
        -- rewrite (leafEnergy_insert _ _ _ _ Hnd), (leafSum_setSum _ _ _ Hi El), He, Hp.
           ring.
      * pose proof (nonleaf_child _ _ _ _ Hwfx Hnd El) as Hc.
        destruct (IH (child nd i) origin size (quadrant nodeOrigin (nodeSize / 2) i)
                     (nodeSize / 2)%Q value x Hwfx) as (y & Ey & Hshy & Hey);
          [lia | lia | done |].
        exists y. split; [done |]. split; [congruence |].
        rewrite Hey, He, Hp. ring.
    + apply Qltb_ge in Ew.
      pose proof (overlap_nonneg origin size (quadrant nodeOrigin (nodeSize / 2) i)
                    (nodeSize / 2)) as Hn.
      exists x. split; [done |]. split; [done |].
      rewrite He, Hp.
      assert (overlap origin size (quadrant nodeOrigin (nodeSize / 2) i) (nodeSize / 2) == 0)%Q
        as -> by lra.
      ring.
  - exists nodes'. split; [exact E |]. split; [done |].
    rewrite He, (overlap_quadrants _ _ _ _ Hs). reflexivity.
Qed.

End BoxEnergy.

(** X4.  On a well-formed node vector and for a node side that is not
    negative, the box-filtered [record] returns, changes no child link, and
    raises the total of the sums of the leaf slots by [value] times the area
    that the box of corner [origin] and side [size] shares with the cell of
    corner [nodeOrigin] and side [nodeSize], as [computeOverlappingArea]
    gives it. *)
Theorem recordBox_adds_overlap (fuel : nat) (self : nat) (origin : Point2) (size : Float)
    (nodeOrigin : Point2) (nodeSize value : Float) (nodes : list QuadTreeNode) :
  WF.wfNodes nodes -> (self < length nodes)%nat -> (length nodes <= self + fuel)%nat ->
  (0 <= nodeSize)%Q ->
  exists nodes',
    QuadTreeNode.recordBox fuel self origin size nodeOrigin nodeSize value nodes = Some nodes' /\
    m_children <$> nodes' = m_children <$> nodes /\
    (Energy.leafEnergy nodes'
     == Energy.leafEnergy nodes
        + value * QuadTreeNode.computeOverlappingArea origin
                    ((fst origin + size)%Q, (snd origin + size)%Q) nodeOrigin
                    ((fst nodeOrigin + nodeSize)%Q, (snd nodeOrigin + nodeSize)%Q))%Q.
Proof.
  intros Hwf Hlt Hfuel Hsize.
  destruct (BoxEnergy.recordBox_energy fuel self origin size nodeOrigin nodeSize value nodes
              Hwf Hlt Hfuel Hsize) as (nodes' & E & Hs & He).
  exists nodes'. split; [exact E |]. split; [exact Hs | exact He].
Qed.

Lemma recordBox_adds_overlap_witness :
  let nodes := m_nodes Examples.peaked in
  WF.wfNodes nodes /\ (0 < length nodes)%nat /\ (length nodes <= 0 + 2)%nat /\
  (0 <= 1)%Q /\
  exists nodes',
    QuadTreeNode.recordBox 2 0 (1 # 8, 1 # 8)%Q (1 # 2) (0, 0)%Q 1 3 nodes = Some nodes' /\
    m_children <$> nodes' = m_children <$> nodes /\
    (Energy.leafEnergy nodes'
     == Energy.leafEnergy nodes
        + 3 * QuadTreeNode.computeOverlappingArea (1 # 8, 1 # 8)%Q
                ((1 # 8) + (1 # 2), (1 # 8) + (1 # 2))%Q (0, 0)%Q (0 + 1, 0 + 1)%Q)%Q.
Proof.
  assert (H : WF.wfNodes (m_nodes Examples.peaked))
    by (apply WFFacts.wfNodesb_sound; reflexivity).
  split; [exact H |]. split; [cbv; lia |]. split; [cbv; lia |]. split; [discriminate |].
  apply (recordBox_adds_overlap 2 0 (1 # 8, 1 # 8)%Q (1 # 2) (0, 0)%Q 1 3
           (m_nodes Examples.peaked)); [exact H | cbv; lia | cbv; lia | discriminate].
Defined.

Module IrradianceFacts.
Import QuadTreeNode WF WFFacts Energy Box Locate EnergyFacts BoxFacts BoxEnergy.

Lemma half_pow_pos (d : Z) : (0 < (1 # 2) ^ d)%Q.
Proof. apply Qpower_0_lt. reflexivity. Qed.

(** A box of side [s] that lies in the unit square shares its whole
    area with it. *)
Lemma overlap_inside (origin : Point2) (s : Q) :
  (0 <= s)%Q ->
  (0 <= fst origin)%Q -> (fst origin + s <= 1)%Q ->
  (0 <= snd origin)%Q -> (snd origin + s <= 1)%Q ->
  (overlap origin s (0%Q, 0%Q) 1 == s * s)%Q.
Proof.
  intros Hs Hx0 Hx1 Hy0 Hy1. unfold overlap, boxMax.
  rewrite computeOverlappingArea_len. cbn [fst snd].
  assert (forall a, (0 <= a)%Q -> (a + s <= 1)%Q -> (len a (a + s) 0 (0 + 1) == s)%Q) as Hl.
  { intros a H0 H1. unfold len, std_max, std_min. cases_Qltb; lra. }
  rewrite (Hl _ Hx0 Hx1), (Hl _ Hy0 Hy1). reflexivity.
Qed.

End IrradianceFacts.

(** X5.  For a finite positive irradiance and statistical weight and a
    point of the unit square, [recordIrradiance] on a well-formed tree adds
    the statistical weight to the atomic weight and keeps the atomic sum and
    the child links.  With the nearest filter the leaf sums gain
    [irradiance * statisticalWeight]; with the box filter, whose box has the
    side [2 ^ -depthAt(p)] and the centre [p], they gain that product times
    the part of the box that lies in the unit square, which is all of it
    when the box lies inside. *)
Theorem recordIrradiance_deposits (fuel : nat) (t : DTree) (p : Point2)
    (irradiance statisticalWeight : Q) (directionalFilter : EDirectionalFilter) :
  WF.wfDTree t -> (DTree.numNodes t <= fuel)%nat -> Locate.inSquare p ->
  (0 < statisticalWeight)%Q -> (0 < irradiance)%Q ->
  exists t' d,
    DTree.recordIrradiance fuel t p (Finite irradiance) (Finite statisticalWeight)
      directionalFilter = Some t' /\
    DTree.depthAt fuel t p = Some d /\
    atomic_statisticalWeight t' = (atomic_statisticalWeight t + statisticalWeight)%Q /\
    atomic_sum t' = atomic_sum t /\
    m_children <$> m_nodes t' = m_children <$> m_nodes t /\
    let size := ((1 # 2) ^ d)%Q in
    let origin : Point2 := ((fst p - size / 2)%Q, (snd p - size / 2)%Q) in
    match directionalFilter with
    | ENearest =>
      (Energy.leafEnergy (m_nodes t')
       == Energy.leafEnergy (m_nodes t) + irradiance * statisticalWeight)%Q
    | EBox =>
      (Energy.leafEnergy (m_nodes t')
       == Energy.leafEnergy (m_nodes t)
          + irradiance * statisticalWeight / (size * size)
            * Energy.overlap origin size (0%Q, 0%Q) 1)%Q /\
      ((0 <= fst origin)%Q -> (fst origin + size <= 1)%Q ->
       (0 <= snd origin)%Q -> (snd origin + size <= 1)%Q ->
       (Energy.leafEnergy (m_nodes t')
        == Energy.leafEnergy (m_nodes t) + irradiance * statisticalWeight)%Q)
    end.
Proof.
  intros [Hlen Hwf] Hfuel _ Hw Hirr. unfold DTree.numNodes in Hfuel.
  destruct (EnergyFacts.leafAt_total fuel (m_nodes t) 0 p Hwf Hlen)
    as (m & i & d & nd & E & Hm & Hi & Hl & Hd); [lia |].
  assert (DTree.depthAt fuel t p = Some d) as Hdepth.
  { unfold DTree.depthAt. by rewrite EnergyFacts.depthAt_leafAt, E. }
  unfold DTree.recordIrradiance. cbn [isfinite xpositive xvalue andb].
  apply Qltb_lt in Hw as Hw'. apply Qltb_lt in Hirr as Hirr'. rewrite Hw', Hirr'.
  cbn [m_nodes atomic_sum atomic_statisticalWeight m_maxDepth].
  destruct directionalFilter.
  - destruct (EnergyFacts.record_energy fuel (m_nodes t) 0 p
                (irradiance * statisticalWeight)%Q Hwf Hlen) as (nodes' & E' & Hs & He);
      [lia |].
    rewrite E'. simpl. eexists _, d. repeat split; done.
  - assert (DTree.depthAt fuel
              (mkDTree (m_nodes t) (atomic_sum t)
                       (atomic_statisticalWeight t + statisticalWeight)%Q (m_maxDepth t)) p
            = Some d) as -> by exact Hdepth.
    cbn [mbind option_bind].
    set (size := ((1 # 2) ^ d)%Q).
    pose proof (IrradianceFacts.half_pow_pos d) as Hsize. fold size in Hsize.
    destruct (BoxEnergy.recordBox_energy fuel 0
                ((fst p - size / 2)%Q, (snd p - size / 2)%Q) size (0%Q, 0%Q) 1%Q
                (irradiance * statisticalWeight / (size * size))%Q (m_nodes t) Hwf Hlen)
      as (nodes' & E' & Hs & He); [lia | done |].
    rewrite E'. simpl. eexists _, d. repeat split; try done.
    intros Hx0 Hx1 Hy0 Hy1. simpl. rewrite He.
    rewrite (IrradianceFacts.overlap_inside _ size); try done; [| lra].
    field. lra.
Qed.

Lemma recordIrradiance_deposits_witness :
  WF.wfDTree Examples.peaked /\ (DTree.numNodes Examples.peaked <= 2)%nat /\
  Locate.inSquare (1 # 2, 1 # 2)%Q /\
  (0 < 1)%Q /\ (0 < 2)%Q /\
  exists t' d,
    DTree.recordIrradiance 2 Examples.peaked (1 # 2, 1 # 2)%Q (Finite 2) (Finite 1) EBox
      = Some t' /\
    DTree.depthAt 2 Examples.peaked (1 # 2, 1 # 2)%Q = Some d /\
    atomic_statisticalWeight t' = (atomic_statisticalWeight Examples.peaked + 1)%Q /\
    atomic_sum t' = atomic_sum Examples.peaked /\
    m_children <$> m_nodes t' = m_children <$> m_nodes Examples.peaked /\
    let size := ((1 # 2) ^ d)%Q in
    let origin : Point2 := ((1 # 2) - size / 2, (1 # 2) - size / 2)%Q in
    (Energy.leafEnergy (m_nodes t')
     == Energy.leafEnergy (m_nodes Examples.peaked)
        + 2 * 1 / (size * size) * Energy.overlap origin size (0%Q, 0%Q) 1)%Q /\
    ((0 <= fst origin)%Q -> (fst origin + size <= 1)%Q ->
     (0 <= snd origin)%Q -> (snd origin + size <= 1)%Q ->
     (Energy.leafEnergy (m_nodes t')
      == Energy.leafEnergy (m_nodes Examples.peaked) + 2 * 1)%Q).
Proof.
  assert (H : WF.wfDTree Examples.peaked) by (apply WFFacts.wfDTreeb_sound; reflexivity).
  assert (Hp : Locate.inSquare (1 # 2, 1 # 2)%Q) by (repeat split; discriminate).
  split; [exact H |]. split; [cbv; lia |]. split; [exact Hp |].
  split; [reflexivity |]. split; [reflexivity |].
  apply (recordIrradiance_deposits 2 Examples.peaked (1 # 2, 1 # 2)%Q 2 1 EBox);
    [exact H | cbv; lia | exact Hp | reflexivity | reflexivity].
Defined.

(** * The minimum irradiance and the build of a wrapper *)

Module FloorFacts.
Import QuadTreeNode WF WFFacts Built BuildFacts Floor BoxEnergy.

Lemma raised_refl nodes : raised nodes nodes.
Proof. split; [done |]. intros m nd nd' H H'. simplify_eq. intros i. apply Qle_refl. Qed.

Lemma raised_lookup nodes nodes' m nd :
  raised nodes nodes' -> nodes !! m = Some nd ->
  exists nd', nodes' !! m = Some nd' /\ m_children nd' = m_children nd /\
              forall i, (sum nd i <= sum nd' i)%Q.
Proof.
  intros [Hs Hr] Hm.
  assert (m_children <$> (nodes' !! m) = m_children <$> (nodes !! m)) as Hl.
  { by rewrite <- !list_lookup_fmap, Hs. }
  rewrite Hm in Hl. destruct (nodes' !! m) as [nd'|] eqn:E; [| done].
  simpl in Hl. injection Hl as Hl. exists nd'. split; [done |]. split; [done |].
  by eapply Hr.
Qed.

Lemma raised_trans a b c : raised a b -> raised b c -> raised a c.
Proof.
  intros Hab Hbc. split; [destruct Hab, Hbc; congruence |].
  intros m nd nd'' Hm Hm''.
  destruct (raised_lookup _ _ _ _ Hab Hm) as (nd' & Hm' & _ & H1).
  destruct Hbc as [_ H2]. intros i. eapply Qle_trans; [apply H1 |]. by eapply H2.
Qed.

Lemma floored_raised irr nodes nodes' n :
  raised nodes nodes' -> floored irr nodes n -> floored irr nodes' n.
Proof.
  intros Hr H. induction H as [n nd Hn Hleaf _ IH].
  destruct (raised_lookup _ _ _ _ Hr Hn) as (nd' & Hn' & Hc & Hs).
  assert (forall i, isLeaf nd' i = isLeaf nd i) as Hl.
  { intros i. unfold isLeaf, child. by rewrite Hc. }
  assert (forall i, child nd' i = child nd i) as Hch.
  { intros i. unfold child. by rewrite Hc. }
  econstructor; [exact Hn' | |].
  - intros i Hi. rewrite Hl in Hi. eapply Qle_trans; [by apply Hleaf | apply Hs].
  - intros i Hi. rewrite Hl in Hi. rewrite Hch. by apply IH.
Qed.

Lemma sum_same_slot nd i j : slot i = slot j -> sum nd j = sum nd i.
Proof. intros H. by rewrite <- (sum_slot nd j), <- H, sum_slot. Qed.

Lemma sum_setSum_slot nd i j v : slot i = slot j -> sum (setSum nd i v) j = v.
Proof. intros H. by rewrite (sum_same_slot _ i j H), sum_setSum_eq. Qed.

Lemma raised_insert_setSum (nodes : list QuadTreeNode) m nd i v :
  nodes !! m = Some nd -> (sum nd i <= v)%Q ->
  raised nodes (<[m := setSum nd i v]> nodes).
Proof.
  intros Hm Hv. split; [by apply EnergyFacts.children_insert_setSum |].
  intros k x x' Hk Hk' j. destruct (decide (k = m)) as [-> | Hne].
  - rewrite list_lookup_insert_eq in Hk' by (by eapply lookup_lt_Some).
    simplify_eq. destruct (decide (slot i = slot j)) as [Hs | Hs].
    + by rewrite (sum_setSum_slot _ _ _ _ Hs), (sum_same_slot _ _ _ Hs).
    + rewrite sum_setSum_ne by done. apply Qle_refl.
  - rewrite list_lookup_insert_ne in Hk' by done. simplify_eq. apply Qle_refl.
Qed.

(** [setMinimumIrr] returns on well-formed vectors, only raises sums,
    and leaves every leaf slot below the node at [irr] or above. *)
Lemma setMinimumIrr_floored fuel : forall self irr nodes,
  wfNodes nodes -> (self < length nodes)%nat -> (length nodes <= self + fuel)%nat ->
  exists nodes',
    setMinimumIrr fuel self irr nodes = Some nodes' /\
    raised nodes nodes' /\ floored irr nodes' self.
Proof.
  induction fuel as [|fuel IH]; intros self irr nodes Hwf Hlt Hfuel; [lia |].
  simpl.
  edestruct (for4_total
    (fun i nodes0 =>
       nd ← nodes0 !! self;
       if isLeaf nd i then
         if Qltb (sum nd i) irr then Some (<[self := setSum nd i irr]> nodes0)
         else Some nodes0
       else setMinimumIrr fuel (child nd i) irr nodes0)
    (fun j x =>
       raised nodes x /\
       exists nd, x !! self = Some nd /\
         forall i, slot i < j ->
           (isLeaf nd i = true -> (irr <= sum nd i)%Q) /\
           (isLeaf nd i = false -> floored irr x (child nd i)))
    nodes) as (nodes' & E & Hr & nd & Hnd & Hall).
  - split; [apply raised_refl |].
    destruct (lookup_lt_is_Some_2 nodes self Hlt) as [nd Hnd].
    exists nd. split; [done |]. intros i Hi. pose proof (slot_cases i). lia.
  - intros i x Hi (Hr & nd & Hnd & Hall).
    pose proof (fmap_children_length _ _ (proj1 Hr)) as Hlen.
    pose proof (wfNodes_shape _ _ (proj1 Hr) Hwf) as Hwfx.
    rewrite Hnd. simpl.
    assert (slot i = i) as Hsi by (unfold slot; repeat case_match; lia).
    destruct (isLeaf nd i) eqn:El.
    + destruct (Qltb (sum nd i) irr) eqn:Ei.
      * apply Qltb_lt in Ei.
        assert (raised x (<[self := setSum nd i irr]> x)) as Hr'.
        { apply raised_insert_setSum; [done | lra]. }
        eexists. split; [done |]. split; [by eapply raised_trans |].
        exists (setSum nd i irr). split.
        { apply list_lookup_insert_eq. by eapply lookup_lt_Some. }
        intros j Hj. rewrite isLeaf_setSum.
        destruct (decide (slot j = i)) as [Hji | Hji].
        -- split; [| rewrite <- isLeaf_slot, Hji; congruence].
           intros _. rewrite <- (sum_slot _ j), Hji, sum_setSum_eq. apply Qle_refl.
        -- destruct (Hall j) as [H1 H2]; [lia |]. split.
           ++ intros Hl. rewrite sum_setSum_ne by congruence. by apply H1.
           ++ intros Hl. eapply floored_raised; [exact Hr' | by apply H2].
      * apply Qltb_ge in Ei.
        exists x. split; [done |]. split; [done |].
        exists nd. split; [done |]. intros j Hj.
        destruct (decide (slot j = i)) as [Hji | Hji].
        -- split; [| rewrite <- isLeaf_slot, Hji; congruence].
           intros _. by rewrite <- (sum_slot _ j), Hji.
        -- apply Hall. lia.
    + pose proof (nonleaf_child _ _ _ _ Hwfx Hnd El) as Hc.
      destruct (IH (child nd i) irr x Hwfx) as (y & Ey & Hry & Hfy); [lia | lia |].
      exists y. split; [done |]. split; [by eapply raised_trans |].
      destruct (raised_lookup _ _ _ _ Hry Hnd) as (nd' & Hnd' & Hc' & Hs').
      assert (forall j, isLeaf nd' j = isLeaf nd j) as Hl.
      { intros j. unfold isLeaf, child. by rewrite Hc'. }
      assert (forall j, child nd' j = child nd j) as Hch.
      { intros j. unfold child. by rewrite Hc'. }
      exists nd'. split; [done |]. intros j Hj. rewrite Hl, Hch.
      destruct (decide (slot j = i)) as [Hji | Hji].
      -- split; [rewrite <- isLeaf_slot, Hji; congruence |].
         intros _. by rewrite <- child_slot, Hji.
      -- destruct (Hall j) as [H1 H2]; [lia |]. split.
         ++ intros Hlj. eapply Qle_trans; [by apply H1 | apply Hs'].
         ++ intros Hlj. eapply floored_raised; [exact Hry | by apply H2].
  - exists nodes'. split; [exact E |]. split; [done |].
    econstructor; [exact Hnd | |]; intros i Hi; apply (Hall i); try done;
      pose proof (slot_cases i); lia.
Qed.

Lemma floored_sameLeaves irr nodes nodes' n :
  sameLeaves nodes nodes' -> floored irr nodes n -> floored irr nodes' n.
Proof.
  intros Hs H. induction H as [n nd Hn Hleaf _ IH].
  destruct (Hs n nd Hn) as (nd' & Hn' & Hc & Hsum).
  assert (forall i, isLeaf nd' i = isLeaf nd i) as Hl.
  { intros i. unfold isLeaf, child. by rewrite Hc. }
  assert (forall i, child nd' i = child nd i) as Hch.
  { intros i. unfold child. by rewrite Hc. }
  econstructor; [exact Hn' | |].
  - intros i Hi. rewrite Hl in Hi. rewrite (Hsum i Hi). by apply Hleaf.
  - intros i Hi. rewrite Hl in Hi. rewrite Hch. by apply IH.
Qed.

(** In a built tree whose leaves all hold at least a positive [irr],
    every slot is positive. *)
Lemma floored_built_positive irr nodes n :
  (0 < irr)%Q -> wfNodes nodes -> floored irr nodes n -> built nodes n -> positive nodes n.
Proof.
  intros Hirr Hwf H. induction H as [n nd Hn Hleaf Hsub IH]. intros Hb.
  inversion Hb as [n' nd' Hn' Hbsub Hbsum]; subst. rewrite Hn in Hn'. injection Hn' as <-.
  econstructor; [exact Hn | |].
  - intros i. destruct (isLeaf nd i) eqn:El.
    + eapply Qlt_le_trans; [exact Hirr | by apply Hleaf].
    + pose proof (IH i El (Hbsub i El)) as Hp.
      inversion Hp as [c cn Hc Hpos _]; subst.
      rewrite (Hbsum i cn El Hc). unfold sumOfSums.
      pose proof (Hpos 0). pose proof (Hpos 1). pose proof (Hpos 2). pose proof (Hpos 3). lra.
  - intros i El. apply IH; [done | by apply Hbsub].
Qed.

(** The density of a positive tree is positive everywhere. *)
Lemma pdf_positive fuel : forall nodes self p level curr,
  wfNodes nodes -> positive nodes self -> (length nodes <= self + fuel)%nat ->
  exists v cl, pdf fuel nodes self p level curr = Some (v, cl) /\ (0 < v)%Q.
Proof.
  induction fuel as [|fuel IH]; intros nodes self p level curr Hwf Hp Hfuel.
  { inversion Hp as [n nd Hn _ _]; subst. apply lookup_lt_Some in Hn. lia. }
  inversion Hp as [n nd Hn Hpos Hsub]; subst.
  simpl. rewrite Hn. simpl.
  destruct (childIndex p) as [index p'].
  pose proof (Hpos index) as Hi. apply Qltb_lt in Hi as Hi'. rewrite Hi'. simpl.
  assert (0 < 4 * sum nd index / total nd)%Q as Hf.
  { apply Qlt_shift_div_l.
    - unfold total. pose proof (Hpos 0). pose proof (Hpos 1). pose proof (Hpos 2).
      pose proof (Hpos 3). lra.
    - lra. }
  destruct (isLeaf nd index) eqn:El; simpl.
  { eexists _, _. split; [done | exact Hf]. }
  destruct (level =? curr).
  { eexists _, _. split; [done | exact Hf]. }
  pose proof (nonleaf_child _ _ _ _ Hwf Hn El) as Hc.
  destruct (IH nodes (child nd index) p' level (curr + 1) Hwf (Hsub _ El))
    as (v & cl & E & Hv); [lia |].
  rewrite E. simpl. eexists _, _. split; [done |].
  apply Qmult_lt_0_compat; done.
Qed.

Lemma for4_mono {S : Type} (f g : Z -> S -> option S) (s s' : S) :
  (forall i x y, f i x = Some y -> g i x = Some y) ->
  for4 f s = Some s' -> for4 g s = Some s'.
Proof.
  intros Hfg H. destruct (AugLoopFacts.for4_steps _ _ _ H) as (s1 & s2 & s3 & H0 & H1 & H2 & H3).
  unfold for4. rewrite (Hfg _ _ _ H0). simpl. rewrite (Hfg _ _ _ H1). simpl.
  rewrite (Hfg _ _ _ H2). simpl. by apply Hfg.
Qed.

Lemma setMinimumIrr_mono fuel : forall fuel' self irr nodes nodes',
  setMinimumIrr fuel self irr nodes = Some nodes' -> (fuel <= fuel')%nat ->
  setMinimumIrr fuel' self irr nodes = Some nodes'.
Proof.
  induction fuel as [|fuel IH]; intros fuel' self irr nodes nodes' H Hle; [done |].
  destruct fuel' as [|fuel']; [lia |]. simpl in *.
  eapply for4_mono; [| exact H]. intros i x y Hb. cbv beta in *.
  destruct (x !! self) as [nd|]; [simpl in * | done].
  destruct (isLeaf nd i); [done |]. apply IH; [done | lia].
Qed.

Lemma build_mono fuel : forall fuel' self nodes nodes',
  QuadTreeNode.build fuel self nodes = Some nodes' -> (fuel <= fuel')%nat ->
  QuadTreeNode.build fuel' self nodes = Some nodes'.
Proof.
  induction fuel as [|fuel IH]; intros fuel' self nodes nodes' H Hle; [done |].
  destruct fuel' as [|fuel']; [lia |]. simpl in *.
  eapply for4_mono; [| exact H]. intros i x y Hb. unfold buildSlot in *.
  destruct (x !! self) as [nd|]; [simpl in * | done].
  destruct (isLeaf nd i); [done |].
  destruct (QuadTreeNode.build fuel (child nd i) x) as [z|] eqn:Ez; [| done].
  rewrite (IH fuel' _ _ _ Ez) by lia. done.
Qed.

End FloorFacts.

(** X6.  On a well-formed tree [setMinimumIrr(irr)] returns; afterwards
    every leaf slot below the root holds at least [irr], no sum has become
    smaller, and the child links, the atomics and [m_maxDepth] are as
    before. *)
Theorem setMinimumIrr_floors (fuel : nat) (t : DTree) (irr : Float) :
  WF.wfDTree t -> (DTree.numNodes t <= fuel)%nat ->
  exists t',
    DTree.setMinimumIrr fuel t irr = Some t' /\
    Floor.raised (m_nodes t) (m_nodes t') /\
    Floor.floored irr (m_nodes t') 0 /\
    atomic_sum t' = atomic_sum t /\
    atomic_statisticalWeight t' = atomic_statisticalWeight t /\
    m_maxDepth t' = m_maxDepth t.
Proof.
  intros [Hlen Hwf] Hfuel. unfold DTree.numNodes in Hfuel. unfold DTree.setMinimumIrr.
  destruct (FloorFacts.setMinimumIrr_floored fuel 0 irr (m_nodes t) Hwf Hlen)
    as (nodes' & E & Hr & Hf); [lia |].
  rewrite E. simpl. eexists. split; [done |]. split; [exact Hr |]. split; [exact Hf |]. done.
Qed.

Lemma setMinimumIrr_floors_witness :
  WF.wfDTree Examples.peaked /\ (DTree.numNodes Examples.peaked <= 2)%nat /\
  exists t',
    DTree.setMinimumIrr 2 Examples.peaked (1 # 2) = Some t' /\
    Floor.raised (m_nodes Examples.peaked) (m_nodes t') /\
    Floor.floored (1 # 2) (m_nodes t') 0 /\
    atomic_sum t' = atomic_sum Examples.peaked /\
    atomic_statisticalWeight t' = atomic_statisticalWeight Examples.peaked /\
    m_maxDepth t' = m_maxDepth Examples.peaked.
Proof.
  assert (H : WF.wfDTree Examples.peaked) by (apply WFFacts.wfDTreeb_sound; reflexivity).
  split; [exact H |]. split; [cbv; lia |].
  apply (setMinimumIrr_floors 2 Examples.peaked (1 # 2)); [exact H | cbv; lia].
Defined.

(** X7.  When [(augment || augmentReweight) && isBuilt] is false,
    [DTreeWrapper::build] on well-formed trees returns.  The new sampling
    tree is the rebuilt building tree, the old sampling tree becomes
    [previous], the counters and [weighted_previous_samples] are 0,
    [min_nzradiance] is the largest float, [augmented] and [B] are kept and
    the rejection pair is [previous.getMajorizingFactor(sampling)], both
    components at least [EPSILON].  Every sum of the sampling tree is
    positive, so its pdf is positive at every point of the unit square and
    for every level. *)
Theorem wrapper_build_positive (w : DTreeWrapper) (augment augmentReweight isBuilt : bool) :
  WF.wfDTree (building w) -> WF.wfDTree (sampling w) ->
  (augment || augmentReweight) && isBuilt = false ->
  exists fuel w',
    DTreeWrapper.build fuel w augment augmentReweight isBuilt = Some w' /\
    sampling w' = building w' /\ previous w' = sampling w /\
    augmented w' = augmented w /\ B w' = B w /\
    current_samples w' = 0 /\ req_augmented_samples w' = 0 /\
    weighted_previous_samples w' = 0%Q /\
    min_nzradiance w' = DTreeWrapper.FLT_MAX /\
    DTreeWrapper.getAugmentedMultiplier w' = 1%Q /\
    DTree.getMajorizingFactor fuel (sampling w) (sampling w') = Some (m_rejPdfPair w') /\
    Walk.flooredPair (m_rejPdfPair w') /\
    m_children <$> m_nodes (sampling w') = m_children <$> m_nodes (building w) /\
    Built.built (m_nodes (sampling w')) 0 /\
    Floor.positive (m_nodes (sampling w')) 0 /\
    (0 < atomic_sum (sampling w'))%Q /\
    forall p level curr_level,
      Locate.inSquare p ->
      exists v cl,
        QuadTreeNode.pdf fuel (m_nodes (sampling w')) 0 p level curr_level = Some (v, cl) /\
        (0 < v)%Q.
Proof.
  intros [Hlen Hwf] [Hlens Hwfs] Hflags.
  set (min1 := if Qltb 100000 (min_nzradiance w) then (EPSILON * 2)%Q else min_nzradiance w).
  set (irr := std_max (EPSILON * 2)%Q (min1 / 5)%Q).
  assert (0 < irr)%Q as Hirr.
  { eapply Qlt_le_trans; [| apply std_max_ge_l]. reflexivity. }
  set (n := length (m_nodes (building w))).
  destruct (FloorFacts.setMinimumIrr_floored n 0 irr (m_nodes (building w)) Hwf Hlen)
    as (nodes1 & E1 & Hr1 & Hf1); [lia |].
  pose proof (BoxEnergy.fmap_children_length _ _ (proj1 Hr1)) as Hlen1.
  pose proof (WFFacts.wfNodes_shape _ _ (proj1 Hr1) Hwf) as Hwf1.
  destruct (BuildFacts.build_total n 0 nodes1 Hwf1) as [nodes2 E2]; [lia | lia |].
  pose proof (BuildFacts.build_shape _ _ _ _ E2) as Hsh2.
  pose proof (BoxEnergy.fmap_children_length _ _ Hsh2) as Hlen2.
  pose proof (WFFacts.wfNodes_shape _ _ Hsh2 Hwf1) as Hwf2.
  pose proof (BuildFacts.build_establish _ _ _ _ Hwf1 E2) as Hb2.
  pose proof (FloorFacts.floored_sameLeaves irr _ _ 0
                (AugInvFacts.build_sameLeaves _ _ _ _ E2) Hf1) as Hf2.
  pose proof (FloorFacts.floored_built_positive irr _ _ Hirr Hwf2 Hf2 Hb2) as Hp2.
  destruct (lookup_lt_is_Some_2 nodes2 0) as [root Hroot]; [lia |].
  destruct (MajFacts.majorizingLoop_total (m_nodes (sampling w)) nodes2 Hwfs Hwf2
              (S (Walk.stackWeight (length (m_nodes (sampling w)))
                    [DTree.mkNodePair (0%nat, -1) (0%nat, -1) 1%Q 1%Q 0 0]))
              (1%Q, 1%Q) 0%Q [DTree.mkNodePair (0%nat, -1) (0%nat, -1) 1%Q 1%Q 0 0])
    as (fm & pp & Em & Hpp).
  { lia. }
  { constructor; [| constructor]. unfold Walk.validPair. simpl. lia. }
  { split; simpl; unfold EPSILON; lra. }
  set (fuel := Nat.max n fm).
  assert (QuadTreeNode.setMinimumIrr fuel 0 irr (m_nodes (building w)) = Some nodes1) as E1'.
  { eapply FloorFacts.setMinimumIrr_mono; [exact E1 | apply Nat.le_max_l]. }
  assert (QuadTreeNode.build fuel 0 nodes1 = Some nodes2) as E2'.
  { eapply FloorFacts.build_mono; [exact E2 | apply Nat.le_max_l]. }
  assert (DTree.getMajorizingFactor fuel (sampling w)
            (mkDTree nodes2 (QuadTreeNode.sumOfSums root)
                     (atomic_statisticalWeight (building w)) (m_maxDepth (building w)))
          = Some pp) as Em'.
  { unfold DTree.getMajorizingFactor.
    eapply MajFacts.majorizingLoop_mono; [exact Em | apply Nat.le_max_r]. }
  exists fuel. eexists.
  unfold DTreeWrapper.build. fold min1. fold irr.
  unfold DTree.setMinimumIrr. rewrite E1'. cbn [mbind option_bind].
  unfold DTree.build. cbn [m_nodes atomic_sum atomic_statisticalWeight m_maxDepth].
  rewrite E2'. cbn [mbind option_bind]. rewrite Hroot. cbn [mbind option_bind].
  rewrite Hflags. cbn [mbind option_bind]. rewrite Em'. cbn [mbind option_bind].
  split; [reflexivity |].
  cbn [sampling building previous augmented B current_samples req_augmented_samples
       weighted_previous_samples min_nzradiance m_rejPdfPair m_nodes atomic_sum].
  do 9 (split; [reflexivity |]).
  split; [exact Em' |].
  split; [exact Hpp |].
  split; [destruct Hr1; congruence |].
  split; [exact Hb2 |].
  split; [exact Hp2 |].
  split.
  - inversion Hp2 as [k nd Hk Hpos _]; subst. rewrite Hroot in Hk. injection Hk as <-.
    unfold QuadTreeNode.sumOfSums.
    pose proof (Hpos 0). pose proof (Hpos 1). pose proof (Hpos 2). pose proof (Hpos 3). lra.
  - intros p level curr_level _.
    apply FloorFacts.pdf_positive; [done | done |]. unfold fuel. lia.
Qed.

Lemma wrapper_build_positive_witness :
  let w := Examples.halfB in
  WF.wfDTree (building w) /\ WF.wfDTree (sampling w) /\
  (false || false) && false = false /\
  exists fuel w',
    DTreeWrapper.build fuel w false false false = Some w' /\
    sampling w' = building w' /\ previous w' = sampling w /\
    augmented w' = augmented w /\ B w' = B w /\
    current_samples w' = 0 /\ req_augmented_samples w' = 0 /\
    weighted_previous_samples w' = 0%Q /\
    min_nzradiance w' = DTreeWrapper.FLT_MAX /\
    DTreeWrapper.getAugmentedMultiplier w' = 1%Q /\
    DTree.getMajorizingFactor fuel (sampling w) (sampling w') = Some (m_rejPdfPair w') /\
    Walk.flooredPair (m_rejPdfPair w') /\
    m_children <$> m_nodes (sampling w') = m_children <$> m_nodes (building w) /\
    Built.built (m_nodes (sampling w')) 0 /\
    Floor.positive (m_nodes (sampling w')) 0 /\
    (0 < atomic_sum (sampling w'))%Q /\
    forall p level curr_level,
      Locate.inSquare p ->
      exists v cl,
        QuadTreeNode.pdf fuel (m_nodes (sampling w')) 0 p level curr_level = Some (v, cl) /\
        (0 < v)%Q.
Proof.
  assert (H : WF.wfDTree DTree.empty) by (apply WFFacts.wfDTreeb_sound; reflexivity).
  split; [exact H |]. split; [exact H |]. split; [reflexivity |].
  apply (wrapper_build_positive Examples.halfB false false false);
    [exact H | exact H | reflexivity].
Defined.

(** * Sampling *)

Module SampleFacts.
Import QuadTreeNode WF WFFacts Built BuildFacts Locate EnergyFacts ValidWalk Sampled.

Lemma nonnegSums_Forall nodes :
  Forall (fun nd => (0 <= sum nd 0)%Q /\ (0 <= sum nd 1)%Q /\
                    (0 <= sum nd 2)%Q /\ (0 <= sum nd 3)%Q) nodes ->
  nonnegSums nodes.
Proof.
  intros H m nd i Hm. rewrite Forall_lookup in H.
  destruct (H m nd Hm) as (H0 & H1 & H2 & H3).
  rewrite <- sum_slot. destruct (slot_cases i) as [-> | [-> | [-> | ->]]]; done.
Qed.

Lemma Qltb_proper x x' y y' : (x == x')%Q -> (y == y')%Q -> Qltb x y = Qltb x' y'.
Proof.
  intros Hx Hy. destruct (Qltb x' y') eqn:E.
  - apply Qltb_lt. apply Qltb_lt in E. lra.
  - apply Qltb_ge. apply Qltb_ge in E. lra.
Qed.

Lemma childIndex_proper p q :
  samePoint p q ->
  (childIndex p).1 = (childIndex q).1 /\ samePoint (childIndex p).2 (childIndex q).2.
Proof.
  intros [Hx Hy]. unfold childIndex. destruct p as [x y], q as [x' y']. cbn [fst snd] in *.
  rewrite (Qltb_proper x x' (1 # 2) (1 # 2) Hx (Qeq_refl _)),
          (Qltb_proper y y' (1 # 2) (1 # 2) Hy (Qeq_refl _)).
  destruct (Qltb x' (1 # 2)), (Qltb y' (1 # 2)); cbn [fst snd];
    (split; [reflexivity | split; cbn [fst snd]; lra]).
Qed.

Lemma leafAt_proper fuel : forall nodes self p q,
  samePoint p q -> leafAt fuel nodes self p = leafAt fuel nodes self q.
Proof.
  induction fuel as [|fuel IH]; intros nodes self p q H; [done |].
  simpl. destruct (nodes !! self) as [nd|]; [simpl | done].
  destruct (childIndex_proper p q H) as [Hi Hp].
  destruct (childIndex p) as [index p'], (childIndex q) as [index' q']. simpl in Hi, Hp.
  subst index'. destruct (isLeaf nd index); [done |].
  by rewrite (IH _ _ p' q' Hp).
Qed.

Lemma childIndex_offsetHalf index origin q :
  cornerOf index origin -> inUnit q ->
  (childIndex (offsetHalf origin q)).1 = index /\
  samePoint (childIndex (offsetHalf origin q)).2 q.
Proof.
  intros Hc [Hx Hy]. unfold childIndex, offsetHalf. destruct q as [qx qy].
  cbn [fst snd] in *.
  destruct Hc as [[-> ->] | [[-> ->] | [[-> ->] | [-> ->]]]]; cbn [fst snd];
    repeat match goal with
           | |- context [Qltb ?a ?b] =>
             let E := fresh "E" in
             destruct (Qltb a b) eqn:E;
             [apply Qltb_lt in E | apply Qltb_ge in E]; try (exfalso; lra)
           end;
    cbn [fst snd]; (split; [reflexivity | split; cbn [fst snd]; lra]).
Qed.

Lemma offsetHalf_inUnit index origin q :
  cornerOf index origin -> inUnit q -> inUnit (offsetHalf origin q).
Proof.
  intros Hc [Hx Hy]. unfold offsetHalf, inUnit. destruct q as [qx qy]. cbn [fst snd] in *.
  destruct Hc as [[-> ->] | [[-> ->] | [[-> ->] | [-> ->]]]]; cbn [fst snd]; lra.
Qed.

Lemma ratio_spec (a b : Q) : (0 < b)%Q -> (a / b * b == a)%Q.
Proof. intros H. field. lra. Qed.

(** [sample] passes its assertions and picks a quadrant of positive
    sum. *)
Lemma pick_spec nd s :
  (forall i, 0 <= sum nd i)%Q -> (0 < sumOfSums nd)%Q -> (0 <= s < 1)%Q ->
  exists origin index,
    pick nd s = Some (origin, index) /\ cornerOf index origin /\ (0 < sum nd index)%Q.
Proof.
  intros Hn Ht Hs. unfold sumOfSums in Ht. unfold pick. cbv zeta.
  pose proof (Hn 0) as H0. pose proof (Hn 1) as H1.
  pose proof (Hn 2) as H2. pose proof (Hn 3) as H3.
  set (s0 := sum nd 0) in *. set (s1 := sum nd 1) in *.
  set (s2 := sum nd 2) in *. set (s3 := sum nd 3) in *.
  assert (0 < s0 + s2 + s1 + s3)%Q as Ht' by lra.
  pose proof (ratio_spec (s0 + s2) (s0 + s2 + s1 + s3) Ht') as Hr.
  set (r := ((s0 + s2) / (s0 + s2 + s1 + s3))%Q) in *.
  destruct (Qltb s r) eqn:E; [apply Qltb_lt in E | apply Qltb_ge in E].
  - assert (0 < s0 + s2)%Q as Hp by nra.
    rewrite (proj2 (Qltb_lt _ _) Hp). cbn [mbind option_bind].
    pose proof (ratio_spec s0 (s0 + s2) Hp) as Hr'.
    set (r' := (s0 / (s0 + s2))%Q) in *.
    assert (0 < r)%Q as Hr0 by lra.
    pose proof (ratio_spec s r Hr0) as Hs1. set (t := (s / r)%Q) in *.
    assert (0 <= t < 1)%Q as Ht1 by (split; nra).
    destruct (Qltb t r') eqn:E'; [apply Qltb_lt in E' | apply Qltb_ge in E'];
      eexists _, _; (split; [reflexivity |]).
    + split; [by left |]. fold s0. nra.
    + split; [right; right; left; done |].
      change (Z.lor 0 (Z.shiftl 1 1)) with 2. fold s2. nra.
  - assert (r < 1)%Q as Hr1 by lra.
    assert (0 < s0 + s2 + s1 + s3 - (s0 + s2))%Q as Hp by nra.
    rewrite (proj2 (Qltb_lt _ _) Hp). cbn [mbind option_bind].
    pose proof (ratio_spec s1 _ Hp) as Hr'.
    set (r' := (s1 / (s0 + s2 + s1 + s3 - (s0 + s2)))%Q) in *.
    assert (0 < 1 - r)%Q as Hr0 by lra.
    pose proof (ratio_spec (s - r) (1 - r) Hr0) as Hs1. set (t := ((s - r) / (1 - r))%Q) in *.
    assert (0 <= t < 1)%Q as Ht1 by (split; nra).
    destruct (Qltb t r') eqn:E'; [apply Qltb_lt in E' | apply Qltb_ge in E'];
      eexists _, _; (split; [reflexivity |]).
    + split; [right; left; done |].
      change (Z.lor 0 (Z.shiftl 1 0)) with 1. fold s1. nra.
    + split; [right; right; right; done |].
      change (Z.lor (Z.lor 0 (Z.shiftl 1 0)) (Z.shiftl 1 1)) with 3. fold s3. nra.
Qed.

Section Sampling.
Context {Sampler : Type}.
Variable next1D : Sampler -> Float * Sampler.
Variable next2D : Sampler -> Point2 * Sampler.

Lemma sample_pick fuel nodes self sampler :
  sample Sampler next1D next2D (S fuel) nodes self sampler =
    nd ← nodes !! self;
    if negb (Qltb 0 (sum nd 0 + sum nd 2 + sum nd 1 + sum nd 3)%Q)
    then Some (next2D sampler)
    else
      '(origin, index) ← pick nd (next1D sampler).1;
      if isLeaf nd index then
        Some (offsetHalf origin (next2D (next1D sampler).2).1,
              (next2D (next1D sampler).2).2)
      else
        '(r, sampler') ← sample Sampler next1D next2D fuel nodes (child nd index)
                          (next1D sampler).2;
        Some (offsetHalf origin r, sampler').
Proof.
  simpl. destruct (nodes !! self) as [nd|]; [simpl | done].
  destruct (negb _); [done |]. unfold pick. cbv zeta.
  destruct (next1D sampler) as [s0 sampler1]. cbn [fst snd].
  destruct (Qltb s0 _); (destruct (Qltb 0 _); [| done]); cbn [mbind option_bind];
    destruct (Qltb _ _); cbn [fst snd];
    (destruct (isLeaf nd _); [by destruct (next2D sampler1) | done]).
Qed.

Lemma sample_lands fuel : forall nodes self sampler nd,
  wfNodes nodes -> nonnegSums nodes -> unitSampler next1D next2D ->
  built nodes self -> nodes !! self = Some nd -> (0 < sumOfSums nd)%Q ->
  (length nodes <= self + fuel)%nat ->
  exists p s' m i d ndl,
    sample Sampler next1D next2D fuel nodes self sampler = Some (p, s') /\ inUnit p /\
    leafAt fuel nodes self p = Some (m, i, d) /\ nodes !! m = Some ndl /\
    (0 < sum ndl i)%Q.
Proof.
  induction fuel as [|fuel IH]; intros nodes self sampler nd Hwf Hn Hu Hb Hnd Ht Hfuel.
  { apply lookup_lt_Some in Hnd. lia. }
  rewrite sample_pick, Hnd. cbn [mbind option_bind]. cbv zeta.
  assert (Qltb 0 (sum nd 0 + sum nd 2 + sum nd 1 + sum nd 3) = true) as ->.
  { apply Qltb_lt. unfold sumOfSums in Ht. lra. }
  cbn [negb].
  destruct (Hu sampler) as (Hs0 & _).
  destruct (pick_spec nd (next1D sampler).1 (fun i => Hn _ _ i Hnd) Ht Hs0)
    as (origin & index & -> & Hc & Hpos).
  cbn [mbind option_bind].
  assert (forall q, inUnit q ->
            leafAt (S fuel) nodes self (offsetHalf origin q) =
            if isLeaf nd index then Some (self, index, 1)
            else '(m, i, d) ← leafAt fuel nodes (child nd index) q; Some (m, i, 1 + d))
    as Hleaf.
  { intros q Hq. simpl. rewrite Hnd. cbn [mbind option_bind].
    destruct (childIndex_offsetHalf index origin q Hc Hq) as [Hi Hp].
    destruct (childIndex (offsetHalf origin q)) as [index' q']. simpl in Hi, Hp.
    subst index'. destruct (isLeaf nd index); [done |].
    by rewrite (leafAt_proper fuel nodes _ q' q Hp). }
  destruct (isLeaf nd index) eqn:El.
  - destruct (Hu (next1D sampler).2) as (_ & Hx & Hy).
    eexists _, _, self, index, 1, nd. split; [reflexivity |].
    split; [by eapply offsetHalf_inUnit |].
    split; [by apply Hleaf |]. done.
  - inversion Hb as [n nd0 Hnd0 Hbc Hbs]; subst. rewrite Hnd in Hnd0.
    injection Hnd0 as <-.
    destruct (nonleaf_child nodes self nd index Hwf Hnd El) as [Hlt Hlen].
    destruct (lookup_lt_is_Some_2 nodes _ Hlen) as [c Hcn].
    destruct (IH nodes (child nd index) (next1D sampler).2 c Hwf Hn Hu
                (Hbc _ El) Hcn) as (p & s' & m & i & d & ndl & E & Hp & Hl & Hm & Hsum).
    { rewrite <- (Hbs _ _ El Hcn). exact Hpos. }
    { lia. }
    rewrite E. cbn [mbind option_bind].
    eexists _, _, m, i, (1 + d), ndl. split; [reflexivity |].
    split; [by eapply offsetHalf_inUnit |].
    split; [| done]. rewrite (Hleaf p Hp), Hl. done.
Qed.

End Sampling.

End SampleFacts.

(** X8.  On a well-formed, built node vector without negative sums,
    at a node whose four sums have a positive total and with a sampler
    whose values lie in [[0, 1)], [sample] passes its assertions and returns
    a point of [[0, 1) x [0, 1)] at which [eval] is positive: it never picks
    a quadrant of sum 0. *)
Theorem sample_lands_on_support {Sampler : Type} (next1D : Sampler -> Float * Sampler)
    (next2D : Sampler -> Point2 * Sampler) (fuel : nat) (nodes : list QuadTreeNode)
    (self : nat) (sampler : Sampler) (nd : QuadTreeNode) :
  WF.wfNodes nodes -> ValidWalk.nonnegSums nodes -> Sampled.unitSampler next1D next2D ->
  Built.built nodes self -> nodes !! self = Some nd -> (0 < QuadTreeNode.sumOfSums nd)%Q ->
  (length nodes <= self + fuel)%nat ->
  exists p sampler' e,
    QuadTreeNode.sample Sampler next1D next2D fuel nodes self sampler = Some (p, sampler') /\
    Sampled.inUnit p /\
    QuadTreeNode.eval fuel nodes self p = Some e /\ (0 < e)%Q.
Proof.
  intros Hwf Hn Hu Hb Hnd Ht Hfuel.
  destruct (SampleFacts.sample_lands next1D next2D fuel nodes self sampler nd
              Hwf Hn Hu Hb Hnd Ht Hfuel) as (p & s' & m & i & d & ndl & E & Hp & Hl & Hm & Hs).
  destruct (EnergyFacts.eval_leafAt fuel nodes self p m i d ndl Hl Hm) as (e & He & Hv & Hd).
  exists p, s', e. split; [exact E |]. split; [exact Hp |]. split; [exact He |].
  rewrite Hv. apply Qmult_lt_0_compat; [| exact Hs].
  apply Qpower_0_lt. lra.
Qed.

Lemma sample_lands_on_support_witness :
  let nodes := m_nodes Examples.peaked in
  let next1D := fun s : unit => ((1 # 4)%Q, s) in
  let next2D := fun s : unit => (((1 # 4)%Q, (3 # 4)%Q), s) in
  let nd := mkNode (mkArr4 1 1 1 1)%Q (mkArr4 1%nat 0%nat 0%nat 0%nat) in
  WF.wfNodes nodes /\ ValidWalk.nonnegSums nodes /\ Sampled.unitSampler next1D next2D /\
  Built.built nodes 0 /\ nodes !! 0%nat = Some nd /\ (0 < QuadTreeNode.sumOfSums nd)%Q /\
  (length nodes <= 0 + 2)%nat /\
  exists p sampler' e,
    QuadTreeNode.sample unit next1D next2D 2 nodes 0 tt = Some (p, sampler') /\
    Sampled.inUnit p /\
    QuadTreeNode.eval 2 nodes 0 p = Some e /\ (0 < e)%Q.
Proof.
  assert (H1 : WF.wfNodes (m_nodes Examples.peaked))
    by (apply WFFacts.wfNodesb_sound; reflexivity).
  assert (H2 : ValidWalk.nonnegSums (m_nodes Examples.peaked)).
  { apply SampleFacts.nonnegSums_Forall.
    repeat (apply Forall_cons; split; [repeat split; discriminate |]). apply List.Forall_nil. }
  assert (H3 : Sampled.unitSampler (fun s : unit => ((1 # 4)%Q, s))
                 (fun s : unit => (((1 # 4)%Q, (3 # 4)%Q), s)))
    by (intros s; simpl; repeat split; discriminate).
  assert (H4 : Built.built (m_nodes Examples.peaked) 0)
    by (apply (BuildFacts.build_establish 2 0 (m_nodes Examples.peaked)); [exact H1 | reflexivity]).
  cbv zeta.
  split; [exact H1 |]. split; [exact H2 |]. split; [exact H3 |]. split; [exact H4 |].
  split; [reflexivity |]. split; [reflexivity |]. split; [cbv; lia |].
  apply (sample_lands_on_support (fun s : unit => ((1 # 4)%Q, s))
           (fun s : unit => (((1 # 4)%Q, (3 # 4)%Q), s)) 2 (m_nodes Examples.peaked) 0 tt
           (mkNode (mkArr4 1 1 1 1)%Q (mkArr4 1%nat 0%nat 0%nat 0%nat)));
    [exact H1 | exact H2 | exact H3 | exact H4 | reflexivity | reflexivity | cbv; lia].
Defined.

(** * Resetting a tree *)

Module ResetFacts.
Import QuadTreeNode DTree WF WFFacts BuildFacts AugInvFacts ResetWalk.

Lemma for4break_total {S : Type} (body : Z -> S -> option (Flow S S))
    (I : Z -> S -> Prop) (R : S -> Prop) (s : S) :
  I 0 s ->
  (forall i x, 0 <= i < 4 -> I i x ->
     exists f, body i x = Some f /\
               match f with Next y => I (i + 1) y | Return y => R y end) ->
  exists s', for4break body s = Some s' /\ (I 4 s' \/ R s').
Proof.
  intros H0 Hstep. unfold for4break.
  destruct (Hstep 0 s ltac:(lia) H0) as (f0 & -> & H1). simpl.
  destruct f0 as [s1 | r]; [| simpl; eauto].
  destruct (Hstep 1 s1 ltac:(lia) H1) as (f1 & -> & H2). simpl.
  destruct f1 as [s2 | r]; [| simpl; eauto].
  destruct (Hstep 2 s2 ltac:(lia) H2) as (f2 & -> & H3). simpl.
  destruct f2 as [s3 | r]; [| simpl; eauto].
  destruct (Hstep 3 s3 ltac:(lia) H3) as (f3 & -> & H4). simpl.
  destruct f3 as [s4 | r]; simpl; eauto.
Qed.

Lemma wfNodes_insert_setSum nodes k cur i v :
  wfNodes nodes -> nodes !! k = Some cur -> wfNodes (<[k := setSum cur i v]> nodes).
Proof.
  intros Hwf Hk. eapply wfNodes_shape; [| exact Hwf].
  by apply EnergyFacts.children_insert_setSum.
Qed.

(** Linking slot [i] of the node [k] to a node appended at the end keeps
    the vector well formed. *)
Lemma wfNodes_link nodes k cur i x :
  wfNodes nodes -> nodes !! k = Some cur -> (forall j, child x j = 0%nat) ->
  wfNodes (<[k := setChild cur i (length nodes)]> nodes ++ [x]).
Proof.
  intros Hwf Hk Hx n nd j Hn.
  pose proof (lookup_lt_Some _ _ _ Hk) as Hlt.
  rewrite length_app, length_insert. simpl.
  destruct (decide (n < length nodes)%nat) as [Hn_lt | Hn_ge].
  - rewrite lookup_app_l in Hn by (by rewrite length_insert).
    destruct (decide (n = k)) as [-> | Hne].
    + rewrite list_lookup_insert_eq in Hn by done. injection Hn as <-.
      destruct (decide (slot i = slot j)) as [Hs | Hs].
      * right. unfold child, setChild. simpl.
        rewrite <- (get4_slot _ j), <- Hs, get4_slot, get4_set4_eq. lia.
      * unfold child, setChild. simpl. rewrite get4_set4_ne by done.
        destruct (Hwf k cur j Hk) as [H0 | H1]; [by left | right].
        unfold child in H1. lia.
    + rewrite list_lookup_insert_ne in Hn by done.
      destruct (Hwf n nd j Hn) as [H0 | H1]; [by left | right]. lia.
  - rewrite lookup_app_r in Hn by (rewrite length_insert; lia).
    rewrite length_insert in Hn.
    destruct (n - length nodes)%nat; simpl in Hn; [| done].
    injection Hn as <-. left. apply Hx.
Qed.

Lemma entryOk_insert Epsilon total previous nodes k x e :
  sn_nodeIndex e <> k -> entryOk Epsilon total previous nodes e ->
  entryOk Epsilon total previous (<[k := x]> nodes) e.
Proof.
  intros Hne (Hd & (nd & Hnd & Hc) & Ho). split; [done |]. split; [| done].
  exists nd. split; [| done]. by rewrite list_lookup_insert_ne.
Qed.

Lemma entryOk_app Epsilon total previous nodes x e :
  entryOk Epsilon total previous nodes e -> entryOk Epsilon total previous (nodes ++ [x]) e.
Proof.
  intros (Hd & (nd & Hnd & Hc) & Ho). split; [done |]. split; [| done].
  exists nd. split; [| done]. rewrite lookup_app_l; [done | by eapply lookup_lt_Some].
Qed.

Lemma entryOk_lt Epsilon total previous nodes e :
  entryOk Epsilon total previous nodes e -> (sn_nodeIndex e < length nodes)%nat.
Proof. intros (_ & (nd & Hnd & _) & _). by eapply lookup_lt_Some. Qed.

Lemma FLT_MIN_pos : (0 < FLT_MIN)%Q.
Proof. reflexivity. Qed.

Lemma quarter_pow_le_1 (d : Z) : 1 <= d -> ((1 # 4) ^ d <= 1)%Q.
Proof.
  intros Hd. rewrite Qinv_power_n.
  assert (1 <= inject_Z 4 ^ d)%Q as H by (apply Qpower_1_le; [discriminate | lia]).
  apply Qle_shift_inv_r; lra.
Qed.

Lemma sum_setSumAll nd v i : sum (setSumAll nd v) i = v.
Proof.
  unfold sum, setSumAll, get4. simpl. by repeat case_match.
Qed.

(** The assertion on [fraction] holds for a bounded node read at a depth
    that is at least 1. *)
Lemma fraction_ok Epsilon total otherNode depth i :
  (0 <= Epsilon)%Q -> bounded Epsilon total otherNode -> 1 <= depth ->
  Qle_bool (if Qltb FLT_MIN total then (sum otherNode i / total)%Q
            else ((1 # 4) ^ depth)%Q) (1 + Epsilon) = true.
Proof.
  intros He Hb Hd. apply Qle_bool_iff.
  destruct (Qltb FLT_MIN total) eqn:Et.
  - pose proof (Hb Et i) as Hi. apply Qltb_lt in Et. pose proof FLT_MIN_pos.
    apply Qle_shift_div_r; [lra | exact Hi].
  - pose proof (quarter_pow_le_1 depth Hd). lra.
Qed.

(** The node that [reset] appends below a bounded node is bounded. *)
Lemma bounded_quarter Epsilon total otherNode i :
  (0 <= Epsilon)%Q -> bounded Epsilon total otherNode ->
  bounded Epsilon total (setSumAll QuadTreeNode.empty (sum otherNode i / 4)%Q).
Proof.
  intros He Hb Et j. rewrite sum_setSumAll. specialize (Hb Et i).
  apply Qltb_lt in Et. pose proof FLT_MIN_pos.
  assert (0 <= (1 + Epsilon) * total)%Q by nra.
  destruct (Qlt_le_dec (sum otherNode i) 0) as [Hn | Hp].
  - assert (sum otherNode i / 4 <= 0)%Q; [| lra].
    apply Qle_shift_div_r; lra.
  - assert (sum otherNode i / 4 <= sum otherNode i)%Q; [| lra].
    apply Qle_shift_div_r; lra.
Qed.

Lemma bounded_Forall Epsilon total nodes :
  Forall (fun nd => (sum nd 0 <= (1 + Epsilon) * total)%Q /\
                    (sum nd 1 <= (1 + Epsilon) * total)%Q /\
                    (sum nd 2 <= (1 + Epsilon) * total)%Q /\
                    (sum nd 3 <= (1 + Epsilon) * total)%Q) nodes ->
  forall o nd, nodes !! o = Some nd -> bounded Epsilon total nd.
Proof.
  intros H o nd Ho _ i. rewrite Forall_lookup in H.
  destruct (H o nd Ho) as (H0 & H1 & H2 & H3).
  rewrite <- sum_slot. destruct (slot_cases i) as [-> | [-> | [-> | ->]]]; done.
Qed.

(** One slot of [reset]: the body returns, keeps the invariant, and the
    measure does not grow; after a [break] the vector is well formed and
    full. *)
Lemma resetSlot_step Epsilon grow previous total newMaxDepth threshold sNode otherNode i st :
  (0 <= Epsilon)%Q -> 0 <= i < 4 -> 1 <= sn_depth sNode ->
  slotsInv Epsilon total previous (sn_nodeIndex sNode) st ->
  bounded Epsilon total otherNode ->
  (forall j, child otherNode j <> 0%nat ->
             otherIsThis sNode = false /\ (child otherNode j < length previous)%nat) ->
  exists f,
    resetSlot Epsilon grow total newMaxDepth threshold sNode otherNode i st = Some f /\
    match f with
    | Next st' =>
      slotsInv Epsilon total previous (sn_nodeIndex sNode) st' /\
      resetMeasure st' <= resetMeasure st
    | Return st' =>
      65536 <= Z.of_nat st'.2 /\
      st'.1.2 = [] /\ wfNodes st'.1.1 /\ (1 <= length st'.1.1)%nat /\
      Z.of_nat (length st'.1.1) <= 65536 /\ resetMeasure st' <= resetMeasure st
    end.
Proof.
  intros He Hi Hdepth (Hcap & Hlen & Hwf & Hk & Hst & Hnd & Hnin) Hb Hother.
  destruct st as [[nodes stack] capacity]. simpl in *. unfold resetSlot.
  destruct (lookup_lt_is_Some_2 nodes _ Hk) as [cur Hcur]. rewrite Hcur. simpl.
  set (k := sn_nodeIndex sNode) in *.
  set (nodes1 := <[k := setSum cur i (sum otherNode i)]> nodes).
  assert (length nodes1 = length nodes) as Hl1 by apply length_insert.
  assert (nodes1 !! k = Some (setSum cur i (sum otherNode i))) as Hcur1.
  { by apply list_lookup_insert_eq. }
  assert (wfNodes nodes1) as Hwf1 by (by apply wfNodes_insert_setSum).
  assert (Forall (entryOk Epsilon total previous nodes1) stack) as Hst1.
  { apply Forall_forall. intros e He'. apply entryOk_insert.
    - intros Heq. apply Hnin. rewrite <- Heq. apply list_elem_of_fmap. by exists e.
    - by eapply Forall_forall in Hst. }
  rewrite (fraction_ok Epsilon total otherNode (sn_depth sNode) i He Hb Hdepth). simpl.
  destruct (_ || _) eqn:Econd.
  2:{ eexists. split; [done |]. split.
      - unfold slotsInv. simpl. rewrite Hl1. done.
      - unfold resetMeasure. simpl. rewrite Hl1. lia. }
  set (e := if negb (isLeaf otherNode i)
            then mkStackNode (length nodes) (child otherNode i) false (sn_depth sNode + 1)
            else mkStackNode (length nodes) (length nodes) true (sn_depth sNode + 1)).
  assert ((if negb (isLeaf otherNode i)
           then if otherIsThis sNode then None
                else Some (mkStackNode (length nodes1) (child otherNode i) false
                                       (sn_depth sNode + 1) :: stack)
           else Some (mkStackNode (length nodes1) (length nodes1) true
                                  (sn_depth sNode + 1) :: stack))
          = Some (e :: stack)) as ->.
  { unfold e. rewrite Hl1. destruct (isLeaf otherNode i) eqn:El; simpl; [done |].
    destruct (Hother i) as [-> _]; [| done].
    unfold isLeaf in El. by apply Nat.eqb_neq. }
  cbn [mbind option_bind]. rewrite Hcur1. cbn [mbind option_bind].
  rewrite Hl1. rewrite (uint16_small (length nodes)) by lia.
  set (x := setSumAll QuadTreeNode.empty (sum otherNode i / 4)%Q).
  set (nodes2 := <[k := setChild (setSum cur i (sum otherNode i)) i (length nodes)]> nodes1).
  assert (length nodes2 = length nodes) as Hl2.
  { unfold nodes2. by rewrite length_insert. }
  rewrite Hl2.
  assert ((length nodes <? capacity)%nat = true) as -> by (apply Nat.ltb_lt; lia).
  cbn [negb andb].
  assert (wfNodes (nodes2 ++ [x])) as Hwf3.
  { unfold nodes2. rewrite <- Hl1. apply wfNodes_link; [done | done |].
    intros j. apply child_empty. }
  assert (length (nodes2 ++ [x]) = S (length nodes)) as Hl3.
  { rewrite length_app, Hl2. simpl. lia. }
  rewrite Hl3.
  destruct (Z.gtb_spec (Z.of_nat (S (length nodes))) UINT16_MAX) as [Hfull | Hroom];
    unfold UINT16_MAX in *.
  { eexists. split; [done |]. unfold resetMeasure. simpl. rewrite Hl3.
    repeat split; try done; lia. }
  eexists. split; [done |].
  assert (sn_nodeIndex e = length nodes) as Hei.
  { unfold e. by destruct (negb _). }
  assert (entryOk Epsilon total previous (nodes2 ++ [x]) e) as Hex.
  { split; [unfold e; destruct (negb _); simpl; lia |]. split.
    - exists x. rewrite Hei. split; [| split].
      + rewrite lookup_app_r by lia. by rewrite Hl2, Nat.sub_diag.
      + intros j. apply child_empty.
      + by apply bounded_quarter.
    - unfold e. destruct (isLeaf otherNode i) eqn:El; simpl; [done |].
      apply Hother. unfold isLeaf in El. by apply Nat.eqb_neq. }
  assert (forall e', e' ∈ stack -> (sn_nodeIndex e' < length nodes)%nat) as Hlt.
  { intros e' He'. eapply Forall_forall in Hst; [| exact He'].
    by apply entryOk_lt in Hst. }
  split.
  - unfold slotsInv. simpl. rewrite Hl3.
    split; [done |]. split; [lia |]. split; [done |]. split; [lia |]. split; [| split].
    + apply Forall_cons. split; [done |].
      apply Forall_forall. intros e' He'. apply entryOk_app. apply entryOk_insert.
      * intros Heq. apply Hnin. fold k. rewrite <- Heq. apply list_elem_of_fmap.
        by exists e'.
      * by eapply Forall_forall in Hst1.
    + apply NoDup_cons. split; [| done]. rewrite Hei.
      intros (e' & He' & Hin)%list_elem_of_fmap. apply Hlt in Hin. lia.
    + rewrite Hei. intros [Heq | Hin]%elem_of_cons; [lia | by apply Hnin].
  - unfold resetMeasure. simpl. rewrite Hl3. lia.
Qed.

(** The walk of [reset] returns from every state that satisfies the
    invariant, with a well-formed vector of at most 65536 nodes. *)
Lemma resetLoop_total Epsilon grow previous total newMaxDepth threshold :
  (0 <= Epsilon)%Q ->
  (forall o nd j, previous !! o = Some nd -> (child nd j < length previous)%nat) ->
  (forall o nd, previous !! o = Some nd -> bounded Epsilon total nd) ->
  forall N maxDepth st,
    resetMeasure st < Z.of_nat N -> resetInv Epsilon total previous st ->
    exists fuel nodes md,
      resetLoop Epsilon grow fuel previous total newMaxDepth threshold maxDepth st
      = Some (nodes, md) /\
      wfNodes nodes /\ (1 <= length nodes)%nat /\ Z.of_nat (length nodes) <= 65536 /\
      maxDepth <= md /\
      match st.1.2 with e :: _ => sn_depth e <= md | [] => True end.
Proof.
  intros He Hprev Hpb. induction N as [|N IH]; intros maxDepth [[nodes stack] capacity] Hm Hinv.
  { unfold resetMeasure in Hm. destruct Hinv as (_ & _ & Hle & _). simpl in *. lia. }
  destruct Hinv as (Hcap & H1 & Hle & Hne & Hwf & Hst & Hnd). simpl in *.
  destruct stack as [|sNode rest].
  { exists 1%nat, nodes, maxDepth. simpl. repeat split; try done; try lia. }
  specialize (Hne ltac:(done)).
  apply Forall_cons in Hst as [(Hdepth & (nd & Hnode & Hleaf & Hbnd) & Hoth) Hrest].
  simpl in Hnd. apply NoDup_cons in Hnd as [Hnin Hnd].
  assert (exists otherNode,
            (if otherIsThis sNode then nodes else previous) !! sn_otherNodeIndex sNode
            = Some otherNode /\ bounded Epsilon total otherNode /\
            forall j, child otherNode j <> 0%nat ->
              otherIsThis sNode = false /\ (child otherNode j < length previous)%nat)
    as (otherNode & Ho & Hob & Hoc).
  { destruct (otherIsThis sNode) eqn:Eo.
    - rewrite Hoth. exists nd. split; [done |]. split; [done |].
      intros j Hj. by rewrite Hleaf in Hj.
    - destruct (lookup_lt_is_Some_2 previous _ Hoth) as [on Hon].
      exists on. split; [done |]. split; [by eapply Hpb |].
      intros j _. split; [done |]. by eapply Hprev. }
  destruct (for4break_total
    (resetSlot Epsilon grow total newMaxDepth threshold sNode otherNode)
    (fun _ st' => slotsInv Epsilon total previous (sn_nodeIndex sNode) st' /\
                  resetMeasure st' <= resetMeasure (nodes, rest, capacity))
    (fun st' => 65536 <= Z.of_nat st'.2 /\
                st'.1.2 = [] /\ wfNodes st'.1.1 /\ (1 <= length st'.1.1)%nat /\
                Z.of_nat (length st'.1.1) <= 65536 /\
                resetMeasure st' <= resetMeasure (nodes, rest, capacity))
    (nodes, rest, capacity)) as (st' & E & Hpost).
  { split; [| lia]. unfold slotsInv. simpl.
    split; [done |]. split; [done |]. split; [done |].
    split; [by eapply lookup_lt_Some |]. done. }
  { intros i x Hi [Hx Hmx].
    destruct (resetSlot_step Epsilon grow previous total newMaxDepth threshold sNode
                otherNode i x He Hi Hdepth Hx Hob Hoc) as (f & Ef & Hf).
    exists f. split; [done |]. destruct f as [y | y].
    - destruct Hf as [Hy Hmy]. split; [done | lia].
    - destruct Hf as (? & ? & ? & ? & ? & Hmy). repeat split; try done. lia. }
  assert (resetInv Epsilon total previous st' /\ resetMeasure st' < Z.of_nat N)
    as [Hinv' Hm'].
  { destruct Hpost as [[(Hc' & Hl & Hwf' & Hk & Hst' & Hnd' & _) Hms]
                      | (Hc' & Hs & Hwf' & Hl1 & Hl & Hms)].
    - split.
      + unfold resetInv. split; [done |]. split; [lia |]. split; [lia |]. done.
      + unfold resetMeasure in *. simpl in *. lia.
    - split.
      + unfold resetInv. rewrite Hs. split; [done |]. split; [done |]. split; [done |].
        split; [done |]. split; [done |]. split; [constructor | constructor].
      + unfold resetMeasure in *. rewrite Hs. simpl in *. lia. }
  destruct (IH (Z.max maxDepth (sn_depth sNode)) st' Hm' Hinv')
    as (fuel & nodes' & md & El & Hwf' & Hl1 & Hl & Hmd & _).
  exists (S fuel), nodes', md. simpl. rewrite Ho. simpl. rewrite E. simpl.
  split; [exact El |]. split; [done |]. split; [done |]. split; [done |].
  split; lia.
Qed.

End ResetFacts.

(** X9.  When the capacity of the node vector suffices for 65536
    nodes, so that no reference is invalidated, and no sum of the
    well-formed previous tree is above [(1 + Epsilon)] times its atomic sum,
    so that the assertion on [fraction] holds, [reset] returns a well-formed
    tree of at most 65536 nodes in which every sum is 0, with the atomic sum
    and weight 0 and a maximal depth of at least 1; its pdf is the uniform
    [1 / (4 pi)] for every point and level. *)
Theorem reset_yields_empty_tree (Epsilon : Float) (grow : nat -> nat) (capacity : nat)
    (previousDTree : DTree) (newMaxDepth : Z) (subdivisionThreshold : Float)
    (augment : bool) :
  (0 <= Epsilon)%Q -> 65536 <= Z.of_nat capacity ->
  WF.wfDTree previousDTree ->
  (forall o nd, m_nodes previousDTree !! o = Some nd ->
     ResetWalk.bounded Epsilon (atomic_sum previousDTree) nd) ->
  exists fuel t,
    DTree.reset Epsilon grow fuel capacity previousDTree newMaxDepth subdivisionThreshold
      augment = Some t /\
    WF.wfDTree t /\ Z.of_nat (DTree.numNodes t) <= 65536 /\
    (forall m nd i, m_nodes t !! m = Some nd -> QuadTreeNode.sum nd i = 0%Q) /\
    atomic_sum t = 0%Q /\ atomic_statisticalWeight t = 0%Q /\ 1 <= m_maxDepth t /\
    forall fuel' p level curr_level,
      DTree.pdf fuel' t p level curr_level = Some ((1 / (4 * DTree.M_PI))%Q, curr_level).
Proof.
  intros He Hcap [Hlen Hwf] Hb.
  assert ((0 <? capacity)%nat = true) as Hc0 by (apply Nat.ltb_lt; lia).
  destruct (ResetFacts.resetLoop_total Epsilon grow (m_nodes previousDTree)
              (atomic_sum previousDTree) newMaxDepth subdivisionThreshold He) with
    (N := S (Z.to_nat (ResetWalk.resetMeasure ([QuadTreeNode.empty],
                                                [DTree.mkStackNode 0 0 false 1], capacity))))
    (maxDepth := 0)
    (st := ([QuadTreeNode.empty], [DTree.mkStackNode 0 0 false 1], capacity))
    as (fuel & nodes & md & E & Hwf' & Hl1 & Hl & _ & Hmd).
  - intros o nd j Ho. destruct (Hwf o nd j Ho) as [-> | H]; lia.
  - exact Hb.
  - lia.
  - unfold ResetWalk.resetInv. simpl. split; [done |]. split; [lia |]. split; [lia |].
    split; [lia |]. split.
    { intros n nd i Hn. destruct n; simpl in Hn; [| done]. injection Hn as <-.
      left. apply AugInvFacts.child_empty. }
    split.
    + constructor; [| constructor]. split; [simpl; lia |]. split; simpl; [| done].
      exists QuadTreeNode.empty. split; [done |]. split; [apply AugInvFacts.child_empty |].
      intros Et i. apply Qltb_lt in Et. pose proof ResetFacts.FLT_MIN_pos.
      assert (QuadTreeNode.sum QuadTreeNode.empty i = 0%Q) as ->.
      { unfold QuadTreeNode.sum, QuadTreeNode.empty, get4. simpl. by repeat case_match. }
      nra.
    + constructor; [| constructor]. intros H. by apply elem_of_nil in H.
  - simpl in Hmd. exists fuel. unfold DTree.reset. rewrite Hc0, E. simpl. eexists.
    split; [done |]. simpl. unfold DTree.numNodes. simpl. rewrite length_fmap.
    split.
    { split; [simpl; rewrite length_fmap; lia |]. simpl.
      eapply WFFacts.wfNodes_shape; [| exact Hwf'].
      rewrite <- list_fmap_compose. apply list_fmap_ext. done. }
    split; [done |]. split.
    { intros m nd i Hm. rewrite list_lookup_fmap in Hm.
      destruct (nodes !! m) as [nd0|]; [| done]. simpl in Hm. injection Hm as <-.
      apply ResetFacts.sum_setSumAll. }
    done.
Qed.

Lemma reset_yields_empty_tree_witness :
  let Epsilon := (1 # 10000)%Q in
  let grow := fun n : nat => (2 * n + 1)%nat in
  let capacity := Z.to_nat 65536 in
  (0 <= Epsilon)%Q /\ 65536 <= Z.of_nat capacity /\
  WF.wfDTree Examples.peaked /\
  (forall o nd, m_nodes Examples.peaked !! o = Some nd ->
     ResetWalk.bounded Epsilon (atomic_sum Examples.peaked) nd) /\
  exists fuel t,
    DTree.reset Epsilon grow fuel capacity Examples.peaked 20 (1 # 100) false = Some t /\
    WF.wfDTree t /\ Z.of_nat (DTree.numNodes t) <= 65536 /\
    (forall m nd i, m_nodes t !! m = Some nd -> QuadTreeNode.sum nd i = 0%Q) /\
    atomic_sum t = 0%Q /\ atomic_statisticalWeight t = 0%Q /\ 1 <= m_maxDepth t /\
    forall fuel' p level curr_level,
      DTree.pdf fuel' t p level curr_level = Some ((1 / (4 * DTree.M_PI))%Q, curr_level).
Proof.
  assert (H1 : (0 <= 1 # 10000)%Q) by discriminate.
  assert (H2 : 65536 <= Z.of_nat (Z.to_nat 65536)) by lia.
  assert (H3 : WF.wfDTree Examples.peaked) by (apply WFFacts.wfDTreeb_sound; reflexivity).
  assert (H4 : forall o nd, m_nodes Examples.peaked !! o = Some nd ->
                 ResetWalk.bounded (1 # 10000) (atomic_sum Examples.peaked) nd).
  { apply ResetFacts.bounded_Forall.
    repeat (apply Forall_cons; split; [repeat split; discriminate |]).
    apply List.Forall_nil. }
  cbv zeta. split; [exact H1 |]. split; [exact H2 |]. split; [exact H3 |].
  split; [exact H4 |].
  apply (reset_yields_empty_tree (1 # 10000) (fun n : nat => (2 * n + 1)%nat)
           (Z.to_nat 65536) Examples.peaked 20 (1 # 100) false H1 H2 H3 H4).
Defined.

(** * A tree against itself *)

Module SelfFacts.
Import QuadTreeNode DTree WF Walk WFFacts MajFacts SelfWalk.

Lemma majorizingSlot_self nodePair node denom i pp l stk st' :
  symmetric nodePair -> pp.1 = pp.2 -> Forall symmetric stk ->
  majorizingSlot nodePair node node denom denom i (pp, l, stk) = Some st' ->
  st'.1.1.1 = st'.1.1.2 /\ Forall symmetric st'.2.
Proof.
  intros [Hi Hf] Hpp Hstk H. unfold majorizingSlot in H. rewrite <- Hi, <- Hf in H.
  destruct (isLeaf node _ || isLeaf node _).
  - destruct (Qltb l _); simplify_eq; simpl; done.
  - simplify_eq. simpl. split; [done |]. apply Forall_cons. split; [| done].
    split; simpl; by rewrite <- ?Hi.
Qed.

Lemma majorizingLoop_self fuel : forall nodes pp l stack r,
  pp.1 = pp.2 -> Forall symmetric stack ->
  majorizingLoop fuel nodes nodes (pp, l, stack) = Some r -> r.1 = r.2.
Proof.
  induction fuel as [|fuel IH]; intros nodes pp l stack r Hpp Hstk H; [done |].
  simpl in H. destruct stack as [|e rest]; [by simplify_eq |].
  apply Forall_cons in Hstk as [He Hrest].
  destruct He as [Hi Hf]. rewrite <- Hi in H.
  destruct (nodes !! (nodeIndex e).1) as [node|]; [simpl in H | done].
  destruct (for4 _ _) as [[[pp' l'] stk']|] eqn:E; [simpl in H | done].
  assert (pp'.1 = pp'.2 /\ Forall symmetric stk') as [H1 H2].
  { refine (for4_inv _ (fun _ st => st.1.1.1 = st.1.1.2 /\ Forall symmetric st.2)
              _ _ _ _ E); [done |].
    intros i [[pp0 l0] stk0] y _ [H1 H2] Hb.
    eapply majorizingSlot_self; [ | | | exact Hb]; done. }
  eapply IH; [exact H1 | exact H2 | exact H].
Qed.

Lemma ratio_self (x : Q) : (EPSILON <= x)%Q -> Qltb (Qabs (x / x - 1)) EPSILON = true.
Proof.
  intros Hx. apply Qltb_lt.
  assert (x / x - 1 == 0)%Q as ->.
  { field. intros H0. pose proof EPSILON_pos. lra. }
  reflexivity.
Qed.

End SelfFacts.

(** X10.  For a well-formed tree [t], [t.getMajorizingFactor(t)] returns
    a pair of equal components, so that [A] is 1, and
    [buildAugmented(t, t)] returns [B = 0] through its early return: the
    atomics of [this] are cleared and its nodes are left as they were. *)
Theorem buildAugmented_self (this t : DTree) :
  WF.wfDTree t ->
  exists fuel pp,
    DTree.getMajorizingFactor fuel t t = Some pp /\ pp.1 = pp.2 /\
    (DTree.majorizingA pp == 1)%Q /\
    DTree.buildAugmented fuel this t t = Some (0%Q, mkDTree (m_nodes this) 0%Q 0%Q 0).
Proof.
  intros [Hlen Hwf].
  destruct (MajFacts.majorizingLoop_total (m_nodes t) (m_nodes t) Hwf Hwf
              (S (Walk.stackWeight (length (m_nodes t))
                    [DTree.mkNodePair (0%nat, -1) (0%nat, -1) 1%Q 1%Q 0 0]))
              (1%Q, 1%Q) 0%Q [DTree.mkNodePair (0%nat, -1) (0%nat, -1) 1%Q 1%Q 0 0])
    as (fuel & pp & E & Hpp).
  { lia. }
  { constructor; [| constructor]. unfold Walk.validPair. simpl. lia. }
  { split; simpl; unfold EPSILON; lra. }
  assert (pp.1 = pp.2) as Heq.
  { eapply SelfFacts.majorizingLoop_self; [| | exact E]; [done |].
    constructor; [| constructor]. split; done. }
  assert (DTree.majorizingA pp = (pp.2 / pp.1)%Q) as HA.
  { unfold DTree.majorizingA. destruct Hpp as [H1 H2].
    apply Qltb_ge in H1. by rewrite H1. }
  exists fuel, pp. split; [exact E |]. split; [exact Heq |]. split.
  - rewrite HA, <- Heq. field. intros H0. destruct Hpp as [H1 _].
    pose proof MajFacts.EPSILON_pos. lra.
  - unfold DTree.buildAugmented. unfold DTree.getMajorizingFactor in *. rewrite E.
    cbn [mbind option_bind]. rewrite HA, <- Heq.
    rewrite (SelfFacts.ratio_self _ (proj1 Hpp)). reflexivity.
Qed.

Lemma buildAugmented_self_witness :
  WF.wfDTree Examples.peaked /\
  exists fuel pp,
    DTree.getMajorizingFactor fuel Examples.peaked Examples.peaked = Some pp /\
    pp.1 = pp.2 /\ (DTree.majorizingA pp == 1)%Q /\
    DTree.buildAugmented fuel Examples.unbuilt Examples.peaked Examples.peaked
      = Some (0%Q, mkDTree (m_nodes Examples.unbuilt) 0%Q 0%Q 0).
Proof.
  assert (H : WF.wfDTree Examples.peaked) by (apply WFFacts.wfDTreeb_sound; reflexivity).
  split; [exact H |].
  apply (buildAugmented_self Examples.unbuilt Examples.peaked H).
Defined.

Module ValidFacts.
Import QuadTreeNode DTree WF Walk WFFacts MajFacts SelfWalk ValidWalk.

Lemma slotPdf_nonneg denom factor node i :
  (0 <= factor)%Q -> (0 <= sum node i)%Q -> (0 <= slotPdf denom factor node i)%Q.
Proof.
  intros Hf Hs. unfold slotPdf.
  destruct (Qltb denom EPSILON) eqn:E; [apply Qle_refl |].
  apply Qltb_ge in E. pose proof EPSILON_pos.
  apply Qle_shift_div_l; [lra |]. rewrite Qmult_0_l.
  apply Qmult_le_0_compat; [| done]. lra.
Qed.

Lemma pow5_step (a b : nat) : (S a <= b)%nat -> (5 * 5 ^ a <= 5 ^ b)%nat.
Proof. intros H. rewrite <- Nat.pow_succ_r'. apply Nat.pow_le_mono_r; lia. Qed.

(** One slot either stops the walk with [false] or pushes at most one
    entry, which lies further down in one of the trees. *)
Lemma validateSlot_step this other factor e node onode denom odenom i stk :
  wfNodes this -> wfNodes other -> validPair this other e ->
  this !! (nodeIndex e).1 = Some node -> other !! (otherNodeIndex e).1 = Some onode ->
  match validateSlot factor e node onode denom odenom i stk with
  | Return b => b = false
  | Next stk' =>
    stk' = stk \/
    exists e', stk' = e' :: stk /\ validPair this other e' /\
      (5 * weight2 (length this) (length other) e'
       <= weight2 (length this) (length other) e)%nat
  end.
Proof.
  intros Hwf Hwfo [Hv Hvo] Hn Ho. unfold validateSlot.
  destruct (isLeaf node _) eqn:El; destruct (isLeaf onode _) eqn:Elo; simpl.
  - destruct (Qltb _ _); [done | by left].
  - right. eexists. split; [done |].
    pose proof (nonleaf_child _ _ _ _ Hwfo Ho Elo) as Hc.
    unfold validPair, weight2, descend. rewrite El, Elo.
    cbn [fst snd nodeIndex otherNodeIndex].
    split; [lia |]. apply pow5_step. lia.
  - right. eexists. split; [done |].
    pose proof (nonleaf_child _ _ _ _ Hwf Hn El) as Hc.
    unfold validPair, weight2, descend. rewrite El, Elo.
    cbn [fst snd nodeIndex otherNodeIndex].
    split; [lia |]. apply pow5_step. lia.
  - right. eexists. split; [done |].
    pose proof (nonleaf_child _ _ _ _ Hwf Hn El) as Hc.
    pose proof (nonleaf_child _ _ _ _ Hwfo Ho Elo) as Hco.
    unfold validPair, weight2, descend. rewrite El, Elo.
    cbn [fst snd nodeIndex otherNodeIndex].
    split; [lia |]. apply pow5_step. lia.
Qed.

Lemma validateSlot_step_false factor e node onode denom odenom i stk :
  validateSlot factor e node onode denom odenom i stk <> Return true.
Proof.
  unfold validateSlot. destruct (isLeaf node _ && isLeaf onode _); [| done].
  destruct (Qltb _ _); done.
Qed.

(** The loop rule of [for4flow]. *)
Lemma for4flow_inv {S R : Type} (body : Z -> S -> Flow S R) (I : Z -> S -> Prop)
    (P : R -> Prop) (s : S) :
  I 0 s ->
  (forall i x, 0 <= i < 4 -> I i x ->
     match body i x with Next y => I (i + 1) y | Return r => P r end) ->
  match for4flow body s with Next s' => I 4 s' | Return r => P r end.
Proof.
  intros H0 Hstep. unfold for4flow.
  pose proof (Hstep 0 s ltac:(lia) H0) as H1.
  destruct (body 0 s) as [s1 | r]; [| done].
  pose proof (Hstep 1 s1 ltac:(lia) H1) as H2.
  destruct (body 1 s1) as [s2 | r]; [| done].
  pose proof (Hstep 2 s2 ltac:(lia) H2) as H3.
  destruct (body 2 s2) as [s3 | r]; [| done].
  exact (Hstep 3 s3 ltac:(lia) H3).
Qed.

Lemma weight2_pos len olen e : (0 < weight2 len olen e)%nat.
Proof. unfold weight2. apply Nat.neq_0_lt_0. apply Nat.pow_nonzero. lia. Qed.

(** The walk of [validateMajorizingFactor] returns from any valid stack. *)
Lemma validateLoop_total this other factor :
  wfNodes this -> wfNodes other ->
  forall N stack,
    (stackWeight2 (length this) (length other) stack < N)%nat ->
    Forall (validPair this other) stack ->
    exists fuel b, validateLoop fuel this other factor stack = Some b.
Proof.
  intros Hwf Hwfo. induction N as [|N IH]; intros stack Hw Hv; [lia |].
  destruct stack as [|e rest].
  { by exists 1%nat, true. }
  apply Forall_cons in Hv as [Hve Hvr].
  destruct (lookup_lt_is_Some_2 this (nodeIndex e).1) as [node Hn]; [apply Hve |].
  destruct (lookup_lt_is_Some_2 other (otherNodeIndex e).1) as [onode Ho]; [apply Hve |].
  set (body := validateSlot factor e node onode (denomOf node (nodeIndex e))
                 (denomOf onode (otherNodeIndex e))).
  pose proof (for4flow_inv body
    (fun k stk => Forall (validPair this other) stk /\
                  (5 * stackWeight2 (length this) (length other) stk
                   <= 5 * stackWeight2 (length this) (length other) rest
                      + Z.to_nat k * weight2 (length this) (length other) e)%nat)
    (fun _ => True) rest) as Hfor.
  destruct (for4flow body rest) as [stk' | b] eqn:E.
  - destruct Hfor as [Hv' Hw'].
    { split; [done | simpl; lia]. }
    { intros i x Hi [Hvx Hwx].
      pose proof (validateSlot_step this other factor e node onode
                    (denomOf node (nodeIndex e)) (denomOf onode (otherNodeIndex e))
                    i x Hwf Hwfo Hve Hn Ho) as Hs.
      fold body in Hs. destruct (body i x) as [y | r]; [| done].
      replace (Z.to_nat (i + 1)) with (S (Z.to_nat i)) by lia.
      destruct Hs as [-> | (e' & -> & Hve' & Hle)].
      - split; [done | lia].
      - split; [by apply Forall_cons |]. simpl. lia. }
    destruct (IH stk') as (fuel & b & Hb); [| done |].
    { pose proof (weight2_pos (length this) (length other) e). simpl in Hw. lia. }
    exists (S fuel), b. simpl. rewrite Hn, Ho. simpl. fold body. by rewrite E.
  - exists 1%nat, b. simpl. rewrite Hn, Ho. simpl. fold body. by rewrite E.
Qed.

(** A larger factor passes every test that a smaller one passes, as long
    as the densities of [this] are not negative. *)
Lemma validateSlot_monotone f f' e node onode denom odenom i stk stk' :
  (f <= f')%Q -> (0 <= nodeFactor e)%Q -> (forall j, (0 <= sum node j)%Q) ->
  validateSlot f e node onode denom odenom i stk = Next stk' ->
  validateSlot f' e node onode denom odenom i stk = Next stk' /\
  (stk' = stk \/ exists e', stk' = e' :: stk /\ (0 <= nodeFactor e')%Q).
Proof.
  intros Hf He Hs. unfold validateSlot.
  pose proof (slotPdf_nonneg denom (nodeFactor e) node (slotOf (nodeIndex e) i) He (Hs _))
    as Hp.
  destruct (isLeaf node _ && isLeaf onode _).
  - destruct (Qltb (f * _ - _) _) eqn:E; [done |]. intros H. simplify_eq.
    apply Qltb_ge in E.
    assert (Qltb (f' * slotPdf denom (nodeFactor e) node (slotOf (nodeIndex e) i)
                  - slotPdf odenom (otherNodeFactor e) onode (slotOf (otherNodeIndex e) i))
                 (- EPSILON) = false) as ->; [| by auto].
    apply Qltb_ge.
    assert (f * slotPdf denom (nodeFactor e) node (slotOf (nodeIndex e) i)
            <= f' * slotPdf denom (nodeFactor e) node (slotOf (nodeIndex e) i))%Q.
    { apply Qmult_le_compat_r; done. }
    lra.
  - intros H. simplify_eq. split; [done |]. right. eexists. split; [done |]. done.
Qed.

Lemma for4flow_sim {S R : Type} (b b' : Z -> S -> Flow S R) (I : S -> Prop) (s s' : S) :
  I s ->
  (forall i x y, I x -> b i x = Next y -> b' i x = Next y /\ I y) ->
  for4flow b s = Next s' -> for4flow b' s = Next s' /\ I s'.
Proof.
  intros H0 Hstep. unfold for4flow.
  destruct (b 0 s) as [s1 | r] eqn:E0; [| done].
  destruct (Hstep _ _ _ H0 E0) as [-> H1].
  destruct (b 1 s1) as [s2 | r] eqn:E1; [| done].
  destruct (Hstep _ _ _ H1 E1) as [-> H2].
  destruct (b 2 s2) as [s3 | r] eqn:E2; [| done].
  destruct (Hstep _ _ _ H2 E2) as [-> H3].
  intros E3. exact (Hstep _ _ _ H3 E3).
Qed.

Lemma validateLoop_monotone f f' this other :
  (f <= f')%Q -> nonnegSums this ->
  forall fuel stack,
    Forall (fun e => (0 <= nodeFactor e)%Q) stack ->
    validateLoop fuel this other f stack = Some true ->
    validateLoop fuel this other f' stack = Some true.
Proof.
  intros Hf Hs. induction fuel as [|fuel IH]; intros stack Hst H; [done |].
  simpl in *. destruct stack as [|e rest]; [done |].
  apply Forall_cons in Hst as [He Hrest].
  destruct (this !! (nodeIndex e).1) as [node|] eqn:Hn; [simpl in * | done].
  destruct (other !! (otherNodeIndex e).1) as [onode|] eqn:Ho; [simpl in * | done].
  destruct (for4flow (validateSlot f e node onode _ _) rest) as [st | b] eqn:E.
  - assert (forall i x y, Forall (fun e => (0 <= nodeFactor e)%Q) x ->
              validateSlot f e node onode (denomOf node (nodeIndex e))
                (denomOf onode (otherNodeIndex e)) i x = Next y ->
              validateSlot f' e node onode (denomOf node (nodeIndex e))
                (denomOf onode (otherNodeIndex e)) i x = Next y /\
              Forall (fun e => (0 <= nodeFactor e)%Q) y) as Hstep.
    { intros i x y Hx Hb.
      destruct (validateSlot_monotone f f' e node onode _ _ i x y Hf He
                  (fun j => Hs _ _ j Hn) Hb) as [Hb' Hsh].
      split; [exact Hb' |]. destruct Hsh as [-> | (e' & -> & He')]; [done |].
      by apply Forall_cons. }
    destruct (for4flow_sim _ _ _ _ _ Hrest Hstep E) as [-> Hst].
    by apply IH.
  - simplify_eq. exfalso.
    pose proof (for4flow_inv
                  (validateSlot f e node onode (denomOf node (nodeIndex e))
                     (denomOf onode (otherNodeIndex e)))
                  (fun _ _ => True) (fun r => r = false) rest I) as Hp.
    rewrite E in Hp. discriminate Hp.
    intros i x _ _.
    pose proof (validateSlot_step_false f e node onode (denomOf node (nodeIndex e))
                  (denomOf onode (otherNodeIndex e)) i x) as Hne.
    destruct (validateSlot _ _ _ _ _ _ _ _) as [y | []]; done.
Qed.

(** On one tree the two sides of the walk coincide, and a factor of at
    least 1 passes every test. *)
Lemma validateSlot_self f e node denom i stk :
  (1 <= f)%Q -> symmetric e -> (0 <= nodeFactor e)%Q -> (forall j, (0 <= sum node j)%Q) ->
  Forall (fun e => symmetric e /\ (0 <= nodeFactor e)%Q) stk ->
  exists stk', validateSlot f e node node denom denom i stk = Next stk' /\
               Forall (fun e => symmetric e /\ (0 <= nodeFactor e)%Q) stk'.
Proof.
  intros Hf [Hi Hfa] He Hs Hstk. unfold validateSlot. rewrite <- Hi, <- Hfa.
  pose proof (slotPdf_nonneg denom (nodeFactor e) node (slotOf (nodeIndex e) i) He (Hs _))
    as Hp.
  destruct (isLeaf node _ && isLeaf node _).
  - assert (Qltb (f * slotPdf denom (nodeFactor e) node (slotOf (nodeIndex e) i)
                  - slotPdf denom (nodeFactor e) node (slotOf (nodeIndex e) i))
                 (- EPSILON) = false) as ->.
    { apply Qltb_ge. pose proof EPSILON_pos.
      assert (1 * slotPdf denom (nodeFactor e) node (slotOf (nodeIndex e) i)
              <= f * slotPdf denom (nodeFactor e) node (slotOf (nodeIndex e) i))%Q.
      { apply Qmult_le_compat_r; done. }
      lra. }
    by exists stk.
  - eexists. split; [done |]. apply Forall_cons. split; [| done].
    split; [split; done | done].
Qed.

Lemma validateLoop_self f nodes :
  (1 <= f)%Q -> nonnegSums nodes ->
  forall fuel stack b,
    Forall (fun e => symmetric e /\ (0 <= nodeFactor e)%Q) stack ->
    validateLoop fuel nodes nodes f stack = Some b -> b = true.
Proof.
  intros Hf Hs. induction fuel as [|fuel IH]; intros stack b Hst H; [done |].
  simpl in H. destruct stack as [|e rest]; [by simplify_eq |].
  apply Forall_cons in Hst as [[He Hfe] Hrest].
  destruct He as [Hi Hfa]. rewrite <- Hi in H.
  destruct (nodes !! (nodeIndex e).1) as [node|] eqn:Hn; [simpl in H | done].
  pose proof (for4flow_inv
                (validateSlot f e node node (denomOf node (nodeIndex e))
                   (denomOf node (nodeIndex e)))
                (fun _ stk => Forall (fun e => symmetric e /\ (0 <= nodeFactor e)%Q) stk)
                (fun _ => False) rest Hrest) as Hp.
  destruct (for4flow _ rest) as [st | r].
  - eapply IH; [| exact H]. apply Hp. intros i x _ Hx.
    destruct (validateSlot_self f e node (denomOf node (nodeIndex e)) i x Hf
                (conj Hi Hfa) Hfe (fun j => Hs _ _ j Hn) Hx) as (y & -> & Hy).
    exact Hy.
  - exfalso. apply Hp. intros i x _ Hx.
    destruct (validateSlot_self f e node (denomOf node (nodeIndex e)) i x Hf
                (conj Hi Hfa) Hfe (fun j => Hs _ _ j Hn) Hx) as (y & -> & Hy).
    exact Hy.
Qed.

Lemma validateLoop_mono fuel : forall fuel' this other f st r,
  validateLoop fuel this other f st = Some r -> (fuel <= fuel')%nat ->
  validateLoop fuel' this other f st = Some r.
Proof.
  induction fuel as [|fuel IH]; intros fuel' this other f st r H Hle; [done |].
  destruct fuel' as [|fuel']; [lia |]. simpl in *.
  destruct st as [|e rest]; [done |].
  destruct (this !! _) as [node|]; [simpl in * | done].
  destruct (other !! _) as [onode|]; [simpl in * | done].
  destruct (for4flow _ rest) as [st | b]; [| done].
  apply IH; [done | lia].
Qed.

(** The verdict does not depend on the fuel. *)
Lemma validateMajorizingFactor_fuel f1 f2 this other factor b1 b2 :
  validateMajorizingFactor f1 this other factor = Some b1 ->
  validateMajorizingFactor f2 this other factor = Some b2 -> b1 = b2.
Proof.
  unfold validateMajorizingFactor. intros H1 H2.
  apply (validateLoop_mono f1 (f1 + f2)) in H1; [| lia].
  apply (validateLoop_mono f2 (f1 + f2)) in H2; [| lia].
  congruence.
Qed.

End ValidFacts.

(** X11.  On well-formed trees, with no negative sum in [this],
    [validateMajorizingFactor] returns; a factor that it accepts stays
    accepted when it is raised, and a tree validated against its own nodes
    is accepted for every factor from 1 on. *)
Theorem validateMajorizingFactor_monotone (this other : DTree) (factor factor' : Float) :
  WF.wfDTree this -> WF.wfDTree other -> ValidWalk.nonnegSums (m_nodes this) ->
  (factor <= factor')%Q ->
  exists fuel b b',
    DTree.validateMajorizingFactor fuel this other factor = Some b /\
    DTree.validateMajorizingFactor fuel this other factor' = Some b' /\
    (b = true -> b' = true) /\
    ((1 <= factor)%Q -> m_nodes other = m_nodes this -> b = true).
Proof.
  intros [Hlen Hwf] [Hleno Hwfo] Hs Hf.
  set (stack := [DTree.mkNodePair (0%nat, -1) (0%nat, -1) 1%Q 1%Q 0 0]).
  assert (Forall (Walk.validPair (m_nodes this) (m_nodes other)) stack) as Hv.
  { constructor; [| constructor]. unfold Walk.validPair. simpl. lia. }
  destruct (ValidFacts.validateLoop_total (m_nodes this) (m_nodes other) factor Hwf Hwfo
              _ stack (Nat.lt_succ_diag_r _) Hv) as (f1 & b & E1).
  destruct (ValidFacts.validateLoop_total (m_nodes this) (m_nodes other) factor' Hwf Hwfo
              _ stack (Nat.lt_succ_diag_r _) Hv) as (f2 & b' & E2).
  apply (ValidFacts.validateLoop_mono f1 (Nat.max f1 f2)) in E1; [| lia].
  apply (ValidFacts.validateLoop_mono f2 (Nat.max f1 f2)) in E2; [| lia].
  exists (Nat.max f1 f2), b, b'. unfold DTree.validateMajorizingFactor. fold stack.
  split; [exact E1 |]. split; [exact E2 |]. split.
  - intros ->.
    assert (Forall (fun e => (0 <= DTree.nodeFactor e)%Q) stack) as Hn.
    { constructor; [| constructor]. simpl. lra. }
    pose proof (ValidFacts.validateLoop_monotone factor factor' (m_nodes this) (m_nodes other)
                  Hf Hs (Nat.max f1 f2) stack Hn E1) as Hm.
    congruence.
  - intros H1 Heq. rewrite Heq in E1.
    eapply (ValidFacts.validateLoop_self factor (m_nodes this) H1 Hs); [| exact E1].
    constructor; [| constructor]. split; [split; done |]. simpl. lra.
Qed.

Lemma validateMajorizingFactor_monotone_witness :
  (WF.wfDTree Examples.peaked /\ ValidWalk.nonnegSums (m_nodes Examples.peaked) /\
   (1 <= 4)%Q /\
   exists fuel,
     DTree.validateMajorizingFactor fuel Examples.peaked Examples.peaked 1 = Some true /\
     DTree.validateMajorizingFactor fuel Examples.peaked Examples.peaked 4 = Some true) /\
  (WF.wfDTree Examples.uniform /\ ValidWalk.nonnegSums (m_nodes Examples.uniform) /\
   (4 <= 8)%Q /\
   DTree.validateMajorizingFactor 5 Examples.uniform Examples.peaked 1 = Some false /\
   exists fuel,
     DTree.validateMajorizingFactor fuel Examples.uniform Examples.peaked 4 = Some true /\
     DTree.validateMajorizingFactor fuel Examples.uniform Examples.peaked 8 = Some true).
Proof.
  assert (H1 : WF.wfDTree Examples.peaked) by (apply WFFacts.wfDTreeb_sound; reflexivity).
  assert (H2 : WF.wfDTree Examples.uniform) by (apply WFFacts.wfDTreeb_sound; reflexivity).
  assert (H3 : ValidWalk.nonnegSums (m_nodes Examples.peaked)).
  { apply SampleFacts.nonnegSums_Forall.
    repeat (apply Forall_cons; split; [repeat split; discriminate |]). apply List.Forall_nil. }
  assert (H4 : ValidWalk.nonnegSums (m_nodes Examples.uniform)).
  { apply SampleFacts.nonnegSums_Forall.
    repeat (apply Forall_cons; split; [repeat split; discriminate |]). apply List.Forall_nil. }
  split.
  - (* a tree against itself: accepted at 1, and so at 4 *)
    split; [exact H1 |]. split; [exact H3 |]. split; [discriminate |].
    destruct (validateMajorizingFactor_monotone Examples.peaked Examples.peaked 1 4
                H1 H1 H3 ltac:(discriminate)) as (fuel & b & b' & E & E' & Hup & Hself).
    exists fuel.
    assert (Hb : b = true) by (apply Hself; [discriminate | reflexivity]).
    rewrite E, E', (Hup Hb), Hb. split; reflexivity.
  - (* the uniform tree against the peaked one: refused at 1, accepted
       at 4, and so at 8 *)
    split; [exact H2 |]. split; [exact H4 |]. split; [discriminate |].
    split; [vm_compute; reflexivity |].
    destruct (validateMajorizingFactor_monotone Examples.uniform Examples.peaked 4 8
                H2 H1 H4 ltac:(discriminate)) as (fuel & b & b' & E & E' & Hup & _).
    exists fuel.
    assert (Hb : b = true).
    { eapply ValidFacts.validateMajorizingFactor_fuel; [exact E |].
      instantiate (1 := 5%nat). vm_compute. reflexivity. }
    rewrite E, E', (Hup Hb), Hb. split; reflexivity.
Defined.

(** * The unmajorized augmented distribution *)

Module UnmajFacts.
Import QuadTreeNode DTree WF WFFacts Built BuildFacts AugLoopFacts AugInvFacts
       Residual IntegralFacts ValidWalk UnmajWalk.

Lemma computeAugmentedPdf2_nonneg oldPdf newPdf : (0 <= computeAugmentedPdf2 oldPdf newPdf)%Q.
Proof. unfold computeAugmentedPdf2. apply std_max_ge_r. Qed.

Lemma unmajorizedSlot_cases e oldNode newNode i nodes stk cur :
  nodes !! um_nodeIdx e = Some cur ->
  let oldPdf := slotPdf (total oldNode) (um_oldNodeFactor e) oldNode i in
  let newPdf := slotPdf (total newNode) (um_newNodeFactor e) newNode i in
  (isLeaf newNode i || isLeaf oldNode i = true /\
   unmajorizedSlot e oldNode newNode (total oldNode) (total newNode) i (nodes, stk)
   = Some (<[um_nodeIdx e := setSum cur i (computeAugmentedPdf2 oldPdf newPdf)]> nodes,
           stk)) \/
  (isLeaf newNode i = false /\ isLeaf oldNode i = false /\
   unmajorizedSlot e oldNode newNode (total oldNode) (total newNode) i (nodes, stk)
   = Some (<[um_nodeIdx e := setChild cur i (uint16 (length nodes))]> nodes
             ++ [QuadTreeNode.empty],
           mkUnmajPair (child newNode i) (child oldNode i) newPdf oldPdf (length nodes)
           :: stk)).
Proof.
  intros Hcur oldPdf newPdf. unfold unmajorizedSlot. rewrite Hcur. simpl.
  destruct (isLeaf newNode i || isLeaf oldNode i) eqn:Hl.
  - left. done.
  - right. apply orb_false_iff in Hl as [H1 H2]. split; [done |]. split; [done |].
    rewrite length_app, length_insert. simpl.
    replace (length nodes + 1 - 1)%nat with (length nodes) by lia. done.
Qed.

Lemma unmajorizedSlot_length e oldNode newNode oldDenom newDenom i st st' :
  unmajorizedSlot e oldNode newNode oldDenom newDenom i st = Some st' ->
  (length st.1 <= length st'.1)%nat.
Proof.
  destruct st as [nodes stk]. unfold unmajorizedSlot.
  destruct (nodes !! um_nodeIdx e) as [cur|]; [simpl | done].
  destruct (_ || _); intros H; injection H as <-; simpl.
  - by rewrite length_insert.
  - rewrite length_app, length_insert. lia.
Qed.

Lemma unmajorizedLoop_length fuel : forall oldDist newDist st nodes',
  unmajorizedLoop fuel oldDist newDist st = Some nodes' ->
  (length st.1 <= length nodes')%nat.
Proof.
  induction fuel as [|fuel IH]; intros oldDist newDist [nodes stack] nodes' H; [done |].
  simpl in H. destruct stack as [|e rest]; [by simplify_eq |].
  destruct (oldDist !! _) as [oldNode|]; [simpl in H | done].
  destruct (newDist !! _) as [newNode|]; [simpl in H | done].
  destruct (for4 _ _) as [st1|] eqn:Hfor; [simpl in H | done].
  apply IH in H.
  assert (length nodes <= length st1.1)%nat; [| simpl; lia].
  refine (for4_inv _ (fun _ x => (length nodes <= length x.1)%nat) _ _ _ _ Hfor);
    [done |].
  intros i x y _ Hx Hb. apply unmajorizedSlot_length in Hb. lia.
Qed.

Lemma unmajorizedLoop_mono fuel : forall oldDist newDist st r fuel',
  unmajorizedLoop fuel oldDist newDist st = Some r -> (fuel <= fuel')%nat ->
  unmajorizedLoop fuel' oldDist newDist st = Some r.
Proof.
  induction fuel as [|fuel IH]; intros oldDist newDist st r fuel' H Hle; [done |].
  destruct fuel' as [|fuel']; [lia |].
  simpl in H |- *. destruct st as [nodes [|e rest]]; [done |].
  destruct (oldDist !! _) as [oldNode|]; [simpl in H |- * | done].
  destruct (newDist !! _) as [newNode|]; [simpl in H |- * | done].
  destruct (for4 _ _) as [st'|]; [simpl in H |- * | done].
  apply IH; [done | lia].
Qed.

Lemma validUm_grow oldDist newDist nodes nodes' e :
  (length nodes <= length nodes')%nat ->
  validUm oldDist newDist nodes e -> validUm oldDist newDist nodes' e.
Proof. unfold validUm. intros ? (? & ? & ?). repeat split; try done. lia. Qed.

(** One slot returns, and pushes at most one entry, further down in
    [newDist]. *)
Lemma unmajorizedSlot_progress oldDist newDist e oldNode newNode i nodes stk :
  wfNodes oldDist -> wfNodes newDist ->
  validUm oldDist newDist nodes e ->
  oldDist !! um_oldNodeIndex e = Some oldNode ->
  newDist !! um_newNodeIndex e = Some newNode ->
  exists st',
    unmajorizedSlot e oldNode newNode (total oldNode) (total newNode) i (nodes, stk)
    = Some st' /\
    (length nodes <= length st'.1)%nat /\
    (st'.2 = stk \/
     exists e', st'.2 = e' :: stk /\ validUm oldDist newDist st'.1 e' /\
                (um_newNodeIndex e < um_newNodeIndex e')%nat).
Proof.
  intros Hwfo Hwfn (Hn & Ho & Hk) Hold Hnew.
  destruct (lookup_lt_is_Some_2 nodes (um_nodeIdx e)) as [cur Hcur]; [done |].
  destruct (unmajorizedSlot_cases e oldNode newNode i nodes stk cur Hcur)
    as [[Hl ->] | (Hln & Hlo & ->)]; eexists; (split; [done |]); simpl.
  - rewrite length_insert. split; [lia | by left].
  - rewrite length_app, length_insert. simpl. split; [lia |]. right.
    eexists. split; [done |].
    pose proof (nonleaf_child _ _ _ _ Hwfn Hnew Hln).
    pose proof (nonleaf_child _ _ _ _ Hwfo Hold Hlo).
    unfold validUm. simpl. rewrite length_app, length_insert. simpl. lia.
Qed.

(** The loop of [buildUnmajorizedAugmented] returns from any valid
    stack. *)
Lemma unmajorizedLoop_total oldDist newDist :
  wfNodes oldDist -> wfNodes newDist ->
  forall N nodes stack,
    (umWeight (length newDist) stack < N)%nat ->
    Forall (validUm oldDist newDist nodes) stack ->
    exists fuel nodes', unmajorizedLoop fuel oldDist newDist (nodes, stack) = Some nodes'.
Proof.
  intros Hwfo Hwfn. induction N as [|N IH]; intros nodes stack Hw Hv; [lia |].
  destruct stack as [|e rest].
  { by exists 1%nat, nodes. }
  apply Forall_cons in Hv as [Hve Hvr].
  pose proof Hve as (Hn & Ho & Hk).
  destruct (lookup_lt_is_Some_2 oldDist (um_oldNodeIndex e)) as [oldNode Hold]; [done |].
  destruct (lookup_lt_is_Some_2 newDist (um_newNodeIndex e)) as [newNode Hnew]; [done |].
  set (body := unmajorizedSlot e oldNode newNode (total oldNode) (total newNode)).
  destruct (for4_total body
    (fun j st => validUm oldDist newDist st.1 e /\
                 Forall (validUm oldDist newDist st.1) st.2 /\
                 (5 * umWeight (length newDist) st.2
                  <= 5 * umWeight (length newDist) rest
                     + Z.to_nat j * 5 ^ (length newDist - um_newNodeIndex e))%nat)
    (nodes, rest)) as (st' & Hfor & Hve' & Hv' & Hw').
  { simpl. split; [done |]. split; [done | lia]. }
  { intros i [nodes0 stk0] Hi (Hve0 & Hv0 & Hw0). simpl in *.
    destruct (unmajorizedSlot_progress oldDist newDist e oldNode newNode i nodes0 stk0)
      as (st1 & Eb & Hlen & Hstk); try done.
    exists st1. split; [done |].
    split; [by eapply validUm_grow |].
    replace (Z.to_nat (i + 1)) with (S (Z.to_nat i)) by lia.
    destruct Hstk as [-> | (e' & -> & Hve' & Hlt)].
    - split; [| lia]. eapply Forall_impl; [exact Hv0 |].
      intros x. by apply validUm_grow.
    - split.
      + apply Forall_cons. split; [done |]. eapply Forall_impl; [exact Hv0 |].
        intros x. by apply validUm_grow.
      + simpl.
        assert (5 * 5 ^ (length newDist - um_newNodeIndex e')
                <= 5 ^ (length newDist - um_newNodeIndex e))%nat.
        { rewrite <- Nat.pow_succ_r'. apply Nat.pow_le_mono_r; [lia |].
          destruct Hve' as (? & _). lia. }
        lia. }
  destruct st' as [nodes1 stk1]. simpl in *.
  destruct (IH nodes1 stk1) as (fuel & r & Hloop); [| done |].
  { assert (0 < 5 ^ (length newDist - um_newNodeIndex e))%nat
      by (apply Nat.neq_0_lt_0, Nat.pow_nonzero; lia). lia. }
  exists (S fuel), r. simpl. rewrite Hold, Hnew. simpl.
  fold body. rewrite Hfor. simpl. done.
Qed.

Lemma nonnegSums_setSum nodes k cur i v :
  nonnegSums nodes -> nodes !! k = Some cur -> (0 <= v)%Q ->
  nonnegSums (<[k := setSum cur i v]> nodes).
Proof.
  intros Hn Hk Hv m nd j Hm. destruct (decide (m = k)) as [-> | Hne].
  - rewrite list_lookup_insert_eq in Hm by (by eapply lookup_lt_Some).
    injection Hm as <-. destruct (decide (slot i = slot j)) as [Hs | Hs].
    + rewrite <- sum_slot, <- Hs, sum_slot, sum_setSum_eq. done.
    + rewrite sum_setSum_ne by done. by eapply Hn.
  - rewrite list_lookup_insert_ne in Hm by done. by eapply Hn.
Qed.

Lemma nonnegSums_link nodes k cur i c :
  nonnegSums nodes -> nodes !! k = Some cur ->
  nonnegSums (<[k := setChild cur i c]> nodes ++ [QuadTreeNode.empty]).
Proof.
  intros Hn Hk m nd j Hm.
  pose proof (lookup_lt_Some _ _ _ Hk) as Hlt.
  destruct (decide (m < length nodes)%nat) as [Hm_lt | Hm_ge].
  - rewrite lookup_app_l in Hm by (by rewrite length_insert).
    destruct (decide (m = k)) as [-> | Hne].
    + rewrite list_lookup_insert_eq in Hm by done. injection Hm as <-.
      rewrite sum_setChild. by eapply Hn.
    + rewrite list_lookup_insert_ne in Hm by done. by eapply Hn.
  - rewrite lookup_app_r in Hm by (rewrite length_insert; lia).
    rewrite length_insert in Hm.
    destruct (m - length nodes)%nat; simpl in Hm; [| done].
    injection Hm as <-. unfold sum, QuadTreeNode.empty, get4. simpl.
    repeat case_match; discriminate.
Qed.

(** One slot keeps the invariant as long as the child index fits into
    16 bits. *)
Lemma unmajorizedSlot_inv oldDist newDist e oldNode newNode i st st' :
  wfNodes oldDist -> wfNodes newDist ->
  oldDist !! um_oldNodeIndex e = Some oldNode ->
  newDist !! um_newNodeIndex e = Some newNode ->
  umInv oldDist newDist st -> (um_nodeIdx e < length st.1)%nat ->
  unmajorizedSlot e oldNode newNode (total oldNode) (total newNode) i st = Some st' ->
  Z.of_nat (length st'.1) <= 65536 ->
  umInv oldDist newDist st'.
Proof.
  intros Hwfo Hwfn Hold Hnew (Hwf & Hnn & Hv) Hk Hslot Hlen.
  destruct st as [nodes stk]. simpl in Hwf, Hnn, Hv, Hk.
  destruct (lookup_lt_is_Some_2 nodes (um_nodeIdx e) Hk) as [cur Hcur].
  destruct (unmajorizedSlot_cases e oldNode newNode i nodes stk cur Hcur)
    as [[Hl E] | (Hln & Hlo & E)]; rewrite E in Hslot; injection Hslot as <-;
    unfold umInv; simpl in Hlen |- *.
  - split; [by apply ResetFacts.wfNodes_insert_setSum |]. split.
    + apply nonnegSums_setSum; [done | done | apply computeAugmentedPdf2_nonneg].
    + eapply Forall_impl; [exact Hv |]. intros x. apply validUm_grow.
      by rewrite length_insert.
  - rewrite length_app, length_insert in Hlen. simpl in Hlen.
    rewrite uint16_small by lia.
    split; [| split].
    + apply ResetFacts.wfNodes_link; [done | done |]. intros j.
      unfold child, QuadTreeNode.empty, get4. simpl. by repeat case_match.
    + by apply nonnegSums_link.
    + apply Forall_cons. split.
      * pose proof (nonleaf_child _ _ _ _ Hwfn Hnew Hln).
        pose proof (nonleaf_child _ _ _ _ Hwfo Hold Hlo).
        unfold validUm. simpl. rewrite length_app, length_insert. simpl. lia.
      * eapply Forall_impl; [exact Hv |]. intros x. apply validUm_grow.
        rewrite length_app, length_insert. lia.
Qed.

(** When the loop returns at most 65536 nodes, they are well formed and
    hold no negative sum. *)
Lemma unmajorizedLoop_inv oldDist newDist :
  wfNodes oldDist -> wfNodes newDist ->
  forall fuel st nodes',
    unmajorizedLoop fuel oldDist newDist st = Some nodes' ->
    Z.of_nat (length nodes') <= 65536 ->
    umInv oldDist newDist st ->
    wfNodes nodes' /\ nonnegSums nodes'.
Proof.
  intros Hwfo Hwfn.
  induction fuel as [|fuel IH]; intros [nodes stack] nodes' H Hlen Hinv; [done |].
  simpl in H. destruct stack as [|e rest].
  { simplify_eq. destruct Hinv as (Hwf & Hnn & _). done. }
  destruct (oldDist !! _) as [oldNode|] eqn:Hold; [simpl in H | done].
  destruct (newDist !! _) as [newNode|] eqn:Hnew; [simpl in H | done].
  destruct (for4 _ _) as [st1|] eqn:Hfor; [simpl in H | done].
  pose proof (unmajorizedLoop_length _ _ _ _ _ H) as Hlen1.
  destruct Hinv as (Hwf & Hnn & Hv). simpl in Hwf, Hnn, Hv.
  apply Forall_cons in Hv as [(_ & _ & Hk) Hrest].
  apply (IH st1 nodes' H Hlen).
  assert (umInv oldDist newDist st1 /\ (length nodes <= length st1.1)%nat) as [? _];
    [| done].
  refine (for4_inv_bounded _ (fun x => length x.1) (length st1.1)
            (fun _ x => umInv oldDist newDist x /\ (length nodes <= length x.1)%nat)
            _ _ _ _ _ Hfor _); [| | | done].
  - split; [| simpl; lia]. split; [done |]. split; done.
  - intros i x y Hb. by apply unmajorizedSlot_length in Hb.
  - intros i x y Hi [Hx Hlx] Hb Hly. split.
    + eapply (unmajorizedSlot_inv oldDist newDist e oldNode newNode i x y); try done; lia.
    + apply unmajorizedSlot_length in Hb. lia.
Qed.


Lemma potential_S fuel nodes k :
  potential (S fuel) nodes k =
  match nodes !! k with
  | None => 0%Q
  | Some nd =>
    (((if isLeaf nd 0 then sum nd 0 else potential fuel nodes (child nd 0))
      + (if isLeaf nd 1 then sum nd 1 else potential fuel nodes (child nd 1))
      + (if isLeaf nd 2 then sum nd 2 else potential fuel nodes (child nd 2))
      + (if isLeaf nd 3 then sum nd 3 else potential fuel nodes (child nd 3))) / 4)%Q
  end.
Proof. reflexivity. Qed.

(** Enough fuel: the potential no longer depends on it. *)
Lemma potential_stable nodes :
  wfNodes nodes ->
  forall fuel k, (length nodes <= k + fuel)%nat ->
    (potential (S fuel) nodes k == potential fuel nodes k)%Q.
Proof.
  intros Hwf. induction fuel as [|fuel IH]; intros k Hk.
  - rewrite potential_S, lookup_ge_None_2 by lia. reflexivity.
  - rewrite (potential_S (S fuel) nodes k), (potential_S fuel nodes k).
    destruct (nodes !! k) as [nd|] eqn:Hnd; [| reflexivity].
    assert (forall i,
              ((if isLeaf nd i then sum nd i else potential (S fuel) nodes (child nd i))
               == (if isLeaf nd i then sum nd i else potential fuel nodes (child nd i)))%Q)
      as Hs.
    { intros i. destruct (isLeaf nd i) eqn:El; [reflexivity |].
      apply IH. pose proof (nonleaf_child _ _ _ _ Hwf Hnd El). lia. }
    rewrite (Hs 0), (Hs 1), (Hs 2), (Hs 3). reflexivity.
Qed.

(** The potential is balanced: [computeIntegral] returns its value at
    the root. *)
Lemma potential_balanced nodes :
  wfNodes nodes -> balanced (potential (length nodes) nodes) nodes.
Proof.
  intros Hwf k nd Hk. pose proof (lookup_lt_Some _ _ _ Hk) as Hlt.
  destruct (length nodes) as [|L] eqn:HL; [lia |].
  rewrite (potential_S L nodes k), Hk.
  unfold nodeVal, prefix4, slotVal. simpl.
  assert (forall i,
            ((if isLeaf nd i then sum nd i else potential (S L) nodes (child nd i))
             == (if isLeaf nd i then sum nd i else potential L nodes (child nd i)))%Q)
    as Hs.
  { intros i. destruct (isLeaf nd i) eqn:El; [reflexivity |].
    apply potential_stable; [done |].
    pose proof (nonleaf_child _ _ _ _ Hwf Hk El). lia. }
  rewrite (Hs 0), (Hs 1), (Hs 2), (Hs 3). reflexivity.
Qed.

Lemma potential_nonneg nodes :
  leafNonneg nodes -> forall fuel k, (0 <= potential fuel nodes k)%Q.
Proof.
  intros Hn. induction fuel as [|fuel IH]; intros k; [simpl; lra |].
  rewrite potential_S. destruct (nodes !! k) as [nd|] eqn:Hnd; [| lra].
  assert (forall i,
            (0 <= (if isLeaf nd i then sum nd i else potential fuel nodes (child nd i)))%Q)
    as Hs.
  { intros i. destruct (isLeaf nd i) eqn:El; [by eapply Hn | apply IH]. }
  pose proof (Hs 0) as H0. pose proof (Hs 1) as H1.
  pose proof (Hs 2) as H2. pose proof (Hs 3) as H3.
  set (a0 := if isLeaf nd 0 then _ else _) in *.
  set (a1 := if isLeaf nd 1 then _ else _) in *.
  set (a2 := if isLeaf nd 2 then _ else _) in *.
  set (a3 := if isLeaf nd 3 then _ else _) in *.
  apply Qle_shift_div_l; lra.
Qed.

(** [build] keeps the sums of the leaf slots, hence their sign. *)
Lemma leafNonneg_build fuel nodes nodes' :
  QuadTreeNode.build fuel 0 nodes = Some nodes' -> nonnegSums nodes -> leafNonneg nodes'.
Proof.
  intros Hb Hn m nd' i Hm Hl.
  pose proof (build_shape _ _ _ _ Hb) as Hsh.
  pose proof (BoxEnergy.fmap_children_length _ _ Hsh) as Hlen.
  destruct (lookup_lt_is_Some_2 nodes m) as [nd Hnd].
  { rewrite <- Hlen. by eapply lookup_lt_Some. }
  destruct (build_sameLeaves _ _ _ _ Hb m nd Hnd) as (nd2 & Hm2 & Hc & Hs).
  rewrite Hm in Hm2. injection Hm2 as <-.
  assert (isLeaf nd i = true) as Hl'.
  { unfold isLeaf, child in *. by rewrite <- Hc. }
  rewrite (Hs i Hl'). by eapply Hn.
Qed.

(** In a built vector without negative leaf sums no sum below a built
    node is negative. *)
Lemma built_nonneg nodes :
  wfNodes nodes -> leafNonneg nodes ->
  forall fuel n nd, (length nodes <= n + fuel)%nat -> built nodes n ->
    nodes !! n = Some nd -> forall i, (0 <= sum nd i)%Q.
Proof.
  intros Hwf Hn. induction fuel as [|fuel IH]; intros n nd Hfuel Hb Hnd i.
  { apply lookup_lt_Some in Hnd. lia. }
  destruct (isLeaf nd i) eqn:El; [by eapply Hn |].
  inversion Hb as [n' nd' Hn' Hbc Hbs]; subst. rewrite Hnd in Hn'. injection Hn' as <-.
  destruct (nonleaf_child _ _ _ _ Hwf Hnd El) as [Hlt Hlen].
  destruct (lookup_lt_is_Some_2 nodes _ Hlen) as [c Hc].
  rewrite (Hbs i c El Hc). unfold sumOfSums.
  assert (forall j, (0 <= sum c j)%Q) as Hcs.
  { apply (IH (child nd i) c); [lia | by apply Hbc | done]. }
  pose proof (Hcs 0). pose proof (Hcs 1). pose proof (Hcs 2). pose proof (Hcs 3). lra.
Qed.

Lemma integralLoop_mono fuel : forall nodes st r fuel',
  integralLoop fuel nodes st = Some r -> (fuel <= fuel')%nat ->
  integralLoop fuel' nodes st = Some r.
Proof.
  induction fuel as [|fuel IH]; intros nodes st r fuel' H Hle; [done |].
  destruct fuel' as [|fuel']; [lia |].
  simpl in H |- *. destruct st as [integral [|e rest]]; [done |].
  destruct (nodes !! e.2) as [nd|]; [simpl in H |- * | done].
  destruct (for4 _ _) as [st'|]; [simpl in H |- * | done].
  apply IH; [done | lia].
Qed.

(** *** A distribution against itself *)

Lemma computeAugmentedPdf2_self p : (computeAugmentedPdf2 p p == 0)%Q.
Proof.
  unfold computeAugmentedPdf2, std_max. destruct (Qltb (p - p) 0); [reflexivity | ring].
Qed.

Lemma zeroSums_setSum nodes k cur i v :
  zeroSums nodes -> nodes !! k = Some cur -> (v == 0)%Q ->
  zeroSums (<[k := setSum cur i v]> nodes).
Proof.
  intros Hn Hk Hv m nd j Hm. destruct (decide (m = k)) as [-> | Hne].
  - rewrite list_lookup_insert_eq in Hm by (by eapply lookup_lt_Some).
    injection Hm as <-. destruct (decide (slot i = slot j)) as [Hs | Hs].
    + rewrite <- sum_slot, <- Hs, sum_slot, sum_setSum_eq. done.
    + rewrite sum_setSum_ne by done. by eapply Hn.
  - rewrite list_lookup_insert_ne in Hm by done. by eapply Hn.
Qed.

Lemma zeroSums_link nodes k cur i c :
  zeroSums nodes -> nodes !! k = Some cur ->
  zeroSums (<[k := setChild cur i c]> nodes ++ [QuadTreeNode.empty]).
Proof.
  intros Hn Hk m nd j Hm.
  pose proof (lookup_lt_Some _ _ _ Hk) as Hlt.
  destruct (decide (m < length nodes)%nat) as [Hm_lt | Hm_ge].
  - rewrite lookup_app_l in Hm by (by rewrite length_insert).
    destruct (decide (m = k)) as [-> | Hne].
    + rewrite list_lookup_insert_eq in Hm by done. injection Hm as <-.
      rewrite sum_setChild. by eapply Hn.
    + rewrite list_lookup_insert_ne in Hm by done. by eapply Hn.
  - rewrite lookup_app_r in Hm by (rewrite length_insert; lia).
    rewrite length_insert in Hm.
    destruct (m - length nodes)%nat; simpl in Hm; [| done].
    injection Hm as <-. unfold sum, QuadTreeNode.empty, get4. simpl.
    repeat case_match; reflexivity.
Qed.

Lemma unmajorizedSlot_self e node i st st' :
  symmetricUm e -> zeroSums st.1 -> Forall symmetricUm st.2 ->
  unmajorizedSlot e node node (total node) (total node) i st = Some st' ->
  zeroSums st'.1 /\ Forall symmetricUm st'.2.
Proof.
  intros [Hi Hf] Hz Hs Hslot. destruct st as [nodes stk]. simpl in Hz, Hs.
  destruct (nodes !! um_nodeIdx e) as [cur|] eqn:Hcur;
    [| unfold unmajorizedSlot in Hslot; by rewrite Hcur in Hslot].
  destruct (unmajorizedSlot_cases e node node i nodes stk cur Hcur)
    as [[Hl E] | (Hln & Hlo & E)]; rewrite E in Hslot; injection Hslot as <-; simpl.
  - split; [| done]. apply zeroSums_setSum; [done | done |].
    rewrite Hf. apply computeAugmentedPdf2_self.
  - split; [by apply zeroSums_link |].
    apply Forall_cons. split; [| done]. split; simpl; [done | by rewrite Hf].
Qed.

(** The walk of a vector against itself leaves every sum 0. *)
Lemma unmajorizedLoop_self dist :
  forall fuel st nodes',
    unmajorizedLoop fuel dist dist st = Some nodes' ->
    zeroSums st.1 -> Forall symmetricUm st.2 -> zeroSums nodes'.
Proof.
  induction fuel as [|fuel IH]; intros [nodes stack] nodes' H Hz Hs; [done |].
  simpl in H. destruct stack as [|e rest]; [by simplify_eq |].
  simpl in Hz, Hs. apply Forall_cons in Hs as [He Hrest].
  pose proof He as [Hi Hf]. rewrite Hi in H.
  destruct (dist !! um_oldNodeIndex e) as [node|] eqn:Hnode; [simpl in H | done].
  destruct (for4 _ _) as [st1|] eqn:Hfor; [simpl in H | done].
  assert (zeroSums st1.1 /\ Forall symmetricUm st1.2) as [Hz1 Hs1].
  { refine (for4_inv _ (fun _ x => zeroSums x.1 /\ Forall symmetricUm x.2) _ _ _ _ Hfor);
      [done |].
    intros i x y _ [Hx1 Hx2] Hb. by eapply unmajorizedSlot_self. }
  by apply (IH st1 nodes' H).
Qed.

Lemma leafZero_build fuel nodes nodes' :
  QuadTreeNode.build fuel 0 nodes = Some nodes' -> zeroSums nodes -> leafZero nodes'.
Proof.
  intros Hb Hn m nd' i Hm Hl.
  pose proof (build_shape _ _ _ _ Hb) as Hsh.
  pose proof (BoxEnergy.fmap_children_length _ _ Hsh) as Hlen.
  destruct (lookup_lt_is_Some_2 nodes m) as [nd Hnd].
  { rewrite <- Hlen. by eapply lookup_lt_Some. }
  destruct (build_sameLeaves _ _ _ _ Hb m nd Hnd) as (nd2 & Hm2 & Hc & Hs).
  rewrite Hm in Hm2. injection Hm2 as <-.
  assert (isLeaf nd i = true) as Hl'.
  { unfold isLeaf, child in *. by rewrite <- Hc. }
  rewrite (Hs i Hl'). by eapply Hn.
Qed.

Lemma potential_zero nodes :
  leafZero nodes -> forall fuel k, (potential fuel nodes k == 0)%Q.
Proof.
  intros Hn. induction fuel as [|fuel IH]; intros k; [reflexivity |].
  rewrite potential_S. destruct (nodes !! k) as [nd|] eqn:Hnd; [| reflexivity].
  assert (forall i,
            ((if isLeaf nd i then sum nd i else potential fuel nodes (child nd i)) == 0)%Q)
    as Hs.
  { intros i. destruct (isLeaf nd i) eqn:El; [by eapply Hn | apply IH]. }
  rewrite (Hs 0), (Hs 1), (Hs 2), (Hs 3). reflexivity.
Qed.

Lemma built_zero nodes :
  wfNodes nodes -> leafZero nodes ->
  forall fuel n nd, (length nodes <= n + fuel)%nat -> built nodes n ->
    nodes !! n = Some nd -> forall i, (sum nd i == 0)%Q.
Proof.
  intros Hwf Hn. induction fuel as [|fuel IH]; intros n nd Hfuel Hb Hnd i.
  { apply lookup_lt_Some in Hnd. lia. }
  destruct (isLeaf nd i) eqn:El; [by eapply Hn |].
  inversion Hb as [n' nd' Hn' Hbc Hbs]; subst. rewrite Hnd in Hn'. injection Hn' as <-.
  destruct (nonleaf_child _ _ _ _ Hwf Hnd El) as [Hlt Hlen].
  destruct (lookup_lt_is_Some_2 nodes _ Hlen) as [c Hc].
  rewrite (Hbs i c El Hc). unfold sumOfSums.
  assert (forall j, (sum c j == 0)%Q) as Hcs.
  { apply (IH (child nd i) c); [lia | by apply Hbc | done]. }
  rewrite (Hcs 0), (Hcs 1), (Hcs 2), (Hcs 3). reflexivity.
Qed.

End UnmajFacts.

(** X12.  On well-formed trees the walk of [buildUnmajorizedAugmented]
    returns.  When it has made at most 65536 nodes, so that the 16-bit
    child indices do not wrap, [buildUnmajorizedAugmented] returns a
    well-formed, built tree with the child links that the walk made, the
    statistical weight of the new tree and the [m_maxDepth] that [this] had
    before; no leaf sum and not the atomic sum is negative, and the integral
    it returns is the mean density of the tree, which is not negative.  For
    a tree against itself every leaf sum, the atomic sum and the integral
    are 0. *)
Theorem buildUnmajorizedAugmented_residual (this oldDist newDist : DTree) :
  WF.wfDTree oldDist -> WF.wfDTree newDist ->
  exists fuel nodes,
    DTree.unmajorizedLoop fuel (m_nodes oldDist) (m_nodes newDist)
      ([QuadTreeNode.empty], [DTree.mkUnmajPair 0 0 1%Q 1%Q 0]) = Some nodes /\
    (Z.of_nat (length nodes) <= 65536 ->
     exists integral aug,
       DTree.buildUnmajorizedAugmented fuel this oldDist newDist = Some (integral, aug) /\
       WF.wfDTree aug /\ Built.built (m_nodes aug) 0 /\
       m_children <$> m_nodes aug = m_children <$> nodes /\
       UnmajWalk.leafNonneg (m_nodes aug) /\
       (0 <= atomic_sum aug)%Q /\
       atomic_statisticalWeight aug = atomic_statisticalWeight newDist /\
       m_maxDepth aug = m_maxDepth this /\
       (integral == UnmajWalk.potential (length (m_nodes aug)) (m_nodes aug) 0)%Q /\
       (0 <= integral)%Q /\
       (m_nodes oldDist = m_nodes newDist ->
        (integral == 0)%Q /\ (atomic_sum aug == 0)%Q /\ UnmajWalk.leafZero (m_nodes aug))).
Proof.
  intros [Hleno Hwfo] [Hlenn Hwfn].
  set (st0 := ([QuadTreeNode.empty], [DTree.mkUnmajPair 0 0 1%Q 1%Q 0])
              : DTree.UnmajState).
  assert (UnmajWalk.umInv (m_nodes oldDist) (m_nodes newDist) st0) as Hinv0.
  { split; [| split]; simpl.
    - intros n nd i Hn. destruct n; simpl in Hn; [| done]. injection Hn as <-. left.
      unfold QuadTreeNode.child, QuadTreeNode.empty, get4. simpl. by repeat case_match.
    - intros n nd i Hn. destruct n; simpl in Hn; [| done]. injection Hn as <-.
      unfold QuadTreeNode.sum, QuadTreeNode.empty, get4. simpl.
      repeat case_match; discriminate.
    - constructor; [| constructor]. unfold UnmajWalk.validUm. simpl. lia. }
  destruct (UnmajFacts.unmajorizedLoop_total (m_nodes oldDist) (m_nodes newDist) Hwfo Hwfn
              _ [QuadTreeNode.empty] [DTree.mkUnmajPair 0 0 1%Q 1%Q 0]
              (Nat.lt_succ_diag_r _) (proj2 (proj2 Hinv0))) as (f1 & nodes & E1).
  pose proof (UnmajFacts.unmajorizedLoop_length _ _ _ _ _ E1) as Hlen1. simpl in Hlen1.
  destruct (Z_le_gt_dec (Z.of_nat (length nodes)) 65536) as [Hle | Hgt].
  2:{ exists f1, nodes. split; [exact E1 |]. intros H. lia. }
  destruct (UnmajFacts.unmajorizedLoop_inv (m_nodes oldDist) (m_nodes newDist) Hwfo Hwfn
              f1 st0 nodes E1 Hle Hinv0) as [Hwf Hnn].
  destruct (BuildFacts.build_total (length nodes) 0 nodes Hwf) as [nodes2 E2]; [lia | lia |].
  pose proof (BuildFacts.build_shape _ _ _ _ E2) as Hsh.
  pose proof (BoxEnergy.fmap_children_length _ _ Hsh) as Hlen2.
  pose proof (WFFacts.wfNodes_shape _ _ Hsh Hwf) as Hwf2.
  pose proof (BuildFacts.build_establish _ _ _ _ Hwf E2) as Hb2.
  pose proof (UnmajFacts.leafNonneg_build _ _ _ E2 Hnn) as Hn2.
  destruct (lookup_lt_is_Some_2 nodes2 0) as [root Hroot]; [lia |].
  pose proof (UnmajFacts.built_nonneg nodes2 Hwf2 Hn2 (length nodes2) 0 root
                ltac:(lia) Hb2 Hroot) as Hrs.
  set (aug := mkDTree nodes2 (QuadTreeNode.sumOfSums root)
                      (atomic_statisticalWeight newDist) (m_maxDepth this)).
  assert (WF.wfDTree aug) as Hwfa by (split; simpl; [lia | done]).
  destruct (IntegralFacts.computeIntegral_balanced
              (UnmajWalk.potential (length nodes2) nodes2) aug Hwfa
              (UnmajFacts.potential_balanced nodes2 Hwf2)) as (f3 & r & E3 & Hr).
  set (fuel := Nat.max f1 (Nat.max (length nodes) f3)).
  exists fuel, nodes. split.
  { eapply UnmajFacts.unmajorizedLoop_mono; [exact E1 | unfold fuel; lia]. }
  intros _. exists r, aug.
  assert (DTree.unmajorizedLoop fuel (m_nodes oldDist) (m_nodes newDist) st0 = Some nodes)
    as E1' by (eapply UnmajFacts.unmajorizedLoop_mono; [exact E1 | unfold fuel; lia]).
  assert (QuadTreeNode.build fuel 0 nodes = Some nodes2) as E2'
    by (eapply FloorFacts.build_mono; [exact E2 | unfold fuel; lia]).
  assert (DTree.computeIntegral fuel aug = Some r) as E3'
    by (eapply UnmajFacts.integralLoop_mono; [exact E3 | unfold fuel; lia]).
  split.
  { unfold DTree.buildUnmajorizedAugmented. fold st0. rewrite E1'. cbn [mbind option_bind].
    unfold DTree.build. cbn [m_nodes atomic_sum atomic_statisticalWeight m_maxDepth].
    rewrite E2'. cbn [mbind option_bind]. rewrite Hroot. cbn [mbind option_bind].
    cbn [m_nodes atomic_sum atomic_statisticalWeight m_maxDepth].
    fold aug. rewrite E3'. done. }
  split; [exact Hwfa |]. split; [exact Hb2 |]. split; [exact Hsh |].
  split; [exact Hn2 |]. split.
  { simpl. unfold QuadTreeNode.sumOfSums.
    pose proof (Hrs 0). pose proof (Hrs 1). pose proof (Hrs 2). pose proof (Hrs 3). lra. }
  split; [done |]. split; [done |]. split; [exact Hr |].
  split; [rewrite Hr; apply UnmajFacts.potential_nonneg; exact Hn2 |].
  intros Heq.
  assert (UnmajWalk.zeroSums nodes) as Hz.
  { rewrite Heq in E1. eapply (UnmajFacts.unmajorizedLoop_self _ _ st0 nodes E1).
    - intros n nd i Hn. destruct n; simpl in Hn; [| done]. injection Hn as <-.
      unfold QuadTreeNode.sum, QuadTreeNode.empty, get4. simpl.
      repeat case_match; reflexivity.
    - constructor; [| constructor]. split; done. }
  pose proof (UnmajFacts.leafZero_build _ _ _ E2 Hz) as Hz2.
  split; [rewrite Hr; by apply UnmajFacts.potential_zero |]. split; [| exact Hz2].
  pose proof (UnmajFacts.built_zero nodes2 Hwf2 Hz2 (length nodes2) 0 root
                ltac:(lia) Hb2 Hroot) as Hrz.
  simpl. unfold QuadTreeNode.sumOfSums.
  rewrite (Hrz 0), (Hrz 1), (Hrz 2), (Hrz 3). reflexivity.
Qed.

Lemma buildUnmajorizedAugmented_residual_witness :
  WF.wfDTree Examples.uniform /\ WF.wfDTree Examples.peaked /\
  exists fuel nodes,
    DTree.unmajorizedLoop fuel (m_nodes Examples.uniform) (m_nodes Examples.peaked)
      ([QuadTreeNode.empty], [DTree.mkUnmajPair 0 0 1%Q 1%Q 0]) = Some nodes /\
    (Z.of_nat (length nodes) <= 65536 ->
     exists integral aug,
       DTree.buildUnmajorizedAugmented fuel Examples.unbuilt Examples.uniform Examples.peaked
         = Some (integral, aug) /\
       WF.wfDTree aug /\ Built.built (m_nodes aug) 0 /\
       m_children <$> m_nodes aug = m_children <$> nodes /\
       UnmajWalk.leafNonneg (m_nodes aug) /\
       (0 <= atomic_sum aug)%Q /\
       atomic_statisticalWeight aug = atomic_statisticalWeight Examples.peaked /\
       m_maxDepth aug = m_maxDepth Examples.unbuilt /\
       (integral == UnmajWalk.potential (length (m_nodes aug)) (m_nodes aug) 0)%Q /\
       (0 <= integral)%Q /\
       (m_nodes Examples.uniform = m_nodes Examples.peaked ->
        (integral == 0)%Q /\ (atomic_sum aug == 0)%Q /\ UnmajWalk.leafZero (m_nodes aug))).
Proof.
  assert (H1 : WF.wfDTree Examples.uniform) by (apply WFFacts.wfDTreeb_sound; reflexivity).
  assert (H2 : WF.wfDTree Examples.peaked) by (apply WFFacts.wfDTreeb_sound; reflexivity).
  split; [exact H1 |]. split; [exact H2 |].
  apply (buildUnmajorizedAugmented_residual Examples.unbuilt Examples.uniform Examples.peaked
           H1 H2).
Defined.

(** * Multipliers, weights and the optimizer *)

Module SmallFacts.

Lemma std_min_le_r (a b : Q) : (std_min a b <= b)%Q.
Proof.
  unfold std_min. destruct (Qltb b a) eqn:E; [apply Qle_refl |]. by apply Qltb_ge.
Qed.

Lemma std_min_le_l (a b : Q) : (std_min a b <= a)%Q.
Proof.
  unfold std_min. destruct (Qltb b a) eqn:E; [| apply Qle_refl].
  apply Qlt_le_weak. by apply Qltb_lt.
Qed.

Lemma std_min_glb (a b c : Q) : (c <= a)%Q -> (c <= b)%Q -> (c <= std_min a b)%Q.
Proof. intros Ha Hb. unfold std_min. by destruct (Qltb b a). Qed.

Lemma inject_Z_pos (r : Z) : 0 < r -> (0 < inject_Z r)%Q.
Proof. intros H. unfold Qlt. simpl. lia. Qed.

Lemma inject_Z_nonneg (r : Z) : 0 <= r -> (0 <= inject_Z r)%Q.
Proof. intros H. unfold Qle. simpl. lia. Qed.

Lemma inject_Z_div_lt (c r : Z) :
  0 <= c < r -> (0 <= inject_Z c / inject_Z r)%Q /\ (inject_Z c / inject_Z r < 1)%Q.
Proof.
  intros [Hc Hr].
  assert (0 < inject_Z r)%Q as Hr0 by (apply inject_Z_pos; lia).
  split.
  - apply Qle_shift_div_l; [done |]. rewrite Qmult_0_l. by apply inject_Z_nonneg.
  - apply Qlt_shift_div_r; [done |]. rewrite Qmult_1_l. by rewrite <- Zlt_Qlt.
Qed.

End SmallFacts.

(** X13.  With a sample count that is not negative,
    [getAugmentedMultiplier()] lies between 0 and 1; it is 1 once
    [current_samples] has reached [req_augmented_samples] and below 1
    before, and [incSampleCount()] never lowers it. *)
Theorem getAugmentedMultiplier_range (w : DTreeWrapper) :
  0 <= current_samples w ->
  (0 <= DTreeWrapper.getAugmentedMultiplier w <= 1)%Q /\
  (req_augmented_samples w <= current_samples w ->
   DTreeWrapper.getAugmentedMultiplier w = 1%Q) /\
  (current_samples w < req_augmented_samples w ->
   (DTreeWrapper.getAugmentedMultiplier w < 1)%Q) /\
  (DTreeWrapper.getAugmentedMultiplier w
   <= DTreeWrapper.getAugmentedMultiplier (DTreeWrapper.incSampleCount w))%Q.
Proof.
  intros Hc. unfold DTreeWrapper.getAugmentedMultiplier, DTreeWrapper.incSampleCount.
  cbn [current_samples req_augmented_samples].
  destruct (Z.ltb_spec (current_samples w) (req_augmented_samples w)) as [Hlt | Hge].
  - destruct (SmallFacts.inject_Z_div_lt _ _ (conj Hc Hlt)) as [H0 H1].
    split; [split; [done | lra] |]. split; [lia |]. split; [done |].
    destruct (Z.ltb_spec (current_samples w + 1) (req_augmented_samples w)) as [Hlt' | Hge'];
      [| lra].
    assert (0 < inject_Z (req_augmented_samples w))%Q as Hr0
      by (apply SmallFacts.inject_Z_pos; lia).
    apply Qmult_le_r with (z := inject_Z (req_augmented_samples w)); [done |].
    unfold Qdiv. rewrite <- !Qmult_assoc, (Qmult_comm (/ _)), !Qmult_inv_r by lra.
    rewrite !Qmult_1_r, <- Zle_Qle. lia.
  - split; [split; [done | apply Qle_refl] |]. split; [done |]. split; [lia |].
    destruct (Z.ltb_spec (current_samples w + 1) (req_augmented_samples w)); [lia |].
    apply Qle_refl.
Qed.

Lemma getAugmentedMultiplier_range_witness :
  let w := Examples.halfB in
  0 <= current_samples w /\
  (0 <= DTreeWrapper.getAugmentedMultiplier w <= 1)%Q /\
  (req_augmented_samples w <= current_samples w ->
   DTreeWrapper.getAugmentedMultiplier w = 1%Q) /\
  (current_samples w < req_augmented_samples w ->
   (DTreeWrapper.getAugmentedMultiplier w < 1)%Q) /\
  (DTreeWrapper.getAugmentedMultiplier w
   <= DTreeWrapper.getAugmentedMultiplier (DTreeWrapper.incSampleCount w))%Q.
Proof.
  assert (H : 0 <= current_samples Examples.halfB) by (simpl; lia).
  split; [exact H |].
  apply (getAugmentedMultiplier_range Examples.halfB H).
Defined.

(** X14.  When the two pdfs are not both 0, the weights
    [miWeight(pdfA, pdfB)] and [miWeight(pdfB, pdfA)] add up to 1 and each
    lies between 0 and 1. *)
Theorem miWeight_partition (pdfA pdfB : Float) :
  ~ (pdfA == 0)%Q \/ ~ (pdfB == 0)%Q ->
  (Replay.miWeight pdfA pdfB + Replay.miWeight pdfB pdfA == 1)%Q /\
  (0 <= Replay.miWeight pdfA pdfB <= 1)%Q.
Proof.
  intros Hne. unfold Replay.miWeight.
  assert (0 <= pdfA * pdfA)%Q as Ha by nra.
  assert (0 <= pdfB * pdfB)%Q as Hb by nra.
  assert (0 < pdfA * pdfA + pdfB * pdfB)%Q as Hpos.
  { destruct Hne as [H | H].
    - assert (0 < pdfA * pdfA)%Q; [| lra].
      destruct (Qlt_le_dec 0 pdfA); [nra |]. destruct (Qlt_le_dec pdfA 0); [nra |].
      exfalso. apply H. lra.
    - assert (0 < pdfB * pdfB)%Q; [| lra].
      destruct (Qlt_le_dec 0 pdfB); [nra |]. destruct (Qlt_le_dec pdfB 0); [nra |].
      exfalso. apply H. lra. }
  split; [field; lra |]. split.
  - apply Qle_shift_div_l; [done | lra].
  - apply Qle_shift_div_r; [done | lra].
Qed.

Lemma miWeight_partition_witness :
  (~ (1 == 0)%Q \/ ~ (2 == 0)%Q) /\
  (Replay.miWeight 1 2 + Replay.miWeight 2 1 == 1)%Q /\
  (0 <= Replay.miWeight 1 2 <= 1)%Q.
Proof.
  assert (H : ~ (1 == 0)%Q \/ ~ (2 == 0)%Q) by (left; discriminate).
  split; [exact H |].
  apply (miWeight_partition 1 2 H).
Defined.

(** X15.  [append] keeps the variable of the optimizer within
    [[-20, 20]] and the accumulated weight at most the batch size: when the
    accumulated weight exceeds the batch size it takes one [step], which
    counts one iteration, and clears the batch; otherwise it only adds the
    weight and the weighted gradient to the batch. *)
Theorem adam_append_keeps_bounds (sqrt : Float -> Float) (a : AdamOptimizer)
    (gradient statisticalWeight : Float) :
  0 <= batchSize a ->
  (-20 <= variable a <= 20)%Q ->
  let a' := AdamOptimizer.append sqrt a gradient statisticalWeight in
  (-20 <= variable a' <= 20)%Q /\
  (batchAccumulation a' <= inject_Z (batchSize a'))%Q /\
  batchSize a' = batchSize a /\
  ((inject_Z (batchSize a) < batchAccumulation a + statisticalWeight)%Q ->
   adam_iter a' = adam_iter a + 1 /\ batchAccumulation a' = 0%Q /\ batchGradient a' = 0%Q) /\
  ((batchAccumulation a + statisticalWeight <= inject_Z (batchSize a))%Q ->
   a' = AdamOptimizer.setBatch a (batchAccumulation a + statisticalWeight)%Q
          (batchGradient a + gradient * statisticalWeight)%Q).
Proof.
  intros Hb Hv. unfold AdamOptimizer.append. cbv zeta.
  cbn [AdamOptimizer.setBatch batchSize batchAccumulation batchGradient].
  destruct (Qltb (inject_Z (batchSize a)) (batchAccumulation a + statisticalWeight)) eqn:E.
  - apply Qltb_lt in E. cbn [AdamOptimizer.step AdamOptimizer.setBatch variable batchSize
                               batchAccumulation batchGradient adam_iter].
    split.
    { split.
      - apply SmallFacts.std_min_glb; [| lra]. apply std_max_ge_r.
      - apply SmallFacts.std_min_le_r. }
    split; [by apply SmallFacts.inject_Z_nonneg |]. split; [done |]. split; [done |].
    intros Hle. lra.
  - apply Qltb_ge in E. cbn [variable batchSize batchAccumulation batchGradient adam_iter].
    split; [done |]. split; [done |]. split; [done |]. split; [| done].
    intros Hlt. lra.
Qed.

Lemma adam_append_keeps_bounds_witness :
  let a := DTreeWrapper.defaultOptimizer in
  let a' := AdamOptimizer.append (fun x => x) a 1 1 in
  0 <= batchSize a /\ (-20 <= variable a <= 20)%Q /\
  (-20 <= variable a' <= 20)%Q /\
  (batchAccumulation a' <= inject_Z (batchSize a'))%Q /\
  batchSize a' = batchSize a /\
  ((inject_Z (batchSize a) < batchAccumulation a + 1)%Q ->
   adam_iter a' = adam_iter a + 1 /\ batchAccumulation a' = 0%Q /\ batchGradient a' = 0%Q) /\
  ((batchAccumulation a + 1 <= inject_Z (batchSize a))%Q ->
   a' = AdamOptimizer.setBatch a (batchAccumulation a + 1)%Q (batchGradient a + 1 * 1)%Q).
Proof.
  assert (H1 : 0 <= batchSize DTreeWrapper.defaultOptimizer) by (simpl; lia).
  assert (H2 : (-20 <= variable DTreeWrapper.defaultOptimizer <= 20)%Q)
    by (split; discriminate).
  cbv zeta. split; [exact H1 |]. split; [exact H2 |].
  apply (adam_append_keeps_bounds (fun x => x) DTreeWrapper.defaultOptimizer 1 1 H1 H2).
Defined.

(** * The spatial tree *)

Module HeapFacts.
Import STreeNode STree Reach STreeFacts Heap.

Lemma subdivideAll_snoc (nodes : list STreeNode) (k : nat) :
  foldl (fun acc i =>
           nodes ← acc;
           n ← nodes !! i;
           if isLeaf n then subdivide i nodes else Some nodes)
        (Some nodes) (seq 0 (S k))
  = (x ← foldl (fun acc i =>
                  nodes ← acc;
                  n ← nodes !! i;
                  if isLeaf n then subdivide i nodes else Some nodes)
               (Some nodes) (seq 0 k);
     n ← x !! k;
     if isLeaf n then subdivide k x else Some x).
Proof. rewrite seq_S, foldl_app. reflexivity. Qed.

Lemma pow2_pos (L : nat) : (1 <= 2 ^ L)%nat.
Proof. pose proof (Nat.pow_nonzero 2 L). lia. Qed.

Lemma complete_round (L : nat) (nodes : list STreeNode) :
  complete L nodes -> (S L <= 31)%nat ->
  forall k, (k <= length nodes)%nat ->
    exists x,
      foldl (fun acc i =>
               nodes ← acc;
               n ← nodes !! i;
               if isLeaf n then subdivide i nodes else Some nodes)
            (Some nodes) (seq 0 k) = Some x /\
      visitedTo nodes (2 ^ L - 1) k x.
Proof.
  intros [Hlen Hc] HL. pose proof (pow2_pos L) as Hp.
  assert (2 ^ S L = 2 * 2 ^ L)%nat as Hs by apply Nat.pow_succ_r'.
  induction k as [|k IH]; intros Hk.
  { exists nodes. split; [done |]. split; [lia |]. split; [done |]. intros j nd Hj. lia. }
  destruct IH as (x & E & Hlx & Hsame & Hnew); [lia |].
  rewrite subdivideAll_snoc, E. cbn [mbind option_bind].
  destruct (lookup_lt_is_Some_2 nodes k) as [nd Hnd]; [lia |].
  assert (x !! k = Some nd) as Hxk.
  { rewrite Hsame; [done | lia | lia]. }
  rewrite Hxk. cbn [mbind option_bind].
  destruct (Hc k nd Hnd) as (Hax & Hnl & Hl).
  destruct (decide (k < 2 ^ L - 1)%nat) as [Hlt | Hge].
  - destruct (Hnl Hlt) as [-> _]. exists x. split; [done |].
    split; [lia |]. split.
    + intros j Hj Hjn. apply Hsame; lia.
    + intros j nd0 Hj. lia.
  - destruct Hl as (-> & Hlev & Haxis); [lia |].
    destruct (subdivide_split x k nd Hxk) as (x' & Ex & Hlx' & Hk' & Hch & Hoth);
      [lia | |].
    { rewrite Hlx, Hlen.
      assert (Z.of_nat (2 ^ S L) <= 2 ^ 31).
      { rewrite Nat2Z.inj_pow. apply Z.pow_le_mono_r; lia. }
      unfold UINT32_MAX. lia. }
    exists x'. split; [done |]. split; [lia |]. split.
    + intros j Hj Hjn. rewrite Hoth; [apply Hsame; lia | lia | lia].
    + intros j nd0 Hj Hnd0. destruct (decide (j = k)) as [-> | Hne].
      * rewrite Hnd in Hnd0. injection Hnd0 as <-.
        assert (length x = 2 * k + 1)%nat as Hxl by lia.
        rewrite Hxl in Hk', Hch. split.
        -- rewrite Hk'. do 2 f_equal. f_equal; lia.
        -- intros i Hi. by apply Hch.
      * destruct (Hnew j nd0) as [H1 H2]; [lia | done |]. split.
        -- rewrite Hoth; [done | lia |]. apply lookup_lt_Some in H1. lia.
        -- intros i Hi. rewrite Hoth; [by apply H2 | lia |].
           pose proof (H2 i Hi) as H3. apply lookup_lt_Some in H3. lia.
Qed.

Lemma complete_clear : complete 0 clear.
Proof.
  split; [done |]. intros j nd Hj. destruct j; simpl in Hj; [| done].
  injection Hj as <-. simpl. split; [lia |]. split; [lia | done].
Qed.

Lemma complete_subdivideAll (L : nat) (nodes : list STreeNode) :
  complete L nodes -> (S L <= 31)%nat ->
  exists nodes', subdivideAll nodes = Some nodes' /\ complete (S L) nodes'.
Proof.
  intros Hc HL. pose proof Hc as [Hlen Hall]. pose proof (pow2_pos L) as Hp.
  assert (2 ^ S L = 2 * 2 ^ L)%nat as Hs by apply Nat.pow_succ_r'.
  assert (2 ^ S (S L) = 2 * 2 ^ S L)%nat as Hss by apply Nat.pow_succ_r'.
  destruct (complete_round L nodes Hc HL (length nodes)) as (x & E & Hlx & Hsame & Hnew);
    [lia |].
  exists x. split; [exact E |]. split; [lia |].
  intros j nd Hj. pose proof (lookup_lt_Some _ _ _ Hj) as Hjl.
  destruct (decide (j < 2 ^ L - 1)%nat) as [Hlt | Hge1].
  { rewrite Hsame in Hj by lia. destruct (Hall j nd Hj) as (Hax & Hnl & _).
    split; [done |]. split; [intros _; by apply Hnl | lia]. }
  destruct (decide (j < length nodes)%nat) as [Hlt | Hge2].
  { destruct (lookup_lt_is_Some_2 nodes j Hlt) as [nd0 Hnd0].
    destruct (Hall j nd0 Hnd0) as (Hax & _ & Hl).
    destruct (Hnew j nd0) as [H1 _]; [lia | done |].
    rewrite Hj in H1. injection H1 as ->. simpl.
    split; [done |]. split; [done | lia]. }
  set (j0 := ((j - 1) / 2)%nat).
  set (i := ((j - 1) mod 2)%nat).
  assert (j = 2 * j0 + 1 + i)%nat as Hji.
  { pose proof (Nat.div_mod_eq (j - 1) 2). unfold j0, i. lia. }
  assert (i < 2)%nat as Hi by (apply Nat.mod_upper_bound; lia).
  assert (2 ^ L - 1 <= j0 < length nodes)%nat as Hj0 by lia.
  destruct (lookup_lt_is_Some_2 nodes j0) as [nd0 Hnd0]; [lia |].
  destruct (Hall j0 nd0 Hnd0) as (Hax & _ & Hl).
  destruct Hl as (_ & Hlev & Haxis); [lia |].
  destruct (Hnew j0 nd0) as [_ H2]; [lia | done |].
  rewrite Hji, (H2 i Hi) in Hj. injection Hj as <-. simpl.
  split; [apply Z.mod_pos_bound; lia |]. split; [lia |]. intros _.
  split; [done |]. split; [lia |].
  rewrite Haxis. rewrite Zplus_mod_idemp_l. f_equal. lia.
Qed.

Lemma subdivideLevels_complete (levels : nat) : forall L nodes,
  complete L nodes -> (L + levels <= 31)%nat ->
  exists nodes', subdivideLevels levels nodes = Some nodes' /\ complete (L + levels) nodes'.
Proof.
  induction levels as [|levels IH]; intros L nodes Hc HL.
  { exists nodes. split; [done |]. by rewrite Nat.add_0_r. }
  destruct (complete_subdivideAll L nodes Hc) as (x & Ex & Hx); [lia |].
  destruct (IH (S L) x Hx) as (y & Ey & Hy); [lia |].
  exists y. simpl. rewrite Ex. simpl. split; [exact Ey |].
  by replace (L + S levels)%nat with (S L + levels)%nat by lia.
Qed.

End HeapFacts.

(** X16.  For at most 31 levels, [subdivide(levels)] on a cleared tree
    returns the complete binary tree in heap order:
    [2 ^ (levels + 1) - 1] nodes, of which node [j] below [2 ^ levels - 1]
    is split with the children [2 j + 1] and [2 j + 2], and the others are
    leaves on level [levels] with the axis [levels mod 3]. *)
Theorem subdivideLevels_builds_complete_tree (levels : nat) :
  (levels <= 31)%nat ->
  exists nodes,
    STree.subdivideLevels levels STree.clear = Some nodes /\
    length nodes = (2 ^ S levels - 1)%nat /\
    forall j nd, nodes !! j = Some nd ->
      0 <= axis nd < 3 /\
      ((j < 2 ^ levels - 1)%nat ->
       isLeaf nd = false /\ children nd = (2 * j + 1, 2 * j + 2)%nat) /\
      ((2 ^ levels - 1 <= j)%nat ->
       isLeaf nd = true /\ level nd = Z.of_nat levels /\ axis nd = Z.of_nat levels mod 3).
Proof.
  intros H.
  destruct (HeapFacts.subdivideLevels_complete levels 0 STree.clear HeapFacts.complete_clear)
    as (nodes & E & Hc); [lia |].
  exists nodes. split; [exact E |]. exact Hc.
Qed.

Lemma subdivideLevels_builds_complete_tree_witness :
  (2 <= 31)%nat /\
  exists nodes,
    STree.subdivideLevels 2 STree.clear = Some nodes /\
    length nodes = (2 ^ 3 - 1)%nat /\
    forall j nd, nodes !! j = Some nd ->
      0 <= axis nd < 3 /\
      ((j < 2 ^ 2 - 1)%nat ->
       isLeaf nd = false /\ children nd = (2 * j + 1, 2 * j + 2)%nat) /\
      ((2 ^ 2 - 1 <= j)%nat ->
       isLeaf nd = true /\ level nd = Z.of_nat 2 /\ axis nd = Z.of_nat 2 mod 3).
Proof.
  assert (H : (2 <= 31)%nat) by lia.
  split; [exact H |].
  apply (subdivideLevels_builds_complete_tree 2 H).
Defined.

Module SpatialFacts.
Import STreeNode STree Reach STreeFacts Spatial.

Lemma ordered_clear : ordered clear.
Proof.
  split; [by exists STreeNode.empty |].
  intros n nd Hn. destruct n; simpl in Hn; [| done]. by injection Hn as <-.
Qed.

Lemma ordered_append nodes :
  ordered nodes -> ordered (nodes ++ [STreeNode.empty; STreeNode.empty]).
Proof.
  intros [(r & Hr & Hl & Ha) Hord]. split.
  { exists r. split; [| done]. rewrite lookup_app_l; [done | by eapply lookup_lt_Some]. }
  intros n nd Hn El i. rewrite length_app. simpl.
  destruct (decide (n < length nodes)%nat) as [Hlt | Hge].
  - rewrite lookup_app_l in Hn by done. pose proof (Hord n nd Hn El i). lia.
  - rewrite lookup_app_r in Hn by lia.
    destruct (n - length nodes)%nat as [|[|k]]; simpl in Hn; [| | done];
      injection Hn as <-; done.
Qed.

Lemma ordered_split nodes idx cur nodes' :
  ordered nodes -> nodes !! idx = Some cur ->
  splitOf nodes idx cur nodes' -> ordered nodes'.
Proof.
  intros [(r & Hr & Hl & Ha) Hord] Hcur (Hlen & Hpar & Hch & Hother).
  pose proof (lookup_lt_Some _ _ _ Hcur) as Hlt. split.
  { destruct (decide (idx = 0%nat)) as [-> | Hne].
    - rewrite Hcur in Hr. injection Hr as ->. eexists. split; [exact Hpar |]. done.
    - exists r. split; [| done]. rewrite Hother; [done | lia |].
      by eapply lookup_lt_Some. }
  intros n nd Hn El i. rewrite Hlen.
  destruct (decide (n = idx)) as [-> | Hne].
  { rewrite Hpar in Hn. injection Hn as <-. unfold getChild. simpl.
    destruct (i =? 0); lia. }
  destruct (decide (n < length nodes)%nat) as [Hn_lt | Hn_ge].
  - rewrite Hother in Hn by done. pose proof (Hord n nd Hn El i). lia.
  - apply lookup_lt_Some in Hn as Hn_lt'. rewrite Hlen in Hn_lt'.
    replace n with (length nodes + (n - length nodes))%nat in Hn by lia.
    rewrite (Hch (n - length nodes)%nat) in Hn by lia.
    injection Hn as <-. done.
Qed.

Lemma ordered_wrapper nodes idx nd w :
  ordered nodes -> nodes !! idx = Some nd ->
  ordered (<[idx := setDTree nd w]> nodes).
Proof.
  intros [(r & Hr & Hl & Ha) Hord] Hnd.
  pose proof (lookup_lt_Some _ _ _ Hnd) as Hlt. split.
  { destruct (decide (idx = 0%nat)) as [-> | Hne].
    - rewrite Hnd in Hr. injection Hr as ->.
      rewrite list_lookup_insert_eq by done. eexists. split; [done |]. done.
    - rewrite list_lookup_insert_ne by done. by exists r. }
  intros n x Hn El i. rewrite length_insert.
  destruct (decide (n = idx)) as [-> | Hne].
  - rewrite list_lookup_insert_eq in Hn by done. injection Hn as <-.
    exact (Hord idx nd Hnd El i).
  - rewrite list_lookup_insert_ne in Hn by done. exact (Hord n x Hn El i).
Qed.

Lemma reachable_ordered nodes : reachable nodes -> ordered nodes.
Proof.
  induction 1 as [| nodes idx nd nodes' Hr IH Hnd Hleaf Hsub | nodes idx nd w Hr IH Hnd Hleaf].
  - apply ordered_clear.
  - pose proof (reachable_axisCycle _ Hr) as Hax.
    destruct (Z_le_gt_dec (Z.of_nat (length nodes) + 2) UINT32_MAX) as [Hle | Hgt].
    + destruct (subdivide_split nodes idx nd Hnd) as (nodes2 & Hs & Hsplit);
        [by destruct (Hax idx nd Hnd) as [[? ?] _] | done |].
      rewrite Hs in Hsub. injection Hsub as <-. by eapply ordered_split.
    + rewrite subdivide_full in Hsub by lia. injection Hsub as <-.
      by apply ordered_append.
  - by apply ordered_wrapper.
Qed.

Lemma volume_halved (size : Vector) (a : Z) :
  (volume (set3 size a (get3 size a / 2)) == volume size / 2)%Q.
Proof.
  destruct size as [[x y] z]. unfold volume, set3, get3.
  destruct (a =? 0); [simpl; field |]. destruct (a =? 1); simpl; field.
Qed.

Lemma inCube_onAxis n p : inCube p -> onAxis n p = true.
Proof.
  intros H. unfold onAxis. destruct (H (axis n)) as [H0 H1].
  apply andb_true_intro. split; by apply Qle_bool_iff.
Qed.

(** [childIndex] keeps a point in the unit cube. *)
Lemma inCube_childIndex n p : inCube p -> inCube (childIndex n p).2.
Proof.
  intros H b. pose proof (H 0) as H0. pose proof (H 1) as H1. pose proof (H 2) as H2.
  unfold childIndex.
  destruct (Qltb (get3 p (axis n)) (1 # 2)) eqn:E;
    [apply Qltb_lt in E | apply Qltb_ge in E]; cbn [snd];
    unfold get3, set3 in *; simpl in H0, H1, H2;
    destruct (axis n =? 0), (axis n =? 1), (b =? 0), (b =? 1); simpl; lra.
Qed.

(** The lookup from the node [self]: it ends in a leaf, [depth(p)]
    counts the nodes on the way, the leaf lies that many levels below
    [self], every split on the way halves the volume of [size], and no
    point lies deeper than [depth()] says. *)
Lemma lookup_spec nodes : ordered nodes -> axisCycle nodes ->
  forall fuel self p size nd0,
    inCube p ->
    nodes !! self = Some nd0 -> (length nodes <= self + fuel)%nat ->
    exists idx size' d nd D,
      dTreeWrapper fuel nodes self p size = Some (idx, size') /\
      nodes !! idx = Some nd /\ isLeaf nd = true /\
      depthAt fuel nodes self p = Some d /\ 1 <= d /\
      level nd = level nd0 + d - 1 /\
      (volume size' * 2 ^ (d - 1) == volume size)%Q /\
      depth fuel nodes self = Some D /\ d <= D.
Proof.
  intros [_ Hord] Hax. induction fuel as [|fuel IH]; intros self p size nd0 Hp Hnd Hfuel.
  { apply lookup_lt_Some in Hnd. lia. }
  simpl. rewrite Hnd. simpl. rewrite (inCube_onAxis nd0 p Hp). simpl.
  destruct (isLeaf nd0) eqn:El; simpl.
  { exists self, size, 1, nd0, 1. repeat split; try done; try lia.
    change (2 ^ (1 - 1))%Q with 1%Q. ring. }
  destruct (Hax self nd0 Hnd) as [_ Hnl]. destruct (Hnl El) as [_ Hch].
  pose proof (Hord self nd0 Hnd El) as Ho.
  pose proof (inCube_childIndex nd0 p Hp) as Hp'.
  unfold nodeIndex. destruct (childIndex nd0 p) as [i p'] eqn:Ei. simpl in Hp'.
  destruct (Hch i) as (c & Hc & _ & Hcl).
  destruct (IH (getChild nd0 i) p' (set3 size (axis nd0) (get3 size (axis nd0) / 2)%Q) c Hp' Hc)
    as (idx & size' & d & nd & D & E1 & Hidx & Hleaf & E2 & Hd & Hlev & Hvol & _);
    [pose proof (Ho i); lia |].
  destruct (Hch 0) as (c0 & Hc0 & _ & _). destruct (Hch 1) as (c1 & Hc1 & _ & _).
  destruct (IH (getChild nd0 0) p size c0 Hp Hc0) as (_ & _ & _ & _ & D0 & _ & _ & _ & _ & _ & _ & _ & ED0 & _);
    [pose proof (Ho 0); lia |].
  destruct (IH (getChild nd0 1) p size c1 Hp Hc1) as (_ & _ & _ & _ & D1 & _ & _ & _ & _ & _ & _ & _ & ED1 & _);
    [pose proof (Ho 1); lia |].
  change (children nd0).1 with (getChild nd0 0).
  change (children nd0).2 with (getChild nd0 1).
  rewrite E1, E2, ED0, ED1. simpl.
  assert (d <= Z.max (Z.max 1 (1 + D0)) (1 + D1) - 1) as HdD.
  { assert (i = 0 \/ i = 1) as [-> | ->].
    { unfold childIndex in Ei. destruct (Qltb _ _); injection Ei as <- _; auto. }
    - destruct (IH (getChild nd0 0) p' (set3 size (axis nd0) (get3 size (axis nd0) / 2)%Q) c0 Hp' Hc0)
        as (? & ? & d' & ? & D' & _ & _ & _ & E2' & _ & _ & _ & ED' & Hle);
        [pose proof (Ho 0); lia |].
      rewrite E2 in E2'. rewrite ED0 in ED'. simplify_eq. lia.
    - destruct (IH (getChild nd0 1) p' (set3 size (axis nd0) (get3 size (axis nd0) / 2)%Q) c1 Hp' Hc1)
        as (? & ? & d' & ? & D' & _ & _ & _ & E2' & _ & _ & _ & ED' & Hle);
        [pose proof (Ho 1); lia |].
      rewrite E2 in E2'. rewrite ED1 in ED'. simplify_eq. lia. }
  exists idx, size', (1 + d), nd. eexists.
  split; [done |]. split; [done |]. split; [done |]. split; [done |].
  split; [lia |]. split; [lia |]. split; [| split; [done | lia]].
  replace (1 + d - 1) with (1 + (d - 1)) by lia.
  rewrite Qpower_plus by done. change (2 ^ 1)%Q with 2%Q.
  rewrite volume_halved in Hvol.
  assert (volume size == 2 * (volume size / 2))%Q as -> by field.
  rewrite <- Hvol. ring.
Qed.

End SpatialFacts.

(** X17.  In a tree the program builds and for a point of the unit cube,
    the lookup [dTreeWrapper(p, size, nodes)] from the root passes its
    assertions and returns a leaf; [depth(p)] is the number of nodes on the
    way, the leaf is on level [depth(p) - 1], the returned size has the
    volume of [size] divided by [2 ^ (depth(p) - 1)], and [depth(p)] is at
    most [depth()]. *)
Theorem dTreeWrapper_reaches_leaf (nodes : list STreeNode) (p : Point) (size : Vector) :
  Reach.reachable nodes -> Spatial.inCube p ->
  exists fuel idx size' d nd D,
    STreeNode.dTreeWrapper fuel nodes 0 p size = Some (idx, size') /\
    nodes !! idx = Some nd /\ isLeaf nd = true /\
    STreeNode.depthAt fuel nodes 0 p = Some d /\ 1 <= d /\
    level nd = d - 1 /\
    (Spatial.volume size' * 2 ^ (d - 1) == Spatial.volume size)%Q /\
    STreeNode.depth fuel nodes 0 = Some D /\ d <= D.
Proof.
  intros Hr Hp. pose proof (SpatialFacts.reachable_ordered _ Hr) as Ho.
  pose proof (STreeFacts.reachable_axisCycle _ Hr) as Ha.
  destruct Ho as [(r & Hroot & Hl & Hax) Hord].
  destruct (SpatialFacts.lookup_spec nodes (conj (ex_intro _ r (conj Hroot (conj Hl Hax))) Hord)
              Ha (length nodes) 0 p size r Hp Hroot)
    as (idx & size' & d & nd & D & H); [lia |].
  exists (length nodes), idx, size', d, nd, D. rewrite Hl in H.
  destruct H as (H1 & H2 & H3 & H4 & H5 & H6 & H7 & H8 & H9).
  do 5 (split; [done |]). split; [lia |]. done.
Qed.

Lemma dTreeWrapper_reaches_leaf_witness :
  let p : Point := (1 # 4, 1 # 2, 3 # 4)%Q in
  let size : Vector := (1, 1, 1)%Q in
  Reach.reachable STree.clear /\ Spatial.inCube p /\
  exists fuel idx size' d nd D,
    STreeNode.dTreeWrapper fuel STree.clear 0 p size = Some (idx, size') /\
    STree.clear !! idx = Some nd /\ isLeaf nd = true /\
    STreeNode.depthAt fuel STree.clear 0 p = Some d /\ 1 <= d /\
    level nd = d - 1 /\
    (Spatial.volume size' * 2 ^ (d - 1) == Spatial.volume size)%Q /\
    STreeNode.depth fuel STree.clear 0 = Some D /\ d <= D.
Proof.
  assert (Hp : Spatial.inCube (1 # 4, 1 # 2, 3 # 4)%Q).
  { intros a. unfold get3. destruct (a =? 0), (a =? 1); simpl; split; discriminate. }
  cbv zeta. split; [exact Reach.reach_clear |]. split; [exact Hp |].
  apply (dTreeWrapper_reaches_leaf STree.clear (1 # 4, 1 # 2, 3 # 4)%Q (1, 1, 1)%Q
           Reach.reach_clear Hp).
Defined.

Module RefineFacts.
Import STreeNode STree Reach STreeFacts Spatial SpatialFacts Refined.

Lemma below_trans nodes a b c : below nodes a b -> below nodes b c -> below nodes a c.
Proof. induction 1; [done |]. intros. eapply below_child; eauto. Qed.

Lemma below_mono nodes nodes' a b :
  (forall n nd, nodes !! n = Some nd -> isLeaf nd = false ->
     exists nd', nodes' !! n = Some nd' /\ isLeaf nd' = false /\
                 children nd' = children nd) ->
  below nodes a b -> below nodes' a b.
Proof.
  intros H. induction 1 as [| a nd i b Ha Hl Hb IH]; [constructor |].
  destruct (H a nd Ha Hl) as (nd' & Ha' & Hl' & Hc).
  apply (below_child nodes' a nd' i b Ha' Hl'). unfold getChild in *. by rewrite Hc.
Qed.

Lemma below_leaf nodes a b nd :
  nodes !! a = Some nd -> isLeaf nd = true -> below nodes a b -> b = a.
Proof. intros Ha Hl H. inversion H; subst; [done | congruence]. Qed.

Lemma getChild_cases nd i : getChild nd i = getChild nd 0 \/ getChild nd i = getChild nd 1.
Proof. unfold getChild. destruct (i =? 0); [by left | by right]. Qed.

Lemma split_keeps nodes idx cur nodes' :
  nodes !! idx = Some cur -> isLeaf cur = true -> splitOf nodes idx cur nodes' ->
  forall n nd, nodes !! n = Some nd -> isLeaf nd = false ->
    exists nd', nodes' !! n = Some nd' /\ isLeaf nd' = false /\ children nd' = children nd.
Proof.
  intros Hcur Hl (Hlen & Hpar & Hch & Hother) n nd Hn Hnl.
  assert (n <> idx) by (intros ->; congruence).
  exists nd. rewrite Hother; [done | done | by eapply lookup_lt_Some].
Qed.

Lemma split_new_below nodes idx cur nodes' m :
  splitOf nodes idx cur nodes' -> (length nodes <= m < length nodes')%nat ->
  below nodes' idx m.
Proof.
  intros (Hlen & Hpar & Hch & Hother) Hm.
  destruct (decide (m = length nodes)) as [-> | Hne].
  - eapply (below_child nodes' idx _ 0); [exact Hpar | done |]. simpl. constructor.
  - eapply (below_child nodes' idx _ 1); [exact Hpar | done |]. simpl.
    replace m with (S (length nodes)) by lia. constructor.
Qed.

(** Below the node limit, every node of a tree the program builds lies
    below the root. *)
Lemma reachable_rooted nodes :
  reachable nodes -> Z.of_nat (length nodes) <= UINT32_MAX ->
  forall m, (m < length nodes)%nat -> below nodes 0 m.
Proof.
  induction 1 as [| nodes idx nd nodes' Hr IH Hnd Hleaf Hsub | nodes idx nd w Hr IH Hnd Hleaf];
    intros Hlen m Hm.
  - simpl in Hm. replace m with 0%nat by lia. constructor.
  - pose proof (reachable_axisCycle _ Hr) as Hax.
    pose proof (lookup_lt_Some _ _ _ Hnd) as Hidx.
    destruct (Z_le_gt_dec (Z.of_nat (length nodes) + 2) UINT32_MAX) as [Hle | Hgt].
    + destruct (subdivide_split nodes idx nd Hnd) as (nodes2 & Hs & Hsplit);
        [by destruct (Hax idx nd Hnd) as [[? ?] _] | done |].
      rewrite Hs in Hsub. injection Hsub as <-.
      pose proof (split_keeps nodes idx nd nodes2 Hnd Hleaf Hsplit) as Hk.
      destruct (decide (m < length nodes)%nat) as [Hlt | Hge].
      * eapply below_mono; [exact Hk |]. apply IH; [lia | done].
      * eapply below_trans.
        { eapply below_mono; [exact Hk |]. apply (IH ltac:(lia) idx Hidx). }
        eapply split_new_below; [exact Hsplit |]. lia.
    + rewrite subdivide_full in Hsub by lia. injection Hsub as <-.
      rewrite length_app in Hlen. simpl in Hlen. lia.
  - rewrite length_insert in Hlen, Hm.
    eapply below_mono; [| by apply IH].
    intros n x Hn Hx. assert (n <> idx) by (intros ->; congruence).
    exists x. by rewrite list_lookup_insert_ne.
Qed.

Lemma pow3_children M k c0 c1 :
  (k < c0)%nat -> (k < c1)%nat -> (k < M)%nat ->
  (3 ^ (M - c0) + 3 ^ (M - c1) < 3 ^ (M - k))%nat.
Proof.
  intros H0 H1 HM. replace (M - k)%nat with (S (M - k - 1)) by lia.
  rewrite Nat.pow_succ_r'.
  assert (3 ^ (M - c0) <= 3 ^ (M - k - 1))%nat by (apply Nat.pow_le_mono_r; lia).
  assert (3 ^ (M - c1) <= 3 ^ (M - k - 1))%nat by (apply Nat.pow_le_mono_r; lia).
  assert (0 < 3 ^ (M - k - 1))%nat by (apply Nat.neq_0_lt_0, Nat.pow_nonzero; lia).
  lia.
Qed.

Lemma pow3_pos M k : (0 < 3 ^ (M - k))%nat.
Proof. apply Nat.neq_0_lt_0, Nat.pow_nonzero. lia. Qed.

(** The loop of [refine] returns, and leaves every leaf settled. *)
Lemma refineLoop_total sTreeThreshold staticSTree nodes0 (M : nat) :
  Z.of_nat M = UINT32_MAX + 1 ->
  forall N nodes stack,
    (refineMeasure M stack < N)%nat ->
    refineInv sTreeThreshold staticSTree nodes0 nodes stack ->
    exists fuel nodes',
      refineLoop fuel sTreeThreshold staticSTree nodes stack = Some nodes' /\
      refineInv sTreeThreshold staticSTree nodes0 nodes' [] /\
      (length nodes <= length nodes')%nat.
Proof.
  intros HM. induction N as [|N IH]; intros nodes stack Hw Hinv; [lia |].
  destruct stack as [|[k d] rest].
  { exists 1%nat, nodes. done. }
  destruct Hinv as (Hr & Hlen & Hstk & Hstatic & Hcov).
  apply Forall_cons in Hstk as [Hk Hrest]. simpl in Hk.
  destruct (lookup_lt_is_Some_2 nodes k Hk) as [n Hn].
  pose proof (reachable_ordered _ Hr) as [_ Hord].
  pose proof (reachable_axisCycle _ Hr) as Hax.
  assert (k < M)%nat as HkM by (unfold UINT32_MAX in *; lia).
  simpl in Hw.
  destruct (isLeaf n && shallSplit nodes n d sTreeThreshold && negb staticSTree) eqn:Ec.
  - apply andb_prop in Ec as [Ec Es]. apply andb_prop in Ec as [El Esh].
    apply negb_true_iff in Es.
    unfold shallSplit in Esh. apply andb_prop in Esh as [Hlim Hwt].
    apply Z.ltb_lt in Hlim.
    destruct (subdivide_split nodes k n Hn) as (nodes1 & Hs & Hsplit);
      [by destruct (Hax k n Hn) as [[? ?] _] | lia |].
    pose proof Hsplit as (Hl1 & Hpar & Hch & Hother).
    pose proof (split_keeps nodes k n nodes1 Hn El Hsplit) as Hkeep.
    destruct (IH nodes1 ((S (length nodes), d + 1) :: (length nodes, d + 1) :: rest))
      as (fuel & nodes' & E & Hinv' & Hle).
    { simpl. pose proof (pow3_children M k (S (length nodes)) (length nodes)). lia. }
    { split; [by eapply reach_subdivide |]. split; [lia |]. split.
      { repeat (apply Forall_cons; split; [simpl; lia |]).
        eapply Forall_impl; [exact Hrest |]. simpl. intros. lia. }
      split; [intros; congruence |].
      intros _ idx nd Hidx Hleaf.
      destruct (decide (idx < length nodes)%nat) as [Hlt | Hge].
      - assert (idx <> k) as Hne.
        { intros ->. rewrite Hpar in Hidx. injection Hidx as <-. done. }
        rewrite Hother in Hidx by done.
        destruct (Hcov Es idx nd Hidx Hleaf) as [[Hs1 | Hs2] | (e & He & Hb)].
        + left. left. lia.
        + left. by right.
        + apply elem_of_cons in He as [-> | He].
          * simpl in Hb. apply (below_leaf _ _ _ _ Hn El) in Hb. done.
          * right. exists e. split; [by do 2 apply list_elem_of_further |].
            by eapply below_mono.
      - pose proof (lookup_lt_Some _ _ _ Hidx) as Hlt'. right.
        destruct (decide (idx = length nodes)) as [-> | Hne].
        + exists (length nodes, d + 1). split; [| constructor].
          apply list_elem_of_further, list_elem_of_here.
        + exists (S (length nodes), d + 1). split; [apply list_elem_of_here |].
          simpl. replace idx with (S (length nodes)) by lia. constructor. }
    exists (S fuel), nodes'. simpl. rewrite Hn. simpl.
    unfold shallSplit. rewrite El, (proj2 (Z.ltb_lt _ _) Hlim), Hwt, Es. simpl.
    rewrite Hs. simpl. rewrite Hpar. simpl. rewrite Es in E, Hinv'.
    split; [exact E |]. split; [exact Hinv' | lia].
  - destruct (isLeaf n) eqn:El.
    + destruct (IH nodes rest) as (fuel & nodes' & E & Hinv' & Hle).
      { pose proof (pow3_pos M k). lia. }
      { split; [done |]. split; [done |]. split; [done |]. split; [done |].
        intros Es idx nd Hidx Hleaf.
        destruct (Hcov Es idx nd Hidx Hleaf) as [Hs | (e & He & Hb)]; [by left |].
        apply elem_of_cons in He as [-> | He]; [| right; by exists e].
        simpl in Hb. apply (below_leaf _ _ _ _ Hn El) in Hb. subst idx.
        rewrite Hn in Hidx. injection Hidx as <-. left.
        rewrite Es in Ec. simpl in Ec. rewrite andb_true_r in Ec.
        unfold shallSplit in Ec. apply andb_false_iff in Ec as [Hc | Hc].
        - left. apply Z.ltb_ge in Hc. done.
        - right. by apply Qltb_ge in Hc. }
      exists (S fuel), nodes'. simpl. rewrite Hn. simpl. rewrite El, Ec. simpl.
      rewrite Hn. simpl. rewrite El. simpl. done.
    + pose proof (Hord k n Hn El 0) as Hc0. pose proof (Hord k n Hn El 1) as Hc1.
      destruct (IH nodes ((getChild n 1, d + 1) :: (getChild n 0, d + 1) :: rest))
        as (fuel & nodes' & E & Hinv' & Hle).
      { simpl. pose proof (pow3_children M k (getChild n 1) (getChild n 0)). lia. }
      { split; [done |]. split; [done |]. split.
        { repeat (apply Forall_cons; split; [simpl; lia |]). done. }
        split; [done |].
        intros Es idx nd Hidx Hleaf.
        destruct (Hcov Es idx nd Hidx Hleaf) as [Hs | (e & He & Hb)]; [by left |].
        right. apply elem_of_cons in He as [-> | He].
        - simpl in Hb. inversion Hb as [a | a nd1 i b Ha Hl Hb']; subst.
          + rewrite Hn in Hidx. injection Hidx as <-. congruence.
          + rewrite Hn in Ha. injection Ha as <-.
            destruct (getChild_cases n i) as [Hi | Hi]; rewrite Hi in Hb'.
            * exists (getChild n 0, d + 1).
              split; [apply list_elem_of_further, list_elem_of_here | done].
            * exists (getChild n 1, d + 1). split; [apply list_elem_of_here | done].
        - exists e. split; [by do 2 apply list_elem_of_further | done]. }
      exists (S fuel), nodes'. simpl. rewrite Hn. simpl. rewrite El, Ec. simpl.
      rewrite Hn. simpl. rewrite El. simpl. done.
Qed.

(** An integer of at most 24 bits, and [2^24] itself, is converted
    without rounding. *)
Lemma floatOfSize_exact n : n <= 16777216 -> floatOfSize n = inject_Z n.
Proof.
  intros Hn. unfold floatOfSize.
  destruct (Z.eq_dec n 16777216) as [-> | Hne]; [reflexivity |].
  assert (Z.log2 n - 23 <= 0) as He.
  { destruct (Z.le_gt_cases n 0) as [H0 | H0].
    - rewrite (Z.log2_nonpos n H0). lia.
    - assert (Z.log2 n < 24); [| lia].
      apply Z.log2_lt_pow2; [done |]. change (2 ^ 24) with 16777216. lia. }
  by rewrite (proj2 (Z.leb_le _ _) He).
Qed.

End RefineFacts.

(** X18.  On a tree the program builds, of at most [2^32 - 1] nodes,
    [refine] returns a vector that is not shorter.  It leaves the tree as
    it is when [staticSTree] is set or the memory budget is used up.  When
    the result has at most [2^31] nodes it is again a tree the program
    builds, and unless [staticSTree] is set or the budget is used up, the
    building weight of every leaf is then at most the float that
    [sTreeThreshold] converts to in the comparison of [shallSplit], which is
    [sTreeThreshold] itself up to [2^24]. *)
Theorem refine_settles_leaves (nodes : list STreeNode) (approxMemoryFootprint : Z)
    (sTreeThreshold maxMB : Z) (staticSTree : bool) :
  Reach.reachable nodes -> Z.of_nat (length nodes) <= STree.UINT32_MAX ->
  exists fuel nodes',
    STree.refine fuel approxMemoryFootprint sTreeThreshold maxMB staticSTree nodes
      = Some nodes' /\
    (length nodes <= length nodes')%nat /\
    (staticSTree = true \/ 0 <= maxMB <= approxMemoryFootprint / 1000000 ->
     nodes' = nodes) /\
    (Z.of_nat (length nodes') <= 2147483648 ->
     Reach.reachable nodes' /\
     (staticSTree = false -> maxMB < 0 \/ approxMemoryFootprint / 1000000 < maxMB ->
      forall idx nd, nodes' !! idx = Some nd -> isLeaf nd = true ->
        (DTreeWrapper.statisticalWeightBuilding (dTree nd) <= floatOfSize sTreeThreshold)%Q /\
        (sTreeThreshold <= 16777216 ->
         (DTreeWrapper.statisticalWeightBuilding (dTree nd) <= inject_Z sTreeThreshold)%Q))).
Proof.
  intros Hr Hlen. unfold STree.refine.
  destruct ((0 <=? maxMB) && (maxMB <=? approxMemoryFootprint / 1000000)) eqn:Eg.
  - apply andb_prop in Eg as [H0 H1]. apply Z.leb_le in H0, H1.
    exists 0%nat, nodes. split; [done |]. split; [done |]. split; [done |].
    intros _. split; [done |]. intros _ [H | H]; lia.
  - assert (~ (0 <= maxMB <= approxMemoryFootprint / 1000000)) as Hg.
    { intros [H0 H1]. apply Z.leb_le in H0, H1. by rewrite H0, H1 in Eg. }
    destruct (RefineFacts.refineLoop_total sTreeThreshold staticSTree nodes
                (Z.to_nat (STree.UINT32_MAX + 1)) ltac:(unfold STree.UINT32_MAX; lia)
                _ nodes [(0%nat, 1)] (Nat.lt_succ_diag_r _))
      as (fuel & nodes' & E & (Hr' & Hlen' & _ & Hstatic & Hcov) & Hle).
    { pose proof (SpatialFacts.reachable_ordered _ Hr) as [(r & Hroot & _) _].
      pose proof (lookup_lt_Some _ _ _ Hroot) as H0.
      split; [done |]. split; [done |]. split; [by repeat constructor |].
      split; [done |].
      intros _ idx nd Hidx Hleaf. right. exists (0%nat, 1).
      split; [apply list_elem_of_here |]. simpl.
      apply RefineFacts.reachable_rooted; [done | done |]. by eapply lookup_lt_Some. }
    exists fuel, nodes'. split; [exact E |]. split; [exact Hle |]. split.
    { intros [Hs | H]; [by apply Hstatic | done]. }
    intros Hsmall. split; [exact Hr' |].
    intros Hs _ idx nd Hidx Hleaf.
    destruct (Hcov Hs idx nd Hidx Hleaf) as [[Hl | Hw] | (e & He & _)].
    + unfold STree.UINT32_MAX in Hl. lia.
    + split; [exact Hw |]. intros Ht.
      by rewrite <- (RefineFacts.floatOfSize_exact sTreeThreshold Ht).
    + by apply elem_of_nil in He.
Qed.

Lemma refine_settles_leaves_witness :
  let w := DTreeWrapper.setStatisticalWeightBuilding DTreeWrapper.empty
             (inject_Z 40000000) in
  let nodes := <[0%nat := STreeNode.setDTree STreeNode.empty w]> STree.clear in
  Reach.reachable nodes /\ Z.of_nat (length nodes) <= STree.UINT32_MAX /\
  exists fuel nodes',
    STree.refine fuel 0 16777219 (-1) false nodes = Some nodes' /\
    (length nodes <= length nodes')%nat /\
    (false = true \/ 0 <= -1 <= 0 / 1000000 -> nodes' = nodes) /\
    (Z.of_nat (length nodes') <= 2147483648 ->
     Reach.reachable nodes' /\
     (false = false -> -1 < 0 \/ 0 / 1000000 < -1 ->
      forall idx nd, nodes' !! idx = Some nd -> isLeaf nd = true ->
        (DTreeWrapper.statisticalWeightBuilding (dTree nd) <= floatOfSize 16777219)%Q /\
        (16777219 <= 16777216 ->
         (DTreeWrapper.statisticalWeightBuilding (dTree nd) <= inject_Z 16777219)%Q))).
Proof.
  intros w nodes.
  assert (Hr : Reach.reachable nodes).
  { apply (Reach.reach_wrapper STree.clear 0 STreeNode.empty w Reach.reach_clear);
      reflexivity. }
  assert (H : Z.of_nat (length nodes) <= STree.UINT32_MAX) by (cbv; discriminate).
  split; [exact Hr |]. split; [exact H |].
  apply (refine_settles_leaves nodes 0 16777219 (-1) false Hr H).
Defined.

(** The threshold 16777219 is converted to the float 16777220: [refine]
    leaves a leaf of that weight alone, and splits a leaf of the weight
    40000000 twice, into leaves of the weight 10000000. *)
Example refine_rounds_threshold :
  let leaf (weight : Z) :=
    <[0%nat := STreeNode.setDTree STreeNode.empty
                 (DTreeWrapper.setStatisticalWeightBuilding DTreeWrapper.empty
                    (inject_Z weight))]> STree.clear in
  floatOfSize 16777219 = inject_Z 16777220 /\
  STree.refine 2 0 16777219 (-1) false (leaf 16777220) = Some (leaf 16777220) /\
  (length <$> STree.refine 8 0 16777219 (-1) false (leaf 40000000)) = Some 7%nat.
Proof.
  intros leaf. split; [vm_compute; reflexivity |]. split; vm_compute; reflexivity.
Qed.

(** * The replay passes *)

Module ReplayMore.
Import Replay Retained Weights.

Ltac loop_nil H :=
  injection H as <- <-; split; [done |]; exists []; split;
  [by rewrite app_nil_r | apply List.Forall2_nil].

Ltac loop_cons H IH :=
  repeat match type of H with
         | context [let '(_, _) := ?x in _] => destruct x
         | context [if ?c then _ else _] => destruct c
         end;
  try discriminate;
  let vs := fresh "vs" in
  let Hd := fresh "Hd" in
  let Hvs := fresh "Hvs" in
  apply IH in H as (-> & vs & Hd & Hvs); simpl in Hd;
  (split; [done |]); eexists (_ :: vs);
  (split; [rewrite Hd, <- app_assoc; reflexivity
          | apply List.Forall2_cons; [reflexivity | exact Hvs]]).

Ltac loop_rewritten :=
  intros rest; induction rest as [|v rest IH]; intros j st st' rest' H; simpl in H;
  [loop_nil H | loop_cons H IH].

Section Paths.
Context {World DTreeRef : Type}.
Variable computePdf : World -> RVertex -> Float * DTreeRef * Point3 * Float.
Variable getAugmentedMultiplier : World -> DTreeRef -> Float.
Variable next1D : World -> Float * World.
Variable m_rrDepth : Z.
Variable commitPath : World -> RPath -> list (Vertex DTreeRef) -> World.

Lemma replayPath_replayed Rv L world p :
  loopOk Rv L -> active p = true ->
  replayed Rv p (replayPath World DTreeRef commitPath L world p).2.
Proof.
  intros HL Ha. unfold replayPath.
  destruct (L 0 (path p) _) as [[st rest] terminated] eqn:E.
  destruct terminated; simpl.
  - split; [done |]. split; [done |]. left. done.
  - destruct (HL _ _ _ _ _ E) as (-> & vs & Hd & Hvs). simpl in Hd.
    split; [done |]. split; [done |]. right.
    rewrite app_nil_r, Hd. done.
Qed.

Lemma pathLoop_passed Rv (body : World -> RPath -> World * RPath) :
  (forall world p, active p = true -> replayed Rv p (body world p).2) ->
  forall bound world paths,
    passed Rv bound paths (pathLoop World body bound world paths).2.
Proof.
  intros Hbody. unfold pathLoop. induction bound as [|bound IH]; intros world paths.
  { simpl. split; [done |]. intros i p Hp. exists p. split; [done |].
    destruct (decide (i < 0)%nat); [lia | done]. }
  rewrite seq_S, foldl_app. simpl.
  destruct (IH world paths) as [Hlen Hall].
  destruct (foldl _ (world, paths) (seq 0 bound)) as [w1 paths1] eqn:E. simpl in *.
  assert (forall p0, paths1 !! bound = Some p0 -> paths !! bound = Some p0) as Hb.
  { intros p0 H0. destruct (lookup_lt_is_Some_2 paths bound) as [q Hq].
    { apply lookup_lt_Some in H0. lia. }
    destruct (Hall bound q Hq) as (q' & Hq' & Hr).
    destruct (decide (bound < bound)%nat); [lia |]. congruence. }
  destruct (paths1 !! bound) as [curr_path|] eqn:Ec.
  2:{ split; [done |]. intros i p Hp. destruct (Hall i p Hp) as (p' & Hp' & Hr).
      exists p'. split; [done |].
      apply lookup_ge_None in Ec. apply lookup_lt_Some in Hp.
      destruct (decide (i < bound)%nat); destruct (decide (i < S bound)%nat); try lia; done. }
  pose proof (Hb _ eq_refl) as Horig.
  destruct (active curr_path) eqn:Ea; simpl.
  2:{ split; [done |]. intros i p Hp. destruct (Hall i p Hp) as (p' & Hp' & Hr).
      exists p'. split; [done |].
      destruct (decide (i < bound)%nat); destruct (decide (i < S bound)%nat);
        try lia; try done.
      assert (i = bound) as -> by lia. rewrite Horig in Hp. injection Hp as <-.
      rewrite Ea. done. }
  pose proof (Hbody w1 curr_path Ea) as Hr1.
  destruct (body w1 curr_path) as [w2 p2]. simpl in *.
  split; [by rewrite length_insert |].
  intros i p Hp. destruct (decide (i = bound)) as [-> | Hne].
  - rewrite Horig in Hp. injection Hp as <-.
    exists p2. split.
    { apply list_lookup_insert_eq. by eapply lookup_lt_Some. }
    destruct (decide (bound < S bound)%nat); [| lia]. by rewrite Ea.
  - rewrite list_lookup_insert_ne by done.
    destruct (Hall i p Hp) as (p' & Hp' & Hr). exists p'. split; [done |].
    destruct (decide (i < bound)%nat); destruct (decide (i < S bound)%nat);
      try lia; done.
Qed.

Lemma reweightAugmentVertices_ok :
  loopOk rewritten
    (reweightAugmentVertices World DTreeRef computePdf getAugmentedMultiplier m_rrDepth).
Proof. unfold loopOk. loop_rewritten. Qed.

Lemma rejectAugmentVertices_ok :
  loopOk rewritten
    (rejectAugmentVertices World DTreeRef computePdf getAugmentedMultiplier next1D
       m_rrDepth).
Proof. unfold loopOk. loop_rewritten. Qed.

Lemma performAugmentedVertices_ok :
  loopOk rewritten
    (performAugmentedVertices World DTreeRef computePdf getAugmentedMultiplier m_rrDepth).
Proof. unfold loopOk. loop_rewritten. Qed.

Lemma reweightVertices_ok :
  loopOk rewritten (reweightVertices World DTreeRef computePdf m_rrDepth).
Proof. unfold loopOk. loop_rewritten. Qed.

Lemma rejectReweightVertices_ok :
  loopOk rewritten (rejectReweightVertices World DTreeRef computePdf next1D m_rrDepth).
Proof. unfold loopOk. loop_rewritten. Qed.

(** A multiplier between 0 and 1 lowers a weight that is not negative. *)
Lemma scale_lowers (sc m : Q) :
  (0 <= sc)%Q -> (0 <= m <= 1)%Q -> (0 <= sc * m)%Q /\ (sc * m <= sc)%Q.
Proof. intros Hs [H0 H1]. split; nra. Qed.

Lemma reweightAugmentVertices_lowers :
  unitMultiplier getAugmentedMultiplier ->
  loopOk (fun v v' => lowered v v' /\ supported v v')
    (reweightAugmentVertices World DTreeRef computePdf getAugmentedMultiplier m_rrDepth).
Proof.
  intros multiplier_range.
  unfold loopOk. intros rest; induction rest as [|v rest IH];
    intros j st st' rest' H; simpl in H; [loop_nil H |].
  destruct (computePdf (ls_world _ _ st) v) as [[[nwo dTree] voxel] dTreePdf].
  destruct (Qltb nwo EPSILON) eqn:En; [discriminate |]. apply Qltb_ge in En.
  apply IH in H as (-> & vs & Hd & Hvs). simpl in Hd.
  split; [done |]. eexists (_ :: vs).
  split; [rewrite Hd, <- app_assoc; reflexivity |].
  apply List.Forall2_cons; [| exact Hvs]. split; [| exact En].
  intros Hsc Hwo. simpl.
  pose proof (multiplier_range (ls_world _ _ st) dTree) as Hm.
  assert (0 < nwo / rv_woPdf v)%Q as Hr.
  { apply Qlt_shift_div_l; [done |]. rewrite Qmult_0_l.
    eapply Qlt_le_trans; [| exact En]. reflexivity. }
  destruct (Qltb (nwo / rv_woPdf v) 1) eqn:E1.
  - apply Qltb_lt in E1.
    assert (0 <= rv_sc v * (nwo / rv_woPdf v))%Q by nra.
    assert (rv_sc v * (nwo / rv_woPdf v) <= rv_sc v)%Q by nra.
    destruct (scale_lowers (rv_sc v * (nwo / rv_woPdf v)) _ H Hm). split; lra.
  - apply scale_lowers; [done | apply multiplier_range].
Qed.

Lemma performAugmentedVertices_lowers :
  unitMultiplier getAugmentedMultiplier ->
  loopOk (fun v v' => lowered v v' /\ supported v v')
    (performAugmentedVertices World DTreeRef computePdf getAugmentedMultiplier m_rrDepth).
Proof.
  intros multiplier_range.
  unfold loopOk. intros rest; induction rest as [|v rest IH];
    intros j st st' rest' H; simpl in H; [loop_nil H |].
  destruct (computePdf (ls_world _ _ st) v) as [[[nwo dTree] voxel] dTreePdf].
  destruct (Qltb nwo EPSILON) eqn:En; [discriminate |]. apply Qltb_ge in En.
  apply IH in H as (-> & vs & Hd & Hvs). simpl in Hd.
  split; [done |]. eexists (_ :: vs).
  split; [rewrite Hd, <- app_assoc; reflexivity |].
  apply List.Forall2_cons; [| exact Hvs]. split; [| exact En].
  intros Hsc Hwo. simpl. apply scale_lowers; [done | apply multiplier_range].
Qed.

Lemma rejectAugmentVertices_lowers :
  unitMultiplier getAugmentedMultiplier ->
  loopOk lowered
    (rejectAugmentVertices World DTreeRef computePdf getAugmentedMultiplier next1D
       m_rrDepth).
Proof.
  intros multiplier_range.
  unfold loopOk. intros rest; induction rest as [|v rest IH];
    intros j st st' rest' H; simpl in H; [loop_nil H |].
  destruct (computePdf (ls_world _ _ st) v) as [[[nwo dTree] voxel] dTreePdf].
  destruct (next1D (ls_world _ _ st)) as [u world].
  destruct (Qltb (nwo / rv_woPdf v) u); [discriminate |].
  apply IH in H as (-> & vs & Hd & Hvs). simpl in Hd.
  split; [done |]. eexists (_ :: vs).
  split; [rewrite Hd, <- app_assoc; reflexivity |].
  apply List.Forall2_cons; [| exact Hvs].
  intros Hsc Hwo. simpl. apply scale_lowers; [done | apply multiplier_range].
Qed.

End Paths.

Section Unweighted.
Context {World DTreeRef : Type}.
Variable computePdf : World -> RVertex -> Float * DTreeRef * Point3 * Float.
Variable next1D : World -> Float * World.
Variable m_rrDepth : Z.

Lemma rejectReweightVertices_raises :
  loopOk raisedWeight
    (rejectReweightVertices World DTreeRef computePdf next1D m_rrDepth).
Proof.
  unfold loopOk. intros rest; induction rest as [|v rest IH];
    intros j st st' rest' H; simpl in H; [loop_nil H |].
  destruct (computePdf (ls_world _ _ st) v) as [[[nwo dTree] voxel] dTreePdf].
  destruct (next1D (ls_world _ _ st)) as [u world].
  destruct (Qltb (nwo / rv_woPdf v) u); [discriminate |].
  apply IH in H as (-> & vs & Hd & Hvs). simpl in Hd.
  split; [done |]. eexists (_ :: vs).
  split; [rewrite Hd, <- app_assoc; reflexivity |].
  apply List.Forall2_cons; [| exact Hvs].
  intros Hsc. simpl.
  pose proof (std_max_ge_l 1 (nwo / rv_woPdf v)). nra.
Qed.

Lemma reweightVertices_rescales :
  loopOk (fun v v' => rescaled v v' /\ supported v v')
    (reweightVertices World DTreeRef computePdf m_rrDepth).
Proof.
  unfold loopOk. intros rest; induction rest as [|v rest IH];
    intros j st st' rest' H; simpl in H; [loop_nil H |].
  destruct (computePdf (ls_world _ _ st) v) as [[[nwo dTree] voxel] dTreePdf].
  destruct (Qltb nwo EPSILON) eqn:En; [discriminate |]. apply Qltb_ge in En.
  apply IH in H as (-> & vs & Hd & Hvs). simpl in Hd.
  split; [done |]. eexists (_ :: vs).
  split; [rewrite Hd, <- app_assoc; reflexivity |].
  apply List.Forall2_cons; [| exact Hvs]. split; [reflexivity | exact En].
Qed.

End Unweighted.
End ReplayMore.

Module PassFacts.
Import Replay Retained Weights ReplayMore.

Section Passes.
Context {World DTreeRef : Type}.
Variable commitPath : World -> RPath -> list (Vertex DTreeRef) -> World.

Lemma pass_passed Rv L bound world paths :
  loopOk Rv L ->
  passed Rv bound paths
    (pathLoop World (replayPath World DTreeRef commitPath L) bound world paths).2.
Proof.
  intros HL. apply pathLoop_passed. intros w p Ha. by apply replayPath_replayed.
Qed.

Lemma tracer_passed Rv L bound (t : GuidedPathTracer World) :
  loopOk Rv L ->
  let t' :=
    (let '(world, paths) :=
       pathLoop World (replayPath World DTreeRef commitPath L) bound
         (m_world _ t) (m_samplePaths _ t) in
     mkTracer World world paths (m_augmentedStartPos _ t)) in
  m_augmentedStartPos _ t' = m_augmentedStartPos _ t /\
  passed Rv bound (m_samplePaths _ t) (m_samplePaths _ t').
Proof.
  intros HL. pose proof (pass_passed Rv L bound (m_world _ t) (m_samplePaths _ t) HL) as H.
  destruct (pathLoop _ _ _ _ _) as [world paths]. simpl in *. done.
Qed.

End Passes.
End PassFacts.

(** X19.  The five replay passes keep [m_augmentedStartPos] and the
    length of the path buffer, leave every inactive path and every path
    beyond their bound as it is, and turn each active path below the bound
    into a cleared inactive path or into an active path with the same
    records and as many vertices, of which only [woPdf] and [sc] may
    differ.  The bound is the size of the buffer for [reweightCurrentPaths],
    [rejectReweightHybrid] and [reweightAugmentHybrid], and
    [m_augmentedStartPos] for [rejectAugmentHybrid] and
    [performAugmentedSamples]. *)
Theorem replay_passes_rewrite_only {World DTreeRef : Type}
    (computePdf : World -> RVertex -> Float * DTreeRef * Point3 * Float)
    (getAugmentedMultiplier : World -> DTreeRef -> Float)
    (next1D : World -> Float * World) (m_rrDepth : Z)
    (commitPath : World -> RPath -> list (Replay.Vertex DTreeRef) -> World)
    (t : Replay.GuidedPathTracer World) :
  let size := length (Replay.m_samplePaths _ t) in
  let start := Replay.m_augmentedStartPos _ t in
  let kept (bound : nat) (t' : Replay.GuidedPathTracer World) :=
    Replay.m_augmentedStartPos _ t' = start /\
    Retained.passed Retained.rewritten bound (Replay.m_samplePaths _ t)
      (Replay.m_samplePaths _ t') in
  kept size (Replay.reweightCurrentPaths World DTreeRef computePdf m_rrDepth commitPath t) /\
  kept size (Replay.rejectReweightHybrid World DTreeRef computePdf next1D m_rrDepth
               commitPath t) /\
  kept size (Replay.reweightAugmentHybrid World DTreeRef computePdf getAugmentedMultiplier
               m_rrDepth commitPath t) /\
  kept start (Replay.rejectAugmentHybrid World DTreeRef computePdf getAugmentedMultiplier
                next1D m_rrDepth commitPath t) /\
  kept start (Replay.performAugmentedSamples World DTreeRef computePdf
                getAugmentedMultiplier m_rrDepth commitPath t).
Proof.
  cbv zeta.
  split; [apply PassFacts.tracer_passed, ReplayMore.reweightVertices_ok |].
  split; [apply PassFacts.tracer_passed, ReplayMore.rejectReweightVertices_ok |].
  split; [apply PassFacts.tracer_passed, ReplayMore.reweightAugmentVertices_ok |].
  split; [apply PassFacts.tracer_passed, ReplayMore.rejectAugmentVertices_ok |].
  apply PassFacts.tracer_passed, ReplayMore.performAugmentedVertices_ok.
Qed.

(** X20.  When [getAugmentedMultiplier()] lies between 0 and 1, the
    replay passes treat the weight [sc] of the vertices of a path they keep
    as follows.  [reweightCurrentPaths] multiplies it by the ratio of the
    new pdf to the old one.  [rejectReweightHybrid] does not lower a weight
    that is not negative.  [reweightAugmentHybrid], [rejectAugmentHybrid]
    and [performAugmentedSamples] take a weight that is not negative, at a
    positive old pdf, to a weight between 0 and the old one.  After
    [reweightCurrentPaths], [reweightAugmentHybrid] and
    [performAugmentedSamples] the new pdf of every kept vertex is at least
    [EPSILON]. *)
Theorem replay_passes_move_weights {World DTreeRef : Type}
    (computePdf : World -> RVertex -> Float * DTreeRef * Point3 * Float)
    (getAugmentedMultiplier : World -> DTreeRef -> Float)
    (next1D : World -> Float * World) (m_rrDepth : Z)
    (commitPath : World -> RPath -> list (Replay.Vertex DTreeRef) -> World)
    (t : Replay.GuidedPathTracer World) :
  Weights.unitMultiplier getAugmentedMultiplier ->
  let size := length (Replay.m_samplePaths _ t) in
  let start := Replay.m_augmentedStartPos _ t in
  let moved (Rv : RVertex -> RVertex -> Prop) (bound : nat)
      (t' : Replay.GuidedPathTracer World) :=
    Retained.passed Rv bound (Replay.m_samplePaths _ t) (Replay.m_samplePaths _ t') in
  moved (fun v v' => Weights.rescaled v v' /\ Weights.supported v v') size
    (Replay.reweightCurrentPaths World DTreeRef computePdf m_rrDepth commitPath t) /\
  moved Weights.raisedWeight size
    (Replay.rejectReweightHybrid World DTreeRef computePdf next1D m_rrDepth commitPath t) /\
  moved (fun v v' => Weights.lowered v v' /\ Weights.supported v v') size
    (Replay.reweightAugmentHybrid World DTreeRef computePdf getAugmentedMultiplier
       m_rrDepth commitPath t) /\
  moved Weights.lowered start
    (Replay.rejectAugmentHybrid World DTreeRef computePdf getAugmentedMultiplier
       next1D m_rrDepth commitPath t) /\
  moved (fun v v' => Weights.lowered v v' /\ Weights.supported v v') start
    (Replay.performAugmentedSamples World DTreeRef computePdf
       getAugmentedMultiplier m_rrDepth commitPath t).
Proof.
  intros Hm. cbv zeta.
  split; [apply PassFacts.tracer_passed, ReplayMore.reweightVertices_rescales |].
  split; [apply PassFacts.tracer_passed, ReplayMore.rejectReweightVertices_raises |].
  split; [by apply PassFacts.tracer_passed, ReplayMore.reweightAugmentVertices_lowers |].
  split; [by apply PassFacts.tracer_passed, ReplayMore.rejectAugmentVertices_lowers |].
  by apply PassFacts.tracer_passed, ReplayMore.performAugmentedVertices_lowers.
Qed.

Lemma replay_passes_move_weights_witness :
  let computePdf := fun (_ : unit) (_ : RVertex) => (1%Q, tt, (1%Q, 1%Q, 1%Q), 1%Q) in
  let getAugmentedMultiplier := fun (_ : unit) (_ : unit) => (1 # 2)%Q in
  let next1D := fun w : unit => (0%Q, w) in
  let commitPath := fun (w : unit) (_ : RPath) (_ : list (Replay.Vertex unit)) => w in
  let t := Examples.tracer2 in
  let size := length (Replay.m_samplePaths _ t) in
  let start := Replay.m_augmentedStartPos _ t in
  let moved (Rv : RVertex -> RVertex -> Prop) (bound : nat)
      (t' : Replay.GuidedPathTracer unit) :=
    Retained.passed Rv bound (Replay.m_samplePaths _ t) (Replay.m_samplePaths _ t') in
  Weights.unitMultiplier getAugmentedMultiplier /\
  moved (fun v v' => Weights.rescaled v v' /\ Weights.supported v v') size
    (Replay.reweightCurrentPaths unit unit computePdf 5 commitPath t) /\
  moved Weights.raisedWeight size
    (Replay.rejectReweightHybrid unit unit computePdf next1D 5 commitPath t) /\
  moved (fun v v' => Weights.lowered v v' /\ Weights.supported v v') size
    (Replay.reweightAugmentHybrid unit unit computePdf getAugmentedMultiplier
       5 commitPath t) /\
  moved Weights.lowered start
    (Replay.rejectAugmentHybrid unit unit computePdf getAugmentedMultiplier
       next1D 5 commitPath t) /\
  moved (fun v v' => Weights.lowered v v' /\ Weights.supported v v') start
    (Replay.performAugmentedSamples unit unit computePdf
       getAugmentedMultiplier 5 commitPath t).
Proof.
  assert (H : Weights.unitMultiplier (fun (_ : unit) (_ : unit) => (1 # 2)%Q))
    by (intros world dTree; split; discriminate).
  cbv zeta. split; [exact H |].
  apply (replay_passes_move_weights
           (fun (_ : unit) (_ : RVertex) => (1%Q, tt, (1%Q, 1%Q, 1%Q), 1%Q))
           (fun (_ : unit) (_ : unit) => (1 # 2)%Q)
           (fun w : unit => (0%Q, w)) 5
           (fun (w : unit) (_ : RPath) (_ : list (Replay.Vertex unit)) => w)
           Examples.tracer2 H).
Defined.
